(** * rk: hopscotch hash containers (hop_base.hpp, hop_set.hpp, hop_dict.hpp)

    A shallow embedding of the hopscotch probe engine [HopscotchBase], of the
    key-only container [Set] and of the key/value container [Dict], together
    with the helper [npot32] of numeric.hpp.

    Conventions.
    - [uint32_t] and [size_t] values are integers in [Z]; every operation of
      the source that can wrap is followed by [u32] (or [u64]).
    - A [hop_type] word is an integer in [Z]; stores into the [hops_] array
      are truncated to the word width with [hop_word].
    - The raw buffers [keys_], [hops_], [values_] are lists indexed by [Z].
      Reading or writing outside a buffer is undefined in the source; here a
      read outside yields the default (zeroed) element and a write outside is
      dropped.  The well-formedness invariant keeps every access in range.
    - [insert] and [expand] are mutually recursive without a bound in the
      source.  The embedding bounds the number of nested calls with a fuel
      argument; [None] means the fuel ran out. *)

From Stdlib Require Import ZArith List Bool Lia.
Import ListNotations.
Open Scope Z_scope.

Set Implicit Arguments.

(** ** Machine integers *)

Definition u32 (x : Z) : Z := x mod 2 ^ 32.
Definition u64 (x : Z) : Z := x mod 2 ^ 64.

(** ** numeric.hpp *)

(** [npot32]: "Round a 32-bit value up to the next power of two." *)
Definition npot32 (value : Z) : Z :=
  let value := u32 (value - 1) in
  let value := Z.lor value (Z.shiftr value 1) in
  let value := Z.lor value (Z.shiftr value 2) in
  let value := Z.lor value (Z.shiftr value 4) in
  let value := Z.lor value (Z.shiftr value 8) in
  let value := Z.lor value (Z.shiftr value 16) in
  u32 (value + 1).

(** [npot64]: "Round a 64-bit value up to the next power of two." *)
Definition npot64 (value : Z) : Z :=
  let value := u64 (value - 1) in
  let value := Z.lor value (Z.shiftr value 1) in
  let value := Z.lor value (Z.shiftr value 2) in
  let value := Z.lor value (Z.shiftr value 4) in
  let value := Z.lor value (Z.shiftr value 8) in
  let value := Z.lor value (Z.shiftr value 16) in
  let value := Z.lor value (Z.shiftr value 32) in
  u64 (value + 1).

(** [min], [max] and [clamp], for a type [T] compared with its
    [operator<] and [operator>]. *)
Module Numeric.
Section Compare.
Variable T : Type.
Variable lt : T -> T -> bool.            (* operator< *)
Variable gt : T -> T -> bool.            (* operator> *)

(** "Get the smaller of two values." *)
Definition min (lhs rhs : T) : T := if lt lhs rhs then lhs else rhs.

(** "Get the larger of two values." *)
Definition max (lhs rhs : T) : T := if gt lhs rhs then lhs else rhs.

(** "Clamp a value between an upper and lower bound." *)
Definition clamp (val min max : T) : T :=
  if gt val max then max else if lt val min then min else val.

End Compare.

(** "Translate a value from one scale to another", for [T = uint32_t]: the
    arithmetic wraps around at 32 bits and the division is that of unsigned
    integers; [None] stands for the division by zero, which is undefined. *)
Definition scale (val source_lower source_upper dest_lower dest_upper : Z)
  : option Z :=
  if u32 (source_upper - source_lower) =? 0 then None
  else
    Some (u32 (u32 (u32 (dest_upper - dest_lower) * u32 (val - source_lower))
               / u32 (source_upper - source_lower)
               + dest_lower)).

End Numeric.

(** ** hop_base.hpp: detail::hop_traits *)

(** The three specialisations of [hop_traits]; any other [HopSize] is
    rejected by the [static_assert]. *)
Inductive hop_size : Type := Hop8 | Hop16 | Hop32.

Definition HopSize (hs : hop_size) : Z :=
  match hs with Hop8 => 8 | Hop16 => 16 | Hop32 => 32 end.

(** [sizeof(hop_type)] in bytes. *)
Definition sizeof_hop_type (hs : hop_size) : Z :=
  match hs with Hop8 => 1 | Hop16 => 2 | Hop32 => 4 end.

Definition hop_bucket (hs : hop_size) : Z := HopSize hs - 1.
Definition probe_max (hs : hop_size) : Z := HopSize hs * 16.

(** Conversion of an [int] result to [hop_type]. *)
Definition hop_word (hs : hop_size) (x : Z) : Z := x mod 2 ^ HopSize hs.

(** ** Raw buffers *)

Definition get {A : Type} (d : A) (l : list A) (i : Z) : A :=
  nth (Z.to_nat i) l d.

Fixpoint upd_nat {A : Type} (l : list A) (n : nat) (x : A) : list A :=
  match l, n with
  | [], _ => []
  | _ :: t, O => x :: t
  | h :: t, S n' => h :: upd_nat t n' x
  end.

Definition upd {A : Type} (l : list A) (i : Z) (x : A) : list A :=
  if 0 <=? i then upd_nat l (Z.to_nat i) x else l.

(** [calloc n]: a zero-filled buffer of [n] elements. *)
Definition calloc {A : Type} (zero : A) (n : Z) : list A :=
  repeat zero (Z.to_nat n).

(** [std::copy(src, src + n, dst)] into a freshly zeroed buffer of [n]
    elements. *)
Definition copy_n {A : Type} (zero : A) (n : Z) (src : list A) : list A :=
  map (fun i => get zero src (Z.of_nat i)) (seq 0 (Z.to_nat n)).

Definition Zlen {A : Type} (l : list A) : Z := Z.of_nat (length l).

(** ** hop_base.hpp: HopscotchBase *)

Module HopscotchBase.
Section Base.
Variable Key : Type.
Variable key_eqb : Key -> Key -> bool.   (* operator== of key_type *)
Variable hash : Key -> Z.                (* hash_type()(k), a size_t *)
Variable key0 : Key.                     (* the all-zero key left by calloc *)
Variable hs : hop_size.

(** [get_bucket_index]: [hash_type()(k) & (capacity_ - 1)], computed in
    [size_t] and returned as [size_type]. *)
Definition get_bucket_index (capacity_ : Z) (k : Key) : Z :=
  u32 (Z.land (u64 (hash k)) (u32 (capacity_ - 1))).

(** The loop of [find_internal].  [hops] has at most [HopSize] bits, so the
    loop ends within [HopSize] rounds; [n] counts them. *)
Fixpoint find_loop (n : nat) (keys_ : list Key) (not_found : Z)
         (hops index : Z) (k : Key) : Z :=
  match n with
  | O => not_found
  | S n' =>
      if hops =? 0 then not_found
      else if Z.testbit hops 0 && key_eqb (get key0 keys_ index) k then index
      else find_loop n' keys_ not_found (Z.shiftr hops 1) (u32 (index + 1)) k
  end.

Definition end_index (capacity_ : Z) : Z := u32 (capacity_ + hop_bucket hs).

Definition find_internal (keys_ : list Key) (hops_ : list Z) (capacity_ : Z)
           (index : Z) (k : Key) : Z :=
  let hops := hop_word hs (Z.shiftr (get 0 hops_ index) 1) in
  find_loop (Z.to_nat (HopSize hs)) keys_ (end_index capacity_) hops index k.

Definition find_index (keys_ : list Key) (hops_ : list Z) (capacity_ : Z)
           (key : Key) : Z :=
  find_internal keys_ hops_ capacity_ (get_bucket_index capacity_ key) key.

Definition has (keys_ : list Key) (hops_ : list Z) (capacity_ : Z)
           (key : Key) : bool :=
  let bucket_index := get_bucket_index capacity_ key in
  negb (find_internal keys_ hops_ capacity_ bucket_index key
        =? end_index capacity_).

(** [iterator::next]: skip forward to the next slot whose bit 0 is set. *)
Fixpoint next_loop (n : nat) (hops_ : list Z) (capacity_ index_ : Z) : Z :=
  match n with
  | O => index_
  | S n' =>
      if (index_ <? end_index capacity_)
         && negb (Z.testbit (get 0 hops_ index_) 0)
      then next_loop n' hops_ capacity_ (u32 (index_ + 1))
      else index_
  end.

Definition next (hops_ : list Z) (capacity_ index_ : Z) : Z :=
  next_loop (Z.to_nat (end_index capacity_ - index_)) hops_ capacity_ index_.

(** The linear probe of [insert]:
    [while((idx < probe_end) & (hops_[idx] & 1)) ++idx;].  The [&] is not
    short-circuit, so the source also reads [hops_[probe_end]]; the value
    read is masked by the false left operand. *)
Fixpoint probe_loop (n : nat) (hops_ : list Z) (probe_end idx : Z) : Z :=
  match n with
  | O => idx
  | S n' =>
      if (idx <? probe_end) && Z.testbit (get 0 hops_ idx) 0
      then probe_loop n' hops_ probe_end (u32 (idx + 1))
      else idx
  end.

(** Inner loop of the displacement search:
    [while(cursor <= offset && !(hops_[cursor] & hop_mask))
       { ++cursor; hop_mask >>= 1; }] *)
Fixpoint cursor_loop (n : nat) (hops_ : list Z) (offset cursor hop_mask : Z)
  : Z :=
  match n with
  | O => cursor
  | S n' =>
      if (cursor <=? offset)
         && (Z.land (get 0 hops_ cursor) hop_mask =? 0)
      then cursor_loop n' hops_ offset (u32 (cursor + 1))
                       (Z.shiftr hop_mask 1)
      else cursor
  end.

(** The [do { ... } while(offset < idx && cursor > offset)] loop.  Returns
    the final [(cursor, offset)]. *)
Fixpoint offset_loop (n : nat) (hops_ : list Z) (look_first idx offset : Z)
  : Z * Z :=
  let offset := u32 (offset + 1) in
  let cursor := look_first in
  let hop_mask := u32 (Z.shiftl 1 (u32 (offset - cursor + 1))) in
  let cursor :=
    cursor_loop (Z.to_nat (offset - cursor + 1)) hops_ offset cursor hop_mask
  in
  match n with
  | O => (cursor, offset)
  | S n' =>
      if (offset <? idx) && (cursor >? offset)
      then offset_loop n' hops_ look_first idx offset
      else (cursor, offset)
  end.

(** One search of the displacement cascade, from the declaration of
    [look_first] to the end of the [do]/[while]. *)
Definition find_displaceable (hops_ : list Z) (idx : Z) : Z * Z :=
  let look_first :=
    if idx <? hop_bucket hs then 0 else u32 (u32 (idx - hop_bucket hs) + 1) in
  let offset := u32 (look_first - 1) in
  offset_loop (Z.to_nat (idx - look_first)) hops_ look_first idx offset.

(** [locate(home, key)] as the specification words it: for each set
    displacement bit [k] in [1..hop_bucket] of the word at [home], compare
    the key stored at [home + k]; return that slot on a match, and
    [capacity + hop_bucket] otherwise. *)
Definition locate_spec (keys_ : list Key) (hops_ : list Z) (capacity_ : Z)
           (home : Z) (key : Key) : Z :=
  match
    find (fun k => Z.testbit (get 0 hops_ home) k
                   && key_eqb (get key0 keys_ (home + k)) key)
         (map Z.of_nat (seq 1 (Z.to_nat (hop_bucket hs))))
  with
  | Some k => home + k
  | None => capacity_ + hop_bucket hs
  end.

(** [x |= 1 << n] and [x ^= 1 << n] on a [hop_type] lvalue. *)
Definition or_bit (x n : Z) : Z := hop_word hs (Z.lor x (Z.shiftl 1 n)).
Definition xor_bit (x n : Z) : Z := hop_word hs (Z.lxor x (Z.shiftl 1 n)).

(** [iterator::previous]:
    [while(index_ > 0 && !(parent_->hops_[index_] & 1)) --index_;] *)
Fixpoint previous_loop (n : nat) (hops_ : list Z) (index_ : Z) : Z :=
  match n with
  | O => index_
  | S n' =>
      if (index_ >? 0) && negb (Z.testbit (get 0 hops_ index_) 0)
      then previous_loop n' hops_ (u32 (index_ - 1))
      else index_
  end.

Definition previous (hops_ : list Z) (index_ : Z) : Z :=
  previous_loop (Z.to_nat index_) hops_ index_.

(** Bitmaps whose words have no bit at or above [HopSize]: what a buffer
    of [hop_type] can hold. *)
Definition narrow (H : list Z) : Prop :=
  forall x y, 0 <= x -> HopSize hs <= y -> Z.testbit (get 0 H x) y = false.

End Base.
End HopscotchBase.

(** ** hop_set.hpp: Set *)

Module HopSet.
Section SetDef.
Variable Key : Type.
Variable key_eqb : Key -> Key -> bool.   (* operator== of key_type *)
Variable hash : Key -> Z.                (* hash_type()(k), a size_t *)
Variable key0 : Key.                     (* the all-zero key left by calloc *)
Variable moved_from : Key -> Key.        (* residue of a moved-from, destroyed key *)
Variable hs : hop_size.

Local Abbreviation hb := (hop_bucket hs).

(** The members of [Set] (those of [HopscotchBase]), and [destroyed_], a
    ghost trace of the slots on which [~key_type()] was invoked. *)
Record t : Type := mk {
  keys_ : list Key;
  hops_ : list Z;
  size_ : Z;
  capacity_ : Z;
  destroyed_ : list Z
}.

Definition size (s : t) : Z := size_ s.
Definition capacity (s : t) : Z := capacity_ s.
Definition empty (s : t) : bool := size_ s =? 0.

Definition end_index (s : t) : Z := HopscotchBase.end_index hs (capacity_ s).

Definition get_bucket_index (s : t) (k : Key) : Z :=
  HopscotchBase.get_bucket_index hash (capacity_ s) k.

Definition find_internal (s : t) (index : Z) (k : Key) : Z :=
  HopscotchBase.find_internal key_eqb key0 hs (keys_ s) (hops_ s)
                              (capacity_ s) index k.

Definition find_index (s : t) (key : Key) : Z :=
  find_internal s (get_bucket_index s key) key.

Definition has (s : t) (key : Key) : bool :=
  negb (find_internal s (get_bucket_index s key) key =? end_index s).

(** [find] returns the iterator [{this, find_internal(...)}]; the iterator
    constructor runs [next()]. *)
Definition find (s : t) (key : Key) : Z :=
  HopscotchBase.next hs (hops_ s) (capacity_ s)
    (find_internal s (get_bucket_index s key) key).

Definition begin_ (s : t) : Z := HopscotchBase.next hs (hops_ s) (capacity_ s) 0.
Definition end_ (s : t) : Z :=
  HopscotchBase.next hs (hops_ s) (capacity_ s) (end_index s).

(** [init_internal(initial_size)] on a base whose members are all null. *)
Definition init_internal (initial_size : Z) : t :=
  let initial_size := npot32 initial_size in
  {| keys_ := calloc key0 (u32 (initial_size + hb));
     hops_ := calloc 0 (u32 (initial_size + hb));
     size_ := 0;
     capacity_ := initial_size;
     destroyed_ := [] |}.

(** [Set(size_type initial_size = HopSize)]. *)
Definition construct (initial_size : Z) : t := init_internal initial_size.
Definition construct_default : t := construct (HopSize hs).

(** The displacement cascade: the [while(idx > bucket_index + hop_bucket - 1)]
    loop of [insert].  The flag is [false] when the loop leaves through the
    [offset >= idx] branch (no candidate: the caller grows the table). *)
Fixpoint displace (n : nat) (s : t) (bucket_index idx : Z) : t * Z * bool :=
  match n with
  | O => (s, idx, true)
  | S n' =>
      if idx >? u32 (u32 (bucket_index + hb) - 1) then
        let '(cursor, offset) :=
          HopscotchBase.find_displaceable hs (hops_ s) idx in
        if offset >=? idx then (s, idx, false)
        else
          let keys1 := upd (keys_ s) idx (get key0 (keys_ s) offset) in
          let keys2 := upd keys1 offset (moved_from (get key0 keys1 offset)) in
          let hops1 :=
            upd (hops_ s) cursor
                (HopscotchBase.or_bit hs (get 0 (hops_ s) cursor)
                                      (u32 (u32 (idx - cursor) + 1))) in
          let hops2 :=
            upd hops1 cursor
                (HopscotchBase.xor_bit hs (get 0 hops1 cursor)
                                       (u32 (u32 (offset - cursor) + 1))) in
          displace n'
            {| keys_ := keys2; hops_ := hops2; size_ := size_ s;
               capacity_ := capacity_ s;
               destroyed_ := destroyed_ s ++ [offset] |}
            bucket_index offset
      else (s, idx, true)
  end.

(** The loop of [expand] over the old buffers; [rec] is [insert]. *)
Fixpoint expand_loop (rec : t -> Key -> option (t * bool))
         (old_keys : list Key) (old_hops : list Z)
         (n : nat) (iter : Z) (s : t) : option t :=
  match n with
  | O => Some s
  | S n' =>
      if Z.testbit (get 0 old_hops iter) 0 then
        match rec s (get key0 old_keys iter) with
        | None => None
        | Some (s', _) =>
            expand_loop rec old_keys old_hops n' (u32 (iter + 1)) s'
        end
      else expand_loop rec old_keys old_hops n' (u32 (iter + 1)) s
  end.

Definition expand_with (rec : t -> Key -> option (t * bool)) (s : t)
  : option t :=
  let old_keys := keys_ s in
  let old_hops := hops_ s in
  let old_cap := capacity_ s in
  let cap := u32 (capacity_ s * 2) in
  let s0 := {| keys_ := calloc key0 (u32 (cap + hb));
               hops_ := calloc 0 (u32 (cap + hb));
               size_ := 0;
               capacity_ := cap;
               destroyed_ := destroyed_ s |} in
  expand_loop rec old_keys old_hops (Z.to_nat (u32 (old_cap + hb))) 0 s0.

Definition set_hops (s : t) (h : list Z) : t :=
  {| keys_ := keys_ s; hops_ := h; size_ := size_ s;
     capacity_ := capacity_ s; destroyed_ := destroyed_ s |}.

(** The body of [insert(key_type &&key)]; [rec] stands for the recursive
    calls [insert(...)], also those made from [expand()]. *)
Definition insert_body (rec : t -> Key -> option (t * bool))
           (s : t) (key : Key) : option (t * bool) :=
  let bucket_index := get_bucket_index s key in
  let ins_pt := find_internal s bucket_index key in
  if negb (ins_pt =? end_index s) then Some (s, false)
  else
    let probe_end := u32 (bucket_index + probe_max hs) in
    let idx := bucket_index in
    let probe_end :=
      if probe_end >? end_index s then end_index s else probe_end in
    let idx :=
      HopscotchBase.probe_loop (Z.to_nat (probe_end - idx)) (hops_ s)
                               probe_end idx in
    if idx =? probe_end then
      match expand_with rec s with
      | None => None
      | Some s' => rec s' key
      end
    else
      let s1 :=
        set_hops s (upd (hops_ s) idx
                        (hop_word hs (Z.lor (get 0 (hops_ s) idx) 1))) in
      match displace (Z.to_nat idx) s1 bucket_index idx with
      | (s2, idx, false) =>
          let s3 :=
            set_hops s2 (upd (hops_ s2) idx
                             (hop_word hs (Z.lxor (get 0 (hops_ s2) idx) 1))) in
          match expand_with rec s3 with
          | None => None
          | Some s' => rec s' key
          end
      | (s2, idx, true) =>
          let keys' := upd (keys_ s2) idx key in
          let hops1 :=
            upd (hops_ s2) idx (hop_word hs (Z.lor (get 0 (hops_ s2) idx) 1)) in
          let hops2 :=
            upd hops1 bucket_index
                (HopscotchBase.or_bit hs (get 0 hops1 bucket_index)
                                      (u32 (u32 (idx - bucket_index) + 1))) in
          Some ({| keys_ := keys'; hops_ := hops2;
                   size_ := u32 (size_ s2 + 1);
                   capacity_ := capacity_ s2;
                   destroyed_ := destroyed_ s2 |}, true)
      end.

(** [insert]: [true] if the element was inserted, [false] if it already
    existed.  [None]: more than [fuel] nested calls. *)
Fixpoint insert (fuel : nat) (s : t) (key : Key) : option (t * bool) :=
  match fuel with
  | O => None
  | S fuel' => insert_body (insert fuel') s key
  end.

Definition expand (fuel : nat) (s : t) : option t :=
  expand_with (insert fuel) s.

(** [remove]. *)
Definition remove (s : t) (key : Key) : t * bool :=
  let bucket_index := get_bucket_index s key in
  let index := find_internal s bucket_index key in
  if negb (index =? end_index s) then
    let hops1 :=
      upd (hops_ s) bucket_index
          (HopscotchBase.xor_bit hs (get 0 (hops_ s) bucket_index)
                                 (u32 (u32 (index - bucket_index) + 1))) in
    let hops2 :=
      upd hops1 index (hop_word hs (Z.lxor (get 0 hops1 index) 1)) in
    ({| keys_ := keys_ s; hops_ := hops2; size_ := u32 (size_ s - 1);
        capacity_ := capacity_ s; destroyed_ := destroyed_ s |}, true)
  else (s, false).

(** *** Clearing, releasing, copying *)

Variable big_endian : bool.              (* byte order of the target *)

(** The effect of [std::memset(hops_, 0, nbytes)] on word [i] of a buffer
    of [hop_type] words, each [w] bytes wide: the word occupies bytes
    [i * w .. i * w + w - 1]; a word cut by the end of the range loses its
    first [nbytes - i * w] bytes in memory order. *)
Definition memset_zero_word (w nbytes i x : Z) : Z :=
  if (i + 1) * w <=? nbytes then 0
  else if nbytes <=? i * w then x
  else
    let r := nbytes - i * w in
    if big_endian then x mod 2 ^ (8 * (w - r))
    else Z.shiftl (Z.shiftr x (8 * r)) (8 * r).

Definition memset_zero (w nbytes : Z) (l : list Z) : list Z :=
  map (fun p => memset_zero_word w nbytes (Z.of_nat (fst p)) (snd p))
      (combine (seq 0 (length l)) l).

(** [clear_internal(std::true_type)]: the third argument of [memset] is
    [capacity_ + traits::hop_bucket]. *)
Definition clear_internal (s : t) : t :=
  {| keys_ := keys_ s;
     hops_ := memset_zero (sizeof_hop_type hs) (u32 (capacity_ s + hb))
                          (hops_ s);
     size_ := 0;
     capacity_ := capacity_ s;
     destroyed_ := destroyed_ s |}.

(** [clear()], for a trivially destructible [key_type] (there is no
    [clear_internal(std::false_type)]). *)
Definition clear (s : t) : t := clear_internal s.

Definition reset_internal_true (s : t) : t :=
  {| keys_ := []; hops_ := []; size_ := 0; capacity_ := 0;
     destroyed_ := destroyed_ s |}.

Definition live_slots (s : t) : list Z :=
  filter (fun i => Z.testbit (get 0 (hops_ s) i) 0)
         (map Z.of_nat (seq 0 (Z.to_nat (u32 (capacity_ s + hb))))).

Definition reset_internal_false (s : t) : t :=
  reset_internal_true
    {| keys_ := keys_ s; hops_ := hops_ s; size_ := size_ s;
       capacity_ := capacity_ s;
       destroyed_ := destroyed_ s ++ live_slots s |}.

(** [reset_internal(typename std::is_trivially_destructible<key_type>::type())]. *)
Definition reset_internal (trivially_destructible : bool) (s : t) : t :=
  if trivially_destructible then reset_internal_true s
  else reset_internal_false s.

(** [clone(other)]. *)
Definition clone (trivially_destructible : bool) (s other : t) : t :=
  let s := reset_internal trivially_destructible s in
  let capacity := capacity_ other in
  {| keys_ := copy_n key0 (u32 (capacity + hb)) (keys_ other);
     hops_ := copy_n 0 (u32 (capacity + hb)) (hops_ other);
     size_ := size_ other;
     capacity_ := capacity;
     destroyed_ := destroyed_ s |}.

(** [Set(const Set &other) : Set() { clone(other); }]. *)
Definition copy (trivially_destructible : bool) (other : t) : t :=
  clone trivially_destructible construct_default other.

(** *** Range-based [for] over a set *)

(** [for(const auto &e : c) body], where [c] is [view a] for the current
    state [a]: the iterator re-reads the bitmap of the traversed container
    at each step, also when the body modifies that container.  The end
    iterator is taken once, before the loop. *)
Fixpoint range_for_loop {A : Type} (n : nat) (view : A -> t)
         (body : Key -> A -> A) (last index : Z) (a : A) : A :=
  match n with
  | O => a
  | S n' =>
      if index =? last then a
      else
        let a' := body (get key0 (keys_ (view a)) index) a in
        let c := view a' in
        range_for_loop n' view body last
          (HopscotchBase.next hs (hops_ c) (capacity_ c) (u32 (index + 1))) a'
  end.

Definition range_for {A : Type} (view : A -> t) (body : Key -> A -> A)
           (a : A) : A :=
  let c := view a in
  range_for_loop (Z.to_nat (end_ c - begin_ c)) view body (end_ c) (begin_ c) a.

(** The same loop with a body that may run out of fuel. *)
Fixpoint range_for_opt_loop {A : Type} (n : nat) (view : A -> t)
         (body : Key -> A -> option A) (last index : Z) (a : A) : option A :=
  match n with
  | O => Some a
  | S n' =>
      if index =? last then Some a
      else
        match body (get key0 (keys_ (view a)) index) a with
        | None => None
        | Some a' =>
            let c := view a' in
            range_for_opt_loop n' view body last
              (HopscotchBase.next hs (hops_ c) (capacity_ c) (u32 (index + 1)))
              a'
        end
  end.

Definition range_for_opt {A : Type} (view : A -> t)
           (body : Key -> A -> option A) (a : A) : option A :=
  let c := view a in
  range_for_opt_loop (Z.to_nat (end_ c - begin_ c)) view body
                     (end_ c) (begin_ c) a.

(** [for(const auto &e : c) if(p(e)) return true;] followed by
    [return false]. *)
Fixpoint range_any_loop (n : nat) (c : t) (p : Key -> bool)
         (last index : Z) : bool :=
  match n with
  | O => false
  | S n' =>
      if index =? last then false
      else if p (get key0 (keys_ c) index) then true
      else range_any_loop n' c p last
             (HopscotchBase.next hs (hops_ c) (capacity_ c) (u32 (index + 1)))
  end.

Definition range_any (c : t) (p : Key -> bool) : bool :=
  range_any_loop (Z.to_nat (end_ c - begin_ c)) c p (end_ c) (begin_ c).

(** *** Set algebra *)

(** [operator&=]. *)
Definition and_assign (s other : t) : t :=
  range_for (fun a => a)
            (fun e a => if negb (has other e) then fst (remove a e) else a) s.

(** [operator&]. *)
Definition op_and (td : bool) (s other : t) : t :=
  let ret := copy td s in
  and_assign ret other.

(** [operator|=]. *)
Definition or_assign (fuel : nat) (s other : t) : option t :=
  range_for_opt (fun _ => other)
                (fun e a => option_map fst (insert fuel a e)) s.

(** [operator|]. *)
Definition op_or (td : bool) (fuel : nat) (s other : t) : option t :=
  if size other >? size s then
    let ret := copy td other in
    or_assign fuel ret s
  else
    let ret := copy td s in
    or_assign fuel ret other.

(** [intersects]. *)
Definition intersects (s other : t) : bool :=
  if size other >? size s then range_any s (fun e => has other e)
  else range_any other (fun e => has s e).

(** [operator-=]. *)
Definition sub_assign (s other : t) : t :=
  range_for (fun _ => other)
            (fun e a => if has a e then fst (remove a e) else a) s.

(** [operator-]. *)
Definition op_sub (td : bool) (s other : t) : t :=
  let ret := copy td s in
  sub_assign ret other.

(** [operator^=]. *)
Definition xor_assign (fuel : nat) (s other : t) : option t :=
  range_for_opt (fun _ => other)
                (fun e a => if has a e then Some (fst (remove a e))
                            else option_map fst (insert fuel a e)) s.

(** [operator^]. *)
Definition op_xor (td : bool) (fuel : nat) (s other : t) : option t :=
  let ret := copy td s in
  xor_assign fuel ret other.

(** *** Serialisation *)

(** The serialiser is a stream of words.  [save_key] and [load_key] are
    the serialiser's overloads for [key_type]; [uint32_t] and [hop_type]
    values are written as they are and read back at their width. *)
Variable save_key : Key -> Z.
Variable load_key : Z -> Key.

(** [save]: the two loops run over the pointer ranges
    [hops_ .. hops_ + capacity_ + hop_bucket] and
    [keys_ .. keys_ + capacity_ + hop_bucket]. *)
Definition save (s : t) : list Z :=
  [size_ s; capacity_ s]
  ++ map (fun i => get 0 (hops_ s) (Z.of_nat i))
         (seq 0 (Z.to_nat (capacity_ s + hb)))
  ++ map (fun i => save_key (get key0 (keys_ s) (Z.of_nat i)))
         (seq 0 (Z.to_nat (capacity_ s + hb))).

(** [n] successive [ser.load(buf[iter])]; [None] when the stream ends
    early. *)
Fixpoint load_n {A : Type} (conv : Z -> A) (n : nat) (ser : list Z)
  : option (list A * list Z) :=
  match n with
  | O => Some ([], ser)
  | S n' =>
      match ser with
      | [] => None
      | x :: ser' =>
          match load_n conv n' ser' with
          | None => None
          | Some (l, rest) => Some (conv x :: l, rest)
          end
      end
  end.

(** [load].  The two loops of the source are written with [++i] for an
    undeclared [i]; they are taken here as [++iter]. *)
Definition load (s : t) (ser : list Z) : option (t * list Z) :=
  match ser with
  | sz :: cap :: ser =>
      let size := u32 sz in
      let capacity := u32 cap in
      match load_n load_key (Z.to_nat (u32 (capacity + hb))) ser with
      | None => None
      | Some (keys, ser) =>
          match load_n (hop_word hs) (Z.to_nat (u32 (capacity + hb))) ser with
          | None => None
          | Some (hops, ser) =>
              Some ({| keys_ := keys; hops_ := hops; size_ := size;
                       capacity_ := capacity;
                       destroyed_ := destroyed_ s |}, ser)
          end
      end
  | _ => None
  end.

(** *** Sequences of operations *)

Inductive op : Type :=
| Insert (k : Key)
| Remove (k : Key).

Fixpoint run (fuel : nat) (s : t) (ops : list op) : option t :=
  match ops with
  | [] => Some s
  | Insert k :: ops' =>
      match insert fuel s k with
      | None => None
      | Some (s', _) => run fuel s' ops'
      end
  | Remove k :: ops' => run fuel (fst (remove s k)) ops'
  end.

(** Whether [k] is expected in the set after [ops], given that it was
    there before or not ([before]): decided by the last operation on [k]. *)
Fixpoint expected (before : bool) (ops : list op) (k : Key) : bool :=
  match ops with
  | [] => before
  | Insert k' :: ops' =>
      expected (if key_eqb k' k then true else before) ops' k
  | Remove k' :: ops' =>
      expected (if key_eqb k' k then false else before) ops' k
  end.

(** *** Well-formed tables *)

Definition forall_range (n : Z) (p : Z -> bool) : bool :=
  forallb (fun i => p (Z.of_nat i)) (seq 0 (Z.to_nat n)).

(** Number of slots whose occupancy bit (bit 0) is set. *)
Fixpoint live_count (hops : list Z) : Z :=
  match hops with
  | [] => 0
  | x :: hops' => Z.b2z (Z.testbit x 0) + live_count hops'
  end.

Definition live (s : t) (i : Z) : bool := Z.testbit (get 0 (hops_ s) i) 0.
Definition key_at (s : t) (i : Z) : Key := get key0 (keys_ s) i.
(** Displacement bit [j] of the bitmap rooted at [h]. *)
Definition hop_bit (s : t) (h j : Z) : bool := Z.testbit (get 0 (hops_ s) h) j.

Definition cap_ok (c : Z) : bool :=
  (1 <=? c) && (c <=? 2 ^ 31) && (c =? 2 ^ Z.log2 c).

(** The executable invariant of a table between two operations:
    - the capacity is a power of two, at most [2^31];
    - both buffers have [capacity_ + hop_bucket] slots and every bitmap
      word fits [hop_type];
    - displacement bit [j] at [h] points at a live slot [h + j - 1] whose
      key has home bucket [h];
    - every live key is found by [find_index], at its own slot;
    - [size_] counts the live slots. *)
Definition wf (s : t) : bool :=
  let n := capacity_ s + hb in
  cap_ok (capacity_ s)
  && (Zlen (keys_ s) =? n) && (Zlen (hops_ s) =? n)
  && forall_range n (fun i =>
       (0 <=? get 0 (hops_ s) i) && (get 0 (hops_ s) i <? 2 ^ HopSize hs))
  && forall_range n (fun h => forall_range hb (fun j0 =>
       let j := j0 + 1 in
       implb (hop_bit s h j)
             ((h + j - 1 <? n) && live s (h + j - 1)
              && (get_bucket_index s (key_at s (h + j - 1)) =? h))))
  && forall_range n (fun i =>
       implb (live s i) (find_index s (key_at s i) =? i))
  && (size_ s =? live_count (hops_ s)).

(** The invariant as a proposition, with an optional reserved slot
    [hole]: a slot whose occupancy bit is already set by [insert] but
    which holds no element yet. *)
Record WF (hole : option Z) (s : t) : Prop := {
  wf_cap : exists j, 0 <= j <= 31 /\ capacity_ s = 2 ^ j;
  wf_keys_len : Zlen (keys_ s) = capacity_ s + hb;
  wf_hops_len : Zlen (hops_ s) = capacity_ s + hb;
  wf_range : forall i, 0 <= i < capacity_ s + hb ->
    0 <= get 0 (hops_ s) i < 2 ^ HopSize hs;
  wf_owner : forall h j, 0 <= h < capacity_ s + hb -> 1 <= j <= hb ->
    hop_bit s h j = true ->
    h + j - 1 < capacity_ s + hb /\ live s (h + j - 1) = true
    /\ get_bucket_index s (key_at s (h + j - 1)) = h
    /\ hole <> Some (h + j - 1);
  wf_home : forall i, 0 <= i < capacity_ s + hb -> live s i = true ->
    hole <> Some i ->
    get_bucket_index s (key_at s i) <= i
    /\ i - get_bucket_index s (key_at s i) + 1 <= hb
    /\ hop_bit s (get_bucket_index s (key_at s i))
               (i - get_bucket_index s (key_at s i) + 1) = true;
  wf_uniq : forall i j, 0 <= i < capacity_ s + hb ->
    0 <= j < capacity_ s + hb ->
    live s i = true -> live s j = true ->
    hole <> Some i -> hole <> Some j ->
    key_at s i = key_at s j -> i = j;
  wf_size : size_ s = live_count (hops_ s)
                      - (match hole with Some _ => 1 | None => 0 end);
  wf_hole : forall x, hole = Some x ->
    0 <= x < capacity_ s + hb /\ live s x = true
}.

(** The keys of the live slots, in slot order: what a range-based [for]
    over the set visits. *)
Definition elements (s : t) : list Key := map (key_at s) (live_slots s).

(** Left-to-right iteration of a step that may fail. *)
Fixpoint fold_opt {A B : Type} (f : B -> A -> option A) (l : list B) (a : A)
  : option A :=
  match l with
  | [] => Some a
  | e :: l' =>
      match f e a with
      | None => None
      | Some a' => fold_opt f l' a'
      end
  end.

(** [k] is stored in a live slot other than the reserved one. *)
Definition mem (hole : option Z) (s : t) (k : Key) : Prop :=
  exists i, 0 <= i < capacity_ s + hb /\ live s i = true
            /\ hole <> Some i /\ key_at s i = k.

(** [c'] is [c] doubled some number of times by [capacity_ *= 2]. *)
Definition cap_rel (c c' : Z) : Prop :=
  exists j : nat, c' = Nat.iter j (fun x => u32 (x * 2)) c.

(** The capacity after a call is the capacity before, doubled some number
    of times. *)
Definition cap_grows (rec : t -> Key -> option (t * bool)) : Prop :=
  forall s k s' b, rec s k = Some (s', b) ->
    cap_rel (capacity_ s) (capacity_ s').

(** What the recursive calls of [insert] are assumed to do while
    [insert_body] is verified: the capacity only doubles, and on a
    well-formed table whose capacity did not wrap to 0 the key is added,
    nothing else changes, and the flag tells whether it was new. *)
Definition insert_ok (rec : t -> Key -> option (t * bool)) : Prop :=
  forall s k s' b, rec s k = Some (s', b) ->
    cap_rel (capacity_ s) (capacity_ s')
    /\ (WF None s -> capacity_ s' <> 0 ->
        WF None s'
        /\ (forall k', mem None s' k' <-> mem None s k' \/ k' = k)
        /\ b = negb (has s k)).

(** *** Iterators *)

(** [iterator::operator++]: [++index_; next();]. *)
Definition iter_incr (s : t) (index_ : Z) : Z :=
  HopscotchBase.next hs (hops_ s) (capacity_ s) (u32 (index_ + 1)).

(** [iterator::operator--]: [if(index_ > 0) { --index_; } next();]. *)
Definition iter_decr (s : t) (index_ : Z) : Z :=
  HopscotchBase.next hs (hops_ s) (capacity_ s)
    (if index_ >? 0 then u32 (index_ - 1) else index_).

(** [iterator::operator*]. *)
Definition deref (s : t) (index_ : Z) : Key := get key0 (keys_ s) index_.

(** The keys that [for(const auto &e : s)] visits, in the order of the
    visits. *)
Definition to_list (s : t) : list Key :=
  range_for (fun _ : list Key => s) (fun e acc => acc ++ [e]) [].

(** [~Set()]. *)
Definition destroy (trivially_destructible : bool) (s : t) : t :=
  reset_internal trivially_destructible s.

(** Number of elements of [l] that satisfy [p]. *)
Definition count (p : Key -> bool) (l : list Key) : Z :=
  Z.of_nat (length (filter p l)).

End SetDef.

Arguments Insert {Key} k.
Arguments Remove {Key} k.

End HopSet.

(** ** hop_dict.hpp: Dict *)

Module Dict.
Section DictDef.
Variable Key : Type.
Variable Value : Type.
Variable key_eqb : Key -> Key -> bool.   (* operator== of key_type *)
Variable hash : Key -> Z.                (* hash_type()(k), a size_t *)
Variable key0 : Key.                     (* the all-zero key left by calloc *)
Variable value0 : Value.                 (* the all-zero value left by calloc *)
Variable moved_from : Key -> Key.        (* residue of a moved-from, destroyed key *)
Variable moved_from_value : Value -> Value.
Variable hs : hop_size.

Local Abbreviation hb := (hop_bucket hs).

(** The members of [Dict], and [destroyed_], a ghost trace of the slots on
    which [~key_type()] and [~value_type()] were invoked. *)
Record t : Type := mk {
  keys_ : list Key;
  values_ : list Value;
  hops_ : list Z;
  size_ : Z;
  capacity_ : Z;
  destroyed_ : list Z
}.

Definition size (d : t) : Z := size_ d.
Definition capacity (d : t) : Z := capacity_ d.

Definition end_index (d : t) : Z := HopscotchBase.end_index hs (capacity_ d).

Definition get_bucket_index (d : t) (k : Key) : Z :=
  HopscotchBase.get_bucket_index hash (capacity_ d) k.

Definition find_internal (d : t) (index : Z) (k : Key) : Z :=
  HopscotchBase.find_internal key_eqb key0 hs (keys_ d) (hops_ d)
                              (capacity_ d) index k.

Definition find_index (d : t) (key : Key) : Z :=
  find_internal d (get_bucket_index d key) key.

Definition has (d : t) (key : Key) : bool :=
  negb (find_internal d (get_bucket_index d key) key =? end_index d).

(** [iterator_base(parent, index)]: the base constructor runs [next()] and
    the body runs it once more. *)
Definition make_iterator (d : t) (index : Z) : Z :=
  HopscotchBase.next hs (hops_ d) (capacity_ d)
    (HopscotchBase.next hs (hops_ d) (capacity_ d) index).

Definition find (d : t) (key : Key) : Z :=
  make_iterator d (find_internal d (get_bucket_index d key) key).

Definition end_ (d : t) : Z := make_iterator d (end_index d).

(** [get(key, default_value)]. *)
Definition get_ (d : t) (key : Key) (default_value : Value) : Value :=
  let iter := find_index d key in
  if negb (iter =? end_index d) then get value0 (values_ d) iter
  else default_value.

Definition init_internal (initial_size : Z) : t :=
  let initial_size := npot32 initial_size in
  {| keys_ := calloc key0 (u32 (initial_size + hb));
     values_ := calloc value0 (u32 (initial_size + hb));
     hops_ := calloc 0 (u32 (initial_size + hb));
     size_ := 0;
     capacity_ := initial_size;
     destroyed_ := [] |}.

(** [Dict(size_type initial_size = HopSize)]. *)
Definition construct (initial_size : Z) : t := init_internal initial_size.
Definition construct_default : t := construct (HopSize hs).

Fixpoint displace (n : nat) (d : t) (bucket_index idx : Z) : t * Z * bool :=
  match n with
  | O => (d, idx, true)
  | S n' =>
      if idx >? u32 (u32 (bucket_index + hb) - 1) then
        let '(cursor, offset) :=
          HopscotchBase.find_displaceable hs (hops_ d) idx in
        if offset >=? idx then (d, idx, false)
        else
          let keys1 := upd (keys_ d) idx (get key0 (keys_ d) offset) in
          let values1 :=
            upd (values_ d) idx (get value0 (values_ d) offset) in
          let keys2 := upd keys1 offset (moved_from (get key0 keys1 offset)) in
          let values2 :=
            upd values1 offset
                (moved_from_value (get value0 values1 offset)) in
          let hops1 :=
            upd (hops_ d) cursor
                (HopscotchBase.or_bit hs (get 0 (hops_ d) cursor)
                                      (u32 (u32 (idx - cursor) + 1))) in
          let hops2 :=
            upd hops1 cursor
                (HopscotchBase.xor_bit hs (get 0 hops1 cursor)
                                       (u32 (u32 (offset - cursor) + 1))) in
          displace n'
            {| keys_ := keys2; values_ := values2; hops_ := hops2;
               size_ := size_ d; capacity_ := capacity_ d;
               destroyed_ := destroyed_ d ++ [offset] |}
            bucket_index offset
      else (d, idx, true)
  end.

Fixpoint expand_loop (rec : t -> Key -> Value -> option (t * Z))
         (old_keys : list Key) (old_values : list Value) (old_hops : list Z)
         (n : nat) (iter : Z) (d : t) : option t :=
  match n with
  | O => Some d
  | S n' =>
      if Z.testbit (get 0 old_hops iter) 0 then
        match rec d (get key0 old_keys iter) (get value0 old_values iter) with
        | None => None
        | Some (d', _) =>
            expand_loop rec old_keys old_values old_hops n' (u32 (iter + 1)) d'
        end
      else expand_loop rec old_keys old_values old_hops n' (u32 (iter + 1)) d
  end.

Definition expand_with (rec : t -> Key -> Value -> option (t * Z)) (d : t)
  : option t :=
  let old_keys := keys_ d in
  let old_values := values_ d in
  let old_hops := hops_ d in
  let old_cap := capacity_ d in
  let cap := u32 (capacity_ d * 2) in
  let d0 := {| keys_ := calloc key0 (u32 (cap + hb));
               values_ := calloc value0 (u32 (cap + hb));
               hops_ := calloc 0 (u32 (cap + hb));
               size_ := 0;
               capacity_ := cap;
               destroyed_ := destroyed_ d |} in
  expand_loop rec old_keys old_values old_hops
              (Z.to_nat (u32 (old_cap + hb))) 0 d0.

Definition set_hops (d : t) (h : list Z) : t :=
  {| keys_ := keys_ d; values_ := values_ d; hops_ := h; size_ := size_ d;
     capacity_ := capacity_ d; destroyed_ := destroyed_ d |}.

(** The body of [insert(key_type &&key, value_type &&value)]; the result
    carries the index of the returned iterator. *)
Definition insert_body (rec : t -> Key -> Value -> option (t * Z))
           (d : t) (key : Key) (value : Value) : option (t * Z) :=
  let bucket_index := get_bucket_index d key in
  let ins_pt := find_internal d bucket_index key in
  if negb (ins_pt =? end_index d) then Some (d, make_iterator d ins_pt)
  else
    let probe_end := u32 (bucket_index + probe_max hs) in
    let idx := bucket_index in
    let probe_end :=
      if probe_end >? end_index d then end_index d else probe_end in
    let idx :=
      HopscotchBase.probe_loop (Z.to_nat (probe_end - idx)) (hops_ d)
                               probe_end idx in
    if idx =? probe_end then
      match expand_with rec d with
      | None => None
      | Some d' => rec d' key value
      end
    else
      let d1 :=
        set_hops d (upd (hops_ d) idx
                        (hop_word hs (Z.lor (get 0 (hops_ d) idx) 1))) in
      match displace (Z.to_nat idx) d1 bucket_index idx with
      | (d2, idx, false) =>
          let d3 :=
            set_hops d2 (upd (hops_ d2) idx
                             (hop_word hs (Z.lxor (get 0 (hops_ d2) idx) 1))) in
          match expand_with rec d3 with
          | None => None
          | Some d' => rec d' key value
          end
      | (d2, idx, true) =>
          let keys' := upd (keys_ d2) idx key in
          let values' := upd (values_ d2) idx value in
          let hops1 :=
            upd (hops_ d2) idx (hop_word hs (Z.lor (get 0 (hops_ d2) idx) 1)) in
          let hops2 :=
            upd hops1 bucket_index
                (HopscotchBase.or_bit hs (get 0 hops1 bucket_index)
                                      (u32 (u32 (idx - bucket_index) + 1))) in
          let d' := {| keys_ := keys'; values_ := values'; hops_ := hops2;
                       size_ := u32 (size_ d2 + 1);
                       capacity_ := capacity_ d2;
                       destroyed_ := destroyed_ d2 |} in
          Some (d', make_iterator d' idx)
      end.

Fixpoint insert (fuel : nat) (d : t) (key : Key) (value : Value)
  : option (t * Z) :=
  match fuel with
  | O => None
  | S fuel' => insert_body (insert fuel') d key value
  end.

(** [erase]. *)
Definition erase (d : t) (key : Key) : t * bool :=
  let bucket_index := get_bucket_index d key in
  let index := find_internal d bucket_index key in
  if negb (index =? end_index d) then
    let hops1 :=
      upd (hops_ d) bucket_index
          (HopscotchBase.xor_bit hs (get 0 (hops_ d) bucket_index)
                                 (u32 (u32 (index - bucket_index) + 1))) in
    let hops2 :=
      upd hops1 index (hop_word hs (Z.lxor (get 0 hops1 index) 1)) in
    ({| keys_ := keys_ d; values_ := values_ d; hops_ := hops2;
        size_ := u32 (size_ d - 1); capacity_ := capacity_ d;
        destroyed_ := destroyed_ d |}, true)
  else (d, false).

(** Forgetting the values: the [Set] with the same keys and bitmaps. *)
Definition key_part (d : t) : HopSet.t Key :=
  {| HopSet.keys_ := keys_ d; HopSet.hops_ := hops_ d;
     HopSet.size_ := size_ d; HopSet.capacity_ := capacity_ d;
     HopSet.destroyed_ := destroyed_ d |}.

(** *** Sequences of operations *)

Inductive op : Type :=
| Insert (k : Key) (v : Value)
| Erase (k : Key).

Fixpoint run (fuel : nat) (d : t) (ops : list op) : option t :=
  match ops with
  | [] => Some d
  | Insert k v :: ops' =>
      match insert fuel d k v with
      | None => None
      | Some (d', _) => run fuel d' ops'
      end
  | Erase k :: ops' => run fuel (fst (erase d k)) ops'
  end.

(** The operation on the keys alone. *)
Definition key_op (o : op) : HopSet.op Key :=
  match o with
  | Insert k _ => HopSet.Insert k
  | Erase k => HopSet.Remove k
  end.

(** The executable invariant of a [Dict]: that of its keys and bitmaps. *)
Definition wf (d : t) : bool := HopSet.wf key_eqb hash key0 hs (key_part d).

(** *** Lookups and iteration *)

Variable value_init : Value.             (* value_type() *)

(** [operator[](const key_type &key)]: the table after the call and the slot
    of the returned reference. *)
Definition index_op (fuel : nat) (d : t) (key : Key) : option (t * Z) :=
  let iter := find_index d key in
  if negb (iter =? end_index d) then Some (d, iter)
  else insert fuel d key value_init.

(** [begin()], [iterator::operator++] and [iterator::operator*]. *)
Definition begin_ (d : t) : Z := make_iterator d 0.

Definition iter_incr (d : t) (index_ : Z) : Z :=
  HopscotchBase.next hs (hops_ d) (capacity_ d) (u32 (index_ + 1)).

Definition deref (d : t) (index_ : Z) : Key * Value :=
  (get key0 (keys_ d) index_, get value0 (values_ d) index_).

(** The pairs that [for(auto kv : d)] visits, in the order of the visits. *)
Fixpoint range_loop (n : nat) (d : t) (last index : Z) : list (Key * Value) :=
  match n with
  | O => []
  | S n' =>
      if index =? last then []
      else deref d index :: range_loop n' d last (iter_incr d index)
  end.

Definition to_list (d : t) : list (Key * Value) :=
  range_loop (Z.to_nat (end_ d - begin_ d)) d (end_ d) (begin_ d).

(** What [get] finds, without a default. *)
Definition lookup (d : t) (key : Key) : option Value :=
  let iter := find_index d key in
  if negb (iter =? end_index d) then Some (get value0 (values_ d) iter)
  else None.

(** The value expected with [k] after [ops], given what was stored with it
    before: [insert] does not overwrite, [erase] forgets. *)
Fixpoint expected_value (before : option Value) (ops : list op) (k : Key)
  : option Value :=
  match ops with
  | [] => before
  | Insert k' v :: ops' =>
      expected_value
        (if key_eqb k' k
         then match before with Some _ => before | None => Some v end
         else before) ops' k
  | Erase k' :: ops' =>
      expected_value (if key_eqb k' k then None else before) ops' k
  end.

(** The executable invariant of a [Dict] with its values buffer, which has
    one slot for each key slot. *)
Definition wf_values (d : t) : bool :=
  wf d && (Zlen (values_ d) =? capacity_ d + hb).

(** The value stored with each live key, the reserved slot [hole] apart, is
    [f] of that key. *)
Definition agrees (f : Key -> Value) (hole : option Z) (d : t) : Prop :=
  Zlen (values_ d) = capacity_ d + hb
  /\ forall i, 0 <= i < capacity_ d + hb ->
       Z.testbit (get 0 (hops_ d) i) 0 = true -> hole <> Some i ->
       get value0 (values_ d) i = f (get key0 (keys_ d) i).

(** What the recursive calls of [insert] are assumed to do to the values
    while [insert_body] is verified. *)
Definition insert_agrees (f : Key -> Value)
           (rec : t -> Key -> Value -> option (t * Z)) : Prop :=
  forall d k v d' pos, rec d k v = Some (d', pos) ->
    HopSet.WF hash key0 hs None (key_part d) -> capacity_ d' <> 0 ->
    agrees f None d -> (has d k = false -> v = f k) ->
    agrees f None d' /\ pos = find_index d' k.

End DictDef.

Arguments Insert {Key Value} k v.
Arguments Erase {Key Value} k.

End Dict.

(** ** Concrete tables

    Tables of 32-bit keys (the keys [i * 2^32] at the end are 64-bit keys)
    hashed by a functor that returns its argument, used to evaluate the
    operations on explicit inputs. *)

Module Examples.

Definition hash_id (k : Z) : Z := k.
Definition moved (k : Z) : Z := k.

Definition keys_1_20 : list Z := map Z.of_nat (seq 1 20).

(** [Set<uint32_t, 8> s(8)], then twenty inserts and a few removes. *)
Definition set0 : HopSet.t Z := HopSet.construct 0 Hop8 8.

Definition set_ops : list (HopSet.op Z) :=
  map (@HopSet.Insert Z) keys_1_20
  ++ [HopSet.Remove 9; HopSet.Insert 3; HopSet.Remove 4; HopSet.Insert 40].

Definition set1 : HopSet.t Z :=
  Eval vm_compute in
    match HopSet.run Z.eqb hash_id 0 moved Hop8 4 set0 set_ops with
    | Some s => s
    | None => set0
    end.

(** [Dict<uint32_t, uint32_t, 8> d(8)] with the same keys. *)
Definition dict0 : Dict.t Z Z := Dict.construct 0 0 Hop8 8.

Definition dict_ops : list (Dict.op Z Z) :=
  map (fun k => Dict.Insert k (100 + k)) keys_1_20
  ++ [Dict.Erase 9; Dict.Insert 3 7; Dict.Erase 4; Dict.Insert 40 41].

Definition dict1 : Dict.t Z Z :=
  Eval vm_compute in
    match Dict.run Z.eqb hash_id 0 0 moved moved Hop8 4 dict0 dict_ops with
    | Some d => d
    | None => dict0
    end.

(** A set holding 1..8 in a table of capacity 8: inserting 9 displaces an
    element. *)
Definition set_1_8 : HopSet.t Z :=
  Eval vm_compute in
    match HopSet.run Z.eqb hash_id 0 moved Hop8 1 set0
            (map (@HopSet.Insert Z) (map Z.of_nat (seq 1 8))) with
    | Some s => s
    | None => set0
    end.

Definition set_1_9 : HopSet.t Z :=
  Eval vm_compute in
    match HopSet.insert Z.eqb hash_id 0 moved Hop8 1 set_1_8 9 with
    | Some (s, _) => s
    | None => set0
    end.

Definition set_of (l : list Z) : HopSet.t Z :=
  match HopSet.run Z.eqb hash_id 0 moved Hop8 2 set0
          (map (@HopSet.Insert Z) l) with
  | Some s => s
  | None => set0
  end.

Definition set_123 : HopSet.t Z := Eval vm_compute in set_of [1; 2; 3].
Definition set_345 : HopSet.t Z := Eval vm_compute in set_of [3; 4; 5].

Definition unwrap (o : option (HopSet.t Z)) : HopSet.t Z :=
  match o with Some s => s | None => set0 end.

Definition set_or : HopSet.t Z :=
  Eval vm_compute in
    unwrap (HopSet.op_or Z.eqb hash_id 0 moved Hop8 true 2 set_123 set_345).
Definition set_xor : HopSet.t Z :=
  Eval vm_compute in
    unwrap (HopSet.op_xor Z.eqb hash_id 0 moved Hop8 true 2 set_123 set_345).
Definition set_diffs : HopSet.t Z :=
  Eval vm_compute in
    unwrap (HopSet.op_or Z.eqb hash_id 0 moved Hop8 true 2
              (HopSet.op_sub Z.eqb hash_id 0 Hop8 true set_123 set_345)
              (HopSet.op_sub Z.eqb hash_id 0 Hop8 true set_345 set_123)).

(** A dict and a set that hold the key 9. *)
Definition dict_9 : Dict.t Z Z :=
  Eval vm_compute in
    match Dict.insert Z.eqb hash_id 0 0 moved moved Hop8 1 dict0 9 109 with
    | Some (d, _) => d
    | None => dict0
    end.

(** The default [Set<uint32_t>] (HopSize 32) holding the key 20. *)
Definition set32_20 : HopSet.t Z :=
  Eval vm_compute in
    match HopSet.insert Z.eqb hash_id 0 moved Hop32 1
            (HopSet.construct_default 0 Hop32) 20 with
    | Some (s, _) => s
    | None => HopSet.construct_default 0 Hop32
    end.

(** [Set<uint32_t, 8>] holding the key 1, and a serialiser that writes a
    key as its value. *)
Definition set8_1 : HopSet.t Z :=
  Eval vm_compute in
    match HopSet.insert Z.eqb hash_id 0 moved Hop8 1 set0 1 with
    | Some (s, _) => s
    | None => set0
    end.

(** Seven keys of home bucket 0 fill its neighbourhood; the eighth makes the
    table grow. *)
Definition set_mult8 : HopSet.t Z :=
  Eval vm_compute in set_of [8; 16; 24; 32; 40; 48; 56].

Definition set_mult8_64 : HopSet.t Z :=
  Eval vm_compute in
    match HopSet.insert Z.eqb hash_id 0 moved Hop8 2 set_mult8 64 with
    | Some (s, _) => s
    | None => set0
    end.

Definition key_word (k : Z) : Z := k.

(** The dict holding 9, after [insert(17, 117)]. *)
Definition dict_9_17 : Dict.t Z Z :=
  Eval vm_compute in
    match Dict.insert Z.eqb hash_id 0 0 moved moved Hop8 1 dict_9 17 117 with
    | Some (d, _) => d
    | None => dict0
    end.


(** [Set<uint64_t, 8>]: the keys [i * 2^32] hash to a multiple of [2^32],
    so their home bucket is 0 whatever the capacity. *)
Definition key_hi (i : Z) : Z := i * 2 ^ 32.
Definition keys_hi : list Z := map key_hi [1; 2; 3; 4; 5; 6; 7].

(** Seven of them fill the neighbourhood of bucket 0. *)
Definition set_crowded : HopSet.t Z :=
  Eval vm_compute in
    unwrap (HopSet.run Z.eqb hash_id 0 moved Hop8 1 set0
              (map (@HopSet.Insert Z) keys_hi)).

(** The set holding the eighth key only. *)
Definition set_hi8 : HopSet.t Z := Eval vm_compute in set_of [key_hi 8].

(** Eight inserts into the empty [Set<uint64_t, 8> s(8)]. *)
Definition ops_hi : list (HopSet.op Z) :=
  map (@HopSet.Insert Z) (keys_hi ++ [key_hi 8]).

(** Slots [0 .. j-1] hold the first [j] keys of [keys_hi], no other slot is
    occupied, and no element was destroyed. *)
Definition filled (j : Z) (s : HopSet.t Z) : Prop :=
  HopSet.destroyed_ s = []
  /\ (forall i, 0 <= i -> HopSet.live s i = (i <? j))
  /\ (forall i, 0 <= i < j -> HopSet.key_at 0 s i = key_hi (i + 1)).

(** The table [expand] allocates once [capacity_ *= 2] has wrapped to 0
    (at capacity 2^31), after the first [j] keys were inserted again. *)
Definition wrapped (j : nat) : HopSet.t Z :=
  unwrap (HopSet.run Z.eqb hash_id 0 moved Hop8 1
            {| HopSet.keys_ := calloc 0 7; HopSet.hops_ := calloc 0 7;
               HopSet.size_ := 0; HopSet.capacity_ := 0;
               HopSet.destroyed_ := [] |}
            (map (@HopSet.Insert Z) (firstn j keys_hi))).

End Examples.


Unset Implicit Arguments.

(** * Proofs *)

(** ** Machine integers and bits *)

Lemma pow2_31 : 2 ^ 31 = 2147483648.
Proof. reflexivity. Qed.

Lemma pow2_32 : 2 ^ 32 = 4294967296.
Proof. reflexivity. Qed.

(** Make the two machine bounds known to [lia]. *)
Ltac pows :=
  let P31 := fresh "P31" in let P32 := fresh "P32" in
  pose proof pow2_31 as P31; pose proof pow2_32 as P32.

Lemma u32_small (x : Z) : 0 <= x < 2 ^ 32 -> u32 x = x.
Proof. intros H. unfold u32. apply Z.mod_small. exact H. Qed.

Lemma u32_range (x : Z) : 0 <= u32 x < 2 ^ 32.
Proof. unfold u32. apply Z.mod_pos_bound. lia. Qed.

Lemma HopSize_cases (hs : hop_size) :
  HopSize hs = 8 \/ HopSize hs = 16 \/ HopSize hs = 32.
Proof. destruct hs; simpl; auto. Qed.

Lemma hop_bucket_range (hs : hop_size) : 7 <= hop_bucket hs <= 31.
Proof. unfold hop_bucket. destruct hs; simpl; lia. Qed.

Lemma probe_max_range (hs : hop_size) : 128 <= probe_max hs <= 512.
Proof. unfold probe_max. destruct hs; simpl; lia. Qed.

Lemma hop_word_small (hs : hop_size) (x : Z) :
  0 <= x < 2 ^ HopSize hs -> hop_word hs x = x.
Proof. intros H. unfold hop_word. apply Z.mod_small. exact H. Qed.

Lemma hop_word_range (hs : hop_size) (x : Z) :
  0 <= hop_word hs x < 2 ^ HopSize hs.
Proof. unfold hop_word. apply Z.mod_pos_bound. destruct hs; simpl; lia. Qed.

Lemma hop_word_testbit (hs : hop_size) (x j : Z) :
  Z.testbit (hop_word hs x) j = (j <? HopSize hs) && Z.testbit x j.
Proof.
  unfold hop_word.
  destruct (Z.ltb_spec j (HopSize hs)) as [Hlt | Hge]; simpl.
  - destruct (Z.neg_nonneg_cases j) as [Hn | Hn].
    + now rewrite !Z.testbit_neg_r.
    + apply Z.mod_pow2_bits_low. lia.
  - apply Z.mod_pow2_bits_high. destruct hs; simpl in *; lia.
Qed.

Lemma testbit_one_shl (n j : Z) :
  0 <= n -> Z.testbit (Z.shiftl 1 n) j = (j =? n).
Proof.
  intros Hn.
  destruct (Z.neg_nonneg_cases j) as [Hj | Hj].
  - rewrite Z.testbit_neg_r by lia. symmetry. apply Z.eqb_neq. lia.
  - rewrite Z.shiftl_spec by lia.
    destruct (Z.eqb_spec j n) as [-> | Hne].
    + now rewrite Z.sub_diag.
    + destruct (Z.lt_ge_cases j n).
      * apply Z.testbit_neg_r. lia.
      * replace (j - n) with (Z.succ (j - n - 1)) by lia.
        change 1 with (2 * 0 + 1). rewrite Z.testbit_odd_succ by lia.
        apply Z.testbit_0_l.
Qed.

Lemma bounded_of_bits (x n : Z) :
  0 <= n -> 0 <= x ->
  (forall j, n <= j -> Z.testbit x j = false) -> x < 2 ^ n.
Proof.
  intros Hn Hx Hb.
  destruct (Z.eq_dec x 0) as [-> | Hx0]. { apply Z.pow_pos_nonneg; lia. }
  apply Z.log2_lt_pow2; [lia|].
  destruct (Z.lt_ge_cases (Z.log2 x) n) as [|Hge]; [assumption|].
  specialize (Hb _ Hge). rewrite Z.bit_log2 in Hb by lia. discriminate.
Qed.

Lemma bits_above (x n j : Z) :
  0 <= x < 2 ^ n -> n <= j -> Z.testbit x j = false.
Proof.
  intros [Hx Hlt] Hj.
  destruct (Z.eq_dec x 0) as [-> | Hx0]. { apply Z.testbit_0_l. }
  apply Z.bits_above_log2; [lia|].
  assert (0 <= n).
  { destruct (Z.lt_ge_cases n 0); [|lia]. rewrite Z.pow_neg_r in Hlt; lia. }
  assert (Z.log2 x < n) by (apply Z.log2_lt_pow2; lia). lia.
Qed.

Section Bits.
Variable hs : hop_size.

Lemma or_bit_testbit (x n j : Z) :
  0 <= n ->
  Z.testbit (HopscotchBase.or_bit hs x n) j
  = (j <? HopSize hs) && (Z.testbit x j || (j =? n)).
Proof.
  intros Hn. unfold HopscotchBase.or_bit.
  now rewrite hop_word_testbit, Z.lor_spec, testbit_one_shl.
Qed.

Lemma xor_bit_testbit (x n j : Z) :
  0 <= n ->
  Z.testbit (HopscotchBase.xor_bit hs x n) j
  = (j <? HopSize hs) && xorb (Z.testbit x j) (j =? n).
Proof.
  intros Hn. unfold HopscotchBase.xor_bit.
  now rewrite hop_word_testbit, Z.lxor_spec, testbit_one_shl.
Qed.

Lemma or_one_testbit (x j : Z) :
  Z.testbit (hop_word hs (Z.lor x 1)) j
  = (j <? HopSize hs) && (Z.testbit x j || (j =? 0)).
Proof.
  rewrite hop_word_testbit, Z.lor_spec.
  change 1 with (Z.shiftl 1 0) at 1. now rewrite testbit_one_shl.
Qed.

Lemma xor_one_testbit (x j : Z) :
  Z.testbit (hop_word hs (Z.lxor x 1)) j
  = (j <? HopSize hs) && xorb (Z.testbit x j) (j =? 0).
Proof.
  rewrite hop_word_testbit, Z.lxor_spec.
  change 1 with (Z.shiftl 1 0) at 1. now rewrite testbit_one_shl.
Qed.
End Bits.

(** ** Raw buffers *)

Section Buffers.
Context {A : Type}.
Implicit Types (l : list A) (d x : A).

Lemma upd_nat_length l n x : length (upd_nat l n x) = length l.
Proof. revert n; induction l as [|a l IH]; intros [|n]; simpl; auto. Qed.

Lemma Zlen_upd l i x : Zlen (upd l i x) = Zlen l.
Proof.
  unfold Zlen, upd. destruct (0 <=? i); [|reflexivity].
  now rewrite upd_nat_length.
Qed.

Lemma nth_upd_nat_same d l n x :
  (n < length l)%nat -> nth n (upd_nat l n x) d = x.
Proof.
  revert n; induction l as [|a l IH]; intros [|n] H; simpl in *;
    try lia; auto. apply IH. lia.
Qed.

Lemma nth_upd_nat_other d l n m x :
  n <> m -> nth m (upd_nat l n x) d = nth m l d.
Proof.
  revert n m; induction l as [|a l IH]; intros [|n] [|m] H; simpl;
    try reflexivity; try congruence. apply IH. congruence.
Qed.

Lemma get_upd_same d l i x :
  0 <= i < Zlen l -> get d (upd l i x) i = x.
Proof.
  unfold Zlen, get, upd. intros H.
  destruct (Z.leb_spec 0 i); [|lia].
  apply nth_upd_nat_same. lia.
Qed.

Lemma get_upd_other d l i j x :
  0 <= j -> i <> j -> get d (upd l i x) j = get d l j.
Proof.
  unfold get, upd. intros Hj Hne.
  destruct (Z.leb_spec 0 i); [|reflexivity].
  apply nth_upd_nat_other. lia.
Qed.

Lemma get_upd d l i j x :
  0 <= i < Zlen l -> 0 <= j ->
  get d (upd l i x) j = if j =? i then x else get d l j.
Proof.
  intros Hi Hj. destruct (Z.eqb_spec j i) as [-> | Hne].
  - now apply get_upd_same.
  - apply get_upd_other; auto.
Qed.

Lemma Zlen_calloc d n : 0 <= n -> Zlen (calloc d n) = n.
Proof. intros H. unfold Zlen, calloc. rewrite repeat_length. lia. Qed.

Lemma get_calloc d n i : get d (calloc d n) i = d.
Proof.
  unfold get, calloc. generalize (Z.to_nat i) as k. generalize (Z.to_nat n) as m.
  induction m as [|m IH]; intros [|k]; simpl; auto.
Qed.

Lemma get_outside d l i : Zlen l <= i -> get d l i = d.
Proof. unfold Zlen, get. intros H. apply nth_overflow. lia. Qed.

Lemma copy_n_id d l : copy_n d (Zlen l) l = l.
Proof.
  unfold copy_n, Zlen. rewrite Nat2Z.id.
  apply nth_ext with (d := d) (d' := d).
  - now rewrite length_map, length_seq.
  - intros n Hn. rewrite length_map, length_seq in Hn.
    set (f := fun i : nat => get d l (Z.of_nat i)).
    rewrite (nth_indep _ d (f 0%nat)) by (now rewrite length_map, length_seq).
    rewrite (map_nth f), seq_nth by assumption.
    unfold f, get. simpl. now rewrite Nat2Z.id.
Qed.

Lemma list_eq_get d l l' :
  Zlen l = Zlen l' ->
  (forall i, 0 <= i < Zlen l -> get d l i = get d l' i) -> l = l'.
Proof.
  unfold Zlen, get. intros Hlen H.
  apply nth_ext with (d := d) (d' := d); [lia|].
  intros n Hn. specialize (H (Z.of_nat n)). rewrite Nat2Z.id in H.
  apply H. lia.
Qed.
End Buffers.

(** ** numeric.hpp: npot32 *)

Lemma smear_step_bits (x m w L : Z) :
  0 <= m <= w ->
  (forall i, 0 <= i -> L - w < i <= L -> Z.testbit x i = true) ->
  forall i, 0 <= i -> L - w - m < i <= L ->
            Z.testbit (Z.lor x (Z.shiftr x m)) i = true.
Proof.
  intros Hm Hx i Hi Hr. rewrite Z.lor_spec, Z.shiftr_spec by lia.
  destruct (Z.lt_ge_cases (L - w) i).
  - rewrite Hx by lia. reflexivity.
  - rewrite (Hx (i + m)) by lia. apply orb_true_r.
Qed.

Lemma smear_step_bound (x m n : Z) :
  0 <= m -> 0 <= n -> 0 <= x < 2 ^ n ->
  0 <= Z.lor x (Z.shiftr x m) < 2 ^ n.
Proof.
  intros Hm Hn Hx.
  assert (H0 : 0 <= Z.lor x (Z.shiftr x m)).
  { apply Z.lor_nonneg. split; [lia|]. apply Z.shiftr_nonneg. lia. }
  split; [exact H0|].
  apply bounded_of_bits; try lia.
  intros j Hj. rewrite Z.lor_spec, Z.shiftr_spec by lia.
  rewrite (bits_above x n j) by lia.
  rewrite (bits_above x n (j + m)) by lia. reflexivity.
Qed.

Lemma npot32_pos (v : Z) :
  0 < v < 2 ^ 31 ->
  npot32 (v + 1) = 2 ^ (Z.log2 v + 1).
Proof.
  intros Hv. unfold npot32. pows.
  replace (v + 1 - 1) with v by lia.
  rewrite (u32_small v) by lia.
  set (L := Z.log2 v).
  assert (HL : 0 <= L <= 30).
  { subst L. split; [apply Z.log2_nonneg|].
    assert (Z.log2 v < 31) by (apply Z.log2_lt_pow2; lia). lia. }
  assert (Hb : 0 <= v < 2 ^ (L + 1)).
  { split; [lia|]. subst L. apply Z.log2_spec. lia. }
  assert (Hw0 : forall i, 0 <= i -> L - 1 < i <= L -> Z.testbit v i = true).
  { intros i _ Hi. replace i with L by lia. subst L. apply Z.bit_log2. lia. }
  set (x1 := Z.lor v (Z.shiftr v 1)).
  set (x2 := Z.lor x1 (Z.shiftr x1 2)).
  set (x3 := Z.lor x2 (Z.shiftr x2 4)).
  set (x4 := Z.lor x3 (Z.shiftr x3 8)).
  set (x5 := Z.lor x4 (Z.shiftr x4 16)).
  assert (B1 : 0 <= x1 < 2 ^ (L + 1)) by (apply smear_step_bound; lia).
  assert (B2 : 0 <= x2 < 2 ^ (L + 1)) by (apply smear_step_bound; lia).
  assert (B3 : 0 <= x3 < 2 ^ (L + 1)) by (apply smear_step_bound; lia).
  assert (B4 : 0 <= x4 < 2 ^ (L + 1)) by (apply smear_step_bound; lia).
  assert (B5 : 0 <= x5 < 2 ^ (L + 1)) by (apply smear_step_bound; lia).
  assert (H1 : forall i, 0 <= i -> L - 2 < i <= L -> Z.testbit x1 i = true).
  { intros i Hi Hr. apply (smear_step_bits v 1 1 L); auto; lia. }
  assert (H2 : forall i, 0 <= i -> L - 4 < i <= L -> Z.testbit x2 i = true).
  { intros i Hi Hr. apply (smear_step_bits x1 2 2 L); auto; lia. }
  assert (H3 : forall i, 0 <= i -> L - 8 < i <= L -> Z.testbit x3 i = true).
  { intros i Hi Hr. apply (smear_step_bits x2 4 4 L); auto; lia. }
  assert (H4 : forall i, 0 <= i -> L - 16 < i <= L -> Z.testbit x4 i = true).
  { intros i Hi Hr. apply (smear_step_bits x3 8 8 L); auto; lia. }
  assert (H5 : forall i, 0 <= i -> L - 32 < i <= L -> Z.testbit x5 i = true).
  { intros i Hi Hr. apply (smear_step_bits x4 16 16 L); auto; lia. }
  assert (E : x5 = Z.ones (L + 1)).
  { apply Z.bits_inj'. intros i Hi.
    destruct (Z.lt_ge_cases i (L + 1)).
    - rewrite Z.ones_spec_low by lia. apply H5; lia.
    - rewrite Z.ones_spec_high by lia. apply (bits_above x5 (L + 1)); lia. }
  rewrite E, Z.ones_equiv.
  replace (Z.pred (2 ^ (L + 1)) + 1) with (2 ^ (L + 1)) by lia.
  apply u32_small. split; [apply Z.pow_nonneg; lia|].
  apply Z.pow_lt_mono_r; lia.
Qed.

Lemma npot32_zero : npot32 0 = 0.
Proof. reflexivity. Qed.

Lemma npot32_one : npot32 1 = 1.
Proof. reflexivity. Qed.

(** For a request between 1 and [2^31], [npot32] is the least power of two
    that is not below the request. *)
Lemma npot32_spec (n : Z) :
  1 <= n <= 2 ^ 31 ->
  exists j, 0 <= j <= 31 /\ npot32 n = 2 ^ j /\ n <= 2 ^ j /\ 2 ^ j < 2 * n.
Proof.
  intros Hn. pows. destruct (Z.eq_dec n 1) as [-> | Hn1].
  - exists 0. rewrite npot32_one. simpl. lia.
  - set (v := n - 1). assert (Hv : 0 < v < 2 ^ 31) by (subst v; lia).
    exists (Z.log2 v + 1).
    replace n with (v + 1) by (subst v; lia).
    rewrite npot32_pos by assumption.
    pose proof (Z.log2_nonneg v) as Hl0.
    assert (Z.log2 v < 31) by (apply Z.log2_lt_pow2; lia).
    pose proof (Z.log2_spec v ltac:(lia)) as [Hlo Hhi].
    rewrite Z.pow_succ_r in Hhi by lia.
    replace (Z.log2 v + 1) with (Z.succ (Z.log2 v)) by lia.
    rewrite Z.pow_succ_r by lia. lia.
Qed.

Lemma npot32_HopSize (hs : hop_size) : npot32 (HopSize hs) = HopSize hs.
Proof. destruct hs; reflexivity. Qed.

(** ** hop_base.hpp: the neighbourhood search *)

Section FindInternal.
Variable Key : Type.
Variable key_eqb : Key -> Key -> bool.
Variable key0 : Key.
Variable hs : hop_size.

(** What the loop of [find_internal] returns: the first set bit whose slot
    holds [k], counted from [index]; the sentinel if there is none. *)
Lemma find_loop_spec (n : nat) (keys_ : list Key) (nf hops index : Z) (k : Key) :
  0 <= hops < 2 ^ Z.of_nat n -> 0 <= index -> index + Z.of_nat n < 2 ^ 32 ->
  (exists j, 0 <= j < Z.of_nat n /\ Z.testbit hops j = true
     /\ key_eqb (get key0 keys_ (index + j)) k = true
     /\ (forall j', 0 <= j' < j -> Z.testbit hops j' = true ->
                    key_eqb (get key0 keys_ (index + j')) k = false)
     /\ HopscotchBase.find_loop key_eqb key0 n keys_ nf hops index k = index + j)
  \/ ((forall j, 0 <= j -> Z.testbit hops j = true ->
                 key_eqb (get key0 keys_ (index + j)) k = false)
      /\ HopscotchBase.find_loop key_eqb key0 n keys_ nf hops index k = nf).
Proof.
  revert hops index. induction n as [|n IH]; intros hops index Hh Hi Hw.
  - right. simpl in *. assert (hops = 0) by lia. subst hops. split; auto.
    intros j _ Hj. now rewrite Z.testbit_0_l in Hj.
  - cbn [HopscotchBase.find_loop].
    destruct (Z.eqb_spec hops 0) as [-> | Hnz].
    { right. split; auto. intros j _ Hj. now rewrite Z.testbit_0_l in Hj. }
    destruct (Z.testbit hops 0 && key_eqb (get key0 keys_ index) k) eqn:Hhit.
    { left. exists 0. apply andb_true_iff in Hhit as [Hb He].
      rewrite Z.add_0_r. repeat split; auto; lia. }
    assert (Hsh : 0 <= Z.shiftr hops 1 < 2 ^ Z.of_nat n).
    { split; [apply Z.shiftr_nonneg; lia|].
      rewrite Z.shiftr_div_pow2 by lia. apply Z.div_lt_upper_bound; [lia|].
      rewrite <- Z.pow_succ_r by lia. now rewrite <- Nat2Z.inj_succ. }
    rewrite (u32_small (index + 1)) by (pows; lia).
    destruct (IH (Z.shiftr hops 1) (index + 1) Hsh ltac:(lia) ltac:(lia))
      as [(j & Hj & Hb & He & Hfirst & Hr) | (Hnone & Hr)].
    + left. exists (j + 1). rewrite Z.shiftr_spec in Hb by lia.
      replace (index + (j + 1)) with (index + 1 + j) by lia.
      repeat split; auto; try lia.
      intros j' Hj' Hb'. destruct (Z.eq_dec j' 0) as [-> | Hne].
      * rewrite Z.add_0_r. rewrite Hb' in Hhit. exact Hhit.
      * specialize (Hfirst (j' - 1) ltac:(lia)).
        rewrite Z.shiftr_spec in Hfirst by lia.
        replace (j' - 1 + 1) with j' in Hfirst by lia.
        replace (index + 1 + (j' - 1)) with (index + j') in Hfirst by lia.
        auto.
    + right. split; auto. intros j Hj Hb. destruct (Z.eq_dec j 0) as [-> | Hne].
      * rewrite Z.add_0_r. rewrite Hb in Hhit. exact Hhit.
      * specialize (Hnone (j - 1) ltac:(lia)).
        rewrite Z.shiftr_spec in Hnone by lia.
        replace (j - 1 + 1) with j in Hnone by lia.
        replace (index + 1 + (j - 1)) with (index + j) in Hnone by lia.
        auto.
Qed.

Lemma find_internal_spec (keys_ : list Key) (hops_ : list Z)
      (capacity_ index : Z) (k : Key) :
  0 <= get 0 hops_ index < 2 ^ HopSize hs ->
  0 <= index -> index + HopSize hs < 2 ^ 32 ->
  (exists j, 1 <= j <= hop_bucket hs
     /\ Z.testbit (get 0 hops_ index) j = true
     /\ key_eqb (get key0 keys_ (index + j - 1)) k = true
     /\ (forall j', 1 <= j' < j -> Z.testbit (get 0 hops_ index) j' = true ->
                    key_eqb (get key0 keys_ (index + j' - 1)) k = false)
     /\ HopscotchBase.find_internal key_eqb key0 hs keys_ hops_ capacity_ index k
        = index + j - 1)
  \/ ((forall j, 1 <= j <= hop_bucket hs ->
                 Z.testbit (get 0 hops_ index) j = true ->
                 key_eqb (get key0 keys_ (index + j - 1)) k = false)
      /\ HopscotchBase.find_internal key_eqb key0 hs keys_ hops_ capacity_ index k
         = HopscotchBase.end_index hs capacity_).
Proof.
  intros Hw Hi Hb. unfold HopscotchBase.find_internal.
  set (w := get 0 hops_ index) in *.
  assert (HS : 0 < HopSize hs) by (destruct hs; simpl; lia).
  assert (Hsh : 0 <= Z.shiftr w 1 < 2 ^ (HopSize hs - 1)).
  { split; [apply Z.shiftr_nonneg; lia|].
    rewrite Z.shiftr_div_pow2 by lia. apply Z.div_lt_upper_bound; [lia|].
    rewrite <- Z.pow_succ_r by lia.
    now replace (Z.succ (HopSize hs - 1)) with (HopSize hs) by lia. }
  assert (Hlt : 2 ^ (HopSize hs - 1) < 2 ^ HopSize hs)
    by (apply Z.pow_lt_mono_r; lia).
  rewrite hop_word_small by lia.
  assert (Hbits : forall j, 0 <= j ->
             Z.testbit (Z.shiftr w 1) j = true ->
             j + 1 <= hop_bucket hs /\ Z.testbit w (j + 1) = true).
  { intros j Hj Ht. split.
    - destruct (Z.lt_ge_cases j (HopSize hs - 1)); [unfold hop_bucket; lia|].
      rewrite (bits_above (Z.shiftr w 1) (HopSize hs - 1) j) in Ht by lia.
      discriminate.
    - now rewrite Z.shiftr_spec in Ht by lia. }
  destruct (find_loop_spec (Z.to_nat (HopSize hs)) keys_
              (HopscotchBase.end_index hs capacity_) (Z.shiftr w 1) index k)
    as [(j & Hj & Ht & He & Hfirst & Hr) | (Hnone & Hr)].
  - rewrite Z2Nat.id by lia. lia.
  - exact Hi.
  - rewrite Z2Nat.id by lia. lia.
  - left. exists (j + 1). destruct (Hbits j ltac:(lia) Ht) as [Hjb Htb].
    replace (index + (j + 1) - 1) with (index + j) by lia.
    repeat split; auto; try lia.
    intros j' Hj' Ht'. specialize (Hfirst (j' - 1) ltac:(lia)).
    rewrite Z.shiftr_spec in Hfirst by lia.
    replace (j' - 1 + 1) with j' in Hfirst by lia.
    replace (index + (j' - 1)) with (index + j' - 1) in Hfirst by lia. auto.
  - right. split; auto. intros j Hj Ht. specialize (Hnone (j - 1) ltac:(lia)).
    rewrite Z.shiftr_spec in Hnone by lia.
    replace (j - 1 + 1) with j in Hnone by lia.
    replace (index + (j - 1)) with (index + j - 1) in Hnone by lia. auto.
Qed.
End FindInternal.

(** ** Bit masks of the displacement search *)

Lemma land_pow2_eqb (x m : Z) :
  0 <= m -> (Z.land x (2 ^ m) =? 0) = negb (Z.testbit x m).
Proof.
  intros Hm. destruct (Z.testbit x m) eqn:Hb; simpl.
  - apply Z.eqb_neq. intros E.
    assert (Hc : Z.testbit (Z.land x (2 ^ m)) m = true).
    { rewrite Z.land_spec, Hb, Z.pow2_bits_true; auto. }
    rewrite E, Z.testbit_0_l in Hc. discriminate.
  - apply Z.eqb_eq. apply Z.bits_inj'. intros i Hi.
    rewrite Z.land_spec, Z.testbit_0_l.
    destruct (Z.eq_dec i m) as [-> | Hne].
    + now rewrite Hb.
    + rewrite Z.pow2_bits_false by lia. apply andb_false_r.
Qed.

Lemma shiftr_pow2_one (m : Z) : 1 <= m -> Z.shiftr (2 ^ m) 1 = 2 ^ (m - 1).
Proof.
  intros Hm. rewrite Z.shiftr_div_pow2 by lia.
  replace m with (Z.succ (m - 1)) at 1 by lia.
  rewrite Z.pow_succ_r by lia. rewrite Z.pow_1_r.
  rewrite Z.mul_comm. apply Z.div_mul. lia.
Qed.

Lemma u32_shl_one (m : Z) : 0 <= m <= 31 -> u32 (Z.shiftl 1 m) = 2 ^ m.
Proof.
  intros Hm. rewrite Z.shiftl_1_l. apply u32_small.
  split; [apply Z.pow_nonneg; lia|]. apply Z.pow_lt_mono_r; lia.
Qed.

Lemma live_count_cons (x : Z) (l : list Z) :
  HopSet.live_count (x :: l) = Z.b2z (Z.testbit x 0) + HopSet.live_count l.
Proof. reflexivity. Qed.

Lemma live_count_nonneg (hops : list Z) : 0 <= HopSet.live_count hops.
Proof.
  induction hops as [|x l IH]; [simpl; lia|].
  rewrite live_count_cons. destruct (Z.testbit x 0); cbn [Z.b2z]; lia.
Qed.

Lemma live_count_upd (hops : list Z) (i x : Z) :
  0 <= i < Zlen hops ->
  HopSet.live_count (upd hops i x)
  = HopSet.live_count hops - Z.b2z (Z.testbit (get 0 hops i) 0)
    + Z.b2z (Z.testbit x 0).
Proof.
  unfold Zlen, upd, get. intros Hi.
  destruct (Z.leb_spec 0 i); [|lia].
  assert (Hn : (Z.to_nat i < length hops)%nat) by lia.
  revert Hn. generalize (Z.to_nat i) as n. clear.
  induction hops as [|a l IH]; intros [|n] Hn; cbn [length] in Hn; try lia;
    cbn [upd_nat nth]; rewrite !live_count_cons.
  - lia.
  - rewrite IH by lia. lia.
Qed.

Lemma live_count_zero (hops : list Z) :
  HopSet.live_count hops = 0 <->
  (forall i, 0 <= i < Zlen hops -> Z.testbit (get 0 hops i) 0 = false).
Proof.
  unfold Zlen, get. induction hops as [|a l IH].
  - simpl. split; auto. intros _ i Hi. lia.
  - rewrite live_count_cons. cbn [length].
    pose proof (live_count_nonneg l) as Hl. split.
    + intros H i Hi.
      destruct (Z.testbit a 0) eqn:Ha; cbn [Z.b2z] in H; [lia|].
      destruct (Z.to_nat i) as [|n] eqn:En; [exact Ha|].
      destruct IH as [IH _]. specialize (IH ltac:(lia) (Z.of_nat n)).
      rewrite Nat2Z.id in IH. cbn [nth]. apply IH. lia.
    + intros H.
      assert (Ha : Z.testbit a 0 = false) by (apply (H 0); lia).
      rewrite Ha. cbn [Z.b2z]. rewrite Z.add_0_l. apply IH. intros i Hi.
      specialize (H (i + 1) ltac:(lia)).
      replace (Z.to_nat (i + 1)) with (S (Z.to_nat i)) in H by lia. exact H.
Qed.

Lemma live_count_calloc (n : Z) : HopSet.live_count (calloc 0 n) = 0.
Proof.
  unfold calloc. induction (Z.to_nat n) as [|m IH]; auto.
Qed.

(** ** The probe and the displacement search *)

Section Loops.
Variable hs : hop_size.

Lemma probe_loop_spec (n : nat) (hops_ : list Z) (probe_end idx : Z) :
  0 <= idx <= probe_end -> probe_end < 2 ^ 32 ->
  Z.of_nat n = probe_end - idx ->
  idx <= HopscotchBase.probe_loop n hops_ probe_end idx <= probe_end
  /\ (HopscotchBase.probe_loop n hops_ probe_end idx < probe_end ->
      Z.testbit (get 0 hops_ (HopscotchBase.probe_loop n hops_ probe_end idx)) 0
      = false).
Proof.
  revert idx. induction n as [|n IH]; intros idx Hi He Hn;
    cbn [HopscotchBase.probe_loop].
  - split; [lia|]. intros; lia.
  - destruct (Z.ltb_spec idx probe_end); cbn [andb]; [|lia].
    destruct (Z.testbit (get 0 hops_ idx) 0) eqn:Hb.
    + rewrite u32_small by lia.
      destruct (IH (idx + 1) ltac:(lia) He ltac:(lia)) as [IH1 IH2].
      split; [lia | exact IH2].
    + split; [lia|]. auto.
Qed.

Lemma cursor_loop_spec (n : nat) (hops_ : list Z) (offset cursor : Z) :
  0 <= cursor -> cursor <= offset + 1 -> offset < 2 ^ 32 - 1 ->
  Z.of_nat n = offset - cursor + 1 ->
  forall r,
  r = HopscotchBase.cursor_loop n hops_ offset cursor
                                (2 ^ (offset - cursor + 1)) ->
  cursor <= r <= offset + 1
  /\ (r <= offset -> Z.testbit (get 0 hops_ r) (offset - r + 1) = true).
Proof.
  revert cursor. induction n as [|n IH]; intros cursor Hc Ho Hb Hn r ->;
    cbn [HopscotchBase.cursor_loop].
  - split; [lia|]. intros; lia.
  - destruct (Z.leb_spec cursor offset); cbn [andb]; [|lia].
    rewrite land_pow2_eqb by lia.
    destruct (Z.testbit (get 0 hops_ cursor) (offset - cursor + 1)) eqn:Hbit;
      cbn [negb].
    + split; [lia|]. auto.
    + rewrite u32_small by lia. rewrite shiftr_pow2_one by lia.
      replace (offset - cursor + 1 - 1) with (offset - (cursor + 1) + 1) by lia.
      destruct (IH (cursor + 1) ltac:(lia) ltac:(lia) Hb ltac:(lia) _ eq_refl)
        as [IH1 IH2].
      split; [lia | exact IH2].
Qed.

Lemma offset_loop_spec (n : nat) (hops_ : list Z) (look_first idx o : Z) :
  0 <= look_first <= o -> o <= idx -> idx < 2 ^ 32 - 1 ->
  idx - look_first + 1 <= 31 ->
  Z.of_nat n = idx - o ->
  forall r,
  r = HopscotchBase.offset_loop n hops_ look_first idx (u32 (o - 1)) ->
  o <= snd r <= idx
  /\ (snd r < idx ->
      look_first <= fst r <= snd r
      /\ Z.testbit (get 0 hops_ (fst r)) (snd r - fst r + 1) = true).
Proof.
  revert o. induction n as [|n IH]; intros o Hl Ho Hi Hw Hn r ->.
  - assert (E : u32 (u32 (o - 1) + 1) = o).
    { unfold u32. rewrite Zplus_mod_idemp_l. replace (o - 1 + 1) with o by lia.
      apply Z.mod_small. pows. lia. }
    cbn [HopscotchBase.offset_loop]. rewrite E. cbn [fst snd]. split; [lia|].
    intros; lia.
  - assert (E : u32 (u32 (o - 1) + 1) = o).
    { unfold u32. rewrite Zplus_mod_idemp_l. replace (o - 1 + 1) with o by lia.
      apply Z.mod_small. pows. lia. }
    cbn [HopscotchBase.offset_loop]. rewrite E.
    rewrite (u32_small (o - look_first + 1)) by (pows; lia).
    rewrite u32_shl_one by lia.
    pose proof (cursor_loop_spec (Z.to_nat (o - look_first + 1)) hops_ o
                  look_first ltac:(lia) ltac:(lia) ltac:(lia) ltac:(lia)
                  _ eq_refl) as [Hc1 Hc2].
    set (c := HopscotchBase.cursor_loop _ hops_ o look_first _) in *.
    destruct (Z.ltb_spec o idx); cbn [andb].
    + destruct (Z.gtb_spec c o).
      * assert (Eo : u32 (o + 1 - 1) = o).
        { replace (o + 1 - 1) with o by lia. apply u32_small. pows. lia. }
        remember (HopscotchBase.offset_loop n hops_ look_first idx o) as r eqn:Er.
        rewrite <- Eo in Er.
        destruct (IH (o + 1) ltac:(lia) ltac:(lia) Hi Hw ltac:(lia) r Er)
          as [IH1 IH2].
        split; [lia | exact IH2].
      * cbn [fst snd]. split; [lia|]. intros _. split; [lia|]. apply Hc2. lia.
    + cbn [fst snd]. split; [lia|]. intros; lia.
Qed.

Lemma find_displaceable_spec (hops_ : list Z) (idx : Z) :
  hop_bucket hs <= idx < 2 ^ 32 - 1 ->
  forall cursor offset,
  HopscotchBase.find_displaceable hs hops_ idx = (cursor, offset) ->
  idx - hop_bucket hs + 1 <= offset <= idx
  /\ (offset < idx ->
      idx - hop_bucket hs + 1 <= cursor <= offset
      /\ Z.testbit (get 0 hops_ cursor) (offset - cursor + 1) = true).
Proof.
  intros Hi cursor offset E. pose proof (hop_bucket_range hs) as Hb. pows.
  unfold HopscotchBase.find_displaceable in E.
  destruct (Z.ltb_spec idx (hop_bucket hs)); [lia|].
  rewrite (u32_small (idx - hop_bucket hs)) in E by lia.
  rewrite (u32_small (idx - hop_bucket hs + 1)) in E by lia.
  pose proof (offset_loop_spec (Z.to_nat (idx - (idx - hop_bucket hs + 1)))
                hops_ (idx - hop_bucket hs + 1) idx (idx - hop_bucket hs + 1)
                ltac:(lia) ltac:(lia) ltac:(lia) ltac:(lia) ltac:(lia)
                _ eq_refl) as Hs.
  rewrite E in Hs. exact Hs.
Qed.
End Loops.

Ltac eqb_false x y :=
  replace (x =? y) with false in * by (symmetry; apply Z.eqb_neq; lia).
Ltac eqb_true x y :=
  replace (x =? y) with true in * by (symmetry; apply Z.eqb_eq; lia).

(** ** The invariant of a Set *)

Section SetInvariant.
Variable Key : Type.
Variable key_eqb : Key -> Key -> bool.
Variable hash : Key -> Z.
Variable key0 : Key.
Variable moved_from : Key -> Key.
Variable hs : hop_size.
Hypothesis key_eqb_spec : forall a b, key_eqb a b = true <-> a = b.

Local Abbreviation t := (HopSet.t Key).
Local Abbreviation hb := (hop_bucket hs).
Local Abbreviation WF := (HopSet.WF hash key0 hs).
Local Abbreviation mem := (HopSet.mem key0 hs).
Local Abbreviation live := (@HopSet.live Key).
Local Abbreviation key_at := (HopSet.key_at key0).
Local Abbreviation hop_bit := (@HopSet.hop_bit Key).
Local Abbreviation bucket := (HopSet.get_bucket_index hash).
Local Abbreviation cap := (@HopSet.capacity_ Key).
Local Abbreviation find_internal := (HopSet.find_internal key_eqb key0 hs).
Local Abbreviation end_index := (HopSet.end_index hs).
Local Abbreviation has := (HopSet.has key_eqb hash key0 hs).

Lemma key_eqb_refl (k : Key) : key_eqb k k = true.
Proof. now apply key_eqb_spec. Qed.

Lemma key_eqb_false (a b : Key) : key_eqb a b = false <-> a <> b.
Proof.
  split.
  - intros H E. apply key_eqb_spec in E. congruence.
  - intros H. destruct (key_eqb a b) eqn:E; auto.
    apply key_eqb_spec in E. contradiction.
Qed.

Lemma WF_range {hole} {s : t} (W : WF hole s) (i : Z) :
  0 <= i < cap s + hb -> 0 <= get 0 (HopSet.hops_ s) i < 2 ^ HopSize hs.
Proof. exact (HopSet.wf_range W (i := i)). Qed.

Lemma WF_owner {hole} {s : t} (W : WF hole s) (h j : Z) :
  0 <= h < cap s + hb -> 1 <= j <= hb -> hop_bit s h j = true ->
  h + j - 1 < cap s + hb /\ live s (h + j - 1) = true
  /\ bucket s (key_at s (h + j - 1)) = h /\ hole <> Some (h + j - 1).
Proof. exact (HopSet.wf_owner W (h := h) (j := j)). Qed.

Lemma WF_home {hole} {s : t} (W : WF hole s) (i : Z) :
  0 <= i < cap s + hb -> live s i = true -> hole <> Some i ->
  bucket s (key_at s i) <= i
  /\ i - bucket s (key_at s i) + 1 <= hb
  /\ hop_bit s (bucket s (key_at s i)) (i - bucket s (key_at s i) + 1) = true.
Proof. exact (HopSet.wf_home W (i := i)). Qed.

Lemma WF_uniq {hole} {s : t} (W : WF hole s) (i j : Z) :
  0 <= i < cap s + hb -> 0 <= j < cap s + hb ->
  live s i = true -> live s j = true ->
  hole <> Some i -> hole <> Some j ->
  key_at s i = key_at s j -> i = j.
Proof. exact (HopSet.wf_uniq W (i := i) (j := j)). Qed.

Lemma cap_bounds {hole} {s : t} : WF hole s -> 1 <= cap s <= 2 ^ 31.
Proof.
  intros [(j & Hj & E) _ _ _ _ _ _ _ _]. rewrite E. split.
  - assert (0 < 2 ^ j) by (apply Z.pow_pos_nonneg; lia). lia.
  - apply Z.pow_le_mono_r; lia.
Qed.

Lemma bucket_range {hole} {s : t} (k : Key) :
  WF hole s -> 0 <= bucket s k < cap s.
Proof.
  intros W. pose proof (cap_bounds W) as Hc.
  destruct W as [(j & Hj & E) _ _ _ _ _ _ _ _].
  unfold HopSet.get_bucket_index, HopscotchBase.get_bucket_index. pows.
  rewrite (u32_small (cap s - 1)) by lia.
  rewrite E in *. replace (2 ^ j - 1) with (Z.ones j)
    by (rewrite Z.ones_equiv; lia).
  rewrite Z.land_ones by lia.
  assert (0 <= u64 (hash k) mod 2 ^ j < 2 ^ j)
    by (apply Z.mod_pos_bound; lia).
  rewrite u32_small by lia. assumption.
Qed.

Lemma end_index_eq {hole} {s : t} : WF hole s -> end_index s = cap s + hb.
Proof.
  intros W. pose proof (cap_bounds W). pose proof (hop_bucket_range hs). pows.
  unfold HopSet.end_index, HopscotchBase.end_index. apply u32_small. lia.
Qed.

Lemma find_internal_cases {hole} {s : t} (k : Key) :
  WF hole s ->
  let h := bucket s k in
  (exists j, 1 <= j <= hb /\ hop_bit s h j = true
     /\ key_at s (h + j - 1) = k /\ find_internal s h k = h + j - 1)
  \/ ((forall j, 1 <= j <= hb -> hop_bit s h j = true ->
                 key_at s (h + j - 1) <> k)
      /\ find_internal s h k = end_index s).
Proof.
  intros W h. pose proof (cap_bounds W) as Hc.
  pose proof (bucket_range k W) as Hb. fold h in Hb.
  pose proof (hop_bucket_range hs) as Hhb. pows.
  assert (HS : HopSize hs = hb + 1) by (unfold hop_bucket; lia).
  destruct (find_internal_spec Key key_eqb key0 hs (HopSet.keys_ s) (HopSet.hops_ s)
              (cap s) h k) as [(j & Hj & Ht & He & _ & Hr) | (Hnone & Hr)].
  - apply (WF_range W). lia.
  - lia.
  - lia.
  - left. exists j. apply key_eqb_spec in He.
  split; [exact Hj|]. split; [exact Ht|]. split; [exact He | exact Hr].
  - right. split; [|exact Hr]. intros j Hj Ht. apply key_eqb_false.
  exact (Hnone j Hj Ht).
Qed.

Lemma find_internal_live {hole} {s : t} {i : Z} :
  WF hole s -> 0 <= i < cap s + hb -> live s i = true -> hole <> Some i ->
  find_internal s (bucket s (key_at s i)) (key_at s i) = i.
Proof.
  intros W Hi Hl Hh. pose proof (bucket_range (key_at s i) W) as Hb.
  pose proof (hop_bucket_range hs) as Hhb.
  destruct (find_internal_cases (key_at s i) W)
    as [(j & Hj & Ht & He & Hr) | (Hnone & _)].
  - rewrite Hr.
    destruct (WF_owner W (bucket s (key_at s i)) j ltac:(lia) Hj Ht)
      as (Hx & Hlx & _ & Hhx).
    apply (WF_uniq W); auto. lia.
  - exfalso. destruct (WF_home W i Hi Hl Hh) as (H1 & H2 & H3).
    apply (Hnone (i - bucket s (key_at s i) + 1) ltac:(lia) H3). f_equal. lia.
Qed.

Lemma find_internal_found {hole} {s : t} (k : Key) :
  WF hole s -> find_internal s (bucket s k) k <> end_index s ->
  let i := find_internal s (bucket s k) k in
  0 <= i < cap s + hb /\ live s i = true /\ hole <> Some i /\ key_at s i = k.
Proof.
  intros W Hne. pose proof (bucket_range k W) as Hb.
  pose proof (hop_bucket_range hs) as Hhb.
  destruct (find_internal_cases k W)
    as [(j & Hj & Ht & He & Hr) | (_ & Hr)]; [|contradiction].
  cbv zeta. rewrite Hr.
  destruct (WF_owner W (bucket s k) j ltac:(lia) Hj Ht)
    as (Hx & Hlx & _ & Hhx).
  repeat split; auto; lia.
Qed.

Lemma has_iff_mem {hole} {s : t} (k : Key) :
  WF hole s -> has s k = true <-> mem hole s k.
Proof.
  intros W. unfold HopSet.has. rewrite negb_true_iff, Z.eqb_neq. split.
  - intros Hne. destruct (find_internal_found k W Hne) as (H1 & H2 & H3 & H4).
    eexists; eauto.
  - intros (i & Hi & Hl & Hh & <-). rewrite (find_internal_live W Hi Hl Hh).
    rewrite (end_index_eq W). lia.
Qed.

Lemma has_false_iff {hole} {s : t} (k : Key) :
  WF hole s -> has s k = false <-> ~ mem hole s k.
Proof.
  intros W. rewrite <- (has_iff_mem k W). destruct (has s k); split; congruence.
Qed.

(** *** Steps of [insert] and [remove], seen through the bitmaps

    Each step is described by what it does to the capacity, to the buffer
    lengths, to every bit of every bitmap word and to the keys; the lemmas
    below derive the invariant after the step from the invariant before. *)

Lemma some_neq (a b : Z) : a <> b -> Some a <> Some b.
Proof. congruence. Qed.

Lemma neq_some (a b : Z) : Some a <> Some b -> a <> b.
Proof. congruence. Qed.

Lemma bucket_cap (s s' : t) (k : Key) :
  cap s' = cap s -> bucket s' k = bucket s k.
Proof. intros E. unfold HopSet.get_bucket_index. now rewrite E. Qed.

(** Reserving a free slot: [hops_[idx] |= 1]. *)
Lemma WF_reserve (s s' : t) (idx : Z) :
  WF None s -> 0 <= idx < cap s + hb -> live s idx = false ->
  cap s' = cap s ->
  Zlen (HopSet.keys_ s') = Zlen (HopSet.keys_ s) ->
  Zlen (HopSet.hops_ s') = Zlen (HopSet.hops_ s) ->
  (forall i, 0 <= i < cap s + hb ->
             0 <= get 0 (HopSet.hops_ s') i < 2 ^ HopSize hs) ->
  (forall h j, 0 <= h < cap s + hb -> 0 <= j <= hb ->
     hop_bit s' h j = hop_bit s h j || ((h =? idx) && (j =? 0))) ->
  (forall i, 0 <= i < cap s + hb -> key_at s' i = key_at s i) ->
  HopSet.size_ s' = HopSet.size_ s ->
  HopSet.live_count (HopSet.hops_ s') = HopSet.live_count (HopSet.hops_ s) + 1 ->
  WF (Some idx) s' /\ (forall k, mem (Some idx) s' k <-> mem None s k).
Proof.
  intros W Hidx Hfree Ec Ek Eh Hr Hbit Hkey Esz Elc.
  pose proof (hop_bucket_range hs) as Hhb.
  assert (Hlive : forall i, 0 <= i < cap s + hb ->
            live s' i = live s i || (i =? idx)).
  { intros i Hi. change (live s' i) with (hop_bit s' i 0).
    rewrite Hbit by lia. now rewrite andb_true_r. }
  assert (Hb1 : forall h j, 0 <= h < cap s + hb -> 1 <= j <= hb ->
            hop_bit s' h j = hop_bit s h j).
  { intros h j Hh Hj. rewrite Hbit by lia.
    replace (j =? 0) with false by (symmetry; apply Z.eqb_neq; lia).
    now rewrite andb_false_r, orb_false_r. }
  split.
  - constructor; rewrite ?Ec.
    + apply (HopSet.wf_cap W).
    + rewrite Ek. apply (HopSet.wf_keys_len W).
    + rewrite Eh. apply (HopSet.wf_hops_len W).
    + exact Hr.
    + intros h j Hh Hj Hb. rewrite Hb1 in Hb by lia.
      destruct (WF_owner W h j Hh Hj Hb) as (Hx & Hlx & Hbx & _).
      assert (Hx0 : 0 <= h + j - 1) by lia.
      rewrite Hlive, Hkey, (bucket_cap _ _ _ Ec) by lia.
      rewrite Hlx. repeat split; auto. apply some_neq. intros E. congruence.
    + intros i Hi Hl Hh. apply neq_some in Hh.
      rewrite Hlive in Hl by lia.
      replace (i =? idx) with false in Hl by (symmetry; apply Z.eqb_neq; lia).
      rewrite orb_false_r in Hl.
      rewrite Hkey, (bucket_cap _ _ _ Ec) by lia.
      destruct (WF_home W i Hi Hl ltac:(discriminate)) as (H1 & H2 & H3).
      pose proof (bucket_range (key_at s i) W) as Hbr.
      rewrite Hb1 by lia. auto.
    + intros i j Hi Hj Hli Hlj Hhi Hhj. apply neq_some in Hhi, Hhj.
      rewrite Hlive in Hli, Hlj by lia.
      replace (i =? idx) with false in Hli by (symmetry; apply Z.eqb_neq; lia).
      replace (j =? idx) with false in Hlj by (symmetry; apply Z.eqb_neq; lia).
      rewrite orb_false_r in Hli, Hlj. rewrite !Hkey by lia.
      apply (WF_uniq W); auto; discriminate.
    + rewrite Esz, Elc, (HopSet.wf_size W). lia.
    + intros x E. injection E as <-. split; [lia|].
      rewrite Hlive by lia. rewrite Z.eqb_refl. apply orb_true_r.
  - intros k. unfold HopSet.mem. rewrite Ec. split.
    + intros (i & Hi & Hl & Hh & Hk). apply neq_some in Hh.
      rewrite Hlive in Hl by lia.
      replace (i =? idx) with false in Hl by (symmetry; apply Z.eqb_neq; lia).
      rewrite orb_false_r in Hl. rewrite Hkey in Hk by lia.
      exists i. repeat split; auto; try lia. discriminate.
    + intros (i & Hi & Hl & _ & Hk). exists i.
      rewrite Hlive, Hkey, Hl by lia. repeat split; auto; try lia.
      apply some_neq. intros E. congruence.
Qed.


(** Releasing the reserved slot: [hops_[idx] ^= 1]. *)
Lemma WF_unreserve (s s' : t) (idx : Z) :
  WF (Some idx) s ->
  cap s' = cap s ->
  Zlen (HopSet.keys_ s') = Zlen (HopSet.keys_ s) ->
  Zlen (HopSet.hops_ s') = Zlen (HopSet.hops_ s) ->
  (forall i, 0 <= i < cap s + hb ->
             0 <= get 0 (HopSet.hops_ s') i < 2 ^ HopSize hs) ->
  (forall h j, 0 <= h < cap s + hb -> 0 <= j <= hb ->
     hop_bit s' h j = hop_bit s h j && negb ((h =? idx) && (j =? 0))) ->
  (forall i, 0 <= i < cap s + hb -> key_at s' i = key_at s i) ->
  HopSet.size_ s' = HopSet.size_ s ->
  HopSet.live_count (HopSet.hops_ s') = HopSet.live_count (HopSet.hops_ s) - 1 ->
  WF None s' /\ (forall k, mem None s' k <-> mem (Some idx) s k).
Proof.
  intros W Ec Ek Eh Hr Hbit Hkey Esz Elc.
  pose proof (hop_bucket_range hs) as Hhb.
  destruct (HopSet.wf_hole W eq_refl) as [Hidx Hlidx].
  assert (Hlive : forall i, 0 <= i < cap s + hb ->
            live s' i = live s i && negb (i =? idx)).
  { intros i Hi. change (live s' i) with (hop_bit s' i 0).
    rewrite Hbit by lia. now rewrite andb_true_r. }
  assert (Hb1 : forall h j, 0 <= h < cap s + hb -> 1 <= j <= hb ->
            hop_bit s' h j = hop_bit s h j).
  { intros h j Hh Hj. rewrite Hbit by lia. eqb_false j 0.
    now rewrite andb_false_r, andb_true_r. }
  assert (Hl' : forall i, 0 <= i < cap s + hb -> live s' i = true ->
            live s i = true /\ i <> idx).
  { intros i Hi Hl. rewrite Hlive in Hl by lia.
    apply andb_true_iff in Hl as [Hl Hne]. split; auto.
    apply negb_true_iff, Z.eqb_neq in Hne. exact Hne. }
  split.
  - constructor; rewrite ?Ec.
    + apply (HopSet.wf_cap W).
    + rewrite Ek. apply (HopSet.wf_keys_len W).
    + rewrite Eh. apply (HopSet.wf_hops_len W).
    + exact Hr.
    + intros h j Hh Hj Hb. rewrite Hb1 in Hb by lia.
      destruct (WF_owner W h j Hh Hj Hb) as (Hx & Hlx & Hbx & Hhx).
      apply neq_some in Hhx.
      rewrite Hlive, Hkey, (bucket_cap _ _ _ Ec) by lia.
      rewrite Hlx. eqb_false (h + j - 1) idx.
      repeat split; auto. discriminate.
    + intros i Hi Hl _. destruct (Hl' i Hi Hl) as [Hl0 Hne].
      rewrite Hkey, (bucket_cap _ _ _ Ec) by lia.
      destruct (WF_home W i Hi Hl0 (some_neq _ _ (not_eq_sym Hne)))
        as (H1 & H2 & H3).
      pose proof (bucket_range (key_at s i) W) as Hbr.
      rewrite Hb1 by lia. auto.
    + intros i j Hi Hj Hli Hlj _ _.
      destruct (Hl' i Hi Hli) as [Hli0 Hnei].
      destruct (Hl' j Hj Hlj) as [Hlj0 Hnej].
      rewrite !Hkey by lia.
      apply (WF_uniq W); auto; apply some_neq; lia.
    + rewrite Esz, Elc, (HopSet.wf_size W). lia.
    + discriminate.
  - intros k. unfold HopSet.mem. rewrite Ec. split.
    + intros (i & Hi & Hl & _ & Hk). destruct (Hl' i Hi Hl) as [Hl0 Hne].
      rewrite Hkey in Hk by lia.
      exists i. repeat split; auto; try lia. apply some_neq. lia.
    + intros (i & Hi & Hl & Hh & Hk). apply neq_some in Hh. exists i.
      rewrite Hlive, Hkey, Hl by lia. eqb_false i idx.
      repeat split; auto; try lia. discriminate.
Qed.


(** Filling the reserved slot: the key is constructed at [idx] and the
    displacement bit is set in the bitmap of the home bucket. *)
Lemma WF_place (s s' : t) (idx b : Z) (key : Key) :
  WF (Some idx) s -> bucket s key = b -> b <= idx -> idx - b + 1 <= hb ->
  ~ mem (Some idx) s key ->
  cap s' = cap s ->
  Zlen (HopSet.keys_ s') = Zlen (HopSet.keys_ s) ->
  Zlen (HopSet.hops_ s') = Zlen (HopSet.hops_ s) ->
  (forall i, 0 <= i < cap s + hb ->
             0 <= get 0 (HopSet.hops_ s') i < 2 ^ HopSize hs) ->
  (forall h j, 0 <= h < cap s + hb -> 0 <= j <= hb ->
     hop_bit s' h j = hop_bit s h j || ((h =? b) && (j =? idx - b + 1))) ->
  (forall i, 0 <= i < cap s + hb ->
     key_at s' i = if i =? idx then key else key_at s i) ->
  HopSet.size_ s' = HopSet.size_ s + 1 ->
  HopSet.live_count (HopSet.hops_ s') = HopSet.live_count (HopSet.hops_ s) ->
  WF None s' /\ (forall k, mem None s' k <-> mem (Some idx) s k \/ k = key).
Proof.
  intros W Eb Hbi Hib Hnew Ec Ek Eh Hr Hbit Hkey Esz Elc.
  pose proof (hop_bucket_range hs) as Hhb.
  destruct (HopSet.wf_hole W eq_refl) as [Hidx Hlidx].
  pose proof (bucket_range key W) as Hbr. rewrite Eb in Hbr.
  assert (Hlive : forall i, 0 <= i < cap s + hb -> live s' i = live s i).
  { intros i Hi. change (live s' i) with (hop_bit s' i 0).
    rewrite Hbit by lia. eqb_false 0 (idx - b + 1).
    now rewrite andb_false_r, orb_false_r. }
  split.
  - constructor; rewrite ?Ec.
    + apply (HopSet.wf_cap W).
    + rewrite Ek. apply (HopSet.wf_keys_len W).
    + rewrite Eh. apply (HopSet.wf_hops_len W).
    + exact Hr.
    + intros h j Hh Hj Hb. rewrite Hbit in Hb by lia.
      destruct ((h =? b) && (j =? idx - b + 1)) eqn:Hc.
      * apply andb_true_iff in Hc as [E1 E2].
        apply Z.eqb_eq in E1, E2. subst h j.
        replace (b + (idx - b + 1) - 1) with idx by lia.
        rewrite Hlive, Hkey, (bucket_cap _ _ _ Ec), Z.eqb_refl by lia.
        repeat split; auto; try lia. discriminate.
      * rewrite orb_false_r in Hb.
        destruct (WF_owner W h j Hh Hj Hb) as (Hx & Hlx & Hbx & Hhx).
        apply neq_some in Hhx.
        rewrite Hlive, Hkey, (bucket_cap _ _ _ Ec) by lia.
        eqb_false (h + j - 1) idx. repeat split; auto. discriminate.
    + intros i Hi Hl _. rewrite Hlive in Hl by lia.
      rewrite Hkey, (bucket_cap _ _ _ Ec) by lia.
      destruct (Z.eqb_spec i idx) as [-> | Hne].
      * rewrite Eb. rewrite Hbit by lia. rewrite !Z.eqb_refl.
        rewrite orb_true_r. repeat split; auto; lia.
      * destruct (WF_home W i Hi Hl (some_neq _ _ (not_eq_sym Hne)))
          as (H1 & H2 & H3).
        pose proof (bucket_range (key_at s i) W) as Hbri.
        rewrite Hbit, H3 by lia. auto.
    + intros i j Hi Hj Hli Hlj _ _. rewrite Hlive in Hli, Hlj by lia.
      rewrite !Hkey by lia.
      destruct (Z.eqb_spec i idx) as [-> | Hni];
        destruct (Z.eqb_spec j idx) as [-> | Hnj]; auto.
      * intros E. exfalso. apply Hnew. exists j.
        repeat split; auto; try lia. apply some_neq. lia.
      * intros E. exfalso. apply Hnew. exists i.
        repeat split; auto; try lia. apply some_neq. lia.
      * apply (WF_uniq W); auto; apply some_neq; lia.
    + rewrite Esz, Elc, (HopSet.wf_size W). lia.
    + discriminate.
  - intros k. unfold HopSet.mem. rewrite Ec. split.
    + intros (i & Hi & Hl & _ & Hk). rewrite Hlive in Hl by lia.
      rewrite Hkey in Hk by lia.
      destruct (Z.eqb_spec i idx) as [-> | Hne]; [right; auto|].
      left. exists i. repeat split; auto; try lia. apply some_neq. lia.
    + intros [(i & Hi & Hl & Hh & Hk) | ->].
      * apply neq_some in Hh. exists i.
        rewrite Hlive, Hkey by lia. eqb_false i idx.
        repeat split; auto; try lia. discriminate.
      * exists idx. rewrite Hlive, Hkey, Z.eqb_refl by lia.
        repeat split; auto; try lia. discriminate.
Qed.


(** One displacement: the element at [offset], whose home is [cursor],
    moves to the reserved slot [idx]; [offset] becomes the reserved slot. *)
Lemma WF_move (s s' : t) (idx offset cursor : Z) :
  WF (Some idx) s ->
  0 <= cursor -> idx - hb + 1 <= cursor -> cursor <= offset -> offset < idx ->
  hop_bit s cursor (offset - cursor + 1) = true ->
  cap s' = cap s ->
  Zlen (HopSet.keys_ s') = Zlen (HopSet.keys_ s) ->
  Zlen (HopSet.hops_ s') = Zlen (HopSet.hops_ s) ->
  (forall i, 0 <= i < cap s + hb ->
             0 <= get 0 (HopSet.hops_ s') i < 2 ^ HopSize hs) ->
  (forall h j, 0 <= h < cap s + hb -> 0 <= j <= hb ->
     hop_bit s' h j =
     if h =? cursor then
       if j =? offset - cursor + 1 then false
       else if j =? idx - cursor + 1 then true
       else hop_bit s h j
     else hop_bit s h j) ->
  (forall i, 0 <= i < cap s + hb -> i <> offset ->
     key_at s' i = if i =? idx then key_at s offset else key_at s i) ->
  HopSet.size_ s' = HopSet.size_ s ->
  HopSet.live_count (HopSet.hops_ s') = HopSet.live_count (HopSet.hops_ s) ->
  WF (Some offset) s'
  /\ (forall k, mem (Some offset) s' k <-> mem (Some idx) s k).
Proof.
  intros W Hc0 Hlo Hco Hoi Hcur Ec Ek Eh Hr Hbit Hkey Esz Elc.
  pose proof (hop_bucket_range hs) as Hhb.
  destruct (HopSet.wf_hole W eq_refl) as [Hidx Hlidx].
  destruct (WF_owner W cursor (offset - cursor + 1) ltac:(lia) ltac:(lia) Hcur)
    as (_ & Hloff & Hboff & _).
  replace (cursor + (offset - cursor + 1) - 1) with offset in * by lia.
  assert (Hlive : forall i, 0 <= i < cap s + hb -> live s' i = live s i).
  { intros i Hi. change (live s' i) with (hop_bit s' i 0).
    rewrite Hbit by lia.
    eqb_false 0 (offset - cursor + 1). eqb_false 0 (idx - cursor + 1).
    now destruct (i =? cursor). }
  split.
  - constructor; rewrite ?Ec.
    + apply (HopSet.wf_cap W).
    + rewrite Ek. apply (HopSet.wf_keys_len W).
    + rewrite Eh. apply (HopSet.wf_hops_len W).
    + exact Hr.
    + intros h j Hh Hj Hb. rewrite Hbit in Hb by lia.
      assert (Hcase : (h = cursor /\ j = idx - cursor + 1)
                      \/ ((h <> cursor \/ j <> offset - cursor + 1)
                           /\ hop_bit s h j = true)).
      { destruct (Z.eqb_spec h cursor) as [-> | Hne]; [|right; auto].
        destruct (Z.eqb_spec j (offset - cursor + 1)); [discriminate|].
        destruct (Z.eqb_spec j (idx - cursor + 1)); [left; auto|right; auto]. }
      destruct Hcase as [[-> ->] | [Hne Hold]].
      * replace (cursor + (idx - cursor + 1) - 1) with idx by lia.
        rewrite Hlive, Hkey, (bucket_cap _ _ _ Ec), Z.eqb_refl by lia.
        repeat split; auto; try lia. apply some_neq. lia.
      * destruct (WF_owner W h j Hh Hj Hold) as (Hx & Hlx & Hbx & Hhx).
        apply neq_some in Hhx.
        assert (Hxo : h + j - 1 <> offset).
        { intros E. rewrite E in Hbx. lia. }
        rewrite Hlive, Hkey, (bucket_cap _ _ _ Ec) by lia.
        eqb_false (h + j - 1) idx. repeat split; auto. apply some_neq. lia.
    + intros i Hi Hl Hh. apply neq_some in Hh. rewrite Hlive in Hl by lia.
      rewrite Hkey, (bucket_cap _ _ _ Ec) by lia.
      destruct (Z.eqb_spec i idx) as [-> | Hne].
      * rewrite Hboff. rewrite Hbit by lia. rewrite !Z.eqb_refl.
        eqb_false (idx - cursor + 1) (offset - cursor + 1).
        repeat split; auto; lia.
      * destruct (WF_home W i Hi Hl (some_neq _ _ (not_eq_sym Hne)))
          as (H1 & H2 & H3).
        pose proof (bucket_range (key_at s i) W) as Hbri.
        rewrite Hbit by lia. repeat split; auto.
        destruct (Z.eqb_spec (bucket s (key_at s i)) cursor) as [Eb|]; auto.
        eqb_false (i - bucket s (key_at s i) + 1) (offset - cursor + 1).
        now destruct (_ =? _).
    + intros i j Hi Hj Hli Hlj Hhi Hhj. apply neq_some in Hhi, Hhj.
      rewrite Hlive in Hli, Hlj by lia. rewrite !Hkey by lia.
      destruct (Z.eqb_spec i idx) as [-> | Hni];
        destruct (Z.eqb_spec j idx) as [-> | Hnj]; auto.
      * intros E. exfalso. apply Hhj.
        apply (WF_uniq W); auto; try lia; apply some_neq; lia.
      * intros E. exfalso. apply Hhi. symmetry.
        apply (WF_uniq W); auto; try lia; apply some_neq; lia.
      * apply (WF_uniq W); auto; apply some_neq; lia.
    + rewrite Esz, Elc, (HopSet.wf_size W). reflexivity.
    + intros x E. injection E as <-. split; [lia|].
      rewrite Hlive by lia. exact Hloff.
  - intros k. unfold HopSet.mem. rewrite Ec. split.
    + intros (i & Hi & Hl & Hh & Hk). apply neq_some in Hh.
      rewrite Hlive in Hl by lia. rewrite Hkey in Hk by lia.
      destruct (Z.eqb_spec i idx) as [-> | Hne].
      * exists offset. repeat split; auto; try lia. apply some_neq. lia.
      * exists i. repeat split; auto; try lia. apply some_neq. lia.
    + intros (i & Hi & Hl & Hh & Hk). apply neq_some in Hh.
      destruct (Z.eq_dec i offset) as [-> | Hne].
      * exists idx. rewrite Hlive, Hkey, Z.eqb_refl by lia.
        repeat split; auto; try lia. apply some_neq. lia.
      * exists i. rewrite Hlive, Hkey by lia. eqb_false i idx.
        repeat split; auto; try lia. apply some_neq. lia.
Qed.


(** Removing the element of a live slot: its occupancy bit and the
    displacement bit of its home bucket are flipped. *)
Lemma WF_unlink (s s' : t) (index : Z) :
  WF None s -> 0 <= index < cap s + hb -> live s index = true ->
  cap s' = cap s ->
  Zlen (HopSet.keys_ s') = Zlen (HopSet.keys_ s) ->
  Zlen (HopSet.hops_ s') = Zlen (HopSet.hops_ s) ->
  (forall i, 0 <= i < cap s + hb ->
             0 <= get 0 (HopSet.hops_ s') i < 2 ^ HopSize hs) ->
  (forall h j, 0 <= h < cap s + hb -> 0 <= j <= hb ->
     hop_bit s' h j =
     xorb (hop_bit s h j)
          (((h =? bucket s (key_at s index))
            && (j =? index - bucket s (key_at s index) + 1))
           || ((h =? index) && (j =? 0)))) ->
  (forall i, 0 <= i < cap s + hb -> key_at s' i = key_at s i) ->
  HopSet.size_ s' = HopSet.size_ s - 1 ->
  HopSet.live_count (HopSet.hops_ s') = HopSet.live_count (HopSet.hops_ s) - 1 ->
  WF None s'
  /\ (forall k, mem None s' k <-> mem None s k /\ k <> key_at s index)
  /\ (forall i, 0 <= i < cap s + hb ->
                live s' i = live s i && negb (i =? index)).
Proof.
  intros W Hidx Hlidx Ec Ek Eh Hr Hbit Hkey Esz Elc.
  pose proof (hop_bucket_range hs) as Hhb.
  set (b := bucket s (key_at s index)) in *.
  destruct (WF_home W index Hidx Hlidx ltac:(discriminate)) as (Hb1 & Hb2 & Hb3).
  fold b in Hb1, Hb2, Hb3.
  pose proof (bucket_range (key_at s index) W) as Hbr. fold b in Hbr.
  assert (Hlive : forall i, 0 <= i < cap s + hb ->
            live s' i = live s i && negb (i =? index)).
  { intros i Hi. change (live s' i) with (hop_bit s' i 0).
    rewrite Hbit by lia. eqb_false 0 (index - b + 1).
    rewrite andb_false_r, andb_true_r, orb_false_l.
    change (hop_bit s i 0) with (live s i).
    destruct (Z.eqb_spec i index) as [-> | Hne].
    - now rewrite Hlidx.
    - now rewrite xorb_false_r, andb_true_r. }
  assert (Hl' : forall i, 0 <= i < cap s + hb -> live s' i = true ->
            live s i = true /\ i <> index).
  { intros i Hi Hl. rewrite Hlive in Hl by lia.
    apply andb_true_iff in Hl as [Hl Hne]. split; auto.
    apply negb_true_iff, Z.eqb_neq in Hne. exact Hne. }
  assert (Hbj : forall h j, 0 <= h < cap s + hb -> 1 <= j <= hb ->
            hop_bit s' h j
            = hop_bit s h j && negb ((h =? b) && (j =? index - b + 1))).
  { intros h j Hh Hj. rewrite Hbit by lia. eqb_false j 0.
    rewrite andb_false_r, orb_false_r.
    destruct ((h =? b) && (j =? index - b + 1)) eqn:Hc.
    - apply andb_true_iff in Hc as [E1 E2]. apply Z.eqb_eq in E1, E2.
      subst h j. now rewrite Hb3.
    - now rewrite xorb_false_r, andb_true_r. }
  split; [|split; [|exact Hlive]].
  - constructor; rewrite ?Ec.
    + apply (HopSet.wf_cap W).
    + rewrite Ek. apply (HopSet.wf_keys_len W).
    + rewrite Eh. apply (HopSet.wf_hops_len W).
    + exact Hr.
    + intros h j Hh Hj Hb. rewrite Hbj in Hb by lia.
      apply andb_true_iff in Hb as [Hold Hne].
      apply negb_true_iff in Hne.
      destruct (WF_owner W h j Hh Hj Hold) as (Hx & Hlx & Hbx & _).
      assert (Hxi : h + j - 1 <> index).
      { intros E. rewrite E in Hbx. fold b in Hbx. subst h.
        rewrite Z.eqb_refl in Hne. simpl in Hne.
        apply Z.eqb_neq in Hne. lia. }
      rewrite Hlive, Hkey, (bucket_cap _ _ _ Ec) by lia.
      eqb_false (h + j - 1) index. rewrite Hlx.
      repeat split; auto. discriminate.
    + intros i Hi Hl _. destruct (Hl' i Hi Hl) as [Hl0 Hne].
      rewrite Hkey, (bucket_cap _ _ _ Ec) by lia.
      destruct (WF_home W i Hi Hl0 ltac:(discriminate)) as (H1 & H2 & H3).
      pose proof (bucket_range (key_at s i) W) as Hbri.
      rewrite Hbj, H3 by lia. repeat split; auto.
      destruct (Z.eqb_spec (bucket s (key_at s i)) b) as [E|]; auto.
      rewrite E. eqb_false (i - b + 1) (index - b + 1). reflexivity.
    + intros i j Hi Hj Hli Hlj _ _.
      destruct (Hl' i Hi Hli) as [Hli0 _].
      destruct (Hl' j Hj Hlj) as [Hlj0 _].
      rewrite !Hkey by lia. apply (WF_uniq W); auto; discriminate.
    + rewrite Esz, Elc, (HopSet.wf_size W). lia.
    + discriminate.
  - intros k. unfold HopSet.mem. rewrite Ec. split.
    + intros (i & Hi & Hl & _ & Hk). destruct (Hl' i Hi Hl) as [Hl0 Hne].
      rewrite Hkey in Hk by lia. split.
      * exists i. repeat split; auto; try lia. discriminate.
      * intros E. apply Hne. apply (WF_uniq W); auto; try discriminate.
        congruence.
    + intros [(i & Hi & Hl & _ & Hk) Hne]. exists i.
      assert (i <> index) by congruence.
      rewrite Hlive, Hkey, Hl by lia. eqb_false i index.
      repeat split; auto; try lia. discriminate.
Qed.

End SetInvariant.

(** ** Updates of the bitmap buffer *)

Lemma testbit_get_upd (H : list Z) (i x h j : Z) :
  0 <= i < Zlen H -> 0 <= h ->
  Z.testbit (get 0 (upd H i x) h) j
  = if h =? i then Z.testbit x j else Z.testbit (get 0 H h) j.
Proof. intros Hi Hh. rewrite get_upd by assumption. now destruct (h =? i). Qed.

Lemma range_upd (H : list Z) (i x n B : Z) :
  (forall k, 0 <= k < n -> 0 <= get 0 H k < B) ->
  0 <= x < B -> 0 <= i < Zlen H ->
  forall k, 0 <= k < n -> 0 <= get 0 (upd H i x) k < B.
Proof.
  intros HH Hx Hi k Hk. rewrite get_upd by lia.
  destruct (k =? i); auto.
Qed.

Lemma live_count_le (H : list Z) : HopSet.live_count H <= Zlen H.
Proof.
  unfold Zlen. induction H as [|a l IH]; [simpl; lia|].
  rewrite live_count_cons. cbn [length].
  destruct (Z.testbit a 0); cbn [Z.b2z]; lia.
Qed.

Lemma live_count_pos (H : list Z) (i : Z) :
  0 <= i < Zlen H -> Z.testbit (get 0 H i) 0 = true -> 1 <= HopSet.live_count H.
Proof.
  intros Hi Hb. pose proof (live_count_nonneg H) as Hn.
  destruct (Z.eq_dec (HopSet.live_count H) 0) as [E|]; [|lia].
  rewrite live_count_zero in E. rewrite (E i Hi) in Hb. discriminate.
Qed.

Section SetSteps.
Variable Key : Type.
Variable key_eqb : Key -> Key -> bool.
Variable hash : Key -> Z.
Variable key0 : Key.
Variable moved_from : Key -> Key.
Variable hs : hop_size.
Hypothesis key_eqb_spec : forall a b, key_eqb a b = true <-> a = b.

Local Abbreviation t := (HopSet.t Key).
Local Abbreviation hb := (hop_bucket hs).
Local Abbreviation WF := (HopSet.WF hash key0 hs).
Local Abbreviation mem := (HopSet.mem key0 hs).
Local Abbreviation live := (@HopSet.live Key).
Local Abbreviation key_at := (HopSet.key_at key0).
Local Abbreviation hop_bit := (@HopSet.hop_bit Key).
Local Abbreviation bucket := (HopSet.get_bucket_index hash).
Local Abbreviation cap := (@HopSet.capacity_ Key).
Local Abbreviation find_internal := (HopSet.find_internal key_eqb key0 hs).
Local Abbreviation end_index := (HopSet.end_index hs).
Local Abbreviation has := (HopSet.has key_eqb hash key0 hs).

Ltac proj :=
  cbn [HopSet.keys_ HopSet.hops_ HopSet.size_ HopSet.capacity_
       HopSet.destroyed_] in *.

Lemma HopSize_bucket : HopSize hs = hb + 1.
Proof. unfold hop_bucket. lia. Qed.

Lemma hops_len {hole} {s : t} (W : WF hole s) :
  Zlen (HopSet.hops_ s) = cap s + hb.
Proof. exact (HopSet.wf_hops_len W). Qed.

Lemma keys_len {hole} {s : t} (W : WF hole s) :
  Zlen (HopSet.keys_ s) = cap s + hb.
Proof. exact (HopSet.wf_keys_len W). Qed.

(** [hops_[idx] |= 1] on a free slot. *)
Lemma reserve_ok (s : t) (idx : Z) :
  WF None s -> 0 <= idx < cap s + hb -> live s idx = false ->
  let s1 := HopSet.set_hops s
              (upd (HopSet.hops_ s) idx
                   (hop_word hs (Z.lor (get 0 (HopSet.hops_ s) idx) 1))) in
  WF (Some idx) s1 /\ (forall k, mem (Some idx) s1 k <-> mem None s k).
Proof.
  intros W Hidx Hfree s1. pose proof (hop_bucket_range hs) as Hhb.
  pose proof HopSize_bucket as HS. pose proof (hops_len W) as HL.
  apply (WF_reserve Key hash key0 hs); auto; subst s1;
    unfold HopSet.set_hops, HopSet.hop_bit; proj.
  - apply Zlen_upd.
  - apply range_upd; try lia; [apply (WF_range Key hash key0 hs W)|].
    apply hop_word_range.
  - intros h j Hh Hj. rewrite testbit_get_upd by lia.
    destruct (Z.eqb_spec h idx) as [-> | Hne]; cbn [andb].
    + rewrite or_one_testbit.
      replace (j <? HopSize hs) with true by (symmetry; apply Z.ltb_lt; lia).
      reflexivity.
    + now rewrite orb_false_r.
  - rewrite live_count_upd by lia. unfold HopSet.live in Hfree.
    rewrite Hfree, or_one_testbit. simpl.
    replace (0 <? HopSize hs) with true by (symmetry; apply Z.ltb_lt; lia).
    rewrite orb_true_r. simpl. lia.
Qed.

(** [hops_[idx] ^= 1] on the reserved slot. *)
Lemma unreserve_ok (s : t) (idx : Z) :
  WF (Some idx) s ->
  let s3 := HopSet.set_hops s
              (upd (HopSet.hops_ s) idx
                   (hop_word hs (Z.lxor (get 0 (HopSet.hops_ s) idx) 1))) in
  WF None s3 /\ (forall k, mem None s3 k <-> mem (Some idx) s k).
Proof.
  intros W s3. pose proof (hop_bucket_range hs) as Hhb.
  pose proof HopSize_bucket as HS. pose proof (hops_len W) as HL.
  destruct (HopSet.wf_hole W eq_refl) as [Hidx Hlidx].
  apply (WF_unreserve Key hash key0 hs) with (idx := idx); auto; subst s3;
    unfold HopSet.set_hops, HopSet.hop_bit; proj.
  - apply Zlen_upd.
  - apply range_upd; try lia; [apply (WF_range Key hash key0 hs W)|].
    apply hop_word_range.
  - intros h j Hh Hj. rewrite testbit_get_upd by lia.
    destruct (Z.eqb_spec h idx) as [-> | Hne]; cbn [andb negb].
    + rewrite xor_one_testbit.
      replace (j <? HopSize hs) with true by (symmetry; apply Z.ltb_lt; lia).
      cbn [andb]. destruct (Z.eqb_spec j 0) as [-> | Hj0].
      * unfold HopSet.live in Hlidx. now rewrite Hlidx.
      * now rewrite xorb_false_r, andb_true_r.
    + now rewrite andb_true_r.
  - rewrite live_count_upd by lia. unfold HopSet.live in Hlidx.
    rewrite Hlidx, xor_one_testbit, Hlidx. simpl.
    replace (0 <? HopSize hs) with true by (symmetry; apply Z.ltb_lt; lia).
    simpl. lia.
Qed.


Lemma u32_diff_succ (a b : Z) :
  0 <= b <= a -> a < 2 ^ 32 - 1 -> u32 (u32 (a - b) + 1) = a - b + 1.
Proof.
  intros H1 H2. pows. rewrite (u32_small (a - b)) by lia.
  apply u32_small. lia.
Qed.

Lemma ltb_HopSize (j : Z) : j <= hb -> (j <? HopSize hs) = true.
Proof. intros H. apply Z.ltb_lt. pose proof HopSize_bucket. lia. Qed.

Lemma index_bound {hole} {s : t} (W : WF hole s) (i : Z) :
  i < cap s + hb -> i < 2 ^ 32 - 1.
Proof.
  intros H. pose proof (cap_bounds Key hash key0 hs W).
  pose proof (hop_bucket_range hs). pows. lia.
Qed.

(** The last statements of [insert]: the key is constructed in the
    reserved slot and linked to its home bucket. *)
Lemma place_ok (s : t) (idx bucket_index : Z) (key : Key) :
  WF (Some idx) s ->
  bucket s key = bucket_index ->
  bucket_index <= idx -> idx <= bucket_index + hb - 1 ->
  ~ mem (Some idx) s key ->
  let hops1 := upd (HopSet.hops_ s) idx
                   (hop_word hs (Z.lor (get 0 (HopSet.hops_ s) idx) 1)) in
  let hops2 := upd hops1 bucket_index
                   (HopscotchBase.or_bit hs (get 0 hops1 bucket_index)
                      (u32 (u32 (idx - bucket_index) + 1))) in
  let s' := {| HopSet.keys_ := upd (HopSet.keys_ s) idx key;
               HopSet.hops_ := hops2;
               HopSet.size_ := u32 (HopSet.size_ s + 1);
               HopSet.capacity_ := cap s;
               HopSet.destroyed_ := HopSet.destroyed_ s |} in
  WF None s' /\ (forall k, mem None s' k <-> mem (Some idx) s k \/ k = key).
Proof.
  intros W Eb Hbi Hib Hnew hops1 hops2 s'. set (b := bucket_index) in *.
  pose proof (hop_bucket_range hs) as Hhb. pose proof HopSize_bucket as HS.
  pose proof (hops_len W) as HL. pose proof (keys_len W) as KL.
  destruct (HopSet.wf_hole W eq_refl) as [Hidx Hlidx].
  pose proof (bucket_range Key hash key0 hs key W) as Hbr. rewrite Eb in Hbr.
  pose proof (index_bound W idx ltac:(lia)) as Hi32.
  pose proof (cap_bounds Key hash key0 hs W) as Hcb.
  assert (Ej : u32 (u32 (idx - b) + 1) = idx - b + 1)
    by (apply u32_diff_succ; lia).
  assert (L1 : Zlen hops1 = cap s + hb) by (subst hops1; now rewrite Zlen_upd).
  assert (Hb1 : forall h j, 0 <= h -> 0 <= j <= hb ->
            Z.testbit (get 0 hops1 h) j = Z.testbit (get 0 (HopSet.hops_ s) h) j).
  { intros h j Hh Hj. subst hops1. rewrite testbit_get_upd by lia.
    destruct (Z.eqb_spec h idx) as [-> | Hne]; auto.
    rewrite or_one_testbit, ltb_HopSize by lia. cbn [andb].
    destruct (Z.eqb_spec j 0) as [-> | Hj0].
    - unfold HopSet.live in Hlidx. now rewrite Hlidx.
    - apply orb_false_r. }
  assert (R1 : forall k, 0 <= k < cap s + hb ->
            0 <= get 0 hops1 k < 2 ^ HopSize hs).
  { subst hops1. apply range_upd; try lia;
      [apply (WF_range Key hash key0 hs W) | apply hop_word_range]. }
  apply (WF_place Key hash key0 hs) with (b := b); auto; subst s'; proj;
    unfold HopSet.hop_bit, HopSet.key_at; proj.
  - lia.
  - now rewrite Zlen_upd.
  - subst hops2. now rewrite Zlen_upd, L1.
  - subst hops2. apply range_upd; try lia; auto.
    unfold HopscotchBase.or_bit. apply hop_word_range.
  - intros h j Hh Hj. subst hops2. rewrite testbit_get_upd by lia.
    destruct (Z.eqb_spec h b) as [-> | Hne]; cbn [andb].
    + rewrite Ej, or_bit_testbit, ltb_HopSize, Hb1 by lia. cbn [andb].
      reflexivity.
    + rewrite Hb1 by lia. now rewrite orb_false_r.
  - intros i Hi. now rewrite get_upd by lia.
  - pose proof (live_count_le (HopSet.hops_ s)) as Hle.
    pose proof (live_count_nonneg (HopSet.hops_ s)) as Hnn.
    pose proof (HopSet.wf_size W) as Hsz. cbv beta iota in Hsz.
    apply u32_small. pows. lia.
  - subst hops2. rewrite live_count_upd by lia.
    rewrite Ej, or_bit_testbit, ltb_HopSize by lia. cbn [andb].
    eqb_false 0 (idx - b + 1). rewrite orb_false_r.
    subst hops1. rewrite live_count_upd by lia.
    unfold HopSet.live in Hlidx.
    rewrite or_one_testbit, Hlidx, ltb_HopSize by lia. cbn. lia.
Qed.


(** One round of the displacement cascade of [insert]. *)
Lemma move_ok (s : t) (idx offset cursor : Z) :
  WF (Some idx) s ->
  0 <= cursor -> idx - hb + 1 <= cursor -> cursor <= offset -> offset < idx ->
  hop_bit s cursor (offset - cursor + 1) = true ->
  let keys1 := upd (HopSet.keys_ s) idx (get key0 (HopSet.keys_ s) offset) in
  let keys2 := upd keys1 offset (moved_from (get key0 keys1 offset)) in
  let hops1 := upd (HopSet.hops_ s) cursor
                   (HopscotchBase.or_bit hs (get 0 (HopSet.hops_ s) cursor)
                      (u32 (u32 (idx - cursor) + 1))) in
  let hops2 := upd hops1 cursor
                   (HopscotchBase.xor_bit hs (get 0 hops1 cursor)
                      (u32 (u32 (offset - cursor) + 1))) in
  let s' := {| HopSet.keys_ := keys2; HopSet.hops_ := hops2;
               HopSet.size_ := HopSet.size_ s;
               HopSet.capacity_ := cap s;
               HopSet.destroyed_ := HopSet.destroyed_ s ++ [offset] |} in
  WF (Some offset) s'
  /\ (forall k, mem (Some offset) s' k <-> mem (Some idx) s k).
Proof.
  intros W Hc0 Hlo Hco Hoi Hcur keys1 keys2 hops1 hops2 s'.
  pose proof (hop_bucket_range hs) as Hhb. pose proof HopSize_bucket as HS.
  pose proof (hops_len W) as HL. pose proof (keys_len W) as KL.
  destruct (HopSet.wf_hole W eq_refl) as [Hidx Hlidx].
  pose proof (index_bound W idx ltac:(lia)) as Hi32.
  assert (Eji : u32 (u32 (idx - cursor) + 1) = idx - cursor + 1)
    by (apply u32_diff_succ; lia).
  assert (Ejo : u32 (u32 (offset - cursor) + 1) = offset - cursor + 1)
    by (apply u32_diff_succ; lia).
  assert (L1 : Zlen hops1 = cap s + hb) by (subst hops1; now rewrite Zlen_upd).
  assert (K1 : Zlen keys1 = cap s + hb) by (subst keys1; now rewrite Zlen_upd).
  assert (G1 : get 0 hops1 cursor
               = HopscotchBase.or_bit hs (get 0 (HopSet.hops_ s) cursor)
                                      (idx - cursor + 1)).
  { subst hops1. rewrite get_upd_same by lia. now rewrite Eji. }
  apply (WF_move Key hash key0 hs) with (cursor := cursor); auto; subst s'; proj;
    unfold HopSet.key_at; proj.
  - subst keys2. now rewrite Zlen_upd, K1.
  - subst hops2. now rewrite Zlen_upd, L1.
  - subst hops2. apply range_upd; try lia.
    + subst hops1. apply range_upd; try lia.
      * apply (WF_range Key hash key0 hs W).
      * unfold HopscotchBase.or_bit. apply hop_word_range.
    + unfold HopscotchBase.xor_bit. apply hop_word_range.
  - intros h j Hh Hj. unfold HopSet.hop_bit at 1. proj.
    subst hops2. rewrite testbit_get_upd by lia.
    destruct (Z.eqb_spec h cursor) as [-> | Hne].
    + rewrite Ejo, xor_bit_testbit, G1, or_bit_testbit by lia.
      rewrite ltb_HopSize by lia. cbn [andb].
      unfold HopSet.hop_bit in Hcur |- *.
      destruct (Z.eqb_spec j (offset - cursor + 1)) as [-> | Hjo].
      * rewrite Hcur. reflexivity.
      * rewrite xorb_false_r.
        destruct (Z.eqb_spec j (idx - cursor + 1)); [apply orb_true_r|].
        apply orb_false_r.
    + subst hops1. rewrite testbit_get_upd by lia.
      destruct (Z.eqb_spec h cursor); [contradiction|reflexivity].
  - intros i Hi Hne. subst keys2. rewrite get_upd_other by lia.
    subst keys1. now rewrite get_upd by lia.
  - subst hops2. rewrite live_count_upd by lia.
    rewrite Ejo, xor_bit_testbit by lia.
    eqb_false 0 (offset - cursor + 1). rewrite xorb_false_r.
    rewrite ltb_HopSize by lia. cbn [andb].
    subst hops1. rewrite live_count_upd by lia.
    rewrite get_upd_same by lia.
    rewrite Eji, or_bit_testbit, ltb_HopSize by lia. cbn [andb].
    eqb_false 0 (idx - cursor + 1). rewrite orb_false_r. lia.
Qed.

(** The two bit flips of [remove] (and of [Dict::erase]). *)
Lemma unlink_ok (s : t) (index : Z) :
  WF None s -> 0 <= index < cap s + hb -> live s index = true ->
  let bucket_index := bucket s (key_at s index) in
  let hops1 := upd (HopSet.hops_ s) bucket_index
                   (HopscotchBase.xor_bit hs (get 0 (HopSet.hops_ s) bucket_index)
                      (u32 (u32 (index - bucket_index) + 1))) in
  let hops2 := upd hops1 index (hop_word hs (Z.lxor (get 0 hops1 index) 1)) in
  let s' := {| HopSet.keys_ := HopSet.keys_ s; HopSet.hops_ := hops2;
               HopSet.size_ := u32 (HopSet.size_ s - 1);
               HopSet.capacity_ := cap s;
               HopSet.destroyed_ := HopSet.destroyed_ s |} in
  WF None s'
  /\ (forall k, mem None s' k <-> mem None s k /\ k <> key_at s index)
  /\ (forall i, 0 <= i < cap s + hb ->
                live s' i = live s i && negb (i =? index)).
Proof.
  intros W Hidx Hlidx b hops1 hops2 s'.
  pose proof (hop_bucket_range hs) as Hhb. pose proof HopSize_bucket as HS.
  pose proof (hops_len W) as HL. pose proof (keys_len W) as KL.
  pose proof (index_bound W index ltac:(lia)) as Hi32.
  destruct (WF_home Key hash key0 hs W index Hidx Hlidx ltac:(discriminate))
    as (Hb1 & Hb2 & Hb3).
  fold b in Hb1, Hb2, Hb3.
  pose proof (bucket_range Key hash key0 hs (key_at s index) W) as Hbr.
  fold b in Hbr.
  assert (Ej : u32 (u32 (index - b) + 1) = index - b + 1)
    by (apply u32_diff_succ; lia).
  assert (L1 : Zlen hops1 = cap s + hb) by (subst hops1; now rewrite Zlen_upd).
  assert (B1 : forall h j, 0 <= h -> 0 <= j <= hb ->
            Z.testbit (get 0 hops1 h) j
            = xorb (Z.testbit (get 0 (HopSet.hops_ s) h) j)
                   ((h =? b) && (j =? index - b + 1))).
  { intros h j Hh Hj. subst hops1. rewrite testbit_get_upd by lia.
    destruct (Z.eqb_spec h b) as [-> | Hne]; cbn [andb].
    - rewrite Ej, xor_bit_testbit, ltb_HopSize by lia. reflexivity.
    - now rewrite xorb_false_r. }
  apply (WF_unlink Key hash key0 hs); auto; subst s'; proj; fold b.
  - subst hops2. now rewrite Zlen_upd, L1.
  - subst hops2. apply range_upd; try lia; [|apply hop_word_range].
    subst hops1. apply range_upd; try lia.
    + apply (WF_range Key hash key0 hs W).
    + unfold HopscotchBase.xor_bit. apply hop_word_range.
  - intros h j Hh Hj. unfold HopSet.hop_bit. proj.
    subst hops2. rewrite testbit_get_upd by lia.
    destruct (Z.eqb_spec h index) as [-> | Hne]; cbn [andb].
    + rewrite xor_one_testbit, ltb_HopSize, B1 by lia. cbn [andb].
      destruct (Z.eqb_spec j 0) as [-> | Hj0].
      * eqb_false 0 (index - b + 1). rewrite andb_false_r.
        now rewrite xorb_false_r.
      * now rewrite orb_false_r, xorb_false_r.
    + rewrite B1 by lia. now rewrite orb_false_r.
  - pose proof (live_count_pos (HopSet.hops_ s) index ltac:(lia) Hlidx) as Hp.
    pose proof (live_count_le (HopSet.hops_ s)) as Hle.
    pose proof (HopSet.wf_size W) as Hsz. cbv beta iota in Hsz.
    pose proof (cap_bounds Key hash key0 hs W) as Hcb.
    apply u32_small. pows. lia.
  - subst hops2. rewrite live_count_upd by lia.
    rewrite xor_one_testbit, ltb_HopSize, B1 by lia. cbn [andb].
    eqb_false 0 (index - b + 1). rewrite andb_false_r, xorb_false_r.
    unfold HopSet.live in Hlidx. rewrite Hlidx. cbn.
    subst hops1. rewrite live_count_upd by lia.
    rewrite Ej, xor_bit_testbit, ltb_HopSize by lia. cbn [andb].
    eqb_false 0 (index - b + 1). rewrite xorb_false_r. lia.
Qed.

End SetSteps.

(** ** Growth of the capacity *)

Lemma cap_rel_refl (c : Z) : HopSet.cap_rel c c.
Proof. exists 0%nat. reflexivity. Qed.

Lemma cap_rel_double (c : Z) : HopSet.cap_rel c (u32 (c * 2)).
Proof. exists 1%nat. reflexivity. Qed.

Lemma cap_rel_trans (a b c : Z) :
  HopSet.cap_rel a b -> HopSet.cap_rel b c -> HopSet.cap_rel a c.
Proof.
  intros [j ->] [k ->]. exists (k + j)%nat.
  symmetry. apply Nat.iter_add.
Qed.

Lemma cap_rel_zero (c : Z) : HopSet.cap_rel 0 c -> c = 0.
Proof.
  intros [j ->]. induction j as [|j IH]; [reflexivity|].
  rewrite Nat.iter_succ, IH. reflexivity.
Qed.

(** Doubling a power of two in 32-bit arithmetic gives a larger power of two
    or wraps to 0. *)
Lemma cap_rel_pow2 (c c' a : Z) :
  0 <= a <= 31 -> c = 2 ^ a -> HopSet.cap_rel c c' -> c' <> 0 ->
  exists a', a <= a' <= 31 /\ c' = 2 ^ a'.
Proof.
  intros Ha -> [j ->]. revert a Ha. induction j as [|j IH]; intros a Ha Hne.
  - exists a. split; [lia | reflexivity].
  - rewrite Nat.iter_succ_r in Hne |- *.
    destruct (Z.eq_dec a 31) as [-> | Hlt].
    + exfalso. apply Hne.
      change (u32 (2 ^ 31 * 2)) with 0.
      apply cap_rel_zero. exists j. reflexivity.
    + assert (E : u32 (2 ^ a * 2) = 2 ^ (a + 1)).
      { rewrite Z.pow_add_r, Z.pow_1_r by lia. apply u32_small.
        split; [assert (0 < 2 ^ a) by (apply Z.pow_pos_nonneg; lia); lia|].
        rewrite <- (Z.pow_1_r 2) at 2. rewrite <- Z.pow_add_r by lia.
        apply Z.pow_lt_mono_r; lia. }
      rewrite E in Hne |- *.
      destruct (IH (a + 1) ltac:(lia) Hne) as (a' & Ha' & E').
      exists a'. split; [lia | exact E'].
Qed.

Section SetGrowth.
Variable Key : Type.
Variable key_eqb : Key -> Key -> bool.
Variable hash : Key -> Z.
Variable key0 : Key.
Variable moved_from : Key -> Key.
Variable hs : hop_size.

Local Abbreviation t := (HopSet.t Key).
Local Abbreviation cap := (@HopSet.capacity_ Key).
Local Abbreviation displace := (HopSet.displace key0 moved_from hs).
Local Abbreviation expand_loop := (HopSet.expand_loop key0).
Local Abbreviation expand_with := (HopSet.expand_with key0 hs).
Local Abbreviation insert_body := (HopSet.insert_body key_eqb hash key0 moved_from hs).
Local Abbreviation insert := (HopSet.insert key_eqb hash key0 moved_from hs).

Ltac proj :=
  cbn [HopSet.keys_ HopSet.hops_ HopSet.size_ HopSet.capacity_
       HopSet.destroyed_] in *.

Local Abbreviation cap_grows := (@HopSet.cap_grows Key).

Lemma displace_cap (n : nat) (s : t) (b idx : Z) (s2 : t) (idx2 : Z) (f : bool) :
  displace n s b idx = (s2, idx2, f) -> cap s2 = cap s.
Proof.
  revert s idx. induction n as [|n IH]; intros s idx E; cbn [HopSet.displace] in E.
  - now inversion E.
  - destruct (idx >? _); [|now inversion E].
    destruct (HopscotchBase.find_displaceable hs (HopSet.hops_ s) idx)
      as [cursor offset].
    destruct (offset >=? idx); [now inversion E|].
    apply IH in E. exact E.
Qed.

Lemma expand_loop_cap rec (K : list Key) (H : list Z) (n : nat) (iter : Z)
      (s s' : t) :
  cap_grows rec -> expand_loop rec K H n iter s = Some s' ->
  HopSet.cap_rel (cap s) (cap s').
Proof.
  intros Hrec. revert iter s. induction n as [|n IH]; intros iter s E;
    cbn [HopSet.expand_loop] in E.
  - inversion E. apply cap_rel_refl.
  - destruct (Z.testbit (get 0 H iter) 0).
    + destruct (rec s (get key0 K iter)) as [[s1 b1]|] eqn:E1; [|discriminate].
      apply (cap_rel_trans (cap s) (cap s1) (cap s')).
      * exact (Hrec _ _ _ _ E1).
      * exact (IH _ _ E).
    + exact (IH _ _ E).
Qed.

Lemma expand_with_cap rec (s s' : t) :
  cap_grows rec -> expand_with rec s = Some s' ->
  HopSet.cap_rel (cap s) (cap s').
Proof.
  intros Hrec E. unfold HopSet.expand_with in E.
  apply expand_loop_cap in E; [|exact Hrec]. proj.
  apply (cap_rel_trans _ (u32 (cap s * 2))); [apply cap_rel_double | exact E].
Qed.

Lemma insert_body_cap rec : cap_grows rec -> cap_grows (insert_body rec).
Proof.
  intros Hrec s k s' b E. unfold HopSet.insert_body in E.
  destruct (negb _). { inversion E. apply cap_rel_refl. }
  match type of E with
  | context [HopscotchBase.probe_loop ?n ?h ?pe ?i] =>
      set (idx := HopscotchBase.probe_loop n h pe i) in *
  end.
  destruct (idx =? _).
  - destruct (expand_with rec s) as [s1|] eqn:E1; [|discriminate].
    apply (cap_rel_trans _ (cap s1)).
    + exact (expand_with_cap _ _ _ Hrec E1).
    + exact (Hrec _ _ _ _ E).
  - match type of E with
    | context [HopSet.displace ?k0 ?mf ?h ?n ?s1 ?b ?i] =>
        destruct (HopSet.displace k0 mf h n s1 b i) as [[s2 idx2] [|]] eqn:Ed
    end.
    + apply displace_cap in Ed. inversion E. subst s'. proj.
      rewrite Ed. unfold HopSet.set_hops. proj. apply cap_rel_refl.
    + apply displace_cap in Ed.
      match type of E with
      | context [HopSet.expand_with ?k0 ?h ?r ?s3] =>
          destruct (HopSet.expand_with k0 h r s3) as [s4|] eqn:E4;
          [|discriminate]
      end.
      apply expand_with_cap in E4; [|exact Hrec]. apply Hrec in E.
      unfold HopSet.set_hops in *. proj. rewrite Ed in E4.
      apply (cap_rel_trans _ (cap s4)); assumption.
Qed.

Lemma insert_cap (fuel : nat) : cap_grows (insert fuel).
Proof.
  induction fuel as [|fuel IH].
  - intros s k s' b E. discriminate.
  - exact (insert_body_cap _ IH).
Qed.

End SetGrowth.

(** ** insert, expand and remove keep the invariant *)

Section SetInsert.
Variable Key : Type.
Variable key_eqb : Key -> Key -> bool.
Variable hash : Key -> Z.
Variable key0 : Key.
Variable moved_from : Key -> Key.
Variable hs : hop_size.
Hypothesis key_eqb_spec : forall a b, key_eqb a b = true <-> a = b.

Local Abbreviation t := (HopSet.t Key).
Local Abbreviation hb := (hop_bucket hs).
Local Abbreviation WF := (HopSet.WF hash key0 hs).
Local Abbreviation mem := (HopSet.mem key0 hs).
Local Abbreviation live := (@HopSet.live Key).
Local Abbreviation key_at := (HopSet.key_at key0).
Local Abbreviation hop_bit := (@HopSet.hop_bit Key).
Local Abbreviation bucket := (HopSet.get_bucket_index hash).
Local Abbreviation cap := (@HopSet.capacity_ Key).
Local Abbreviation find_internal := (HopSet.find_internal key_eqb key0 hs).
Local Abbreviation end_index := (HopSet.end_index hs).
Local Abbreviation has := (HopSet.has key_eqb hash key0 hs).
Local Abbreviation displace := (HopSet.displace key0 moved_from hs).
Local Abbreviation expand_loop := (HopSet.expand_loop key0).
Local Abbreviation expand_with := (HopSet.expand_with key0 hs).
Local Abbreviation insert_body := (HopSet.insert_body key_eqb hash key0 moved_from hs).
Local Abbreviation insert := (HopSet.insert key_eqb hash key0 moved_from hs).
Local Abbreviation remove := (HopSet.remove key_eqb hash key0 hs).
Local Abbreviation insert_ok := (HopSet.insert_ok key_eqb hash key0 hs).
Local Abbreviation cap_grows := (@HopSet.cap_grows Key).

Ltac proj :=
  cbn [HopSet.keys_ HopSet.hops_ HopSet.size_ HopSet.capacity_
       HopSet.destroyed_] in *.

Lemma displace_ok (n : nat) (s : t) (b idx : Z) (s2 : t) (idx2 : Z) (flag : bool) :
  WF (Some idx) s -> 0 <= b < cap s -> b <= idx ->
  idx - (b + hb - 1) <= Z.of_nat n ->
  displace n s b idx = (s2, idx2, flag) ->
  WF (Some idx2) s2 /\ cap s2 = cap s /\ b <= idx2
  /\ (forall k, mem (Some idx2) s2 k <-> mem (Some idx) s k)
  /\ (flag = true -> idx2 <= b + hb - 1).
Proof.
  revert s idx. induction n as [|n IH]; intros s idx W Hb Hbi Hn E;
    cbn [HopSet.displace] in E.
  - inversion E; subst.
    split; [|split; [|split; [|split]]]; auto; try tauto; try (intros _; lia).
  - pose proof (hop_bucket_range hs) as Hhb.
    pose proof (cap_bounds Key hash key0 hs W) as Hcb. pows.
    destruct (HopSet.wf_hole W eq_refl) as [Hidx Hlidx].
    rewrite (u32_small (b + hb)) in E by lia.
    rewrite (u32_small (b + hb - 1)) in E by lia.
    destruct (Z.gtb_spec idx (b + hb - 1)) as [Hgt | Hle].
    + destruct (HopscotchBase.find_displaceable hs (HopSet.hops_ s) idx)
        as [cursor offset] eqn:Ef.
      destruct (find_displaceable_spec hs (HopSet.hops_ s) idx ltac:(lia)
                  cursor offset Ef) as [Ho Hfound].
      destruct (Z.geb_spec offset idx) as [Hge | Hlt].
      * inversion E; subst.
        split; [|split; [|split; [|split]]]; auto; try tauto; try discriminate.
      * destruct (Hfound Hlt) as [Hc Hbit].
        destruct (move_ok Key hash key0 moved_from hs s idx offset cursor W
                    ltac:(lia) ltac:(lia) ltac:(lia) Hlt Hbit) as [W' Hm'].
        apply IH in E; auto; proj; try lia.
        destruct E as (W2 & Ec & Hb2 & Hm2 & Hf2).
        split; [|split; [|split; [|split]]]; auto.
        intros k. rewrite Hm2. apply Hm'.
    + inversion E; subst.
      split; [|split; [|split; [|split]]]; auto; try tauto; try (intros _; lia).
Qed.

(** A freshly allocated table of capacity [c]. *)
Lemma WF_fresh (c : Z) (d : list Z) :
  (exists j, 0 <= j <= 31 /\ c = 2 ^ j) ->
  let s0 := {| HopSet.keys_ := calloc key0 (u32 (c + hb));
               HopSet.hops_ := calloc 0 (u32 (c + hb));
               HopSet.size_ := 0;
               HopSet.capacity_ := c;
               HopSet.destroyed_ := d |} in
  WF None s0 /\ (forall k, ~ mem None s0 k).
Proof.
  intros Hc s0. pose proof (hop_bucket_range hs) as Hhb. pows.
  assert (Hcb : 1 <= c <= 2 ^ 31).
  { destruct Hc as (j & Hj & ->). split.
    - assert (0 < 2 ^ j) by (apply Z.pow_pos_nonneg; lia). lia.
    - apply Z.pow_le_mono_r; lia. }
  assert (El : u32 (c + hb) = c + hb) by (apply u32_small; lia).
  assert (Hdead : forall i j, HopSet.hop_bit s0 i j = false).
  { intros i j. unfold HopSet.hop_bit. subst s0. proj.
    rewrite get_calloc. apply Z.testbit_0_l. }
  split.
  - constructor; subst s0; proj.
    + exact Hc.
    + rewrite El. apply Zlen_calloc. lia.
    + rewrite El. apply Zlen_calloc. lia.
    + intros i Hi. rewrite get_calloc. split; [lia|].
      apply Z.pow_pos_nonneg; [lia|]. destruct hs; simpl; lia.
    + intros h j _ _ Hb. rewrite Hdead in Hb. discriminate.
    + intros i _ Hl. change (HopSet.live ?s i) with (HopSet.hop_bit s i 0) in Hl.
      rewrite Hdead in Hl. discriminate.
    + intros i j _ _ Hl.
      change (HopSet.live ?s i) with (HopSet.hop_bit s i 0) in Hl.
      rewrite Hdead in Hl. discriminate.
    + now rewrite live_count_calloc.
    + discriminate.
  - intros k (i & _ & Hl & _).
    change (HopSet.live s0 i) with (HopSet.hop_bit s0 i 0) in Hl.
    rewrite Hdead in Hl. discriminate.
Qed.

Lemma expand_loop_ok rec (K : list Key) (H : list Z) (n : nat) (iter : Z)
      (s s' : t) (len : Z) :
  insert_ok rec -> WF None s ->
  0 <= iter -> iter + Z.of_nat n = len -> len < 2 ^ 32 ->
  expand_loop rec K H n iter s = Some s' -> cap s' <> 0 ->
  WF None s'
  /\ (forall k, mem None s' k <->
        mem None s k
        \/ exists i, iter <= i < len /\ Z.testbit (get 0 H i) 0 = true
                     /\ get key0 K i = k).
Proof.
  intros Hrec. revert iter s. induction n as [|n IH]; intros iter s W Hi Hn Hl E Hc;
    cbn [HopSet.expand_loop] in E.
  - inversion E; subst. split; auto. intros k. split; auto.
    intros [Hm | (i & Hr & _)]; auto. lia.
  - assert (Hcap : cap_grows rec).
    { intros a k a' b Ea. exact (proj1 (Hrec _ _ _ _ Ea)). }
    rewrite (u32_small (iter + 1)) in E by lia.
    destruct (Z.testbit (get 0 H iter) 0) eqn:Hb.
    + destruct (rec s (get key0 K iter)) as [[s1 b1]|] eqn:E1; [|discriminate].
      destruct (Hrec _ _ _ _ E1) as [_ Hok].
      assert (Hc1 : cap s1 <> 0).
      { intros Ez. apply Hc. apply cap_rel_zero. rewrite <- Ez.
        exact (expand_loop_cap Key key0 rec K H n (iter + 1) s1 s' Hcap E). }
      destruct (Hok W Hc1) as (W1 & Hm1 & _).
      destruct (IH (iter + 1) s1 W1 ltac:(lia) ltac:(lia) Hl E Hc) as [W' Hm'].
      split; auto. intros k. rewrite Hm', Hm1. split.
      * intros [[Hm | ->] | (i & Hr & Hbi & Hk)]; auto.
        -- right. exists iter. repeat split; auto; lia.
        -- right. exists i. repeat split; auto; lia.
      * intros [Hm | (i & Hr & Hbi & Hk)]; auto.
        destruct (Z.eq_dec i iter) as [-> | Hne]; auto.
        right. exists i. repeat split; auto; lia.
    + destruct (IH (iter + 1) s W ltac:(lia) ltac:(lia) Hl E Hc) as [W' Hm'].
      split; auto. intros k. rewrite Hm'. split.
      * intros [Hm | (i & Hr & Hbi & Hk)]; auto.
        right. exists i. repeat split; auto; lia.
      * intros [Hm | (i & Hr & Hbi & Hk)]; auto.
        destruct (Z.eq_dec i iter) as [-> | Hne]; [congruence|].
        right. exists i. repeat split; auto; lia.
Qed.

Lemma expand_with_ok rec (s s' : t) :
  insert_ok rec -> WF None s ->
  expand_with rec s = Some s' -> cap s' <> 0 ->
  WF None s' /\ (forall k, mem None s' k <-> mem None s k).
Proof.
  intros Hrec W E Hc. pose proof (hop_bucket_range hs) as Hhb.
  pose proof (cap_bounds Key hash key0 hs W) as Hcb. pows.
  assert (Hcap : cap_grows rec).
  { intros a k a' b Ea. exact (proj1 (Hrec _ _ _ _ Ea)). }
  unfold HopSet.expand_with in E.
  rewrite (u32_small (cap s + hb)) in E by lia.
  assert (Hc2 : exists j, 0 <= j <= 31 /\ u32 (cap s * 2) = 2 ^ j).
  { destruct (HopSet.wf_cap W) as (a & Ha & Ea).
    destruct (cap_rel_pow2 (cap s) (u32 (cap s * 2)) a Ha Ea
                (cap_rel_double _)) as (a' & Ha' & Ea').
    - intros Ez. apply Hc. apply cap_rel_zero.
      apply expand_loop_cap in E; [|exact Hcap]. proj.
      rewrite Ez in E. exact E.
    - exists a'. split; [lia | exact Ea']. }
  destruct (WF_fresh (u32 (cap s * 2)) (HopSet.destroyed_ s) Hc2) as [W0 Hm0].
  destruct (expand_loop_ok rec (HopSet.keys_ s) (HopSet.hops_ s)
              (Z.to_nat (cap s + hb)) 0 _ s'
              (cap s + hb) Hrec W0 ltac:(lia) ltac:(lia) ltac:(lia) E Hc)
    as [W' Hm'].
  split; auto. intros k. rewrite Hm'. split.
  - intros [Hm | (i & Hr & Hbi & Hk)]; [now apply Hm0 in Hm|].
    exists i. repeat split; auto; try lia; discriminate.
  - intros (i & Hr & Hbi & _ & Hk). right. exists i. repeat split; auto; lia.
Qed.


(** [expand(); return insert(key);] for a key that is not in the table. *)
Lemma grow_retry_ok rec (s s' : t) (k : Key) (b : bool) :
  insert_ok rec -> WF None s -> ~ mem None s k ->
  match expand_with rec s with
  | None => None
  | Some s1 => rec s1 k
  end = Some (s', b) ->
  cap s' <> 0 ->
  WF None s' /\ (forall k', mem None s' k' <-> mem None s k' \/ k' = k)
  /\ b = true.
Proof.
  intros Hrec W Hnew E Hc.
  destruct (expand_with rec s) as [s1|] eqn:E1; [|discriminate].
  destruct (Hrec _ _ _ _ E) as [Hrel Hok].
  assert (Hc1 : cap s1 <> 0).
  { intros Ez. apply Hc. apply cap_rel_zero. now rewrite <- Ez. }
  destruct (expand_with_ok rec s s1 Hrec W E1 Hc1) as [W1 Hm1].
  destruct (Hok W1 Hc) as (W' & Hm' & Hb).
  split; [exact W'|]. split.
  - intros k'. rewrite Hm', Hm1. tauto.
  - rewrite Hb. apply negb_true_iff.
    apply (has_false_iff Key key_eqb hash key0 hs key_eqb_spec k W1).
    rewrite Hm1. exact Hnew.
Qed.

Lemma insert_body_ok rec : insert_ok rec -> insert_ok (insert_body rec).
Proof.
  intros Hrec s k s' b E.
  assert (Hcap : cap_grows rec).
  { intros a x a' y Ea. exact (proj1 (Hrec _ _ _ _ Ea)). }
  split.
  { exact (insert_body_cap Key key_eqb hash key0 moved_from hs rec Hcap s k s' b E). }
  intros W Hc. pose proof (hop_bucket_range hs) as Hhb.
  pose proof (probe_max_range hs) as Hpm.
  pose proof (cap_bounds Key hash key0 hs W) as Hcb. pows.
  pose proof (bucket_range Key hash key0 hs k W) as Hbr.
  pose proof (end_index_eq Key hash key0 hs W) as Hend.
  pose proof (hops_len Key hash key0 hs W) as HL.
  unfold HopSet.insert_body in E.
  change (negb (HopSet.find_internal key_eqb key0 hs s (bucket s k) k
                =? HopSet.end_index hs s)) with (has s k) in E.
  destruct (has s k) eqn:Hhas.
  { inversion E; subst s' b. split; [exact W|]. split; [|reflexivity].
    intros k'. split; [tauto|]. intros [Hm | ->]; [exact Hm|].
    now apply (has_iff_mem Key key_eqb hash key0 hs key_eqb_spec k W). }
  assert (Hnew : ~ mem None s k)
    by now apply (has_false_iff Key key_eqb hash key0 hs key_eqb_spec k W).
  set (b0 := bucket s k) in *.
  rewrite (u32_small (b0 + probe_max hs)) in E by lia. rewrite Hend in E.
  set (pe := if b0 + probe_max hs >? cap s + hb then cap s + hb
             else b0 + probe_max hs) in *.
  assert (Hpe : b0 <= pe <= cap s + hb).
  { subst pe. destruct (Z.gtb_spec (b0 + probe_max hs) (cap s + hb)); lia. }
  destruct (probe_loop_spec (Z.to_nat (pe - b0)) (HopSet.hops_ s) pe b0
              ltac:(lia) ltac:(lia) ltac:(lia)) as [Hidx Hfree].
  set (idx := HopscotchBase.probe_loop _ (HopSet.hops_ s) pe b0) in *.
  destruct (Z.eqb_spec idx pe) as [Heq | Hne].
  { destruct (grow_retry_ok rec s s' k b Hrec W Hnew E Hc) as (W' & Hm' & ->).
    auto. }
  destruct (reserve_ok Key hash key0 hs s idx W ltac:(lia) (Hfree ltac:(lia)))
    as [W1 Hm1].
  match type of E with
  | context [HopSet.displace ?k0 ?mf ?h ?n ?s1 ?b ?i] =>
      destruct (HopSet.displace k0 mf h n s1 b i) as [[s2 idx2] flag] eqn:Ed
  end.
  destruct (displace_ok (Z.to_nat idx) _ b0 idx s2 idx2 flag W1 Hbr
              ltac:(lia) ltac:(lia) Ed)
    as (W2 & Ec2 & Hb2 & Hm2 & Hf2).
  unfold HopSet.set_hops in Ec2. proj.
  assert (Hnew2 : ~ mem (Some idx2) s2 k) by (rewrite Hm2, Hm1; exact Hnew).
  destruct flag.
  - specialize (Hf2 eq_refl).
    assert (Eb : bucket s2 k = b0) by (apply bucket_cap; exact Ec2).
    destruct (place_ok Key hash key0 hs s2 idx2 b0 k W2 Eb Hb2 Hf2 Hnew2)
      as [W' Hm'].
    inversion E; subst s' b. split; [exact W'|]. split; [|reflexivity].
    intros k'. rewrite Hm', Hm2, Hm1. tauto.
  - destruct (unreserve_ok Key hash key0 hs s2 idx2 W2) as [W3 Hm3].
    assert (Hnew3 : ~ mem None
              (HopSet.set_hops s2
                 (upd (HopSet.hops_ s2) idx2
                      (hop_word hs (Z.lxor (get 0 (HopSet.hops_ s2) idx2) 1)))) k)
      by (rewrite Hm3; exact Hnew2).
    destruct (grow_retry_ok rec _ s' k b Hrec W3 Hnew3 E Hc) as (W' & Hm' & ->).
    split; [exact W'|]. split; [|reflexivity].
    intros k'. rewrite Hm', Hm3, Hm2, Hm1. tauto.
Qed.

(** [insert] keeps the invariant and adds exactly its key. *)
Lemma insert_spec (fuel : nat) : insert_ok (insert fuel).
Proof.
  induction fuel as [|fuel IH].
  - intros s k s' b E. discriminate.
  - exact (insert_body_ok _ IH).
Qed.

End SetInsert.

(** ** Membership after insert and remove *)

Lemma bool_eq_iff (a b : bool) : (a = true <-> b = true) -> a = b.
Proof.
  destruct a, b; intros [H1 H2]; auto. symmetry. auto.
Qed.

Section SetMembership.
Variable Key : Type.
Variable key_eqb : Key -> Key -> bool.
Variable hash : Key -> Z.
Variable key0 : Key.
Variable moved_from : Key -> Key.
Variable hs : hop_size.
Hypothesis key_eqb_spec : forall a b, key_eqb a b = true <-> a = b.

Local Abbreviation t := (HopSet.t Key).
Local Abbreviation hb := (hop_bucket hs).
Local Abbreviation WF := (HopSet.WF hash key0 hs).
Local Abbreviation mem := (HopSet.mem key0 hs).
Local Abbreviation live := (@HopSet.live Key).
Local Abbreviation key_at := (HopSet.key_at key0).
Local Abbreviation hop_bit := (@HopSet.hop_bit Key).
Local Abbreviation bucket := (HopSet.get_bucket_index hash).
Local Abbreviation cap := (@HopSet.capacity_ Key).
Local Abbreviation find_internal := (HopSet.find_internal key_eqb key0 hs).
Local Abbreviation find_index := (HopSet.find_index key_eqb hash key0 hs).
Local Abbreviation end_index := (HopSet.end_index hs).
Local Abbreviation has := (HopSet.has key_eqb hash key0 hs).
Local Abbreviation insert := (HopSet.insert key_eqb hash key0 moved_from hs).
Local Abbreviation remove := (HopSet.remove key_eqb hash key0 hs).

Ltac proj :=
  cbn [HopSet.keys_ HopSet.hops_ HopSet.size_ HopSet.capacity_
       HopSet.destroyed_] in *.

Lemma has_mem {s : t} (W : WF None s) (k : Key) : has s k = true <-> mem None s k.
Proof. exact (has_iff_mem Key key_eqb hash key0 hs key_eqb_spec k W). Qed.

Lemma remove_absent (s : t) (k : Key) :
  has s k = false -> remove s k = (s, false).
Proof.
  intros H. unfold HopSet.remove.
  change (negb (HopSet.find_internal key_eqb key0 hs s (bucket s k) k
                =? HopSet.end_index hs s)) with (has s k).
  now rewrite H.
Qed.

Lemma remove_spec (s : t) (k : Key) :
  WF None s ->
  WF None (fst (remove s k))
  /\ (forall k', mem None (fst (remove s k)) k' <-> mem None s k' /\ k' <> k)
  /\ snd (remove s k) = has s k
  /\ cap (fst (remove s k)) = cap s
  /\ HopSet.keys_ (fst (remove s k)) = HopSet.keys_ s
  /\ (forall i, 0 <= i < cap s + hb ->
        live (fst (remove s k)) i = live s i && negb (i =? find_index s k)).
Proof.
  intros W. destruct (has s k) eqn:Hhas.
  - assert (Hne : find_internal s (bucket s k) k <> end_index s).
    { unfold HopSet.has in Hhas. apply negb_true_iff, Z.eqb_neq in Hhas.
      exact Hhas. }
    destruct (find_internal_found Key key_eqb hash key0 hs key_eqb_spec k W Hne)
      as (Hi & Hl & _ & Hk).
    unfold HopSet.remove.
    change (negb (HopSet.find_internal key_eqb key0 hs s (bucket s k) k
                  =? HopSet.end_index hs s)) with (has s k).
    rewrite Hhas. cbn [fst snd].
    set (index := HopSet.find_internal key_eqb key0 hs s (bucket s k) k) in *.
    pose proof (unlink_ok Key hash key0 hs s index W Hi Hl) as Hu.
    cbv zeta in Hu. rewrite Hk in Hu. destruct Hu as (W' & Hm' & Hl').
    split; [exact W'|]. split; [exact Hm'|]. split; [reflexivity|].
    split; [reflexivity|]. split; [reflexivity|]. exact Hl'.
  - rewrite (remove_absent s k Hhas). cbn [fst snd].
    assert (Hnm : ~ mem None s k)
      by now apply (has_false_iff Key key_eqb hash key0 hs key_eqb_spec k W).
    split; [exact W|]. split; [|split; [reflexivity|]].
    + intros k'. split; [|tauto]. intros Hm. split; [exact Hm|].
      intros ->. contradiction.
    + split; [reflexivity|]. split; [reflexivity|].
      intros i Hi. unfold HopSet.has in Hhas.
      apply negb_false_iff, Z.eqb_eq in Hhas.
      unfold HopSet.find_index. rewrite Hhas.
      rewrite (end_index_eq Key hash key0 hs W).
      eqb_false i (cap s + hb). now rewrite andb_true_r.
Qed.

Lemma has_insert (fuel : nat) (s s' : t) (k : Key) (b : bool) :
  WF None s -> insert fuel s k = Some (s', b) -> cap s' <> 0 ->
  WF None s' /\ (forall k', has s' k' = has s k' || key_eqb k' k)
  /\ b = negb (has s k).
Proof.
  intros W E Hc.
  destruct (insert_spec Key key_eqb hash key0 moved_from hs key_eqb_spec
              fuel s k s' b E) as [_ Hok].
  destruct (Hok W Hc) as (W' & Hm & Hb).
  split; [exact W'|]. split; [|exact Hb].
  intros k'. apply bool_eq_iff.
  rewrite (has_mem W'), Hm, orb_true_iff, (has_mem W), key_eqb_spec. tauto.
Qed.

Lemma has_remove (s : t) (k : Key) :
  WF None s ->
  forall k', has (fst (remove s k)) k' = has s k' && negb (key_eqb k' k).
Proof.
  intros W k'. destruct (remove_spec s k W) as (W' & Hm & _).
  apply bool_eq_iff.
  rewrite (has_mem W'), Hm, andb_true_iff, (has_mem W), negb_true_iff.
  rewrite (key_eqb_false Key key_eqb key_eqb_spec). tauto.
Qed.

End SetMembership.

(** ** The executable invariant *)

Lemma forall_range_spec (n : Z) (p : Z -> bool) :
  HopSet.forall_range n p = true <-> (forall i, 0 <= i < n -> p i = true).
Proof.
  unfold HopSet.forall_range. rewrite forallb_forall. split.
  - intros H i Hi. specialize (H (Z.to_nat i)).
    rewrite Z2Nat.id in H by lia. apply H. apply in_seq. lia.
  - intros H x Hx. apply in_seq in Hx. apply H. lia.
Qed.

Lemma cap_ok_spec (c : Z) :
  HopSet.cap_ok c = true <-> exists j, 0 <= j <= 31 /\ c = 2 ^ j.
Proof.
  unfold HopSet.cap_ok. rewrite !andb_true_iff, !Z.leb_le, Z.eqb_eq. split.
  - intros [[H1 H2] H3]. exists (Z.log2 c). split; [|exact H3].
    split; [apply Z.log2_nonneg|].
    destruct (Z.le_gt_cases (Z.log2 c) 31) as [|Hgt]; [assumption|].
    assert (2 ^ 31 < 2 ^ Z.log2 c) by (apply Z.pow_lt_mono_r; lia). lia.
  - intros (j & Hj & ->).
    assert (0 < 2 ^ j) by (apply Z.pow_pos_nonneg; lia).
    rewrite Z.log2_pow2 by lia. repeat split; try lia.
    apply Z.pow_le_mono_r; lia.
Qed.

Section SetWf.
Variable Key : Type.
Variable key_eqb : Key -> Key -> bool.
Variable hash : Key -> Z.
Variable key0 : Key.
Variable hs : hop_size.
Hypothesis key_eqb_spec : forall a b, key_eqb a b = true <-> a = b.

Local Abbreviation t := (HopSet.t Key).
Local Abbreviation hb := (hop_bucket hs).
Local Abbreviation WF := (HopSet.WF hash key0 hs).
Local Abbreviation wf := (HopSet.wf key_eqb hash key0 hs).
Local Abbreviation live := (@HopSet.live Key).
Local Abbreviation key_at := (HopSet.key_at key0).
Local Abbreviation hop_bit := (@HopSet.hop_bit Key).
Local Abbreviation bucket := (HopSet.get_bucket_index hash).
Local Abbreviation cap := (@HopSet.capacity_ Key).
Local Abbreviation find_index := (HopSet.find_index key_eqb hash key0 hs).

Lemma bucket_range_cap (s : t) (k : Key) :
  (exists j, 0 <= j <= 31 /\ cap s = 2 ^ j) -> 0 <= bucket s k < cap s.
Proof.
  intros (j & Hj & E).
  unfold HopSet.get_bucket_index, HopscotchBase.get_bucket_index. pows.
  assert (0 < 2 ^ j) by (apply Z.pow_pos_nonneg; lia).
  assert (2 ^ j <= 2 ^ 31) by (apply Z.pow_le_mono_r; lia).
  rewrite (u32_small (cap s - 1)) by lia.
  rewrite E in *. replace (2 ^ j - 1) with (Z.ones j)
    by (rewrite Z.ones_equiv; lia).
  rewrite Z.land_ones by lia.
  assert (0 <= u64 (hash k) mod 2 ^ j < 2 ^ j)
    by (apply Z.mod_pos_bound; lia).
  rewrite u32_small by lia. assumption.
Qed.

Lemma wf_WF (s : t) : wf s = true -> WF None s.
Proof.
  unfold HopSet.wf. rewrite !andb_true_iff, !Z.eqb_eq.
  intros [[[[[[Hc Hk] Hh] Hr] Ho] Hf] Hs].
  apply cap_ok_spec in Hc. rewrite forall_range_spec in Hr, Ho, Hf.
  pose proof (hop_bucket_range hs) as Hhb. pows.
  assert (Hcb : 1 <= cap s <= 2 ^ 31).
  { destruct Hc as (j & Hj & ->). split.
    - assert (0 < 2 ^ j) by (apply Z.pow_pos_nonneg; lia). lia.
    - apply Z.pow_le_mono_r; lia. }
  assert (Hrange : forall i, 0 <= i < cap s + hb ->
            0 <= get 0 (HopSet.hops_ s) i < 2 ^ HopSize hs).
  { intros i Hi. specialize (Hr i Hi). apply andb_true_iff in Hr as [H1 H2].
    apply Z.leb_le in H1. apply Z.ltb_lt in H2. lia. }
  assert (Hfind : forall i, 0 <= i < cap s + hb -> live s i = true ->
            find_index s (key_at s i) = i).
  { intros i Hi Hl. specialize (Hf i Hi). cbv beta in Hf. rewrite Hl in Hf.
    apply Z.eqb_eq in Hf. exact Hf. }
  constructor.
  - exact Hc.
  - exact Hk.
  - exact Hh.
  - exact Hrange.
  - intros h j Hh' Hj Hb. specialize (Ho h Hh'). cbv beta in Ho.
    rewrite forall_range_spec in Ho. specialize (Ho (j - 1) ltac:(lia)).
    cbv beta zeta in Ho. replace (j - 1 + 1) with j in Ho by lia.
    rewrite Hb in Ho. cbn [implb] in Ho.
    rewrite !andb_true_iff, Z.ltb_lt, Z.eqb_eq in Ho.
    destruct Ho as [[H1 H2] H3]. repeat split; auto. discriminate.
  - intros i Hi Hl _. pose proof (Hfind i Hi Hl) as E.
    pose proof (bucket_range_cap s (key_at s i) Hc) as Hbr.
    unfold HopSet.find_index, HopSet.find_internal in E.
    destruct (find_internal_spec Key key_eqb key0 hs (HopSet.keys_ s)
                (HopSet.hops_ s) (cap s) (bucket s (key_at s i)) (key_at s i))
      as [(j & Hj & Ht & _ & _ & Hres) | (_ & Hres)].
    + apply Hrange. lia.
    + lia.
    + unfold hop_bucket in *. lia.
    + rewrite Hres in E.
      replace (i - bucket s (key_at s i) + 1) with j by lia.
      split; [lia|]. split; [lia|]. exact Ht.
    + rewrite Hres in E. unfold HopscotchBase.end_index in E.
      rewrite u32_small in E by lia. lia.
  - intros i j Hi Hj Hli Hlj _ _ E.
    rewrite <- (Hfind i Hi Hli), <- (Hfind j Hj Hlj). now rewrite E.
  - rewrite Hs. lia.
  - discriminate.
Qed.

Lemma WF_wf (s : t) : WF None s -> wf s = true.
Proof.
  intros W. unfold HopSet.wf. pose proof (hop_bucket_range hs) as Hhb.
  rewrite !andb_true_iff, !Z.eqb_eq. repeat split.
  - apply cap_ok_spec. exact (HopSet.wf_cap W).
  - exact (HopSet.wf_keys_len W).
  - exact (HopSet.wf_hops_len W).
  - apply forall_range_spec. intros i Hi.
    pose proof (WF_range Key hash key0 hs W i Hi) as [H1 H2].
    apply andb_true_iff. split; [apply Z.leb_le | apply Z.ltb_lt]; assumption.
  - apply forall_range_spec. intros h Hh. apply forall_range_spec.
    intros j0 Hj0. cbv zeta. destruct (hop_bit s h (j0 + 1)) eqn:Hb; [|reflexivity].
    cbn [implb].
    destruct (WF_owner Key hash key0 hs W h (j0 + 1) Hh ltac:(lia) Hb)
      as (H1 & H2 & H3 & _).
    rewrite !andb_true_iff, Z.ltb_lt, Z.eqb_eq. auto.
  - apply forall_range_spec. intros i Hi.
    destruct (live s i) eqn:Hl; [|reflexivity]. cbn [implb]. apply Z.eqb_eq.
    apply (find_internal_live Key key_eqb hash key0 hs key_eqb_spec W Hi Hl).
    discriminate.
  - rewrite (HopSet.wf_size W). lia.
Qed.

Lemma wf_iff_WF (s : t) : wf s = true <-> WF None s.
Proof. split; [apply wf_WF | apply WF_wf]. Qed.

End SetWf.

(** ** Iterators and range-based for *)

Lemma filter_none {A : Type} (p : A -> bool) (l : list A) :
  (forall x, In x l -> p x = false) -> filter p l = [].
Proof.
  induction l as [|a l IH]; intros H; [reflexivity|].
  cbn [filter]. rewrite (H a (or_introl eq_refl)). apply IH.
  intros x Hx. apply H. now right.
Qed.

Lemma fold_opt_some {A B : Type} (f : B -> A -> A) (l : list B) (a : A) :
  HopSet.fold_opt (fun e x => Some (f e x)) l a
  = Some (fold_left (fun x e => f e x) l a).
Proof. revert a. induction l as [|e l IH]; intros a; cbn; auto. Qed.

Section Iteration.
Variable Key : Type.
Variable key0 : Key.
Variable hs : hop_size.

Local Abbreviation t := (HopSet.t Key).
Local Abbreviation next := (HopscotchBase.next hs).
Local Abbreviation zs := (fun (i : Z) (n : nat) => map Z.of_nat (seq (Z.to_nat i) n)).

Lemma next_loop_spec (n : nat) (H : list Z) (c i : Z) :
  0 <= i <= HopscotchBase.end_index hs c ->
  Z.of_nat n = HopscotchBase.end_index hs c - i ->
  i <= HopscotchBase.next_loop hs n H c i <= HopscotchBase.end_index hs c
  /\ (HopscotchBase.next_loop hs n H c i < HopscotchBase.end_index hs c ->
      Z.testbit (get 0 H (HopscotchBase.next_loop hs n H c i)) 0 = true)
  /\ (forall j, i <= j < HopscotchBase.next_loop hs n H c i ->
                Z.testbit (get 0 H j) 0 = false).
Proof.
  set (L := HopscotchBase.end_index hs c).
  assert (HL : 0 <= L < 2 ^ 32) by apply u32_range.
  revert i. induction n as [|n IH]; intros i Hi Hn;
    cbn [HopscotchBase.next_loop]; fold L.
  - split; [lia|]. split; intros; lia.
  - destruct (Z.ltb_spec i L); cbn [andb]; [|lia].
    destruct (Z.testbit (get 0 H i) 0) eqn:Hb; cbn [negb].
    + split; [lia|]. split; [auto|]. intros; lia.
    + rewrite u32_small by lia.
      destruct (IH (i + 1) ltac:(lia) ltac:(lia)) as (H1 & H2 & H3).
      split; [lia|]. split; [exact H2|].
      intros j Hj. destruct (Z.eq_dec j i) as [-> | Hne]; [exact Hb|].
      apply H3. lia.
Qed.

Lemma next_spec (H : list Z) (c i : Z) :
  0 <= i <= HopscotchBase.end_index hs c ->
  i <= next H c i <= HopscotchBase.end_index hs c
  /\ (next H c i < HopscotchBase.end_index hs c ->
      Z.testbit (get 0 H (next H c i)) 0 = true)
  /\ (forall j, i <= j < next H c i -> Z.testbit (get 0 H j) 0 = false).
Proof.
  intros Hi. unfold HopscotchBase.next. apply next_loop_spec; lia.
Qed.

Lemma next_end (H : list Z) (c : Z) :
  next H c (HopscotchBase.end_index hs c) = HopscotchBase.end_index hs c.
Proof.
  pose proof (u32_range (c + hop_bucket hs)) as HL.
  fold (HopscotchBase.end_index hs c) in HL.
  destruct (next_spec H c (HopscotchBase.end_index hs c) ltac:(lia)) as [H1 _].
  lia.
Qed.

Lemma next_live (H : list Z) (c i : Z) :
  0 <= i < HopscotchBase.end_index hs c -> Z.testbit (get 0 H i) 0 = true ->
  next H c i = i.
Proof.
  intros Hi Hb. destruct (next_spec H c i ltac:(lia)) as (H1 & _ & H3).
  destruct (Z.eq_dec (next H c i) i) as [|Hne]; [assumption|].
  rewrite (H3 i ltac:(lia)) in Hb. discriminate.
Qed.

(** The live slots from [i] on start with [next i]. *)
Lemma live_from_next (H : list Z) (c i : Z) :
  0 <= i <= HopscotchBase.end_index hs c ->
  filter (fun j => Z.testbit (get 0 H j) 0)
         (zs i (Z.to_nat (HopscotchBase.end_index hs c - i)))
  = if next H c i <? HopscotchBase.end_index hs c
    then next H c i
         :: filter (fun j => Z.testbit (get 0 H j) 0)
                   (zs (next H c i + 1)
                       (Z.to_nat (HopscotchBase.end_index hs c - (next H c i + 1))))
    else [].
Proof.
  intros Hi. destruct (next_spec H c i Hi) as (H1 & H2 & H3).
  set (L := HopscotchBase.end_index hs c) in *. set (r := next H c i) in *.
  cbv beta.
  replace (Z.to_nat (L - i)) with (Z.to_nat (r - i) + Z.to_nat (L - r))%nat by lia.
  rewrite seq_app, map_app, filter_app.
  rewrite (filter_none _ (map Z.of_nat (seq (Z.to_nat i) (Z.to_nat (r - i))))).
  2:{ intros x Hx. apply in_map_iff in Hx as (m & <- & Hm).
      apply in_seq in Hm. apply H3. lia. }
  cbn [app]. replace (Z.to_nat i + Z.to_nat (r - i))%nat with (Z.to_nat r) by lia.
  destruct (Z.ltb_spec r L) as [Hlt | Hge].
  - replace (Z.to_nat (L - r)) with (S (Z.to_nat (L - (r + 1)))) by lia.
    cbn [seq map filter]. rewrite Z2Nat.id by lia. rewrite (H2 Hlt).
    replace (S (Z.to_nat r)) with (Z.to_nat (r + 1)) by lia. reflexivity.
  - replace (Z.to_nat (L - r)) with 0%nat by lia. reflexivity.
Qed.

Lemma range_for_opt_loop_fold {A : Type} (n : nat) (c : t)
      (body : Key -> A -> option A) (i : Z) (a : A) :
  0 <= i <= HopscotchBase.end_index hs (HopSet.capacity_ c) ->
  HopscotchBase.end_index hs (HopSet.capacity_ c)
  - next (HopSet.hops_ c) (HopSet.capacity_ c) i <= Z.of_nat n ->
  HopSet.range_for_opt_loop key0 hs n (fun _ => c) body
    (HopscotchBase.end_index hs (HopSet.capacity_ c))
    (next (HopSet.hops_ c) (HopSet.capacity_ c) i) a
  = HopSet.fold_opt body
      (map (HopSet.key_at key0 c)
           (filter (fun j => Z.testbit (get 0 (HopSet.hops_ c) j) 0)
              (zs i (Z.to_nat (HopscotchBase.end_index hs (HopSet.capacity_ c) - i)))))
      a.
Proof.
  pose proof (u32_range (HopSet.capacity_ c + hop_bucket hs)) as HL.
  fold (HopscotchBase.end_index hs (HopSet.capacity_ c)) in HL.
  revert i a. induction n as [|n IH]; intros i a Hi Hn;
    destruct (next_spec (HopSet.hops_ c) (HopSet.capacity_ c) i Hi)
      as (H1 & H2 & H3);
    rewrite (live_from_next (HopSet.hops_ c) (HopSet.capacity_ c) i Hi);
    cbn [HopSet.range_for_opt_loop].
  - destruct (Z.ltb_spec (next (HopSet.hops_ c) (HopSet.capacity_ c) i)
                         (HopscotchBase.end_index hs (HopSet.capacity_ c)));
      [lia|]. reflexivity.
  - set (L := HopscotchBase.end_index hs (HopSet.capacity_ c)) in *.
    set (r := next (HopSet.hops_ c) (HopSet.capacity_ c) i) in *.
    destruct (Z.eqb_spec r L) as [E | Hne].
    + rewrite E. rewrite Z.ltb_irrefl. reflexivity.
    + destruct (Z.ltb_spec r L); [|lia].
      cbn [map HopSet.fold_opt]. unfold HopSet.key_at at 1.
      destruct (body _ a) as [a'|]; [|reflexivity].
      rewrite u32_small by lia.
      destruct (next_spec (HopSet.hops_ c) (HopSet.capacity_ c) (r + 1))
        as (R1 & _ & _); [fold L; lia|].
      fold L in R1. apply IH; lia.
Qed.

Lemma range_for_opt_fold {A : Type} (c : t) (body : Key -> A -> option A) (a : A) :
  HopSet.range_for_opt key0 hs (fun _ => c) body a
  = HopSet.fold_opt body (HopSet.elements key0 hs c) a.
Proof.
  unfold HopSet.range_for_opt, HopSet.elements, HopSet.live_slots.
  unfold HopSet.end_, HopSet.begin_, HopSet.end_index.
  fold (HopscotchBase.end_index hs (HopSet.capacity_ c)).
  rewrite next_end.
  pose proof (u32_range (HopSet.capacity_ c + hop_bucket hs)) as HL.
  fold (HopscotchBase.end_index hs (HopSet.capacity_ c)) in HL.
  rewrite (range_for_opt_loop_fold _ c body 0 a); try lia.
  rewrite Z.sub_0_r. reflexivity.
Qed.

Lemma range_for_loop_total {A : Type} (n : nat) (view : A -> t)
      (body : Key -> A -> A) (last i : Z) (a : A) :
  HopSet.range_for_opt_loop key0 hs n view (fun e x => Some (body e x)) last i a
  = Some (HopSet.range_for_loop key0 hs n view body last i a).
Proof.
  revert i a. induction n as [|n IH]; intros i a;
    cbn [HopSet.range_for_opt_loop HopSet.range_for_loop]; auto.
  destruct (i =? last); auto.
Qed.

Lemma range_for_fold {A : Type} (c : t) (body : Key -> A -> A) (a : A) :
  HopSet.range_for key0 hs (fun _ => c) body a
  = fold_left (fun x e => body e x) (HopSet.elements key0 hs c) a.
Proof.
  pose proof (range_for_opt_fold c (fun e x => Some (body e x)) a) as E.
  unfold HopSet.range_for_opt in E. rewrite range_for_loop_total in E.
  rewrite fold_opt_some in E. injection E as E. exact E.
Qed.


Lemma range_any_loop_existsb (n : nat) (c : t) (p : Key -> bool) (i : Z) :
  0 <= i <= HopscotchBase.end_index hs (HopSet.capacity_ c) ->
  HopscotchBase.end_index hs (HopSet.capacity_ c)
  - next (HopSet.hops_ c) (HopSet.capacity_ c) i <= Z.of_nat n ->
  HopSet.range_any_loop key0 hs n c p
    (HopscotchBase.end_index hs (HopSet.capacity_ c))
    (next (HopSet.hops_ c) (HopSet.capacity_ c) i)
  = existsb p
      (map (HopSet.key_at key0 c)
           (filter (fun j => Z.testbit (get 0 (HopSet.hops_ c) j) 0)
              (zs i (Z.to_nat (HopscotchBase.end_index hs (HopSet.capacity_ c) - i))))).
Proof.
  pose proof (u32_range (HopSet.capacity_ c + hop_bucket hs)) as HL.
  fold (HopscotchBase.end_index hs (HopSet.capacity_ c)) in HL.
  revert i. induction n as [|n IH]; intros i Hi Hn;
    destruct (next_spec (HopSet.hops_ c) (HopSet.capacity_ c) i Hi)
      as (H1 & H2 & H3);
    rewrite (live_from_next (HopSet.hops_ c) (HopSet.capacity_ c) i Hi);
    cbn [HopSet.range_any_loop].
  - destruct (Z.ltb_spec (next (HopSet.hops_ c) (HopSet.capacity_ c) i)
                         (HopscotchBase.end_index hs (HopSet.capacity_ c)));
      [lia|]. reflexivity.
  - set (L := HopscotchBase.end_index hs (HopSet.capacity_ c)) in *.
    set (r := next (HopSet.hops_ c) (HopSet.capacity_ c) i) in *.
    destruct (Z.eqb_spec r L) as [E | Hne].
    + rewrite E. rewrite Z.ltb_irrefl. reflexivity.
    + destruct (Z.ltb_spec r L); [|lia].
      cbn [map existsb]. unfold HopSet.key_at at 1.
      destruct (p _); [reflexivity|]. cbn [orb].
      rewrite u32_small by lia.
      destruct (next_spec (HopSet.hops_ c) (HopSet.capacity_ c) (r + 1))
        as (R1 & _ & _); [fold L; lia|].
      fold L in R1. apply IH; lia.
Qed.

Lemma range_any_existsb (c : t) (p : Key -> bool) :
  HopSet.range_any key0 hs c p = existsb p (HopSet.elements key0 hs c).
Proof.
  unfold HopSet.range_any, HopSet.elements, HopSet.live_slots.
  unfold HopSet.end_, HopSet.begin_, HopSet.end_index.
  fold (HopscotchBase.end_index hs (HopSet.capacity_ c)).
  rewrite next_end.
  pose proof (u32_range (HopSet.capacity_ c + hop_bucket hs)) as HL.
  fold (HopscotchBase.end_index hs (HopSet.capacity_ c)) in HL.
  rewrite (range_any_loop_existsb _ c p 0); try lia.
  rewrite Z.sub_0_r. reflexivity.
Qed.

End Iteration.

(** ** The elements of a set *)

Lemma live_count_pos_ex (H : list Z) :
  0 < HopSet.live_count H ->
  exists i, 0 <= i < Zlen H /\ Z.testbit (get 0 H i) 0 = true.
Proof.
  unfold Zlen, get. induction H as [|a l IH]; [simpl; lia|].
  rewrite live_count_cons. cbn [length].
  destruct (Z.testbit a 0) eqn:Ha; cbn [Z.b2z]; intros Hp.
  - exists 0. split; [lia | exact Ha].
  - destruct (IH ltac:(lia)) as (i & Hi & Hb). exists (i + 1). split; [lia|].
    replace (Z.to_nat (i + 1)) with (S (Z.to_nat i)) by lia. exact Hb.
Qed.

Section SetElements.
Variable Key : Type.
Variable key_eqb : Key -> Key -> bool.
Variable hash : Key -> Z.
Variable key0 : Key.
Variable moved_from : Key -> Key.
Variable hs : hop_size.
Hypothesis key_eqb_spec : forall a b, key_eqb a b = true <-> a = b.

Local Abbreviation t := (HopSet.t Key).
Local Abbreviation hb := (hop_bucket hs).
Local Abbreviation WF := (HopSet.WF hash key0 hs).
Local Abbreviation mem := (HopSet.mem key0 hs).
Local Abbreviation live := (@HopSet.live Key).
Local Abbreviation key_at := (HopSet.key_at key0).
Local Abbreviation cap := (@HopSet.capacity_ Key).
Local Abbreviation has := (HopSet.has key_eqb hash key0 hs).
Local Abbreviation elements := (HopSet.elements key0 hs).
Local Abbreviation copy := (HopSet.copy key0 hs).

Ltac proj :=
  cbn [HopSet.keys_ HopSet.hops_ HopSet.size_ HopSet.capacity_
       HopSet.destroyed_] in *.

Lemma In_live_slots {hole} {s : t} (W : WF hole s) (i : Z) :
  In i (HopSet.live_slots hs s) <-> 0 <= i < cap s + hb /\ live s i = true.
Proof.
  unfold HopSet.live_slots. rewrite filter_In, in_map_iff.
  pose proof (cap_bounds Key hash key0 hs W) as Hc.
  pose proof (hop_bucket_range hs) as Hhb. pows.
  rewrite u32_small by lia. unfold HopSet.live. split.
  - intros [(n & <- & Hn) Hb]. apply in_seq in Hn. split; [lia | exact Hb].
  - intros [Hi Hb]. split; [|exact Hb]. exists (Z.to_nat i).
    split; [lia|]. apply in_seq. lia.
Qed.

Lemma NoDup_live_slots (s : t) : NoDup (HopSet.live_slots hs s).
Proof.
  unfold HopSet.live_slots. apply NoDup_filter.
  apply NoDup_map_NoDup_ForallPairs; [|apply seq_NoDup].
  intros a b _ _ E. lia.
Qed.

Lemma In_elements {s : t} (W : WF None s) (k : Key) :
  In k (elements s) <-> mem None s k.
Proof.
  unfold HopSet.elements, HopSet.mem. rewrite in_map_iff. split.
  - intros (i & Hk & Hi). apply (In_live_slots W) in Hi as [Hi Hl].
    exists i. repeat split; auto; try lia. discriminate.
  - intros (i & Hi & Hl & _ & Hk). exists i. split; [exact Hk|].
    apply (In_live_slots W). auto.
Qed.

Lemma NoDup_elements {s : t} (W : WF None s) : NoDup (elements s).
Proof.
  unfold HopSet.elements.
  apply NoDup_map_NoDup_ForallPairs; [|apply NoDup_live_slots].
  intros i j Hi Hj E.
  apply (In_live_slots W) in Hi as [Hi Hli], Hj as [Hj Hlj].
  apply (WF_uniq Key hash key0 hs W); auto; discriminate.
Qed.

Lemma existsb_elements {s : t} (W : WF None s) (k : Key) :
  existsb (key_eqb k) (elements s) = has s k.
Proof.
  apply bool_eq_iff. rewrite existsb_exists.
  rewrite (has_mem Key key_eqb hash key0 hs key_eqb_spec W), <- (In_elements W).
  split.
  - intros (x & Hx & E). apply key_eqb_spec in E. now subst.
  - intros Hk. exists k. split; [exact Hk | now apply key_eqb_spec].
Qed.

(** [empty()] on a well-formed set. *)
Lemma empty_false_iff {s : t} (W : WF None s) :
  HopSet.empty s = false <-> exists k, mem None s k.
Proof.
  unfold HopSet.empty. rewrite Z.eqb_neq.
  pose proof (HopSet.wf_size W) as Hs. cbv beta iota in Hs.
  pose proof (live_count_nonneg (HopSet.hops_ s)) as Hn.
  pose proof (hops_len Key hash key0 hs W) as HL. split.
  - intros Hne. destruct (live_count_pos_ex (HopSet.hops_ s) ltac:(lia))
      as (i & Hi & Hb).
    exists (key_at s i), i. repeat split; auto; try lia. discriminate.
  - intros (k & i & Hi & Hl & _). rewrite Hs, Z.sub_0_r. intros E.
    rewrite live_count_zero in E. unfold HopSet.live in Hl.
    rewrite E in Hl by lia. discriminate.
Qed.

(** The invariant and the lookups only read the four members. *)
Lemma WF_same_members hole (s s' : t) :
  HopSet.keys_ s' = HopSet.keys_ s -> HopSet.hops_ s' = HopSet.hops_ s ->
  HopSet.size_ s' = HopSet.size_ s -> cap s' = cap s ->
  WF hole s -> WF hole s'.
Proof.
  destruct s, s'. proj. intros -> -> -> -> W.
  destruct W as [W1 W2 W3 W4 W5 W6 W7 W8 W9]. constructor; assumption.
Qed.

Lemma has_same_members (s s' : t) (k : Key) :
  HopSet.keys_ s' = HopSet.keys_ s -> HopSet.hops_ s' = HopSet.hops_ s ->
  cap s' = cap s -> has s' k = has s k.
Proof.
  destruct s, s'. proj. intros -> -> ->. reflexivity.
Qed.

(** The copy constructor. *)
Lemma copy_members (td : bool) (s : t) :
  WF None s ->
  HopSet.keys_ (copy td s) = HopSet.keys_ s
  /\ HopSet.hops_ (copy td s) = HopSet.hops_ s
  /\ HopSet.size_ (copy td s) = HopSet.size_ s
  /\ cap (copy td s) = cap s.
Proof.
  intros W. unfold HopSet.copy, HopSet.clone. proj.
  pose proof (cap_bounds Key hash key0 hs W) as Hc.
  pose proof (hop_bucket_range hs) as Hhb. pows.
  rewrite u32_small by lia.
  rewrite <- (keys_len Key hash key0 hs W) at 1.
  rewrite <- (hops_len Key hash key0 hs W).
  rewrite !copy_n_id. auto.
Qed.

Lemma copy_WF (td : bool) (s : t) : WF None s -> WF None (copy td s).
Proof.
  intros W. destruct (copy_members td s W) as (E1 & E2 & E3 & E4).
  exact (WF_same_members None s _ E1 E2 E3 E4 W).
Qed.

Lemma copy_has (td : bool) (s : t) (k : Key) :
  WF None s -> has (copy td s) k = has s k.
Proof.
  intros W. destruct (copy_members td s W) as (E1 & E2 & E3 & E4).
  exact (has_same_members s _ k E1 E2 E4).
Qed.

End SetElements.

(** ** Set algebra *)

Section SetAlgebra.
Variable Key : Type.
Variable key_eqb : Key -> Key -> bool.
Variable hash : Key -> Z.
Variable key0 : Key.
Variable moved_from : Key -> Key.
Variable hs : hop_size.
Hypothesis key_eqb_spec : forall a b, key_eqb a b = true <-> a = b.

Local Abbreviation t := (HopSet.t Key).
Local Abbreviation hb := (hop_bucket hs).
Local Abbreviation WF := (HopSet.WF hash key0 hs).
Local Abbreviation mem := (HopSet.mem key0 hs).
Local Abbreviation live := (@HopSet.live Key).
Local Abbreviation key_at := (HopSet.key_at key0).
Local Abbreviation cap := (@HopSet.capacity_ Key).
Local Abbreviation has := (HopSet.has key_eqb hash key0 hs).
Local Abbreviation elements := (HopSet.elements key0 hs).
Local Abbreviation insert := (HopSet.insert key_eqb hash key0 moved_from hs).
Local Abbreviation remove := (HopSet.remove key_eqb hash key0 hs).
Local Abbreviation copy := (HopSet.copy key0 hs).
Local Abbreviation sub_assign := (HopSet.sub_assign key_eqb hash key0 hs).
Local Abbreviation or_assign := (HopSet.or_assign key_eqb hash key0 moved_from hs).
Local Abbreviation xor_assign := (HopSet.xor_assign key_eqb hash key0 moved_from hs).
Local Abbreviation and_assign := (HopSet.and_assign key_eqb hash key0 hs).

Ltac proj :=
  cbn [HopSet.keys_ HopSet.hops_ HopSet.size_ HopSet.capacity_
       HopSet.destroyed_] in *.

Lemma key_eqb_sym (a b : Key) : key_eqb a b = key_eqb b a.
Proof.
  apply bool_eq_iff. rewrite !key_eqb_spec. split; congruence.
Qed.

Lemma remove_cap (s : t) (k : Key) : cap (fst (remove s k)) = cap s.
Proof.
  unfold HopSet.remove. destruct (negb _); reflexivity.
Qed.

Lemma fold_opt_cap (body : Key -> t -> option t) (l : list Key) (a R : t) :
  (forall e x x', body e x = Some x' -> HopSet.cap_rel (cap x) (cap x')) ->
  HopSet.fold_opt body l a = Some R -> HopSet.cap_rel (cap a) (cap R).
Proof.
  intros Hb. revert a. induction l as [|e l IH]; intros a E; cbn in E.
  - injection E as <-. apply cap_rel_refl.
  - destruct (body e a) as [a'|] eqn:E1; [|discriminate].
    apply (cap_rel_trans _ (cap a')); [exact (Hb _ _ _ E1) | exact (IH _ E)].
Qed.

(** *** Difference *)

Lemma fold_sub (l : list Key) (a : t) :
  WF None a ->
  WF None (fold_left (fun x e => if has x e then fst (remove x e) else x) l a)
  /\ (forall k,
        has (fold_left (fun x e => if has x e then fst (remove x e) else x) l a) k
        = has a k && negb (existsb (key_eqb k) l)).
Proof.
  revert a. induction l as [|e l IH]; intros a W; cbn [fold_left existsb].
  - split; [exact W|]. intros k. now rewrite andb_true_r.
  - set (a' := if has a e then fst (remove a e) else a).
    assert (W' : WF None a').
    { subst a'. destruct (has a e); [|exact W].
      apply (remove_spec Key key_eqb hash key0 moved_from hs key_eqb_spec a e W). }
    assert (Hh : forall k, has a' k = has a k && negb (key_eqb k e)).
    { intros k. subst a'. destruct (has a e) eqn:He.
      - apply (has_remove Key key_eqb hash key0 moved_from hs key_eqb_spec a e W).
      - destruct (key_eqb k e) eqn:Ek; [|now rewrite andb_true_r].
        apply key_eqb_spec in Ek. subst k. now rewrite He. }
    destruct (IH a' W') as [WR HR]. split; [exact WR|].
    intros k. rewrite HR, Hh, negb_orb. now rewrite andb_assoc.
Qed.

Lemma sub_assign_spec (s other : t) :
  WF None s -> WF None other ->
  WF None (sub_assign s other)
  /\ (forall k, has (sub_assign s other) k = has s k && negb (has other k)).
Proof.
  intros W Wo. unfold HopSet.sub_assign. rewrite range_for_fold.
  destruct (fold_sub (elements other) s W) as [WR HR]. split; [exact WR|].
  intros k. rewrite HR.
  now rewrite (existsb_elements Key key_eqb hash key0 hs key_eqb_spec Wo).
Qed.

(** *** Union *)

Lemma fold_or (fuel : nat) (l : list Key) (a R : t) :
  WF None a ->
  HopSet.fold_opt (fun e x => option_map fst (insert fuel x e)) l a = Some R ->
  cap R <> 0 ->
  WF None R /\ (forall k, has R k = has a k || existsb (key_eqb k) l).
Proof.
  revert a. induction l as [|e l IH]; intros a W E Hc; cbn [HopSet.fold_opt] in E.
  - injection E as <-. split; [exact W|]. intros k. cbn. now rewrite orb_false_r.
  - destruct (insert fuel a e) as [[a' b]|] eqn:E1; cbn [option_map fst] in E;
      [|discriminate].
    assert (Hc' : cap a' <> 0).
    { intros Ez. apply Hc. apply cap_rel_zero. rewrite <- Ez.
      refine (fold_opt_cap _ l a' R _ E).
      intros x y y' Ey. destruct (insert fuel y x) as [[z bz]|] eqn:Ez'; [|discriminate].
      cbn in Ey. injection Ey as <-.
      exact (insert_cap Key key_eqb hash key0 moved_from hs fuel _ _ _ _ Ez'). }
    destruct (has_insert Key key_eqb hash key0 moved_from hs key_eqb_spec
                fuel a a' e b W E1 Hc') as (W' & Hh & _).
    destruct (IH a' W' E Hc) as [WR HR]. split; [exact WR|].
    intros k. rewrite HR, Hh. cbn [existsb]. now rewrite orb_assoc.
Qed.

Lemma or_assign_spec (fuel : nat) (s other R : t) :
  WF None s -> WF None other ->
  or_assign fuel s other = Some R -> cap R <> 0 ->
  WF None R /\ (forall k, has R k = has s k || has other k).
Proof.
  intros W Wo E Hc. unfold HopSet.or_assign in E.
  rewrite range_for_opt_fold in E.
  destruct (fold_or fuel (elements other) s R W E Hc) as [WR HR].
  split; [exact WR|]. intros k. rewrite HR.
  now rewrite (existsb_elements Key key_eqb hash key0 hs key_eqb_spec Wo).
Qed.

(** *** Symmetric difference *)

Lemma fold_xor (fuel : nat) (l : list Key) (a R : t) :
  WF None a -> NoDup l ->
  HopSet.fold_opt
    (fun e x => if has x e then Some (fst (remove x e))
                else option_map fst (insert fuel x e)) l a = Some R ->
  cap R <> 0 ->
  WF None R /\ (forall k, has R k = xorb (has a k) (existsb (key_eqb k) l)).
Proof.
  set (body := fun e x => if has x e then Some (fst (remove x e))
                          else option_map fst (insert fuel x e)).
  assert (Hbcap : forall e x x', body e x = Some x' ->
                    HopSet.cap_rel (cap x) (cap x')).
  { intros e x x' Ex. unfold body in Ex. destruct (has x e).
    - injection Ex as <-. rewrite remove_cap. apply cap_rel_refl.
    - destruct (insert fuel x e) as [[z bz]|] eqn:Ez; [|discriminate].
      cbn in Ex. injection Ex as <-.
      exact (insert_cap Key key_eqb hash key0 moved_from hs fuel _ _ _ _ Ez). }
  revert a. induction l as [|e l IH]; intros a W Hnd E Hc; cbn [HopSet.fold_opt] in E.
  - injection E as <-. split; [exact W|]. intros k. cbn. now rewrite xorb_false_r.
  - destruct (body e a) as [a'|] eqn:E1; [|discriminate].
    assert (Hc' : cap a' <> 0).
    { intros Ez. apply Hc. apply cap_rel_zero. rewrite <- Ez.
      exact (fold_opt_cap body l a' R Hbcap E). }
    inversion Hnd as [|? ? Hnin Hnd']; subst.
    assert (Hstep : WF None a'
              /\ forall k, has a' k = xorb (has a k) (key_eqb k e)).
    { unfold body in E1. destruct (has a e) eqn:He.
      - injection E1 as <-. split.
        + apply (remove_spec Key key_eqb hash key0 moved_from hs key_eqb_spec a e W).
        + intros k.
          rewrite (has_remove Key key_eqb hash key0 moved_from hs key_eqb_spec a e W).
          destruct (key_eqb k e) eqn:Ek.
          * apply key_eqb_spec in Ek. subst k. now rewrite He.
          * now rewrite andb_true_r, xorb_false_r.
      - destruct (insert fuel a e) as [[z bz]|] eqn:Ez; [|discriminate].
        cbn in E1. injection E1 as <-.
        destruct (has_insert Key key_eqb hash key0 moved_from hs key_eqb_spec
                    fuel a z e bz W Ez Hc') as (W' & Hh & _).
        split; [exact W'|]. intros k. rewrite Hh.
        destruct (key_eqb k e) eqn:Ek.
        + apply key_eqb_spec in Ek. subst k. now rewrite He.
        + now rewrite orb_false_r, xorb_false_r. }
    destruct Hstep as [W' Hh].
    destruct (IH a' W' Hnd' E Hc) as [WR HR]. split; [exact WR|].
    intros k. rewrite HR, Hh. cbn [existsb].
    destruct (key_eqb k e) eqn:Ek.
    + apply key_eqb_spec in Ek. subst k.
      replace (existsb (key_eqb e) l) with false;
        [now rewrite xorb_false_r|].
      symmetry. apply not_true_is_false. intros Hex.
      apply existsb_exists in Hex as (x & Hx & Exe).
      apply key_eqb_spec in Exe. subst x. contradiction.
    + now rewrite xorb_false_r.
Qed.

Lemma xor_assign_spec (fuel : nat) (s other R : t) :
  WF None s -> WF None other ->
  xor_assign fuel s other = Some R -> cap R <> 0 ->
  WF None R /\ (forall k, has R k = xorb (has s k) (has other k)).
Proof.
  intros W Wo E Hc. unfold HopSet.xor_assign in E.
  rewrite range_for_opt_fold in E.
  destruct (fold_xor fuel (elements other) s R W
              (NoDup_elements Key hash key0 hs Wo) E Hc) as [WR HR].
  split; [exact WR|]. intros k. rewrite HR.
  now rewrite (existsb_elements Key key_eqb hash key0 hs key_eqb_spec Wo).
Qed.

End SetAlgebra.

(** *** Intersection: a loop over the set that it modifies *)

Section SetIntersection.
Variable Key : Type.
Variable key_eqb : Key -> Key -> bool.
Variable hash : Key -> Z.
Variable key0 : Key.
Variable moved_from : Key -> Key.
Variable hs : hop_size.
Hypothesis key_eqb_spec : forall a b, key_eqb a b = true <-> a = b.

Local Abbreviation t := (HopSet.t Key).
Local Abbreviation hb := (hop_bucket hs).
Local Abbreviation WF := (HopSet.WF hash key0 hs).
Local Abbreviation mem := (HopSet.mem key0 hs).
Local Abbreviation live := (@HopSet.live Key).
Local Abbreviation key_at := (HopSet.key_at key0).
Local Abbreviation cap := (@HopSet.capacity_ Key).
Local Abbreviation has := (HopSet.has key_eqb hash key0 hs).
Local Abbreviation elements := (HopSet.elements key0 hs).
Local Abbreviation remove := (HopSet.remove key_eqb hash key0 hs).
Local Abbreviation and_assign := (HopSet.and_assign key_eqb hash key0 hs).
Local Abbreviation next := (HopscotchBase.next hs).

Lemma and_loop (s other : t) (n : nat) (a : t) (i : Z) :
  WF None s -> WF None a -> cap a = cap s ->
  HopSet.keys_ a = HopSet.keys_ s ->
  (forall j, 0 <= j < cap s + hb ->
     live a j = live s j && ((i <=? j) || has other (key_at s j))) ->
  0 <= i <= cap s + hb ->
  cap s + hb - next (HopSet.hops_ a) (cap a) i <= Z.of_nat n ->
  forall R,
  R = HopSet.range_for_loop key0 hs n (fun x => x)
        (fun e x => if negb (has other e) then fst (remove x e) else x)
        (cap s + hb) (next (HopSet.hops_ a) (cap a) i) a ->
  WF None R /\ cap R = cap s /\ HopSet.keys_ R = HopSet.keys_ s
  /\ (forall j, 0 <= j < cap s + hb ->
        live R j = live s j && has other (key_at s j)).
Proof.
  intros W. pose proof (end_index_eq Key hash key0 hs W) as HL.
  unfold HopSet.end_index in HL.
  revert a i. induction n as [|n IH]; intros a i Wa Ec Ek Hinv Hi Hn R ->;
    pose proof (next_spec hs (HopSet.hops_ a) (cap a) i) as Hnx;
    rewrite Ec, HL in Hnx; specialize (Hnx Hi); destruct Hnx as (N1 & N2 & N3);
    rewrite Ec in *;
    set (r := next (HopSet.hops_ a) (cap s) i) in *;
    assert (Hinv_r : forall j, 0 <= j < cap s + hb ->
              live a j = live s j && ((r <=? j) || has other (key_at s j)));
    try (intros j Hj; pose proof (Hinv j Hj) as Hij;
         destruct (Z.leb_spec r j); [
           replace (i <=? j) with true in Hij
             by (symmetry; apply Z.leb_le; lia); exact Hij
         | destruct (Z.leb_spec i j); [|exact Hij];
           cbn [orb] in Hij |- *;
           assert (Hd : live a j = false) by (apply N3; lia);
           rewrite Hd in Hij |- *; rewrite andb_true_r in Hij;
           now rewrite <- Hij ]);
    cbn [HopSet.range_for_loop].
  - assert (r = cap s + hb) by lia.
    split; [exact Wa|]. split; [exact Ec|]. split; [exact Ek|].
    intros j Hj. rewrite (Hinv_r j Hj).
    now replace (r <=? j) with false by (symmetry; apply Z.leb_gt; lia).
  - destruct (Z.eqb_spec r (cap s + hb)) as [Er | Hne].
    + split; [exact Wa|]. split; [exact Ec|]. split; [exact Ek|].
      intros j Hj. rewrite (Hinv_r j Hj).
      now replace (r <=? j) with false by (symmetry; apply Z.leb_gt; lia).
    + assert (Hr : 0 <= r < cap s + hb) by lia.
      assert (Hlr : live a r = true) by (apply N2; lia).
      assert (Eka : get key0 (HopSet.keys_ a) r = key_at s r)
        by (unfold HopSet.key_at; now rewrite Ek).
      rewrite Eka.
      set (a' := if negb (has other (key_at s r))
                 then fst (remove a (key_at s r)) else a).
      assert (Hstep : WF None a' /\ cap a' = cap s
                /\ HopSet.keys_ a' = HopSet.keys_ s
                /\ forall j, 0 <= j < cap s + hb ->
                     live a' j
                     = live s j && ((r + 1 <=? j) || has other (key_at s j))).
      { subst a'. destruct (has other (key_at s r)) eqn:Hb; cbn [negb].
        - split; [exact Wa|]. split; [exact Ec|]. split; [exact Ek|].
          intros j Hj. rewrite (Hinv_r j Hj).
          destruct (Z.eq_dec j r) as [-> | Hjr].
          + rewrite Hb. now rewrite !orb_true_r.
          + replace (r + 1 <=? j) with (r <=? j); [reflexivity|].
            destruct (Z.leb_spec r j), (Z.leb_spec (r + 1) j); auto; lia.
        - destruct (remove_spec Key key_eqb hash key0 moved_from hs key_eqb_spec
                      a (key_at s r) Wa) as (W' & _ & _ & Ec' & Ek' & Hl').
          split; [exact W'|]. split; [congruence|]. split; [congruence|].
          intros j Hj. rewrite Hl' by (rewrite Ec; exact Hj).
          rewrite (Hinv_r j Hj).
          assert (Ef : HopSet.find_index key_eqb hash key0 hs a (key_at s r) = r).
          { replace (key_at s r) with (key_at a r)
              by (unfold HopSet.key_at; now rewrite Ek).
            apply (find_internal_live Key key_eqb hash key0 hs key_eqb_spec Wa);
              [rewrite Ec; exact Hr | exact Hlr | discriminate]. }
          rewrite Ef. destruct (Z.eqb_spec j r) as [-> | Hjr]; cbn [negb].
          + rewrite Hb, andb_false_r.
            replace (r + 1 <=? r) with false by (symmetry; apply Z.leb_gt; lia).
            now rewrite andb_false_r.
          + rewrite andb_true_r.
            replace (r + 1 <=? j) with (r <=? j); [reflexivity|].
            destruct (Z.leb_spec r j), (Z.leb_spec (r + 1) j); auto; lia. }
      destruct Hstep as (W' & Ec' & Ek' & Hinv').
      pows. pose proof (cap_bounds Key hash key0 hs W) as Hcb.
      pose proof (hop_bucket_range hs) as Hhb.
      rewrite (u32_small (r + 1)) by lia.
      pose proof (next_spec hs (HopSet.hops_ a') (cap a') (r + 1)) as Hnx'.
      rewrite Ec', HL in Hnx'. specialize (Hnx' ltac:(lia)).
      destruct Hnx' as (M1 & _ & _).
      eapply (IH a' (r + 1) W' Ec' Ek' Hinv' ltac:(lia)); [|reflexivity].
      rewrite Ec'. lia.
Qed.

Lemma and_assign_spec (s other : t) :
  WF None s -> WF None other ->
  WF None (and_assign s other)
  /\ (forall k, has (and_assign s other) k = has s k && has other k).
Proof.
  intros W Wo. pose proof (end_index_eq Key hash key0 hs W) as HL.
  pose proof (cap_bounds Key hash key0 hs W) as Hcb.
  pose proof (hop_bucket_range hs) as Hhb.
  unfold HopSet.and_assign, HopSet.range_for, HopSet.end_, HopSet.begin_.
  unfold HopSet.end_index in *.
  rewrite next_end, HL.
  destruct (next_spec hs (HopSet.hops_ s) (cap s) 0) as (N1 & _ & _);
    [rewrite HL; lia|]. rewrite HL in N1.
  destruct (and_loop s other
              (Z.to_nat (cap s + hb - next (HopSet.hops_ s) (cap s) 0)) s 0
              W W eq_refl eq_refl) with
    (R := HopSet.range_for_loop key0 hs
            (Z.to_nat (cap s + hb - next (HopSet.hops_ s) (cap s) 0))
            (fun x => x)
            (fun e x => if negb (has other e) then fst (remove x e) else x)
            (cap s + hb) (next (HopSet.hops_ s) (cap s) 0) s)
    as (WR & Ec & Ek & Hl); try lia; try reflexivity.
  { intros j Hj. replace (0 <=? j) with true by (symmetry; apply Z.leb_le; lia).
    cbn [orb]. now rewrite andb_true_r. }
  split; [exact WR|]. intros k. apply bool_eq_iff.
  rewrite (has_mem Key key_eqb hash key0 hs key_eqb_spec WR), andb_true_iff,
    (has_mem Key key_eqb hash key0 hs key_eqb_spec W).
  unfold HopSet.mem. rewrite Ec. split.
  - intros (j & Hj & Hlj & _ & Hk). rewrite Hl in Hlj by exact Hj.
    apply andb_true_iff in Hlj as [H1 H2].
    unfold HopSet.key_at in Hk. rewrite Ek in Hk.
    fold (key_at s j) in Hk. subst k. split; [|exact H2].
    exists j. repeat split; auto; try lia. discriminate.
  - intros [(j & Hj & Hlj & _ & Hk) Hb]. exists j.
    rewrite Hl by exact Hj. unfold HopSet.key_at at 2. rewrite Ek.
    fold (key_at s j). rewrite Hlj, Hk, Hb.
    repeat split; auto; try lia. discriminate.
Qed.

(** *** intersects *)

Lemma intersects_spec (s other : t) :
  WF None s -> WF None other ->
  HopSet.intersects key_eqb hash key0 hs s other = true
  <-> exists k, mem None s k /\ mem None other k.
Proof.
  intros W Wo. unfold HopSet.intersects.
  destruct (HopSet.size other >? HopSet.size s);
    rewrite range_any_existsb, existsb_exists.
  - split.
    + intros (x & Hx & Hb). exists x. split.
      * now apply (In_elements Key hash key0 hs W).
      * now apply (has_mem Key key_eqb hash key0 hs key_eqb_spec Wo).
    + intros (k & H1 & H2). exists k. split.
      * now apply (In_elements Key hash key0 hs W).
      * now apply (has_mem Key key_eqb hash key0 hs key_eqb_spec Wo).
  - split.
    + intros (x & Hx & Hb). exists x. split.
      * now apply (has_mem Key key_eqb hash key0 hs key_eqb_spec W).
      * now apply (In_elements Key hash key0 hs Wo).
    + intros (k & H1 & H2). exists k. split.
      * now apply (In_elements Key hash key0 hs Wo).
      * now apply (has_mem Key key_eqb hash key0 hs key_eqb_spec W).
Qed.

End SetIntersection.

(** ** Dict: the keys and bitmaps evolve as in a Set *)

Section DictKeys.
Variable Key : Type.
Variable Value : Type.
Variable key_eqb : Key -> Key -> bool.
Variable hash : Key -> Z.
Variable key0 : Key.
Variable value0 : Value.
Variable moved_from : Key -> Key.
Variable moved_from_value : Value -> Value.
Variable hs : hop_size.

Local Abbreviation dict := (Dict.t Key Value).
Local Abbreviation key_part := (@Dict.key_part Key Value).
Local Abbreviation dinsert :=
  (Dict.insert key_eqb hash key0 value0 moved_from moved_from_value hs).
Local Abbreviation dinsert_body :=
  (Dict.insert_body key_eqb hash key0 value0 moved_from moved_from_value hs).
Local Abbreviation sinsert := (HopSet.insert key_eqb hash key0 moved_from hs).
Local Abbreviation sinsert_body :=
  (HopSet.insert_body key_eqb hash key0 moved_from hs).

Lemma displace_key_part (n : nat) (d : dict) (b idx : Z) :
  HopSet.displace key0 moved_from hs n (key_part d) b idx
  = (key_part (fst (fst (Dict.displace key0 value0 moved_from
                                       moved_from_value hs n d b idx))),
     snd (fst (Dict.displace key0 value0 moved_from moved_from_value hs n d b idx)),
     snd (Dict.displace key0 value0 moved_from moved_from_value hs n d b idx)).
Proof.
  revert d idx. induction n as [|n IH]; intros d idx;
    cbn [Dict.displace HopSet.displace]; [reflexivity|].
  change (HopSet.hops_ (key_part d)) with (Dict.hops_ d).
  destruct (idx >? _); [|reflexivity].
  destruct (HopscotchBase.find_displaceable hs (Dict.hops_ d) idx)
    as [cursor offset].
  destruct (offset >=? idx); [reflexivity|].
  rewrite <- IH. reflexivity.
Qed.

Lemma expand_loop_key_part
      (drec : dict -> Key -> Value -> option (dict * Z))
      (srec : HopSet.t Key -> Key -> option (HopSet.t Key * bool))
      (K : list Key) (V : list Value) (H : list Z) (n : nat) (iter : Z) (d : dict) :
  (forall x k v, option_map (fun r => key_part (fst r)) (drec x k v)
                 = option_map fst (srec (key_part x) k)) ->
  option_map key_part (Dict.expand_loop key0 value0 drec K V H n iter d)
  = HopSet.expand_loop key0 srec K H n iter (key_part d).
Proof.
  intros Hsim. revert iter d. induction n as [|n IH]; intros iter d;
    cbn [Dict.expand_loop HopSet.expand_loop]; [reflexivity|].
  destruct (Z.testbit (get 0 H iter) 0); [|apply IH].
  specialize (Hsim d (get key0 K iter) (get value0 V iter)).
  destruct (drec d (get key0 K iter) (get value0 V iter)) as [[d1 p1]|];
    destruct (srec (key_part d) (get key0 K iter)) as [[s1 b1]|];
    cbn in Hsim; try discriminate; [|reflexivity].
  injection Hsim as <-. apply IH.
Qed.

Lemma expand_with_key_part
      (drec : dict -> Key -> Value -> option (dict * Z))
      (srec : HopSet.t Key -> Key -> option (HopSet.t Key * bool)) (d : dict) :
  (forall x k v, option_map (fun r => key_part (fst r)) (drec x k v)
                 = option_map fst (srec (key_part x) k)) ->
  option_map key_part (Dict.expand_with key0 value0 hs drec d)
  = HopSet.expand_with key0 hs srec (key_part d).
Proof.
  intros Hsim. unfold Dict.expand_with, HopSet.expand_with.
  now rewrite (expand_loop_key_part drec srec _ _ _ _ _ _ Hsim).
Qed.

Lemma grow_retry_key_part
      (drec : dict -> Key -> Value -> option (dict * Z))
      (srec : HopSet.t Key -> Key -> option (HopSet.t Key * bool))
      (d : dict) (k : Key) (v : Value) :
  (forall x k v, option_map (fun r => key_part (fst r)) (drec x k v)
                 = option_map fst (srec (key_part x) k)) ->
  option_map (fun r => key_part (fst r))
    match Dict.expand_with key0 value0 hs drec d with
    | None => None
    | Some d' => drec d' k v
    end
  = option_map fst
      match HopSet.expand_with key0 hs srec (key_part d) with
      | None => None
      | Some s' => srec s' k
      end.
Proof.
  intros Hsim. rewrite <- (expand_with_key_part drec srec d Hsim).
  destruct (Dict.expand_with key0 value0 hs drec d) as [d1|]; cbn [option_map];
    [apply Hsim | reflexivity].
Qed.

Lemma insert_body_key_part
      (drec : dict -> Key -> Value -> option (dict * Z))
      (srec : HopSet.t Key -> Key -> option (HopSet.t Key * bool))
      (d : dict) (k : Key) (v : Value) :
  (forall x k v, option_map (fun r => key_part (fst r)) (drec x k v)
                 = option_map fst (srec (key_part x) k)) ->
  option_map (fun r => key_part (fst r)) (dinsert_body drec d k v)
  = option_map fst (sinsert_body srec (key_part d) k).
Proof.
  intros Hsim. unfold Dict.insert_body, HopSet.insert_body.
  change (HopSet.get_bucket_index hash (key_part d) k)
    with (Dict.get_bucket_index hash d k).
  change (HopSet.find_internal key_eqb key0 hs (key_part d))
    with (Dict.find_internal key_eqb key0 hs d).
  change (HopSet.end_index hs (key_part d)) with (Dict.end_index hs d).
  change (HopSet.hops_ (key_part d)) with (Dict.hops_ d).
  destruct (negb _); [reflexivity|].
  match goal with
  | |- context [HopscotchBase.probe_loop ?n ?h ?pe ?i] =>
      set (idx := HopscotchBase.probe_loop n h pe i)
  end.
  destruct (idx =? _).
  { apply grow_retry_key_part. exact Hsim. }
  set (d1 := Dict.set_hops d
               (upd (Dict.hops_ d) idx
                    (hop_word hs (Z.lor (get 0 (Dict.hops_ d) idx) 1)))).
  change (HopSet.set_hops (key_part d)
            (upd (Dict.hops_ d) idx
                 (hop_word hs (Z.lor (get 0 (Dict.hops_ d) idx) 1))))
    with (key_part d1).
  rewrite displace_key_part.
  destruct (Dict.displace key0 value0 moved_from moved_from_value hs
              (Z.to_nat idx) d1 (Dict.get_bucket_index hash d k) idx)
    as [[d2 idx2] flag].
  cbn [fst snd]. destruct flag.
  - reflexivity.
  - exact (grow_retry_key_part drec srec
             (Dict.set_hops d2
                (upd (Dict.hops_ d2) idx2
                     (hop_word hs (Z.lxor (get 0 (Dict.hops_ d2) idx2) 1))))
             k v Hsim).
Qed.

Lemma insert_key_part (fuel : nat) (d : dict) (k : Key) (v : Value) :
  option_map (fun r => key_part (fst r)) (dinsert fuel d k v)
  = option_map fst (sinsert fuel (key_part d) k).
Proof.
  revert d k v. induction fuel as [|fuel IH]; intros d k v; [reflexivity|].
  exact (insert_body_key_part _ _ d k v IH).
Qed.

Lemma erase_key_part (d : dict) (k : Key) :
  key_part (fst (Dict.erase key_eqb hash key0 hs d k))
  = fst (HopSet.remove key_eqb hash key0 hs (key_part d) k)
  /\ snd (Dict.erase key_eqb hash key0 hs d k)
     = snd (HopSet.remove key_eqb hash key0 hs (key_part d) k).
Proof.
  unfold Dict.erase, HopSet.remove.
  change (HopSet.get_bucket_index hash (key_part d) k)
    with (Dict.get_bucket_index hash d k).
  change (HopSet.find_internal key_eqb key0 hs (key_part d))
    with (Dict.find_internal key_eqb key0 hs d).
  change (HopSet.end_index hs (key_part d)) with (Dict.end_index hs d).
  destruct (negb _); split; reflexivity.
Qed.

Lemma run_key_part (fuel : nat) (d : dict) (ops : list (Dict.op Key Value)) :
  option_map key_part
    (Dict.run key_eqb hash key0 value0 moved_from moved_from_value hs fuel d ops)
  = HopSet.run key_eqb hash key0 moved_from hs fuel (key_part d)
               (map (@Dict.key_op Key Value) ops).
Proof.
  revert d. induction ops as [|[k v | k] ops IH]; intros d;
    cbn [Dict.run HopSet.run map Dict.key_op]; [reflexivity| |].
  - pose proof (insert_key_part fuel d k v) as E.
    destruct (dinsert fuel d k v) as [[d1 p1]|];
      destruct (sinsert fuel (key_part d) k) as [[s1 b1]|];
      cbn in E; try discriminate; [|reflexivity].
    injection E as <-. apply IH.
  - rewrite IH. now rewrite (proj1 (erase_key_part d k)).
Qed.

End DictKeys.

(** ** find, sequences of operations, construction *)

Section SetRun.
Variable Key : Type.
Variable key_eqb : Key -> Key -> bool.
Variable hash : Key -> Z.
Variable key0 : Key.
Variable moved_from : Key -> Key.
Variable hs : hop_size.
Hypothesis key_eqb_spec : forall a b, key_eqb a b = true <-> a = b.

Local Abbreviation t := (HopSet.t Key).
Local Abbreviation hb := (hop_bucket hs).
Local Abbreviation WF := (HopSet.WF hash key0 hs).
Local Abbreviation mem := (HopSet.mem key0 hs).
Local Abbreviation live := (@HopSet.live Key).
Local Abbreviation key_at := (HopSet.key_at key0).
Local Abbreviation cap := (@HopSet.capacity_ Key).
Local Abbreviation has := (HopSet.has key_eqb hash key0 hs).
Local Abbreviation insert := (HopSet.insert key_eqb hash key0 moved_from hs).
Local Abbreviation remove := (HopSet.remove key_eqb hash key0 hs).
Local Abbreviation run := (HopSet.run key_eqb hash key0 moved_from hs).
Local Abbreviation next := (HopscotchBase.next hs).

(** On a well-formed table the iterator built by [find] sits on the slot
    returned by [find_internal]. *)
Lemma next_find_internal (s : t) (k : Key) :
  WF None s ->
  next (HopSet.hops_ s) (cap s)
       (HopSet.find_internal key_eqb key0 hs s (HopSet.get_bucket_index hash s k) k)
  = HopSet.find_internal key_eqb key0 hs s (HopSet.get_bucket_index hash s k) k.
Proof.
  intros W. pose proof (end_index_eq Key hash key0 hs W) as HL.
  unfold HopSet.end_index in HL.
  destruct (Z.eq_dec
              (HopSet.find_internal key_eqb key0 hs s
                 (HopSet.get_bucket_index hash s k) k)
              (HopSet.end_index hs s)) as [E | Hne].
  - rewrite E. apply next_end.
  - destruct (find_internal_found Key key_eqb hash key0 hs key_eqb_spec k W Hne)
      as (Hi & Hl & _).
    apply next_live; [rewrite HL; exact Hi | exact Hl].
Qed.

Lemma find_end_has (s : t) (k : Key) :
  WF None s ->
  (HopSet.find key_eqb hash key0 hs s k =? HopSet.end_ hs s) = negb (has s k).
Proof.
  intros W. unfold HopSet.find, HopSet.end_, HopSet.has.
  rewrite (next_find_internal s k W). unfold HopSet.end_index.
  rewrite next_end. now rewrite negb_involutive.
Qed.

Lemma run_cap (fuel : nat) (s s' : t) (ops : list (HopSet.op Key)) :
  run fuel s ops = Some s' -> HopSet.cap_rel (cap s) (cap s').
Proof.
  revert s. induction ops as [|[k | k] ops IH]; intros s E; cbn [HopSet.run] in E.
  - injection E as <-. apply cap_rel_refl.
  - destruct (insert fuel s k) as [[s1 b]|] eqn:E1; [|discriminate].
    apply (cap_rel_trans _ (cap s1)); [|exact (IH _ E)].
    exact (insert_cap Key key_eqb hash key0 moved_from hs fuel _ _ _ _ E1).
  - apply IH in E. now rewrite (remove_cap Key key_eqb hash key0 hs) in E.
Qed.

Lemma run_spec (fuel : nat) (s s' : t) (ops : list (HopSet.op Key)) :
  WF None s -> run fuel s ops = Some s' -> cap s' <> 0 ->
  WF None s'
  /\ (forall k, has s' k = HopSet.expected key_eqb (has s k) ops k).
Proof.
  revert s. induction ops as [|[k0 | k0] ops IH]; intros s W E Hc;
    cbn [HopSet.run HopSet.expected] in *.
  - injection E as <-. auto.
  - destruct (insert fuel s k0) as [[s1 b]|] eqn:E1; [|discriminate].
    assert (Hc1 : cap s1 <> 0).
    { intros Ez. apply Hc. apply cap_rel_zero. rewrite <- Ez.
      exact (run_cap fuel s1 s' ops E). }
    destruct (has_insert Key key_eqb hash key0 moved_from hs key_eqb_spec
                fuel s s1 k0 b W E1 Hc1) as (W1 & Hh & _).
    destruct (IH s1 W1 E Hc) as [W' Hr]. split; [exact W'|].
    intros k. rewrite Hr, Hh.
    rewrite (key_eqb_sym Key key_eqb key_eqb_spec k k0).
    destruct (key_eqb k0 k); [now rewrite orb_true_r | now rewrite orb_false_r].
  - destruct (remove_spec Key key_eqb hash key0 moved_from hs key_eqb_spec s k0 W)
      as (W1 & _).
    destruct (IH _ W1 E Hc) as [W' Hr]. split; [exact W'|].
    intros k. rewrite Hr.
    rewrite (has_remove Key key_eqb hash key0 moved_from hs key_eqb_spec s k0 W).
    rewrite (key_eqb_sym Key key_eqb key_eqb_spec k k0).
    destruct (key_eqb k0 k); [now rewrite andb_false_r | now rewrite andb_true_r].
Qed.

(** A table built by the constructor is well formed when the request is
    between 1 and [2^31]. *)
Lemma construct_WF (n : Z) :
  1 <= n <= 2 ^ 31 -> WF None (HopSet.construct key0 hs n).
Proof.
  intros Hn. destruct (npot32_spec n Hn) as (j & Hj & E & _).
  unfold HopSet.construct, HopSet.init_internal.
  apply (WF_fresh Key hash key0 hs). exists j. auto.
Qed.

End SetRun.

(** ** The frame of remove *)

Section SetRemoveFrame.
Variable Key : Type.
Variable key_eqb : Key -> Key -> bool.
Variable hash : Key -> Z.
Variable key0 : Key.
Variable hs : hop_size.
Hypothesis key_eqb_spec : forall a b, key_eqb a b = true <-> a = b.

Local Abbreviation t := (HopSet.t Key).
Local Abbreviation hb := (hop_bucket hs).
Local Abbreviation WF := (HopSet.WF hash key0 hs).
Local Abbreviation cap := (@HopSet.capacity_ Key).
Local Abbreviation has := (HopSet.has key_eqb hash key0 hs).
Local Abbreviation remove := (HopSet.remove key_eqb hash key0 hs).
Local Abbreviation find_index := (HopSet.find_index key_eqb hash key0 hs).
Local Abbreviation bucket := (HopSet.get_bucket_index hash).

Lemma remove_frame (s : t) (k : Key) :
  WF None s -> has s k = true ->
  snd (remove s k) = true
  /\ HopSet.keys_ (fst (remove s k)) = HopSet.keys_ s
  /\ HopSet.destroyed_ (fst (remove s k)) = HopSet.destroyed_ s
  /\ cap (fst (remove s k)) = cap s
  /\ HopSet.size_ (fst (remove s k)) = HopSet.size_ s - 1
  /\ Zlen (HopSet.hops_ (fst (remove s k))) = Zlen (HopSet.hops_ s)
  /\ (forall i j, 0 <= i -> 0 <= j ->
        Z.testbit (get 0 (HopSet.hops_ (fst (remove s k))) i) j
        = xorb (Z.testbit (get 0 (HopSet.hops_ s) i) j)
               (((i =? find_index s k) && (j =? 0))
                || ((i =? bucket s k)
                    && (j =? find_index s k - bucket s k + 1)))).
Proof.
  intros W Hhas.
  assert (Hne : HopSet.find_internal key_eqb key0 hs s (bucket s k) k
                <> HopSet.end_index hs s).
  { unfold HopSet.has in Hhas. apply negb_true_iff, Z.eqb_neq in Hhas.
    exact Hhas. }
  destruct (find_internal_found Key key_eqb hash key0 hs key_eqb_spec k W Hne)
    as (Hi & Hl & _ & Hk).
  unfold HopSet.find_index.
  set (index := HopSet.find_internal key_eqb key0 hs s (bucket s k) k) in *.
  destruct (WF_home Key hash key0 hs W index Hi Hl ltac:(discriminate))
    as (Hb1 & Hb2 & Hb3).
  rewrite Hk in Hb1, Hb2, Hb3.
  pose proof (bucket_range Key hash key0 hs k W) as Hbr.
  set (b := bucket s k) in *.
  pose proof (hop_bucket_range hs) as Hhb.
  pose proof (HopSize_bucket hs) as HS.
  pose proof (hops_len Key hash key0 hs W) as HL.
  pose proof (index_bound Key hash key0 hs W index ltac:(lia)) as Hi32.
  assert (Ej : u32 (u32 (index - b) + 1) = index - b + 1)
    by (apply u32_diff_succ; lia).
  unfold HopSet.remove. fold b. fold index.
  change (negb (index =? HopSet.end_index hs s)) with (has s k).
  rewrite Hhas. cbn [fst snd HopSet.keys_ HopSet.hops_ HopSet.size_
                     HopSet.capacity_ HopSet.destroyed_].
  rewrite Ej.
  split; [reflexivity|]. split; [reflexivity|]. split; [reflexivity|].
  split; [reflexivity|]. split.
  { pose proof (live_count_pos (HopSet.hops_ s) index ltac:(lia) Hl) as Hp.
    pose proof (live_count_le (HopSet.hops_ s)) as Hle.
    pose proof (HopSet.wf_size W) as Hsz. cbv beta iota in Hsz.
    pose proof (cap_bounds Key hash key0 hs W) as Hcb.
    apply u32_small. pows. lia. }
  split; [now rewrite !Zlen_upd|].
  intros i j Hi0 Hj0.
  set (hops1 := upd (HopSet.hops_ s) b
                    (HopscotchBase.xor_bit hs (get 0 (HopSet.hops_ s) b)
                                           (index - b + 1))).
  assert (L1 : Zlen hops1 = cap s + hb) by (subst hops1; now rewrite Zlen_upd).
  assert (Hhigh : forall x, 0 <= x -> HopSize hs <= j ->
            Z.testbit (get 0 (HopSet.hops_ s) x) j = false).
  { intros x Hx Hj. destruct (Z.lt_ge_cases x (cap s + hb)).
    - apply (bits_above _ (HopSize hs)); [|lia].
      apply (WF_range Key hash key0 hs W). lia.
    - rewrite get_outside by lia. apply Z.testbit_0_l. }
  assert (B1 : Z.testbit (get 0 hops1 i) j
               = xorb (Z.testbit (get 0 (HopSet.hops_ s) i) j)
                      ((i =? b) && (j =? index - b + 1))).
  { subst hops1. rewrite testbit_get_upd by lia.
    destruct (Z.eqb_spec i b) as [-> | Hnb]; cbn [andb].
    - rewrite xor_bit_testbit by lia.
      destruct (Z.ltb_spec j (HopSize hs)); cbn [andb]; [reflexivity|].
      rewrite Hhigh by lia. eqb_false j (index - b + 1). reflexivity.
    - now rewrite xorb_false_r. }
  rewrite testbit_get_upd by lia.
  destruct (Z.eqb_spec i index) as [-> | Hni]; cbn [andb orb].
  - rewrite xor_one_testbit.
    assert (B1' : Z.testbit (get 0 hops1 index) j
                  = xorb (Z.testbit (get 0 (HopSet.hops_ s) index) j)
                         ((index =? b) && (j =? index - b + 1))) by exact B1.
    rewrite B1'.
    destruct (Z.ltb_spec j (HopSize hs)); cbn [andb].
    + destruct (Z.eqb_spec j 0) as [-> | Hj1].
      * eqb_false 0 (index - b + 1). rewrite andb_false_r.
        now rewrite xorb_false_r.
      * now rewrite xorb_false_r.
    + rewrite Hhigh by lia. eqb_false j 0. eqb_false j (index - b + 1).
      rewrite andb_false_r. reflexivity.
  - exact B1.
Qed.

End SetRemoveFrame.

(** ** clear *)

Lemma get_map_indexed {A : Type} (d : A) (f : nat * A -> A) (l : list A) (i : Z) :
  0 <= i < Zlen l ->
  get d (map f (combine (seq 0 (length l)) l)) i
  = f (Z.to_nat i, get d l i).
Proof.
  unfold Zlen, get. intros Hi.
  assert (Hlen : length (combine (seq 0 (length l)) l) = length l).
  { rewrite length_combine, length_seq. lia. }
  rewrite (nth_indep _ d (f (0%nat, d)))
    by (rewrite length_map, Hlen; lia).
  rewrite (map_nth f). f_equal.
  rewrite (combine_nth _ _ _ 0%nat d) by (now rewrite length_seq).
  rewrite seq_nth by lia. reflexivity.
Qed.

Section SetClear.
Variable Key : Type.
Variable key_eqb : Key -> Key -> bool.
Variable hash : Key -> Z.
Variable key0 : Key.
Variable big_endian : bool.

Local Abbreviation t := (HopSet.t Key).

Lemma Zlen_memset_zero (hs : hop_size) (w n : Z) (l : list Z) :
  Zlen (HopSet.memset_zero big_endian w n l) = Zlen l.
Proof.
  unfold Zlen, HopSet.memset_zero.
  rewrite length_map, length_combine, length_seq. lia.
Qed.

(** With [hop_type = uint8_t] a word is a byte and [memset] reaches the
    whole bitmap buffer: [clear] empties the set. *)
Lemma clear_Hop8 (s : t) :
  HopSet.WF hash key0 Hop8 None s ->
  HopSet.size (HopSet.clear Hop8 big_endian s) = 0
  /\ HopSet.capacity (HopSet.clear Hop8 big_endian s) = HopSet.capacity s
  /\ Zlen (HopSet.hops_ (HopSet.clear Hop8 big_endian s)) = Zlen (HopSet.hops_ s)
  /\ (forall i, 0 <= i ->
        get 0 (HopSet.hops_ (HopSet.clear Hop8 big_endian s)) i = 0)
  /\ (forall k, HopSet.has key_eqb hash key0 Hop8
                           (HopSet.clear Hop8 big_endian s) k = false).
Proof.
  intros W. pose proof (cap_bounds Key hash key0 Hop8 W) as Hc.
  pose proof (hops_len Key hash key0 Hop8 W) as HL. pows.
  assert (Hz : forall i, 0 <= i ->
            get 0 (HopSet.hops_ (HopSet.clear Hop8 big_endian s)) i = 0).
  { intros i Hpos. unfold HopSet.clear, HopSet.clear_internal.
    cbn [HopSet.hops_]. unfold HopSet.memset_zero.
    destruct (Z.lt_ge_cases i (Zlen (HopSet.hops_ s))) as [Hin | Hout].
    - rewrite get_map_indexed by lia. cbn [fst snd].
      unfold HopSet.memset_zero_word. cbn [sizeof_hop_type].
      change (hop_bucket Hop8) with 7 in *.
      rewrite u32_small by lia.
      destruct (Z.leb_spec ((Z.of_nat (Z.to_nat i) + 1) * 1)
                           (HopSet.capacity_ s + 7)); [reflexivity | lia].
    - apply get_outside.
      fold (HopSet.memset_zero big_endian (sizeof_hop_type Hop8)
              (u32 (HopSet.capacity_ s + hop_bucket Hop8)) (HopSet.hops_ s)).
      rewrite (Zlen_memset_zero Hop8). exact Hout. }
  split; [reflexivity|]. split; [reflexivity|]. split.
  { unfold HopSet.clear, HopSet.clear_internal. cbn [HopSet.hops_].
    apply (Zlen_memset_zero Hop8). }
  split; [exact Hz|].
  intros k. unfold HopSet.has, HopSet.find_internal, HopscotchBase.find_internal.
  rewrite Hz by apply (bucket_range Key hash key0 Hop8 k W).
  change (hop_word Hop8 (Z.shiftr 0 1)) with 0.
  change (Z.to_nat (HopSize Hop8)) with 8%nat.
  cbn [HopscotchBase.find_loop]. change (0 =? 0) with true. cbv iota.
  unfold HopSet.end_index. now rewrite Z.eqb_refl.
Qed.

End SetClear.

(** ** save and load *)

Section SetSerialise.
Variable Key : Type.
Variable key0 : Key.
Variable hs : hop_size.
Variable save_key : Key -> Z.
Variable load_key : Z -> Key.

Local Abbreviation t := (HopSet.t Key).
Local Abbreviation hb := (hop_bucket hs).

Lemma map_get_seq {A : Type} (d : A) (l : list A) :
  map (fun i => get d l (Z.of_nat i)) (seq 0 (length l)) = l.
Proof.
  pose proof (copy_n_id d l) as E. unfold copy_n, Zlen in E.
  now rewrite Nat2Z.id in E.
Qed.

(** What [save] writes: the count, the capacity, the bitmap words, then the
    keys. *)
Lemma save_layout (s : t) :
  Zlen (HopSet.hops_ s) = HopSet.capacity_ s + hb ->
  Zlen (HopSet.keys_ s) = HopSet.capacity_ s + hb ->
  HopSet.save key0 hs save_key s
  = HopSet.size_ s :: HopSet.capacity_ s
    :: HopSet.hops_ s ++ map save_key (HopSet.keys_ s).
Proof.
  intros Hh Hk. unfold HopSet.save, Zlen in *. cbn [app].
  rewrite <- Hh at 1. rewrite <- Hk. rewrite !Nat2Z.id.
  rewrite map_get_seq.
  rewrite <- (map_map (fun i => get key0 (HopSet.keys_ s) (Z.of_nat i)) save_key).
  now rewrite map_get_seq.
Qed.

Lemma load_n_app {A : Type} (conv : Z -> A) (l rest : list Z) :
  HopSet.load_n conv (length l) (l ++ rest) = Some (map conv l, rest).
Proof.
  induction l as [|x l IH]; cbn [length app HopSet.load_n map]; [reflexivity|].
  now rewrite IH.
Qed.

(** What [load] reads: the count, the capacity, then as many words as there
    are slots into [keys_], then as many again into [hops_]. *)
Lemma load_layout (s0 : t) (sz c : Z) (first second rest : list Z) :
  Zlen first = u32 (u32 c + hb) -> Zlen second = u32 (u32 c + hb) ->
  HopSet.load hs load_key s0 (sz :: c :: first ++ second ++ rest)
  = Some ({| HopSet.keys_ := map load_key first;
             HopSet.hops_ := map (hop_word hs) second;
             HopSet.size_ := u32 sz;
             HopSet.capacity_ := u32 c;
             HopSet.destroyed_ := HopSet.destroyed_ s0 |}, rest).
Proof.
  unfold Zlen. intros H1 H2. unfold HopSet.load.
  rewrite <- H1 at 1. rewrite Nat2Z.id, load_n_app.
  rewrite <- H2. rewrite Nat2Z.id, load_n_app. reflexivity.
Qed.

End SetSerialise.

(** ** insert returns when the home neighbourhood has a free slot *)

Lemma probe_loop_le (n : nat) (hops_ : list Z) (probe_end idx i : Z) :
  0 <= idx -> idx <= i -> i < probe_end -> probe_end < 2 ^ 32 ->
  Z.of_nat n = probe_end - idx ->
  Z.testbit (get 0 hops_ i) 0 = false ->
  HopscotchBase.probe_loop n hops_ probe_end idx <= i.
Proof.
  revert idx. induction n as [|n IH]; intros idx H0 Hi He Hp Hn Hb;
    cbn [HopscotchBase.probe_loop]; [lia|].
  destruct (Z.ltb_spec idx probe_end); cbn [andb]; [|lia].
  destruct (Z.testbit (get 0 hops_ idx) 0) eqn:Hx; [|lia].
  rewrite u32_small by lia.
  assert (idx <> i) by (intros ->; congruence).
  apply IH; auto; lia.
Qed.

Section SetProgress.
Variable Key : Type.
Variable key_eqb : Key -> Key -> bool.
Variable hash : Key -> Z.
Variable key0 : Key.
Variable moved_from : Key -> Key.
Variable hs : hop_size.

Local Abbreviation t := (HopSet.t Key).
Local Abbreviation hb := (hop_bucket hs).
Local Abbreviation WF := (HopSet.WF hash key0 hs).
Local Abbreviation bucket := (HopSet.get_bucket_index hash).
Local Abbreviation cap := (@HopSet.capacity_ Key).

Lemma insert_returns (fuel : nat) (s : t) (k : Key) (i : Z) :
  WF None s ->
  bucket s k <= i <= bucket s k + hb - 1 ->
  HopSet.live s i = false ->
  exists s' b,
    HopSet.insert key_eqb hash key0 moved_from hs (S fuel) s k = Some (s', b).
Proof.
  intros W Hi Hl.
  pose proof (cap_bounds Key hash key0 hs W) as Hc.
  pose proof (bucket_range Key hash key0 hs k W) as Hb.
  pose proof (end_index_eq Key hash key0 hs W) as He.
  pose proof (hop_bucket_range hs) as Hh.
  pose proof (probe_max_range hs) as Hp.
  assert (Hpm : hb < probe_max hs)
    by (unfold probe_max, hop_bucket; destruct hs; cbn; lia).
  pows.
  cbn [HopSet.insert]. unfold HopSet.insert_body.
  destruct (negb _); [eauto|].
  rewrite (u32_small (bucket s k + probe_max hs)) by lia.
  rewrite He.
  set (pe := if bucket s k + probe_max hs >? cap s + hb
             then cap s + hb else bucket s k + probe_max hs).
  assert (Hpe : i < pe /\ pe < 2 ^ 32).
  { unfold pe. destruct (Z.gtb_spec (bucket s k + probe_max hs) (cap s + hb)); lia. }
  pose proof (probe_loop_le (Z.to_nat (pe - bucket s k)) (HopSet.hops_ s) pe
                (bucket s k) i ltac:(lia) ltac:(lia) ltac:(lia) ltac:(lia)
                ltac:(lia) Hl) as Hle.
  pose proof (probe_loop_spec (Z.to_nat (pe - bucket s k)) (HopSet.hops_ s) pe
                (bucket s k) ltac:(lia) ltac:(lia) ltac:(lia)) as [Hge _].
  set (idx := HopscotchBase.probe_loop _ _ _ _) in *.
  destruct (Z.eqb_spec idx pe) as [Heq|Hne]; [lia|].
  assert (Hd : forall n s1,
             HopSet.displace key0 moved_from hs n s1 (bucket s k) idx
             = (s1, idx, true)).
  { intros [|m] s1; cbn [HopSet.displace]; [reflexivity|].
    rewrite (u32_small (bucket s k + hb)) by lia.
    rewrite (u32_small (bucket s k + hb - 1)) by lia.
    destruct (Z.gtb_spec idx (bucket s k + hb - 1)); [lia | reflexivity]. }
  rewrite Hd. eauto.
Qed.

End SetProgress.

(** ** Dict: lookups on the key part *)

Section DictFind.
Variable Key : Type.
Variable Value : Type.
Variable key_eqb : Key -> Key -> bool.
Variable hash : Key -> Z.
Variable key0 : Key.
Variable hs : hop_size.
Hypothesis key_eqb_spec : forall a b, key_eqb a b = true <-> a = b.

Local Abbreviation dict := (Dict.t Key Value).
Local Abbreviation key_part := (@Dict.key_part Key Value).

Lemma dict_find_index (d : dict) (k : Key) :
  HopSet.WF hash key0 hs None (key_part d) ->
  Dict.find key_eqb hash key0 hs d k = Dict.find_index key_eqb hash key0 hs d k.
Proof.
  intros W. unfold Dict.find, Dict.make_iterator, Dict.find_index.
  pose proof (next_find_internal Key key_eqb hash key0 hs key_eqb_spec
                (key_part d) k W) as E.
  change (HopSet.find_internal key_eqb key0 hs (key_part d)
            (HopSet.get_bucket_index hash (key_part d) k) k)
    with (Dict.find_internal key_eqb key0 hs d
            (Dict.get_bucket_index hash d k) k) in E.
  change (HopSet.hops_ (key_part d)) with (Dict.hops_ d) in E.
  change (HopSet.capacity_ (key_part d)) with (Dict.capacity_ d) in E.
  now rewrite E, E.
Qed.

Lemma dict_end (d : dict) : Dict.end_ hs d = Dict.end_index hs d.
Proof.
  unfold Dict.end_, Dict.make_iterator, Dict.end_index.
  now rewrite !next_end.
Qed.

Lemma dict_find_end_has (d : dict) (k : Key) :
  HopSet.WF hash key0 hs None (key_part d) ->
  (Dict.find key_eqb hash key0 hs d k =? Dict.end_ hs d)
  = negb (Dict.has key_eqb hash key0 hs d k).
Proof.
  intros W. rewrite (dict_find_index d k W), dict_end.
  unfold Dict.has, Dict.find_index. now rewrite negb_involutive.
Qed.

End DictFind.

(** * The properties of the specification *)

(** C1, as the code has it.  Round trip.  A sequence of inserts need not
    return: [insert] and [expand] call each other without a bound.  On a
    well-formed Set and on a well-formed Dict, after any sequence of inserts
    and removals that returns (with a capacity that did not wrap to 0),
    [find(key)] is not the end position exactly when the last operation on
    [key] was an insert, or when there was none and [key] was present at the
    start: every inserted key is found until it is erased, and after
    [erase(key)] / [remove(key)] the lookup returns the end position. *)
Theorem round_trip
  (Key Value : Type) (key_eqb : Key -> Key -> bool) (hash : Key -> Z)
  (key0 : Key) (value0 : Value) (moved_from : Key -> Key)
  (moved_from_value : Value -> Value) (hs : hop_size)
  (key_eqb_spec : forall a b, key_eqb a b = true <-> a = b)
  (fuel : nat)
  (s s' : HopSet.t Key) (sops : list (HopSet.op Key))
  (d d' : Dict.t Key Value) (dops : list (Dict.op Key Value)) (k : Key) :
  HopSet.wf key_eqb hash key0 hs s = true ->
  HopSet.run key_eqb hash key0 moved_from hs fuel s sops = Some s' ->
  HopSet.capacity_ s' <> 0 ->
  Dict.wf key_eqb hash key0 hs d = true ->
  Dict.run key_eqb hash key0 value0 moved_from moved_from_value hs fuel d dops
  = Some d' ->
  Dict.capacity_ d' <> 0 ->
  (HopSet.find key_eqb hash key0 hs s' k =? HopSet.end_ hs s')
  = negb (HopSet.expected key_eqb (HopSet.has key_eqb hash key0 hs s k) sops k)
  /\ (Dict.find key_eqb hash key0 hs d' k =? Dict.end_ hs d')
     = negb (HopSet.expected key_eqb (Dict.has key_eqb hash key0 hs d k)
                             (map (@Dict.key_op Key Value) dops) k)
  /\ HopSet.wf key_eqb hash key0 hs s' = true
  /\ Dict.wf key_eqb hash key0 hs d' = true.
Proof.
  intros Hs Es Hcs Hd Ed Hcd.
  apply (wf_WF Key key_eqb hash key0 hs) in Hs.
  unfold Dict.wf in *. apply (wf_WF Key key_eqb hash key0 hs) in Hd.
  destruct (run_spec Key key_eqb hash key0 moved_from hs key_eqb_spec
              fuel s s' sops Hs Es Hcs) as [Ws' Hrs].
  pose proof (run_key_part Key Value key_eqb hash key0 value0 moved_from
                moved_from_value hs fuel d dops) as Ep.
  rewrite Ed in Ep. cbn [option_map] in Ep. symmetry in Ep.
  destruct (run_spec Key key_eqb hash key0 moved_from hs key_eqb_spec
              fuel _ _ _ Hd Ep Hcd) as [Wd' Hrd].
  split; [|split; [|split]].
  - rewrite (find_end_has Key key_eqb hash key0 hs key_eqb_spec s' k Ws').
    now rewrite Hrs.
  - rewrite (dict_find_end_has Key Value key_eqb hash key0 hs key_eqb_spec d' k Wd').
    f_equal. exact (Hrd k).
  - now apply (WF_wf Key key_eqb hash key0 hs key_eqb_spec).
  - now apply (WF_wf Key key_eqb hash key0 hs key_eqb_spec).
Qed.

Lemma round_trip_witness :
  (HopSet.find Z.eqb Examples.hash_id 0 Hop8 Examples.set1 9
   =? HopSet.end_ Hop8 Examples.set1)
  = negb (HopSet.expected Z.eqb
            (HopSet.has Z.eqb Examples.hash_id 0 Hop8 Examples.set0 9)
            Examples.set_ops 9)
  /\ (Dict.find Z.eqb Examples.hash_id 0 Hop8 Examples.dict1 9
      =? Dict.end_ Hop8 Examples.dict1)
     = negb (HopSet.expected Z.eqb
               (Dict.has Z.eqb Examples.hash_id 0 Hop8 Examples.dict0 9)
               (map (@Dict.key_op Z Z) Examples.dict_ops) 9)
  /\ HopSet.wf Z.eqb Examples.hash_id 0 Hop8 Examples.set1 = true
  /\ Dict.wf Z.eqb Examples.hash_id 0 Hop8 Examples.dict1 = true.
Proof.
  apply (round_trip Z Z Z.eqb Examples.hash_id 0 0 Examples.moved
           Examples.moved Hop8 Z.eqb_eq 4%nat
           Examples.set0 Examples.set1 Examples.set_ops
           Examples.dict0 Examples.dict1 Examples.dict_ops 9).
  - vm_compute. reflexivity.
  - vm_compute. reflexivity.
  - vm_compute. lia.
  - vm_compute. reflexivity.
  - vm_compute. reflexivity.
  - vm_compute. lia.
Defined.

(** C2, as the code has it.  Neighbourhood bound.  An insert need not
    return.  After an insert into a well-formed Set that returns with a
    capacity that did not wrap to 0 (displacement cascade and growth
    included), every live slot [i]
    lies within [hop_bucket] slots of the home bucket [h] of its key
    ([h <= i <= h + hop_bucket - 1]), the displacement bit [i - h + 1] of the
    bitmap at [h] is set, and the neighbourhood scan from [h] returns [i]. *)
Theorem neighborhood_bound
  (Key : Type) (key_eqb : Key -> Key -> bool) (hash : Key -> Z)
  (key0 : Key) (moved_from : Key -> Key) (hs : hop_size)
  (key_eqb_spec : forall a b, key_eqb a b = true <-> a = b)
  (fuel : nat) (s s' : HopSet.t Key) (k : Key) (b : bool) (i : Z) :
  HopSet.wf key_eqb hash key0 hs s = true ->
  HopSet.insert key_eqb hash key0 moved_from hs fuel s k = Some (s', b) ->
  HopSet.capacity_ s' <> 0 ->
  0 <= i < HopSet.capacity_ s' + hop_bucket hs ->
  HopSet.live s' i = true ->
  HopSet.get_bucket_index hash s' (HopSet.key_at key0 s' i) <= i
  /\ i <= HopSet.get_bucket_index hash s' (HopSet.key_at key0 s' i)
          + hop_bucket hs - 1
  /\ HopSet.hop_bit s' (HopSet.get_bucket_index hash s' (HopSet.key_at key0 s' i))
                    (i - HopSet.get_bucket_index hash s' (HopSet.key_at key0 s' i) + 1)
     = true
  /\ HopSet.find_internal key_eqb key0 hs s'
       (HopSet.get_bucket_index hash s' (HopSet.key_at key0 s' i))
       (HopSet.key_at key0 s' i) = i
  /\ HopSet.has key_eqb hash key0 hs s' k = true.
Proof.
  intros Hs E Hc Hi Hl.
  apply (wf_WF Key key_eqb hash key0 hs) in Hs.
  destruct (has_insert Key key_eqb hash key0 moved_from hs key_eqb_spec
              fuel s s' k b Hs E Hc) as (W' & Hh & _).
  destruct (WF_home Key hash key0 hs W' i Hi Hl ltac:(discriminate))
    as (H1 & H2 & H3).
  split; [exact H1|]. split; [lia|]. split; [exact H3|]. split.
  - apply (find_internal_live Key key_eqb hash key0 hs key_eqb_spec W' Hi Hl).
    discriminate.
  - rewrite Hh. rewrite (key_eqb_refl Key key_eqb key_eqb_spec).
    apply orb_true_r.
Qed.

Lemma neighborhood_bound_witness :
  HopSet.get_bucket_index Examples.hash_id Examples.set_1_9
    (HopSet.key_at 0 Examples.set_1_9 8) <= 8
  /\ 8 <= HopSet.get_bucket_index Examples.hash_id Examples.set_1_9
            (HopSet.key_at 0 Examples.set_1_9 8) + hop_bucket Hop8 - 1
  /\ HopSet.hop_bit Examples.set_1_9
       (HopSet.get_bucket_index Examples.hash_id Examples.set_1_9
          (HopSet.key_at 0 Examples.set_1_9 8))
       (8 - HopSet.get_bucket_index Examples.hash_id Examples.set_1_9
              (HopSet.key_at 0 Examples.set_1_9 8) + 1) = true
  /\ HopSet.find_internal Z.eqb 0 Hop8 Examples.set_1_9
       (HopSet.get_bucket_index Examples.hash_id Examples.set_1_9
          (HopSet.key_at 0 Examples.set_1_9 8))
       (HopSet.key_at 0 Examples.set_1_9 8) = 8
  /\ HopSet.has Z.eqb Examples.hash_id 0 Hop8 Examples.set_1_9 9 = true.
Proof.
  apply (neighborhood_bound Z Z.eqb Examples.hash_id 0 Examples.moved Hop8
           Z.eqb_eq 1%nat Examples.set_1_8 Examples.set_1_9 9 true 8).
  - vm_compute. reflexivity.
  - vm_compute. reflexivity.
  - vm_compute. lia.
  - vm_compute. split; [discriminate | reflexivity].
  - vm_compute. reflexivity.
Defined.

(** C3, as the code has it.  Set algebra.  For well-formed sets [A] and
    [B]: [A & B] holds exactly the keys of both; [A - B] exactly the keys
    of [A] absent from [B]; and [intersects(A, B)] is [!(A & B).empty()].
    [A | B] and [A ^ B] insert into a copy of [A] (or of [B]): when they
    return, with a capacity that did not wrap to 0, [A | B] holds exactly
    the keys of [A] or [B], and [A ^ B] holds the keys of exactly one of [A]
    and [B], the same keys as [(A - B) | (B - A)] when that union returns. *)
Theorem set_algebra_laws
  (Key : Type) (key_eqb : Key -> Key -> bool) (hash : Key -> Z)
  (key0 : Key) (moved_from : Key -> Key) (hs : hop_size)
  (key_eqb_spec : forall a b, key_eqb a b = true <-> a = b)
  (td : bool) (A B : HopSet.t Key) (k : Key) :
  HopSet.wf key_eqb hash key0 hs A = true ->
  HopSet.wf key_eqb hash key0 hs B = true ->
  (HopSet.has key_eqb hash key0 hs (HopSet.op_and key_eqb hash key0 hs td A B) k
   = HopSet.has key_eqb hash key0 hs A k && HopSet.has key_eqb hash key0 hs B k
   /\ HopSet.has key_eqb hash key0 hs (HopSet.op_sub key_eqb hash key0 hs td A B) k
      = HopSet.has key_eqb hash key0 hs A k
        && negb (HopSet.has key_eqb hash key0 hs B k)
   /\ HopSet.intersects key_eqb hash key0 hs A B
      = negb (HopSet.empty (HopSet.op_and key_eqb hash key0 hs td A B)))
  /\ (forall fuel U,
        HopSet.op_or key_eqb hash key0 moved_from hs td fuel A B = Some U ->
        HopSet.capacity_ U <> 0 ->
        HopSet.has key_eqb hash key0 hs U k
        = HopSet.has key_eqb hash key0 hs A k
          || HopSet.has key_eqb hash key0 hs B k)
  /\ (forall fuel X,
        HopSet.op_xor key_eqb hash key0 moved_from hs td fuel A B = Some X ->
        HopSet.capacity_ X <> 0 ->
        HopSet.has key_eqb hash key0 hs X k
        = xorb (HopSet.has key_eqb hash key0 hs A k)
               (HopSet.has key_eqb hash key0 hs B k)
        /\ forall fuel' D,
             HopSet.op_or key_eqb hash key0 moved_from hs td fuel'
               (HopSet.op_sub key_eqb hash key0 hs td A B)
               (HopSet.op_sub key_eqb hash key0 hs td B A) = Some D ->
             HopSet.capacity_ D <> 0 ->
             HopSet.has key_eqb hash key0 hs X k
             = HopSet.has key_eqb hash key0 hs D k).
Proof.
  intros HA HB.
  apply (wf_WF Key key_eqb hash key0 hs) in HA, HB.
  pose proof (copy_WF Key hash key0 hs td A HA) as WcA.
  pose proof (copy_WF Key hash key0 hs td B HB) as WcB.
  assert (Hor : forall fuel P Q U,
            HopSet.WF hash key0 hs None P -> HopSet.WF hash key0 hs None Q ->
            HopSet.op_or key_eqb hash key0 moved_from hs td fuel P Q = Some U ->
            HopSet.capacity_ U <> 0 ->
            forall x, HopSet.has key_eqb hash key0 hs U x
                      = HopSet.has key_eqb hash key0 hs P x
                        || HopSet.has key_eqb hash key0 hs Q x).
  { intros fuel P Q U WP WQ EU HcU x. unfold HopSet.op_or in EU.
    pose proof (copy_WF Key hash key0 hs td P WP) as WcP.
    pose proof (copy_WF Key hash key0 hs td Q WQ) as WcQ.
    destruct (HopSet.size Q >? HopSet.size P).
    - destruct (or_assign_spec Key key_eqb hash key0 moved_from hs key_eqb_spec
                  fuel _ P U WcQ WP EU HcU) as [_ H].
      rewrite H, (copy_has Key key_eqb hash key0 hs td Q x WQ). apply orb_comm.
    - destruct (or_assign_spec Key key_eqb hash key0 moved_from hs key_eqb_spec
                  fuel _ Q U WcP WQ EU HcU) as [_ H].
      now rewrite H, (copy_has Key key_eqb hash key0 hs td P x WP). }
  destruct (and_assign_spec Key key_eqb hash key0 moved_from hs key_eqb_spec
              _ B WcA HB) as [Wand Hand].
  fold (HopSet.op_and key_eqb hash key0 hs td A B) in Wand, Hand.
  assert (Hsub : forall P Q, HopSet.WF hash key0 hs None P ->
            HopSet.WF hash key0 hs None Q ->
            HopSet.WF hash key0 hs None (HopSet.op_sub key_eqb hash key0 hs td P Q)
            /\ forall x,
                 HopSet.has key_eqb hash key0 hs
                            (HopSet.op_sub key_eqb hash key0 hs td P Q) x
                 = HopSet.has key_eqb hash key0 hs P x
                   && negb (HopSet.has key_eqb hash key0 hs Q x)).
  { intros P Q WP WQ. unfold HopSet.op_sub.
    destruct (sub_assign_spec Key key_eqb hash key0 moved_from hs key_eqb_spec
                _ Q (copy_WF Key hash key0 hs td P WP) WQ) as [W H].
    split; [exact W|]. intros x.
    now rewrite H, (copy_has Key key_eqb hash key0 hs td P x WP). }
  destruct (Hsub A B HA HB) as [WAB HAB].
  destruct (Hsub B A HB HA) as [WBA HBA].
  split; [split; [|split]|split].
  - rewrite Hand. now rewrite (copy_has Key key_eqb hash key0 hs td A k HA).
  - apply HAB.
  - apply bool_eq_iff.
    rewrite (intersects_spec Key key_eqb hash key0 hs key_eqb_spec A B HA HB).
    rewrite negb_true_iff, (empty_false_iff Key hash key0 hs Wand). split.
    + intros (x & H1 & H2). exists x.
      apply (has_mem Key key_eqb hash key0 hs key_eqb_spec Wand).
      rewrite Hand, (copy_has Key key_eqb hash key0 hs td A x HA).
      apply andb_true_iff. split;
        now apply (has_mem Key key_eqb hash key0 hs key_eqb_spec).
    + intros (x & Hx). exists x.
      apply (has_mem Key key_eqb hash key0 hs key_eqb_spec Wand) in Hx.
      rewrite Hand, (copy_has Key key_eqb hash key0 hs td A x HA) in Hx.
      apply andb_true_iff in Hx as [H1 H2]. split;
        now apply (has_mem Key key_eqb hash key0 hs key_eqb_spec).
  - intros fuel U EU HcU. exact (Hor fuel A B U HA HB EU HcU k).
  - intros fuel X EX HcX.
    assert (HXk : HopSet.has key_eqb hash key0 hs X k
                  = xorb (HopSet.has key_eqb hash key0 hs A k)
                         (HopSet.has key_eqb hash key0 hs B k)).
    { unfold HopSet.op_xor in EX.
      destruct (xor_assign_spec Key key_eqb hash key0 moved_from hs key_eqb_spec
                  fuel _ B X WcA HB EX HcX) as [_ HX].
      rewrite HX, (copy_has Key key_eqb hash key0 hs td A k HA).
      destruct (HopSet.has key_eqb hash key0 hs A k),
               (HopSet.has key_eqb hash key0 hs B k); reflexivity. }
    split; [exact HXk|].
    intros fuel' D ED HcD.
    rewrite HXk, (Hor fuel' _ _ D WAB WBA ED HcD k), HAB, HBA.
    destruct (HopSet.has key_eqb hash key0 hs A k),
             (HopSet.has key_eqb hash key0 hs B k); reflexivity.
Qed.

Lemma set_algebra_laws_witness :
  HopSet.has Z.eqb Examples.hash_id 0 Hop8 Examples.set_or 4
  = HopSet.has Z.eqb Examples.hash_id 0 Hop8 Examples.set_123 4
    || HopSet.has Z.eqb Examples.hash_id 0 Hop8 Examples.set_345 4
  /\ HopSet.has Z.eqb Examples.hash_id 0 Hop8
       (HopSet.op_and Z.eqb Examples.hash_id 0 Hop8 true
          Examples.set_123 Examples.set_345) 4
     = HopSet.has Z.eqb Examples.hash_id 0 Hop8 Examples.set_123 4
       && HopSet.has Z.eqb Examples.hash_id 0 Hop8 Examples.set_345 4
  /\ HopSet.has Z.eqb Examples.hash_id 0 Hop8
       (HopSet.op_sub Z.eqb Examples.hash_id 0 Hop8 true
          Examples.set_123 Examples.set_345) 4
     = HopSet.has Z.eqb Examples.hash_id 0 Hop8 Examples.set_123 4
       && negb (HopSet.has Z.eqb Examples.hash_id 0 Hop8 Examples.set_345 4)
  /\ HopSet.has Z.eqb Examples.hash_id 0 Hop8 Examples.set_xor 4
     = HopSet.has Z.eqb Examples.hash_id 0 Hop8 Examples.set_diffs 4
  /\ HopSet.intersects Z.eqb Examples.hash_id 0 Hop8
       Examples.set_123 Examples.set_345
     = negb (HopSet.empty
               (HopSet.op_and Z.eqb Examples.hash_id 0 Hop8 true
                  Examples.set_123 Examples.set_345)).
Proof.
  destruct (set_algebra_laws Z Z.eqb Examples.hash_id 0 Examples.moved Hop8
              Z.eqb_eq true Examples.set_123 Examples.set_345 4)
    as ((Hand & Hsub & Hint) & Hor & Hxor).
  - vm_compute. reflexivity.
  - vm_compute. reflexivity.
  - split; [|split; [exact Hand|split; [exact Hsub|split; [|exact Hint]]]].
    + apply (Hor 2%nat Examples.set_or).
      * vm_compute. reflexivity.
      * vm_compute. lia.
    + destruct (Hxor 2%nat Examples.set_xor) as [_ HD].
      * vm_compute. reflexivity.
      * vm_compute. lia.
      * apply (HD 2%nat Examples.set_diffs).
        -- vm_compute. reflexivity.
        -- vm_compute. lia.
Defined.

(** C4. Idempotence.  Inserting a key that is present returns at once: a
    Dict is left unchanged (so the stored value and the size are unchanged)
    and the returned position is the one [find(key)] returns, the live
    slot that holds the key; a Set is left
    unchanged (so its size is unchanged) and [insert] returns [false]. *)
Theorem insert_present_is_noop
  (Key Value : Type) (key_eqb : Key -> Key -> bool) (hash : Key -> Z)
  (key0 : Key) (value0 : Value) (moved_from : Key -> Key)
  (moved_from_value : Value -> Value) (hs : hop_size)
  (key_eqb_spec : forall a b, key_eqb a b = true <-> a = b)
  (fuel : nat) (d : Dict.t Key Value) (s : HopSet.t Key) (k : Key) (v : Value) :
  Dict.wf key_eqb hash key0 hs d = true ->
  Dict.has key_eqb hash key0 hs d k = true ->
  HopSet.has key_eqb hash key0 hs s k = true ->
  Dict.insert key_eqb hash key0 value0 moved_from moved_from_value hs
              (S fuel) d k v
  = Some (d, Dict.find key_eqb hash key0 hs d k)
  /\ HopSet.insert key_eqb hash key0 moved_from hs (S fuel) s k = Some (s, false)
  /\ Dict.find key_eqb hash key0 hs d k
     = Dict.find_index key_eqb hash key0 hs d k
  /\ Dict.find key_eqb hash key0 hs d k <> Dict.end_ hs d
  /\ get key0 (Dict.keys_ d) (Dict.find key_eqb hash key0 hs d k) = k
  /\ Z.testbit (get 0 (Dict.hops_ d) (Dict.find key_eqb hash key0 hs d k)) 0
     = true.
Proof.
  intros W Hd Hs. split; [|split].
  - cbn [Dict.insert]. unfold Dict.insert_body.
    change (negb (Dict.find_internal key_eqb key0 hs d
                    (Dict.get_bucket_index hash d k) k
                  =? Dict.end_index hs d))
      with (Dict.has key_eqb hash key0 hs d k).
    rewrite Hd. reflexivity.
  - cbn [HopSet.insert]. unfold HopSet.insert_body.
    change (negb (HopSet.find_internal key_eqb key0 hs s
                    (HopSet.get_bucket_index hash s k) k
                  =? HopSet.end_index hs s))
      with (HopSet.has key_eqb hash key0 hs s k).
    rewrite Hs. reflexivity.
  - unfold Dict.wf in W. apply (wf_WF Key key_eqb hash key0 hs) in W.
    pose proof (dict_find_index Key Value key_eqb hash key0 hs key_eqb_spec d k W)
      as Ef.
    rewrite Ef. split; [reflexivity|].
    assert (Hne : HopSet.find_internal key_eqb key0 hs (Dict.key_part d)
                    (HopSet.get_bucket_index hash (Dict.key_part d) k) k
                  <> HopSet.end_index hs (Dict.key_part d)).
    { unfold Dict.has in Hd. apply negb_true_iff, Z.eqb_neq in Hd. exact Hd. }
    destruct (find_internal_found Key key_eqb hash key0 hs key_eqb_spec k W Hne)
      as (_ & Hl & _ & Hk).
    split; [|split].
    + rewrite dict_end. exact Hne.
    + exact Hk.
    + exact Hl.
Qed.

Lemma insert_present_is_noop_witness :
  Dict.insert Z.eqb Examples.hash_id 0 0 Examples.moved Examples.moved Hop8
              1 Examples.dict_9 9 555
  = Some (Examples.dict_9, Dict.find Z.eqb Examples.hash_id 0 Hop8 Examples.dict_9 9)
  /\ HopSet.insert Z.eqb Examples.hash_id 0 Examples.moved Hop8 1
                   Examples.set_1_9 9
     = Some (Examples.set_1_9, false)
  /\ Dict.find Z.eqb Examples.hash_id 0 Hop8 Examples.dict_9 9
     = Dict.find_index Z.eqb Examples.hash_id 0 Hop8 Examples.dict_9 9
  /\ Dict.find Z.eqb Examples.hash_id 0 Hop8 Examples.dict_9 9
     <> Dict.end_ Hop8 Examples.dict_9
  /\ get 0 (Dict.keys_ Examples.dict_9)
         (Dict.find Z.eqb Examples.hash_id 0 Hop8 Examples.dict_9 9) = 9
  /\ Z.testbit
       (get 0 (Dict.hops_ Examples.dict_9)
            (Dict.find Z.eqb Examples.hash_id 0 Hop8 Examples.dict_9 9)) 0
     = true.
Proof.
  apply (insert_present_is_noop Z Z Z.eqb Examples.hash_id 0 0 Examples.moved
           Examples.moved Hop8 Z.eqb_eq 0%nat Examples.dict_9 Examples.set_1_9
           9 555).
  - vm_compute. reflexivity.
  - vm_compute. reflexivity.
  - vm_compute. reflexivity.
Defined.




(** C8, as the code has it.  HopSize is no minimum of the capacity, it is
    only the default of the constructor's argument.  A Set or a Dict
    constructed without an argument has capacity HopSize; constructed with a
    requested size [n] between 1 and [2^31] it has the least power of two
    that is not below [n] as capacity, so a request of 1 gives capacity 1. *)
Theorem construct_no_minimum
  (Key Value : Type) (key0 : Key) (value0 : Value) (hs : hop_size) (n : Z) :
  1 <= n <= 2 ^ 31 ->
  HopSet.capacity (HopSet.construct_default key0 hs) = HopSize hs
  /\ Dict.capacity (Dict.construct_default key0 value0 hs) = HopSize hs
  /\ (exists j, 0 <= j <= 31
                /\ HopSet.capacity (HopSet.construct key0 hs n) = 2 ^ j
                /\ Dict.capacity (Dict.construct key0 value0 hs n) = 2 ^ j
                /\ n <= 2 ^ j /\ 2 ^ j < 2 * n)
  /\ HopSet.capacity (HopSet.construct key0 hs 1) = 1
  /\ Dict.capacity (Dict.construct key0 value0 hs 1) = 1.
Proof.
  intros Hn.
  split; [destruct hs; reflexivity|]. split; [destruct hs; reflexivity|].
  split; [|split; reflexivity].
  destruct (npot32_spec n Hn) as (j & Hj & Ej & H1 & H2).
  exists j. split; [exact Hj|]. split; [exact Ej|]. split; [exact Ej|].
  split; assumption.
Qed.

Lemma construct_no_minimum_witness :
  HopSet.capacity (HopSet.construct_default 0 Hop32) = HopSize Hop32
  /\ Dict.capacity (Dict.construct_default 0 0 Hop32) = HopSize Hop32
  /\ (exists j, 0 <= j <= 31
                /\ HopSet.capacity (HopSet.construct 0 Hop32 3) = 2 ^ j
                /\ Dict.capacity (Dict.construct 0 0 Hop32 3) = 2 ^ j
                /\ 3 <= 2 ^ j /\ 2 ^ j < 2 * 3)
  /\ HopSet.capacity (HopSet.construct 0 Hop32 1) = 1
  /\ Dict.capacity (Dict.construct 0 0 Hop32 1) = 1.
Proof.
  apply (construct_no_minimum Z Z 0 0 Hop32 3). lia.
Defined.

(** C8 as stated fails: with requested size 0 the capacity is not HopSize. *)
Lemma construct_zero_not_hop_size :
  ~ (HopSet.capacity (HopSet.construct 0 Hop32 0) = HopSize Hop32
     /\ Dict.capacity (Dict.construct 0 0 Hop32 0) = HopSize Hop32).
Proof. intros [H _]. vm_compute in H. discriminate. Qed.

(** C9, as the code has it.  [find_internal(index, k)] returns the slot
    [index + j - 1] for the lowest displacement bit [j] in [1..hop_bucket]
    of the word at [index] that is set and whose slot [index + j - 1] holds
    a key equal to [k]; when no set bit has such a slot it returns the
    sentinel [capacity_ + hop_bucket]. *)
Theorem find_internal_examines
  (Key : Type) (key_eqb : Key -> Key -> bool) (key0 : Key) (hs : hop_size)
  (keys_ : list Key) (hops_ : list Z) (capacity_ index : Z) (k : Key) :
  0 <= get 0 hops_ index < 2 ^ HopSize hs ->
  0 <= index -> index + HopSize hs < 2 ^ 32 ->
  (exists j, 1 <= j <= hop_bucket hs
     /\ Z.testbit (get 0 hops_ index) j = true
     /\ key_eqb (get key0 keys_ (index + j - 1)) k = true
     /\ (forall j', 1 <= j' < j -> Z.testbit (get 0 hops_ index) j' = true ->
                    key_eqb (get key0 keys_ (index + j' - 1)) k = false)
     /\ HopscotchBase.find_internal key_eqb key0 hs keys_ hops_ capacity_ index k
        = index + j - 1)
  \/ ((forall j, 1 <= j <= hop_bucket hs ->
                 Z.testbit (get 0 hops_ index) j = true ->
                 key_eqb (get key0 keys_ (index + j - 1)) k = false)
      /\ HopscotchBase.find_internal key_eqb key0 hs keys_ hops_ capacity_ index k
         = HopscotchBase.end_index hs capacity_).
Proof. exact (find_internal_spec Key key_eqb key0 hs keys_ hops_ capacity_ index k). Qed.

Lemma find_internal_examines_witness :
  (exists j, 1 <= j <= hop_bucket Hop8
     /\ Z.testbit (get 0 (HopSet.hops_ Examples.set_1_9) 2) j = true
     /\ Z.eqb (get 0 (HopSet.keys_ Examples.set_1_9) (2 + j - 1)) 2 = true
     /\ (forall j', 1 <= j' < j ->
           Z.testbit (get 0 (HopSet.hops_ Examples.set_1_9) 2) j' = true ->
           Z.eqb (get 0 (HopSet.keys_ Examples.set_1_9) (2 + j' - 1)) 2 = false)
     /\ HopscotchBase.find_internal Z.eqb 0 Hop8
          (HopSet.keys_ Examples.set_1_9) (HopSet.hops_ Examples.set_1_9) 8 2 2
        = 2 + j - 1)
  \/ ((forall j, 1 <= j <= hop_bucket Hop8 ->
         Z.testbit (get 0 (HopSet.hops_ Examples.set_1_9) 2) j = true ->
         Z.eqb (get 0 (HopSet.keys_ Examples.set_1_9) (2 + j - 1)) 2 = false)
      /\ HopscotchBase.find_internal Z.eqb 0 Hop8
           (HopSet.keys_ Examples.set_1_9) (HopSet.hops_ Examples.set_1_9) 8 2 2
         = HopscotchBase.end_index Hop8 8).
Proof.
  apply (find_internal_examines Z Z.eqb 0 Hop8
           (HopSet.keys_ Examples.set_1_9) (HopSet.hops_ Examples.set_1_9) 8 2 2).
  - vm_compute. split; [discriminate | reflexivity].
  - lia.
  - vm_compute. reflexivity.
Defined.

(** C9 as stated fails: in the Set holding the key 1 (home bucket 1, slot 1,
    displacement bit 1) the code finds 1 at slot [1 = home + 1 - 1], while
    the scan of slots [home + k] misses it. *)
Lemma locate_off_by_one :
  HopscotchBase.find_internal Z.eqb 0 Hop8
    (HopSet.keys_ Examples.set8_1) (HopSet.hops_ Examples.set8_1) 8 1 1
  <> HopscotchBase.locate_spec Z.eqb 0 Hop8
       (HopSet.keys_ Examples.set8_1) (HopSet.hops_ Examples.set8_1) 8 1 1.
Proof. vm_compute. discriminate. Qed.

(** C10. Frame of a successful [erase] / [remove].  The keys buffer (and the
    values buffer of a Dict), the capacity and the trace of destructor calls
    are unchanged, [size_] drops by one, and the only bits of the bitmap
    buffer that change are bit 0 of the slot of the key and the displacement
    bit of that slot in the word of the home bucket. *)
Theorem erase_frame
  (Key Value : Type) (key_eqb : Key -> Key -> bool) (hash : Key -> Z)
  (key0 : Key) (hs : hop_size)
  (key_eqb_spec : forall a b, key_eqb a b = true <-> a = b)
  (d : Dict.t Key Value) (s : HopSet.t Key) (k : Key) :
  Dict.wf key_eqb hash key0 hs d = true ->
  Dict.has key_eqb hash key0 hs d k = true ->
  HopSet.wf key_eqb hash key0 hs s = true ->
  HopSet.has key_eqb hash key0 hs s k = true ->
  (snd (Dict.erase key_eqb hash key0 hs d k) = true
   /\ Dict.keys_ (fst (Dict.erase key_eqb hash key0 hs d k)) = Dict.keys_ d
   /\ Dict.values_ (fst (Dict.erase key_eqb hash key0 hs d k)) = Dict.values_ d
   /\ Dict.destroyed_ (fst (Dict.erase key_eqb hash key0 hs d k))
      = Dict.destroyed_ d
   /\ Dict.capacity_ (fst (Dict.erase key_eqb hash key0 hs d k))
      = Dict.capacity_ d
   /\ Dict.size_ (fst (Dict.erase key_eqb hash key0 hs d k)) = Dict.size_ d - 1
   /\ Zlen (Dict.hops_ (fst (Dict.erase key_eqb hash key0 hs d k)))
      = Zlen (Dict.hops_ d)
   /\ (forall i j, 0 <= i -> 0 <= j ->
         Z.testbit (get 0 (Dict.hops_ (fst (Dict.erase key_eqb hash key0 hs d k))) i) j
         = xorb (Z.testbit (get 0 (Dict.hops_ d) i) j)
                (((i =? Dict.find_index key_eqb hash key0 hs d k) && (j =? 0))
                 || ((i =? Dict.get_bucket_index hash d k)
                     && (j =? Dict.find_index key_eqb hash key0 hs d k
                              - Dict.get_bucket_index hash d k + 1)))))
  /\ (snd (HopSet.remove key_eqb hash key0 hs s k) = true
      /\ HopSet.keys_ (fst (HopSet.remove key_eqb hash key0 hs s k))
         = HopSet.keys_ s
      /\ HopSet.destroyed_ (fst (HopSet.remove key_eqb hash key0 hs s k))
         = HopSet.destroyed_ s
      /\ HopSet.capacity_ (fst (HopSet.remove key_eqb hash key0 hs s k))
         = HopSet.capacity_ s
      /\ HopSet.size_ (fst (HopSet.remove key_eqb hash key0 hs s k))
         = HopSet.size_ s - 1
      /\ Zlen (HopSet.hops_ (fst (HopSet.remove key_eqb hash key0 hs s k)))
         = Zlen (HopSet.hops_ s)
      /\ (forall i j, 0 <= i -> 0 <= j ->
            Z.testbit
              (get 0 (HopSet.hops_ (fst (HopSet.remove key_eqb hash key0 hs s k))) i) j
            = xorb (Z.testbit (get 0 (HopSet.hops_ s) i) j)
                   (((i =? HopSet.find_index key_eqb hash key0 hs s k) && (j =? 0))
                    || ((i =? HopSet.get_bucket_index hash s k)
                        && (j =? HopSet.find_index key_eqb hash key0 hs s k
                                 - HopSet.get_bucket_index hash s k + 1))))).
Proof.
  intros Wd Hd Ws Hs. unfold Dict.wf in Wd.
  apply (wf_WF Key key_eqb hash key0 hs) in Wd, Ws.
  split; [|exact (remove_frame Key key_eqb hash key0 hs key_eqb_spec s k Ws Hs)].
  destruct (remove_frame Key key_eqb hash key0 hs key_eqb_spec
              (Dict.key_part d) k Wd Hd) as (R1 & R2 & R3 & R4 & R5 & R6 & R7).
  destruct (erase_key_part Key Value key_eqb hash key0 hs d k) as [Ep Es].
  rewrite <- Ep in R2, R3, R4, R5, R6, R7. rewrite <- Es in R1.
  split; [exact R1|]. split; [exact R2|]. split.
  { unfold Dict.erase. destruct (negb _); reflexivity. }
  split; [exact R3|]. split; [exact R4|]. split; [exact R5|].
  split; [exact R6 | exact R7].
Qed.

Lemma erase_frame_witness :
  (snd (Dict.erase Z.eqb Examples.hash_id 0 Hop8 Examples.dict1 20) = true
   /\ Dict.keys_ (fst (Dict.erase Z.eqb Examples.hash_id 0 Hop8 Examples.dict1 20))
      = Dict.keys_ Examples.dict1
   /\ Dict.values_ (fst (Dict.erase Z.eqb Examples.hash_id 0 Hop8 Examples.dict1 20))
      = Dict.values_ Examples.dict1
   /\ Dict.destroyed_ (fst (Dict.erase Z.eqb Examples.hash_id 0 Hop8 Examples.dict1 20))
      = Dict.destroyed_ Examples.dict1
   /\ Dict.capacity_ (fst (Dict.erase Z.eqb Examples.hash_id 0 Hop8 Examples.dict1 20))
      = Dict.capacity_ Examples.dict1
   /\ Dict.size_ (fst (Dict.erase Z.eqb Examples.hash_id 0 Hop8 Examples.dict1 20))
      = Dict.size_ Examples.dict1 - 1
   /\ Zlen (Dict.hops_ (fst (Dict.erase Z.eqb Examples.hash_id 0 Hop8 Examples.dict1 20)))
      = Zlen (Dict.hops_ Examples.dict1)
   /\ (forall i j, 0 <= i -> 0 <= j ->
         Z.testbit
           (get 0 (Dict.hops_ (fst (Dict.erase Z.eqb Examples.hash_id 0 Hop8
                                               Examples.dict1 20))) i) j
         = xorb (Z.testbit (get 0 (Dict.hops_ Examples.dict1) i) j)
                (((i =? Dict.find_index Z.eqb Examples.hash_id 0 Hop8
                                        Examples.dict1 20) && (j =? 0))
                 || ((i =? Dict.get_bucket_index Examples.hash_id Examples.dict1 20)
                     && (j =? Dict.find_index Z.eqb Examples.hash_id 0 Hop8
                                              Examples.dict1 20
                              - Dict.get_bucket_index Examples.hash_id
                                                      Examples.dict1 20 + 1)))))
  /\ (snd (HopSet.remove Z.eqb Examples.hash_id 0 Hop8 Examples.set1 20) = true
      /\ HopSet.keys_ (fst (HopSet.remove Z.eqb Examples.hash_id 0 Hop8 Examples.set1 20))
         = HopSet.keys_ Examples.set1
      /\ HopSet.destroyed_ (fst (HopSet.remove Z.eqb Examples.hash_id 0 Hop8 Examples.set1 20))
         = HopSet.destroyed_ Examples.set1
      /\ HopSet.capacity_ (fst (HopSet.remove Z.eqb Examples.hash_id 0 Hop8 Examples.set1 20))
         = HopSet.capacity_ Examples.set1
      /\ HopSet.size_ (fst (HopSet.remove Z.eqb Examples.hash_id 0 Hop8 Examples.set1 20))
         = HopSet.size_ Examples.set1 - 1
      /\ Zlen (HopSet.hops_ (fst (HopSet.remove Z.eqb Examples.hash_id 0 Hop8 Examples.set1 20)))
         = Zlen (HopSet.hops_ Examples.set1)
      /\ (forall i j, 0 <= i -> 0 <= j ->
            Z.testbit
              (get 0 (HopSet.hops_ (fst (HopSet.remove Z.eqb Examples.hash_id 0 Hop8
                                                       Examples.set1 20))) i) j
            = xorb (Z.testbit (get 0 (HopSet.hops_ Examples.set1) i) j)
                   (((i =? HopSet.find_index Z.eqb Examples.hash_id 0 Hop8
                                             Examples.set1 20) && (j =? 0))
                    || ((i =? HopSet.get_bucket_index Examples.hash_id Examples.set1 20)
                        && (j =? HopSet.find_index Z.eqb Examples.hash_id 0 Hop8
                                                   Examples.set1 20
                                 - HopSet.get_bucket_index Examples.hash_id
                                                           Examples.set1 20 + 1))))).
Proof.
  apply (erase_frame Z Z Z.eqb Examples.hash_id 0 Hop8 Z.eqb_eq
           Examples.dict1 Examples.set1 20).
  - vm_compute. reflexivity.
  - vm_compute. reflexivity.
  - vm_compute. reflexivity.
  - vm_compute. reflexivity.
Defined.

(** C6: the code reads back in another order than it writes.  [save]
    writes the bitmap words before the keys, [load] reads the keys before
    the bitmap words: loading what was saved from the Set holding the key 1
    gives a table with other buffers, in which the key 1 is not found. *)
Theorem load_save_mismatch :
  exists S',
    HopSet.load Hop8 Examples.key_word Examples.set0
                (HopSet.save 0 Hop8 Examples.key_word Examples.set8_1)
    = Some (S', [])
    /\ HopSet.size_ S' = HopSet.size_ Examples.set8_1
    /\ HopSet.capacity_ S' = HopSet.capacity_ Examples.set8_1
    /\ HopSet.hops_ S' <> HopSet.hops_ Examples.set8_1
    /\ HopSet.keys_ S' <> HopSet.keys_ Examples.set8_1
    /\ HopSet.has Z.eqb Examples.hash_id 0 Hop8 Examples.set8_1 1 = true
    /\ HopSet.has Z.eqb Examples.hash_id 0 Hop8 S' 1 = false.
Proof.
  eexists. split; [vm_compute; reflexivity|].
  cbn [HopSet.size_ HopSet.capacity_ HopSet.hops_ HopSet.keys_].
  split; [reflexivity|]. split; [reflexivity|].
  split; [vm_compute; discriminate|]. split; [vm_compute; discriminate|].
  split; vm_compute; reflexivity.
Qed.

(** C7: [clear] passes a number of words as the byte count of [memset].  On
    the default Set (HopSize 32, four-byte bitmap words) holding the key 20,
    [clear()] sets the size to 0 but leaves the bitmap word of slot 20 as it
    was, and the key is still found, whatever the byte order. *)
Theorem clear_keeps_far_slots (big_endian : bool) :
  HopSet.wf Z.eqb Examples.hash_id 0 Hop32 Examples.set32_20 = true
  /\ HopSet.size (HopSet.clear Hop32 big_endian Examples.set32_20) = 0
  /\ HopSet.capacity (HopSet.clear Hop32 big_endian Examples.set32_20)
     = HopSet.capacity Examples.set32_20
  /\ get 0 (HopSet.hops_ (HopSet.clear Hop32 big_endian Examples.set32_20)) 20 = 3
  /\ HopSet.has Z.eqb Examples.hash_id 0 Hop32
                (HopSet.clear Hop32 big_endian Examples.set32_20) 20 = true.
Proof.
  destruct big_endian; vm_compute; repeat split; reflexivity.
Qed.

(** * Further properties of the code *)

(** ** numeric.hpp *)

Lemma pow2_63 : 2 ^ 63 = 9223372036854775808.
Proof. reflexivity. Qed.

Lemma pow2_64 : 2 ^ 64 = 18446744073709551616.
Proof. reflexivity. Qed.

Lemma u64_small (x : Z) : 0 <= x < 2 ^ 64 -> u64 x = x.
Proof. intros H. unfold u64. apply Z.mod_small. exact H. Qed.

(** Five smearing steps fill every bit below the highest set bit of a
    32-bit value, six steps do it for a 64-bit value. *)
Lemma smear_fill (v x n : Z) :
  0 < v -> 0 <= n ->
  0 <= x < 2 ^ (Z.log2 v + 1) ->
  (forall i, 0 <= i -> Z.log2 v - n < i <= Z.log2 v -> Z.testbit x i = true) ->
  Z.log2 v < n ->
  x = Z.ones (Z.log2 v + 1).
Proof.
  intros Hv Hn Hx Hb HL. pose proof (Z.log2_nonneg v) as H0.
  apply Z.bits_inj'. intros i Hi.
  destruct (Z.lt_ge_cases i (Z.log2 v + 1)).
  - rewrite Z.ones_spec_low by lia. apply Hb; lia.
  - rewrite Z.ones_spec_high by lia. apply (bits_above x (Z.log2 v + 1)); lia.
Qed.

Lemma smear5 (v : Z) :
  0 < v -> Z.log2 v < 32 ->
  let x1 := Z.lor v (Z.shiftr v 1) in
  let x2 := Z.lor x1 (Z.shiftr x1 2) in
  let x3 := Z.lor x2 (Z.shiftr x2 4) in
  let x4 := Z.lor x3 (Z.shiftr x3 8) in
  let x5 := Z.lor x4 (Z.shiftr x4 16) in
  x5 = Z.ones (Z.log2 v + 1)
  /\ 0 <= x5 < 2 ^ (Z.log2 v + 1)
  /\ forall i, 0 <= i -> Z.log2 v - 32 < i <= Z.log2 v -> Z.testbit x5 i = true.
Proof.
  intros Hv HL x1 x2 x3 x4 x5. set (L := Z.log2 v) in *.
  assert (H0 : 0 <= L) by apply Z.log2_nonneg.
  assert (Hb : 0 <= v < 2 ^ (L + 1)).
  { split; [lia|]. subst L. apply Z.log2_spec. lia. }
  assert (Hw0 : forall i, 0 <= i -> L - 1 < i <= L -> Z.testbit v i = true).
  { intros i _ Hi. replace i with L by lia. subst L. apply Z.bit_log2. lia. }
  assert (B1 : 0 <= x1 < 2 ^ (L + 1)) by (apply smear_step_bound; lia).
  assert (B2 : 0 <= x2 < 2 ^ (L + 1)) by (apply smear_step_bound; lia).
  assert (B3 : 0 <= x3 < 2 ^ (L + 1)) by (apply smear_step_bound; lia).
  assert (B4 : 0 <= x4 < 2 ^ (L + 1)) by (apply smear_step_bound; lia).
  assert (B5 : 0 <= x5 < 2 ^ (L + 1)) by (apply smear_step_bound; lia).
  assert (H1 : forall i, 0 <= i -> L - 2 < i <= L -> Z.testbit x1 i = true).
  { intros i Hi Hr. apply (smear_step_bits v 1 1 L); auto; lia. }
  assert (H2 : forall i, 0 <= i -> L - 4 < i <= L -> Z.testbit x2 i = true).
  { intros i Hi Hr. apply (smear_step_bits x1 2 2 L); auto; lia. }
  assert (H3 : forall i, 0 <= i -> L - 8 < i <= L -> Z.testbit x3 i = true).
  { intros i Hi Hr. apply (smear_step_bits x2 4 4 L); auto; lia. }
  assert (H4 : forall i, 0 <= i -> L - 16 < i <= L -> Z.testbit x4 i = true).
  { intros i Hi Hr. apply (smear_step_bits x3 8 8 L); auto; lia. }
  assert (H5 : forall i, 0 <= i -> L - 32 < i <= L -> Z.testbit x5 i = true).
  { intros i Hi Hr. apply (smear_step_bits x4 16 16 L); auto; lia. }
  split; [|split; [exact B5 | exact H5]].
  apply (smear_fill v x5 32); auto; lia.
Qed.

Lemma npot32_smear (v : Z) :
  0 < v < 2 ^ 32 -> npot32 (v + 1) = u32 (2 ^ (Z.log2 v + 1)).
Proof.
  intros Hv. unfold npot32. replace (v + 1 - 1) with v by lia.
  rewrite (u32_small v) by lia.
  assert (HL : Z.log2 v < 32) by (apply Z.log2_lt_pow2; lia).
  destruct (smear5 v ltac:(lia) HL) as [E _]. cbv zeta in E. rewrite E.
  rewrite Z.ones_equiv. f_equal. lia.
Qed.

Lemma npot64_smear (v : Z) :
  0 < v < 2 ^ 64 -> npot64 (v + 1) = u64 (2 ^ (Z.log2 v + 1)).
Proof.
  intros Hv. unfold npot64. replace (v + 1 - 1) with v by lia.
  rewrite (u64_small v) by lia.
  assert (HL : Z.log2 v < 64) by (apply Z.log2_lt_pow2; lia).
  pose proof (Z.log2_nonneg v) as H0.
  set (x1 := Z.lor v (Z.shiftr v 1)).
  set (x2 := Z.lor x1 (Z.shiftr x1 2)).
  set (x3 := Z.lor x2 (Z.shiftr x2 4)).
  set (x4 := Z.lor x3 (Z.shiftr x3 8)).
  set (x5 := Z.lor x4 (Z.shiftr x4 16)).
  set (x6 := Z.lor x5 (Z.shiftr x5 32)).
  assert (Hb : 0 <= v < 2 ^ (Z.log2 v + 1)).
  { split; [lia|]. apply Z.log2_spec. lia. }
  assert (Hw0 : forall i, 0 <= i -> Z.log2 v - 1 < i <= Z.log2 v ->
                          Z.testbit v i = true).
  { intros i _ Hi. replace i with (Z.log2 v) by lia. apply Z.bit_log2. lia. }
  assert (B1 : 0 <= x1 < 2 ^ (Z.log2 v + 1)) by (apply smear_step_bound; lia).
  assert (B2 : 0 <= x2 < 2 ^ (Z.log2 v + 1)) by (apply smear_step_bound; lia).
  assert (B3 : 0 <= x3 < 2 ^ (Z.log2 v + 1)) by (apply smear_step_bound; lia).
  assert (B4 : 0 <= x4 < 2 ^ (Z.log2 v + 1)) by (apply smear_step_bound; lia).
  assert (B5 : 0 <= x5 < 2 ^ (Z.log2 v + 1)) by (apply smear_step_bound; lia).
  assert (B6 : 0 <= x6 < 2 ^ (Z.log2 v + 1)) by (apply smear_step_bound; lia).
  assert (H1 : forall i, 0 <= i -> Z.log2 v - 2 < i <= Z.log2 v ->
                         Z.testbit x1 i = true).
  { intros i Hi Hr. apply (smear_step_bits v 1 1 (Z.log2 v)); auto; lia. }
  assert (H2 : forall i, 0 <= i -> Z.log2 v - 4 < i <= Z.log2 v ->
                         Z.testbit x2 i = true).
  { intros i Hi Hr. apply (smear_step_bits x1 2 2 (Z.log2 v)); auto; lia. }
  assert (H3 : forall i, 0 <= i -> Z.log2 v - 8 < i <= Z.log2 v ->
                         Z.testbit x3 i = true).
  { intros i Hi Hr. apply (smear_step_bits x2 4 4 (Z.log2 v)); auto; lia. }
  assert (H4 : forall i, 0 <= i -> Z.log2 v - 16 < i <= Z.log2 v ->
                         Z.testbit x4 i = true).
  { intros i Hi Hr. apply (smear_step_bits x3 8 8 (Z.log2 v)); auto; lia. }
  assert (H5 : forall i, 0 <= i -> Z.log2 v - 32 < i <= Z.log2 v ->
                         Z.testbit x5 i = true).
  { intros i Hi Hr. apply (smear_step_bits x4 16 16 (Z.log2 v)); auto; lia. }
  assert (H6 : forall i, 0 <= i -> Z.log2 v - 64 < i <= Z.log2 v ->
                         Z.testbit x6 i = true).
  { intros i Hi Hr. apply (smear_step_bits x5 32 32 (Z.log2 v)); auto; lia. }
  rewrite (smear_fill v x6 64) by (auto; lia).
  rewrite Z.ones_equiv. f_equal. lia.
Qed.

Lemma npot32_above (n : Z) : 2 ^ 31 < n < 2 ^ 32 -> npot32 n = 0.
Proof.
  intros Hn. pows. replace n with (n - 1 + 1) by lia.
  rewrite npot32_smear by lia.
  assert (E : Z.log2 (n - 1) = 31).
  { apply Z.log2_unique; [lia|]. change (31 + 1) with 32. lia. }
  rewrite E. reflexivity.
Qed.

(** ** numeric.hpp: the properties *)

(** [npot32] wraps around to 0 above [2^31]: no power of two that is not
    below the request fits 32 bits. *)
Theorem npot32_wraps (n : Z) : 2 ^ 31 < n < 2 ^ 32 -> npot32 n = 0.
Proof.
  intros Hn. pows. replace n with (n - 1 + 1) by lia.
  rewrite npot32_smear by lia.
  assert (E : Z.log2 (n - 1) = 31).
  { apply Z.log2_unique; [lia|]. change (31 + 1) with 32. lia. }
  rewrite E. reflexivity.
Qed.

Lemma npot32_wraps_witness : npot32 3000000000 = 0.
Proof. apply (npot32_wraps 3000000000). vm_compute. split; reflexivity. Defined.

(** [npot32] is idempotent on the whole of [uint32_t], and its results are
    0 and the powers of two up to [2^31]. *)
Theorem npot32_idempotent (n : Z) :
  0 <= n < 2 ^ 32 ->
  npot32 (npot32 n) = npot32 n
  /\ (npot32 n = 0 \/ exists j, 0 <= j <= 31 /\ npot32 n = 2 ^ j).
Proof.
  intros Hn. pows.
  destruct (Z.eq_dec n 0) as [-> | Hn0]; [split; [reflexivity | now left]|].
  destruct (Z.le_gt_cases n (2 ^ 31)) as [Hle | Hgt].
  - destruct (npot32_spec n ltac:(lia)) as (j & Hj & Ej & H1 & H2).
    split; [|right; exists j; auto].
    rewrite Ej.
    assert (Hp : 1 <= 2 ^ j <= 2 ^ 31).
    { split; [|apply Z.pow_le_mono_r; lia].
      assert (0 < 2 ^ j) by (apply Z.pow_pos_nonneg; lia). lia. }
    destruct (npot32_spec (2 ^ j) Hp) as (j' & Hj' & Ej' & H1' & H2').
    rewrite Ej'. f_equal.
    assert (j <= j').
    { destruct (Z.le_gt_cases j j') as [Hjl | Hjg]; [exact Hjl|].
      pose proof (Z.pow_lt_mono_r 2 j' j ltac:(lia) ltac:(lia) Hjg). lia. }
    destruct (Z.lt_ge_cases j' (j + 1)) as [Hlt | Hge]; [lia|].
    pose proof (Z.pow_le_mono_r 2 (j + 1) j' ltac:(lia) Hge) as Hm.
    rewrite Z.pow_add_r in Hm by lia. change (2 ^ 1) with 2 in Hm. lia.
  - rewrite (npot32_above n) by lia. split; [reflexivity | now left].
Qed.

Lemma npot32_idempotent_witness :
  npot32 (npot32 1000) = npot32 1000
  /\ (npot32 1000 = 0 \/ exists j, 0 <= j <= 31 /\ npot32 1000 = 2 ^ j).
Proof. apply (npot32_idempotent 1000). vm_compute. split; [discriminate | reflexivity]. Defined.

(** For a request between 1 and [2^63], [npot64] is the least power of two
    that is not below the request; it is 0 for the request 0 and for a
    request above [2^63]. *)
Theorem npot64_spec (n m : Z) :
  1 <= n <= 2 ^ 63 -> 2 ^ 63 < m < 2 ^ 64 ->
  (exists j, 0 <= j <= 63 /\ npot64 n = 2 ^ j /\ n <= 2 ^ j /\ 2 ^ j < 2 * n)
  /\ npot64 0 = 0 /\ npot64 m = 0.
Proof.
  intros Hr Hm. pose proof pow2_63 as P63. pose proof pow2_64 as P64.
  split; [|split; [reflexivity|]].
  - destruct (Z.eq_dec n 1) as [-> | Hn1].
    { exists 0. split; [lia|]. split; [reflexivity|]. simpl. lia. }
    set (v := n - 1). assert (Hv : 0 < v < 2 ^ 63) by (subst v; lia).
    exists (Z.log2 v + 1).
    replace n with (v + 1) by (subst v; lia).
    rewrite npot64_smear by lia.
    pose proof (Z.log2_nonneg v) as Hl0.
    assert (Z.log2 v < 63) by (apply Z.log2_lt_pow2; lia).
    pose proof (Z.log2_spec v ltac:(lia)) as [Hlo Hhi].
    rewrite Z.pow_succ_r in Hhi by lia.
    assert (Hp : 2 ^ (Z.log2 v + 1) <= 2 ^ 63) by (apply Z.pow_le_mono_r; lia).
    rewrite u64_small by lia.
    replace (Z.log2 v + 1) with (Z.succ (Z.log2 v)) by lia.
    rewrite Z.pow_succ_r by lia. lia.
  - replace m with (m - 1 + 1) by lia.
    rewrite npot64_smear by lia.
    assert (E : Z.log2 (m - 1) = 63).
    { apply Z.log2_unique; [lia|]. change (63 + 1) with 64. lia. }
    rewrite E. reflexivity.
Qed.

Lemma npot64_spec_witness :
  (exists j, 0 <= j <= 63 /\ npot64 5000000000 = 2 ^ j
             /\ 5000000000 <= 2 ^ j /\ 2 ^ j < 2 * 5000000000)
  /\ npot64 0 = 0 /\ npot64 10000000000000000000 = 0.
Proof.
  apply (npot64_spec 5000000000 10000000000000000000).
  - vm_compute. split; discriminate.
  - vm_compute. split; reflexivity.
Defined.

(** For integer arguments with [min <= max], [clamp] returns the value
    between the bounds that is nearest to [val] (so [val] itself when it
    lies between them), which is [max(min, min(val, max))]. *)
Theorem clamp_nearest (val lo hi y : Z) :
  lo <= hi -> lo <= y <= hi ->
  lo <= Numeric.clamp Z.ltb Z.gtb val lo hi <= hi
  /\ Z.abs (Numeric.clamp Z.ltb Z.gtb val lo hi - val) <= Z.abs (y - val)
  /\ Numeric.clamp Z.ltb Z.gtb val lo hi
     = Numeric.max Z.gtb lo (Numeric.min Z.ltb val hi).
Proof.
  intros H Hy. unfold Numeric.clamp, Numeric.max, Numeric.min.
  destruct (Z.gtb_spec val hi), (Z.ltb_spec val lo), (Z.ltb_spec val hi);
    try lia;
    repeat match goal with
           | |- context [?a >? ?b] => destruct (Z.gtb_spec a b); try lia
           end;
    repeat split; lia.
Qed.

Lemma clamp_nearest_witness :
  0 <= Numeric.clamp Z.ltb Z.gtb 300 0 255 <= 255
  /\ Z.abs (Numeric.clamp Z.ltb Z.gtb 300 0 255 - 300) <= Z.abs (17 - 300)
  /\ Numeric.clamp Z.ltb Z.gtb 300 0 255
     = Numeric.max Z.gtb 0 (Numeric.min Z.ltb 300 255).
Proof. apply (clamp_nearest 300 0 255 17); lia. Defined.

(** [scale] on [uint32_t] values maps the source interval onto the
    destination interval when the bounds are ordered and the product of the
    two widths fits 32 bits: the lower bound goes to the lower bound, the
    upper bound to the upper bound, and a value between the source bounds to
    a value between the destination bounds. *)
Theorem scale_range (val sl su dl du : Z) :
  0 <= sl -> sl < su -> su < 2 ^ 32 -> 0 <= dl -> dl <= du -> du < 2 ^ 32 ->
  sl <= val <= su -> (du - dl) * (su - sl) < 2 ^ 32 ->
  Numeric.scale sl sl su dl du = Some dl
  /\ Numeric.scale su sl su dl du = Some du
  /\ exists r, Numeric.scale val sl su dl du = Some r /\ dl <= r <= du.
Proof.
  intros H1 H2 H3 H4 H5 H6 H7 H8. pows.
  assert (Hgen : forall x, sl <= x <= su ->
            Numeric.scale x sl su dl du
            = Some ((du - dl) * (x - sl) / (su - sl) + dl)
              /\ dl <= (du - dl) * (x - sl) / (su - sl) + dl <= du).
  { intros x Hx. unfold Numeric.scale.
    rewrite (u32_small (su - sl)) by lia.
    destruct (Z.eqb_spec (su - sl) 0); [lia|].
    rewrite (u32_small (du - dl)) by lia.
    rewrite (u32_small (x - sl)) by lia.
    assert (Hp : 0 <= (du - dl) * (x - sl) <= (du - dl) * (su - sl)).
    { split; [apply Z.mul_nonneg_nonneg; lia|].
      apply Z.mul_le_mono_nonneg_l; lia. }
    rewrite (u32_small ((du - dl) * (x - sl))) by lia.
    assert (Hq : 0 <= (du - dl) * (x - sl) / (su - sl) <= du - dl).
    { split; [apply Z.div_pos; lia|].
      apply Z.div_le_upper_bound; [lia|].
      rewrite Z.mul_comm. lia. }
    rewrite u32_small by lia. split; [reflexivity | lia]. }
  split; [|split].
  - destruct (Hgen sl ltac:(lia)) as [E _]. rewrite E.
    replace (sl - sl) with 0 by lia. rewrite Z.mul_0_r, Z.div_0_l by lia.
    reflexivity.
  - destruct (Hgen su ltac:(lia)) as [E _]. rewrite E.
    rewrite Z.div_mul by lia. f_equal. lia.
  - destruct (Hgen val H7) as [E Hr]. eexists. split; [exact E | exact Hr].
Qed.

Lemma scale_range_witness :
  Numeric.scale 0 0 255 100 1000 = Some 100
  /\ Numeric.scale 255 0 255 100 1000 = Some 1000
  /\ exists r, Numeric.scale 64 0 255 100 1000 = Some r /\ 100 <= r <= 1000.
Proof.
  apply (scale_range 64 0 255 100 1000); vm_compute; try discriminate;
    try reflexivity; split; discriminate.
Defined.

(** ** Set: size, emptiness and iteration *)

Lemma length_filter_map {A B : Type} (p : B -> bool) (f : A -> B) (l : list A) :
  length (filter p (map f l)) = length (filter (fun x => p (f x)) l).
Proof.
  induction l as [|a l IH]; [reflexivity|]. cbn [map filter].
  destruct (p (f a)); cbn [length]; now rewrite IH.
Qed.

Lemma live_count_filter (H : list Z) :
  HopSet.live_count H
  = Z.of_nat (length (filter (fun x => Z.testbit x 0) H)).
Proof.
  induction H as [|a l IH]; [reflexivity|].
  rewrite live_count_cons, IH. cbn [filter].
  destruct (Z.testbit a 0); cbn [Z.b2z length]; lia.
Qed.

Lemma live_count_slots (H : list Z) :
  HopSet.live_count H
  = Z.of_nat (length (filter (fun i => Z.testbit (get 0 H i) 0)
                             (map Z.of_nat (seq 0 (length H))))).
Proof.
  rewrite live_count_filter. f_equal.
  rewrite length_filter_map.
  rewrite <- (length_filter_map (fun x => Z.testbit x 0)
                (fun i => get 0 H (Z.of_nat i)) (seq 0 (length H))).
  now rewrite map_get_seq.
Qed.

Lemma length_filter_split {A : Type} (p : A -> bool) (l : list A) :
  (length (filter p l) + length (filter (fun x => negb (p x)) l))%nat = length l.
Proof.
  induction l as [|a l IH]; [reflexivity|]. cbn [filter].
  destruct (p a); cbn [negb length]; lia.
Qed.

Lemma NoDup_same_length {A : Type} (l l' : list A) :
  NoDup l -> NoDup l' -> (forall x, In x l <-> In x l') -> length l = length l'.
Proof.
  intros N N' H.
  assert (length l <= length l')%nat
    by (apply NoDup_incl_length; [exact N | intros x Hx; now apply H]).
  assert (length l' <= length l)%nat
    by (apply NoDup_incl_length; [exact N' | intros x Hx; now apply H]).
  lia.
Qed.

Lemma fold_left_snoc {A : Type} (l acc : list A) :
  fold_left (fun x e => x ++ [e]) l acc = acc ++ l.
Proof.
  revert acc. induction l as [|a l IH]; intros acc; cbn [fold_left].
  - now rewrite app_nil_r.
  - rewrite IH, <- app_assoc. reflexivity.
Qed.

Section SetSize.
Variable Key : Type.
Variable key_eqb : Key -> Key -> bool.
Variable hash : Key -> Z.
Variable key0 : Key.
Variable moved_from : Key -> Key.
Variable hs : hop_size.
Hypothesis key_eqb_spec : forall a b, key_eqb a b = true <-> a = b.

Local Abbreviation t := (HopSet.t Key).
Local Abbreviation hb := (hop_bucket hs).
Local Abbreviation WF := (HopSet.WF hash key0 hs).
Local Abbreviation mem := (HopSet.mem key0 hs).
Local Abbreviation cap := (@HopSet.capacity_ Key).
Local Abbreviation has := (HopSet.has key_eqb hash key0 hs).
Local Abbreviation elements := (HopSet.elements key0 hs).

Lemma to_list_elements (s : t) : HopSet.to_list key0 hs s = elements s.
Proof.
  unfold HopSet.to_list.
  rewrite (range_for_fold Key key0 hs s (fun e acc => acc ++ [e]) []).
  apply fold_left_snoc.
Qed.

Lemma size_elements {s : t} (W : WF None s) :
  HopSet.size s = Z.of_nat (length (elements s)).
Proof.
  unfold HopSet.size. rewrite (HopSet.wf_size W).
  unfold HopSet.elements, HopSet.live_slots. rewrite length_map.
  pose proof (cap_bounds Key hash key0 hs W) as Hc.
  pose proof (hop_bucket_range hs) as Hhb. pows.
  rewrite u32_small by lia.
  rewrite <- (HopSet.wf_hops_len W). unfold Zlen. rewrite Nat2Z.id.
  rewrite live_count_slots. lia.
Qed.

Lemma In_elements_has {s : t} (W : WF None s) (k : Key) :
  In k (elements s) <-> has s k = true.
Proof.
  rewrite (In_elements Key hash key0 hs W).
  symmetry. apply (has_mem Key key_eqb hash key0 hs key_eqb_spec W).
Qed.

(** [size()] is the number of keys [has] accepts among any duplicate-free
    list of keys that holds all the members. *)
Lemma size_count {s : t} (W : WF None s) (l : list Key) :
  NoDup l -> (forall k, has s k = true -> In k l) ->
  HopSet.size s = HopSet.count (has s) l.
Proof.
  intros N Hl. rewrite (size_elements W). unfold HopSet.count. f_equal.
  apply NoDup_same_length.
  - apply (NoDup_elements Key hash key0 hs W).
  - now apply NoDup_filter.
  - intros k. rewrite (In_elements_has W), filter_In. split.
    + intros Hk. split; [apply Hl; exact Hk | exact Hk].
    + intros [_ Hk]. exact Hk.
Qed.

Lemma size_insert (fuel : nat) (s s' : t) (k : Key) (b : bool) :
  WF None s ->
  HopSet.insert key_eqb hash key0 moved_from hs fuel s k = Some (s', b) ->
  cap s' <> 0 ->
  HopSet.size s' = HopSet.size s + (if b then 1 else 0).
Proof.
  intros W E Hc.
  destruct (has_insert Key key_eqb hash key0 moved_from hs key_eqb_spec
              fuel s s' k b W E Hc) as (W' & Hh & Hb).
  rewrite (size_elements W'), (size_elements W).
  pose proof (NoDup_elements Key hash key0 hs W) as N.
  pose proof (NoDup_elements Key hash key0 hs W') as N'.
  destruct (has s k) eqn:Hk; subst b; cbn [negb].
  - rewrite Z.add_0_r. f_equal. apply NoDup_same_length; auto.
    intros x. rewrite (In_elements_has W'), (In_elements_has W), Hh.
    rewrite orb_true_iff, key_eqb_spec. split; [|tauto].
    intros [H | ->]; auto.
  - replace (Z.of_nat (length (elements s)) + 1)
      with (Z.of_nat (length (k :: elements s))) by (cbn [length]; lia).
    f_equal. apply NoDup_same_length; auto.
    + constructor; [|exact N]. rewrite (In_elements_has W). congruence.
    + intros x. rewrite (In_elements_has W'), Hh. cbn [In].
      rewrite (In_elements_has W), orb_true_iff, key_eqb_spec.
      split; intros [H | H]; auto.
Qed.

Lemma begin_end_empty {s : t} (W : WF None s) :
  (HopSet.begin_ hs s =? HopSet.end_ hs s) = HopSet.empty s.
Proof.
  pose proof (cap_bounds Key hash key0 hs W) as Hc.
  pose proof (hop_bucket_range hs) as Hhb. pows.
  pose proof (end_index_eq Key hash key0 hs W) as He.
  unfold HopSet.end_index in He.
  unfold HopSet.begin_, HopSet.end_, HopSet.end_index, HopSet.empty.
  rewrite next_end.
  destruct (next_spec hs (HopSet.hops_ s) (cap s) 0 ltac:(lia))
    as (Hr & Hlive & Hdead).
  rewrite (HopSet.wf_size W), Z.sub_0_r.
  pose proof (live_count_nonneg (HopSet.hops_ s)) as Hn.
  destruct (Z.eqb_spec (HopscotchBase.next hs (HopSet.hops_ s) (cap s) 0)
              (HopscotchBase.end_index hs (cap s))) as [Eq | Ne].
  - symmetry. apply Z.eqb_eq. apply live_count_zero.
    intros i Hi. apply Hdead. rewrite (HopSet.wf_hops_len W) in Hi. lia.
  - symmetry. apply Z.eqb_neq.
    assert (1 <= HopSet.live_count (HopSet.hops_ s)); [|lia].
    apply (live_count_pos (HopSet.hops_ s)
             (HopscotchBase.next hs (HopSet.hops_ s) (cap s) 0)).
    + rewrite (HopSet.wf_hops_len W). lia.
    + apply Hlive. lia.
Qed.

End SetSize.

Lemma count_ext {Key : Type} (p q : Key -> bool) (l : list Key) :
  (forall x, In x l -> p x = q x) -> HopSet.count p l = HopSet.count q l.
Proof.
  intros H. unfold HopSet.count. f_equal. f_equal.
  induction l as [|a l IH]; [reflexivity|]. cbn [filter].
  rewrite (H a) by now left. rewrite IH; [reflexivity|].
  intros x Hx. apply H. now right.
Qed.

Lemma count_or_and {Key : Type} (p q : Key -> bool) (l : list Key) :
  HopSet.count (fun x => p x || q x) l + HopSet.count (fun x => p x && q x) l
  = HopSet.count p l + HopSet.count q l.
Proof.
  unfold HopSet.count. induction l as [|a l IH]; [reflexivity|]. cbn [filter].
  destruct (p a), (q a); cbn [orb andb length]; lia.
Qed.

Lemma count_and_not {Key : Type} (p q : Key -> bool) (l : list Key) :
  HopSet.count (fun x => p x && q x) l
  + HopSet.count (fun x => p x && negb (q x)) l
  = HopSet.count p l.
Proof.
  unfold HopSet.count. induction l as [|a l IH]; [reflexivity|]. cbn [filter].
  destruct (p a), (q a); cbn [andb negb length]; lia.
Qed.

(** ** Set: the properties *)

(** A range-based [for] over a well-formed Set visits every member exactly
    once and nothing else: the visited keys have no duplicates, a key is
    visited exactly when [has] finds it, and [size()] keys are visited. *)
Theorem iteration_visits_members
  (Key : Type) (key_eqb : Key -> Key -> bool) (hash : Key -> Z)
  (key0 : Key) (hs : hop_size)
  (key_eqb_spec : forall a b, key_eqb a b = true <-> a = b)
  (s : HopSet.t Key) (k : Key) :
  HopSet.wf key_eqb hash key0 hs s = true ->
  NoDup (HopSet.to_list key0 hs s)
  /\ (In k (HopSet.to_list key0 hs s)
      <-> HopSet.has key_eqb hash key0 hs s k = true)
  /\ Z.of_nat (length (HopSet.to_list key0 hs s)) = HopSet.size s.
Proof.
  intros W. apply (wf_WF Key key_eqb hash key0 hs) in W.
  rewrite to_list_elements. split; [|split].
  - apply (NoDup_elements Key hash key0 hs W).
  - apply (In_elements_has Key key_eqb hash key0 hs key_eqb_spec W).
  - symmetry. apply (size_elements Key hash key0 hs W).
Qed.

Lemma iteration_visits_members_witness :
  NoDup (HopSet.to_list 0 Hop8 Examples.set1)
  /\ (In 40 (HopSet.to_list 0 Hop8 Examples.set1)
      <-> HopSet.has Z.eqb Examples.hash_id 0 Hop8 Examples.set1 40 = true)
  /\ Z.of_nat (length (HopSet.to_list 0 Hop8 Examples.set1))
     = HopSet.size Examples.set1.
Proof.
  apply (iteration_visits_members Z Z.eqb Examples.hash_id 0 Hop8 Z.eqb_eq
           Examples.set1 40).
  vm_compute. reflexivity.
Defined.

(** On a well-formed Set, [empty()] holds exactly when [begin() == end()],
    and exactly when [has] finds no key. *)
Theorem empty_iff_no_member
  (Key : Type) (key_eqb : Key -> Key -> bool) (hash : Key -> Z)
  (key0 : Key) (hs : hop_size)
  (key_eqb_spec : forall a b, key_eqb a b = true <-> a = b)
  (s : HopSet.t Key) :
  HopSet.wf key_eqb hash key0 hs s = true ->
  HopSet.empty s = (HopSet.begin_ hs s =? HopSet.end_ hs s)
  /\ (HopSet.empty s = true
      <-> forall k, HopSet.has key_eqb hash key0 hs s k = false).
Proof.
  intros W. apply (wf_WF Key key_eqb hash key0 hs) in W.
  split; [symmetry; apply (begin_end_empty Key hash key0 hs W)|].
  pose proof (empty_false_iff Key hash key0 hs W) as He. split.
  - intros E k. destruct (HopSet.has key_eqb hash key0 hs s k) eqn:Hk; auto.
    apply (has_mem Key key_eqb hash key0 hs key_eqb_spec W) in Hk.
    assert (HopSet.empty s = false) by (apply He; eauto). congruence.
  - intros Hn. destruct (HopSet.empty s) eqn:E; auto.
    destruct (proj1 He eq_refl) as (k & Hk).
    apply (has_mem Key key_eqb hash key0 hs key_eqb_spec W) in Hk.
    rewrite Hn in Hk. discriminate.
Qed.

Lemma empty_iff_no_member_witness :
  HopSet.empty Examples.set0
  = (HopSet.begin_ Hop8 Examples.set0 =? HopSet.end_ Hop8 Examples.set0)
  /\ (HopSet.empty Examples.set0 = true
      <-> forall k, HopSet.has Z.eqb Examples.hash_id 0 Hop8 Examples.set0 k
                    = false).
Proof.
  apply (empty_iff_no_member Z Z.eqb Examples.hash_id 0 Hop8 Z.eqb_eq
           Examples.set0).
  vm_compute. reflexivity.
Defined.

(** [insert] on a well-formed Set, when it returns (with a capacity that
    did not wrap to 0), returns [true] exactly when the key was not a
    member; [size()] grows by one exactly then, and the key is a member
    afterwards. *)
Theorem insert_size
  (Key : Type) (key_eqb : Key -> Key -> bool) (hash : Key -> Z)
  (key0 : Key) (moved_from : Key -> Key) (hs : hop_size)
  (key_eqb_spec : forall a b, key_eqb a b = true <-> a = b)
  (fuel : nat) (s s' : HopSet.t Key) (k : Key) (b : bool) :
  HopSet.wf key_eqb hash key0 hs s = true ->
  HopSet.insert key_eqb hash key0 moved_from hs fuel s k = Some (s', b) ->
  HopSet.capacity_ s' <> 0 ->
  b = negb (HopSet.has key_eqb hash key0 hs s k)
  /\ HopSet.size s' = HopSet.size s + (if b then 1 else 0)
  /\ HopSet.has key_eqb hash key0 hs s' k = true.
Proof.
  intros W E Hc. apply (wf_WF Key key_eqb hash key0 hs) in W.
  destruct (has_insert Key key_eqb hash key0 moved_from hs key_eqb_spec
              fuel s s' k b W E Hc) as (W' & Hh & Hb).
  split; [exact Hb|]. split.
  - exact (size_insert Key key_eqb hash key0 moved_from hs key_eqb_spec
             fuel s s' k b W E Hc).
  - rewrite Hh, (key_eqb_refl Key key_eqb key_eqb_spec). apply orb_true_r.
Qed.

Lemma insert_size_witness :
  true = negb (HopSet.has Z.eqb Examples.hash_id 0 Hop8 Examples.set_mult8 64)
  /\ HopSet.size Examples.set_mult8_64
     = HopSet.size Examples.set_mult8 + (if true then 1 else 0)
  /\ HopSet.has Z.eqb Examples.hash_id 0 Hop8 Examples.set_mult8_64 64 = true.
Proof.
  apply (insert_size Z Z.eqb Examples.hash_id 0 Examples.moved Hop8 Z.eqb_eq
           2%nat Examples.set_mult8 Examples.set_mult8_64 64 true).
  - vm_compute. reflexivity.
  - vm_compute. reflexivity.
  - vm_compute. lia.
Defined.

(** [size()] of a well-formed Set is the number of keys that [has] finds
    among any duplicate-free list of keys that holds all the members. *)
Theorem size_counts_members
  (Key : Type) (key_eqb : Key -> Key -> bool) (hash : Key -> Z)
  (key0 : Key) (hs : hop_size)
  (key_eqb_spec : forall a b, key_eqb a b = true <-> a = b)
  (s : HopSet.t Key) (l : list Key) :
  HopSet.wf key_eqb hash key0 hs s = true ->
  NoDup l ->
  (forall k, HopSet.has key_eqb hash key0 hs s k = true -> In k l) ->
  HopSet.size s = HopSet.count (HopSet.has key_eqb hash key0 hs s) l.
Proof.
  intros W N Hl. apply (wf_WF Key key_eqb hash key0 hs) in W.
  exact (size_count Key key_eqb hash key0 hs key_eqb_spec W l N Hl).
Qed.

Lemma size_counts_members_witness :
  HopSet.size Examples.set_123
  = HopSet.count (HopSet.has Z.eqb Examples.hash_id 0 Hop8 Examples.set_123)
                 [1; 2; 3; 4; 5].
Proof.
  apply (size_counts_members Z Z.eqb Examples.hash_id 0 Hop8 Z.eqb_eq
           Examples.set_123 [1; 2; 3; 4; 5]).
  - vm_compute. reflexivity.
  - repeat (constructor; [cbn; lia|]). constructor.
  - intros k Hk.
    assert (W : HopSet.WF Examples.hash_id 0 Hop8 None Examples.set_123)
      by (apply (wf_WF Z Z.eqb Examples.hash_id 0 Hop8); vm_compute; reflexivity).
    apply (In_elements_has Z Z.eqb Examples.hash_id 0 Hop8 Z.eqb_eq W) in Hk.
    vm_compute in Hk. cbn [In]. tauto.
Defined.

(** A Set constructed with a requested size between 1 and [2^31] is
    well-formed and empty: its size is 0, [has] finds no key and
    [begin() == end()]. *)
Theorem construct_is_empty
  (Key : Type) (key_eqb : Key -> Key -> bool) (hash : Key -> Z)
  (key0 : Key) (hs : hop_size)
  (key_eqb_spec : forall a b, key_eqb a b = true <-> a = b)
  (n : Z) (k : Key) :
  1 <= n <= 2 ^ 31 ->
  HopSet.wf key_eqb hash key0 hs (HopSet.construct key0 hs n) = true
  /\ HopSet.size (HopSet.construct key0 hs n) = 0
  /\ HopSet.has key_eqb hash key0 hs (HopSet.construct key0 hs n) k = false
  /\ HopSet.begin_ hs (HopSet.construct key0 hs n)
     = HopSet.end_ hs (HopSet.construct key0 hs n).
Proof.
  intros Hn. pose proof (construct_WF Key hash key0 hs n Hn) as W.
  split; [now apply (WF_wf Key key_eqb hash key0 hs key_eqb_spec)|].
  split; [reflexivity|].
  assert (E : HopSet.empty (HopSet.construct key0 hs n) = true) by reflexivity.
  split.
  - destruct (HopSet.has key_eqb hash key0 hs (HopSet.construct key0 hs n) k)
      eqn:Hk; auto.
    apply (has_mem Key key_eqb hash key0 hs key_eqb_spec W) in Hk.
    assert (HopSet.empty (HopSet.construct key0 hs n) = false)
      by (apply (empty_false_iff Key hash key0 hs W); eauto).
    congruence.
  - apply Z.eqb_eq. now rewrite (begin_end_empty Key hash key0 hs W).
Qed.

Lemma construct_is_empty_witness :
  HopSet.wf Z.eqb Examples.hash_id 0 Hop16 (HopSet.construct 0 Hop16 100) = true
  /\ HopSet.size (HopSet.construct 0 Hop16 100) = 0
  /\ HopSet.has Z.eqb Examples.hash_id 0 Hop16 (HopSet.construct 0 Hop16 100) 7
     = false
  /\ HopSet.begin_ Hop16 (HopSet.construct 0 Hop16 100)
     = HopSet.end_ Hop16 (HopSet.construct 0 Hop16 100).
Proof.
  apply (construct_is_empty Z Z.eqb Examples.hash_id 0 Hop16 Z.eqb_eq 100 7).
  vm_compute. split; discriminate.
Defined.

(** The copy constructor of a well-formed Set gives a well-formed Set with
    the same members, size and capacity, visited in the same order. *)
Theorem copy_preserves
  (Key : Type) (key_eqb : Key -> Key -> bool) (hash : Key -> Z)
  (key0 : Key) (hs : hop_size)
  (key_eqb_spec : forall a b, key_eqb a b = true <-> a = b)
  (td : bool) (s : HopSet.t Key) (k : Key) :
  HopSet.wf key_eqb hash key0 hs s = true ->
  HopSet.wf key_eqb hash key0 hs (HopSet.copy key0 hs td s) = true
  /\ HopSet.has key_eqb hash key0 hs (HopSet.copy key0 hs td s) k
     = HopSet.has key_eqb hash key0 hs s k
  /\ HopSet.size (HopSet.copy key0 hs td s) = HopSet.size s
  /\ HopSet.capacity (HopSet.copy key0 hs td s) = HopSet.capacity s
  /\ HopSet.to_list key0 hs (HopSet.copy key0 hs td s) = HopSet.to_list key0 hs s.
Proof.
  intros W. apply (wf_WF Key key_eqb hash key0 hs) in W.
  destruct (copy_members Key hash key0 hs td s W) as (Ek & Eh & Es & Ec).
  split; [|split; [|split; [|split]]].
  - apply (WF_wf Key key_eqb hash key0 hs key_eqb_spec).
    exact (copy_WF Key hash key0 hs td s W).
  - exact (copy_has Key key_eqb hash key0 hs td s k W).
  - exact Es.
  - exact Ec.
  - rewrite !to_list_elements. unfold HopSet.elements, HopSet.live_slots,
      HopSet.key_at. rewrite Ek, Eh, Ec. reflexivity.
Qed.

Lemma copy_preserves_witness :
  HopSet.wf Z.eqb Examples.hash_id 0 Hop8
            (HopSet.copy 0 Hop8 false Examples.set1) = true
  /\ HopSet.has Z.eqb Examples.hash_id 0 Hop8
                (HopSet.copy 0 Hop8 false Examples.set1) 40
     = HopSet.has Z.eqb Examples.hash_id 0 Hop8 Examples.set1 40
  /\ HopSet.size (HopSet.copy 0 Hop8 false Examples.set1)
     = HopSet.size Examples.set1
  /\ HopSet.capacity (HopSet.copy 0 Hop8 false Examples.set1)
     = HopSet.capacity Examples.set1
  /\ HopSet.to_list 0 Hop8 (HopSet.copy 0 Hop8 false Examples.set1)
     = HopSet.to_list 0 Hop8 Examples.set1.
Proof.
  apply (copy_preserves Z Z.eqb Examples.hash_id 0 Hop8 Z.eqb_eq false
           Examples.set1 40).
  vm_compute. reflexivity.
Defined.

(** The sizes of the results of the set operators.  For well-formed sets
    [A] and [B], [size(A & B) + size(A - B) = size(A)]; and when [A | B]
    returns, with a capacity that did not wrap to 0,
    [size(A | B) + size(A & B) = size(A) + size(B)]. *)
Theorem set_sizes
  (Key : Type) (key_eqb : Key -> Key -> bool) (hash : Key -> Z)
  (key0 : Key) (moved_from : Key -> Key) (hs : hop_size)
  (key_eqb_spec : forall a b, key_eqb a b = true <-> a = b)
  (td : bool) (A B : HopSet.t Key) :
  HopSet.wf key_eqb hash key0 hs A = true ->
  HopSet.wf key_eqb hash key0 hs B = true ->
  HopSet.size (HopSet.op_and key_eqb hash key0 hs td A B)
  + HopSet.size (HopSet.op_sub key_eqb hash key0 hs td A B)
  = HopSet.size A
  /\ forall fuel U,
       HopSet.op_or key_eqb hash key0 moved_from hs td fuel A B = Some U ->
       HopSet.capacity_ U <> 0 ->
       HopSet.size U + HopSet.size (HopSet.op_and key_eqb hash key0 hs td A B)
       = HopSet.size A + HopSet.size B.
Proof.
  intros HA HB.
  apply (wf_WF Key key_eqb hash key0 hs) in HA, HB.
  pose proof (copy_WF Key hash key0 hs td A HA) as WcA.
  pose proof (copy_WF Key hash key0 hs td B HB) as WcB.
  destruct (and_assign_spec Key key_eqb hash key0 moved_from hs key_eqb_spec
              _ B WcA HB) as [Wand Hand].
  fold (HopSet.op_and key_eqb hash key0 hs td A B) in Wand, Hand.
  destruct (sub_assign_spec Key key_eqb hash key0 moved_from hs key_eqb_spec
              _ B WcA HB) as [Wsub Hsub].
  fold (HopSet.op_sub key_eqb hash key0 hs td A B) in Wsub, Hsub.
  assert (Sand : forall l, NoDup l ->
            (forall k, HopSet.has key_eqb hash key0 hs A k = true -> In k l) ->
            HopSet.size (HopSet.op_and key_eqb hash key0 hs td A B)
            = HopSet.count (fun x => HopSet.has key_eqb hash key0 hs A x
                                     && HopSet.has key_eqb hash key0 hs B x) l).
  { intros l N Hin.
    rewrite (size_count Key key_eqb hash key0 hs key_eqb_spec Wand l N).
    - apply count_ext. intros x _. rewrite Hand.
      now rewrite (copy_has Key key_eqb hash key0 hs td A x HA).
    - intros k Hk. apply Hin.
      rewrite Hand, (copy_has Key key_eqb hash key0 hs td A k HA) in Hk.
      apply andb_true_iff in Hk as [Hk _]. exact Hk. }
  assert (Ssub : forall l, NoDup l ->
            (forall k, HopSet.has key_eqb hash key0 hs A k = true -> In k l) ->
            HopSet.size (HopSet.op_sub key_eqb hash key0 hs td A B)
            = HopSet.count (fun x => HopSet.has key_eqb hash key0 hs A x
                                     && negb (HopSet.has key_eqb hash key0 hs B x)) l).
  { intros l N Hin.
    rewrite (size_count Key key_eqb hash key0 hs key_eqb_spec Wsub l N).
    - apply count_ext. intros x _. rewrite Hsub.
      now rewrite (copy_has Key key_eqb hash key0 hs td A x HA).
    - intros k Hk. apply Hin.
      rewrite Hsub, (copy_has Key key_eqb hash key0 hs td A k HA) in Hk.
      apply andb_true_iff in Hk as [Hk _]. exact Hk. }
  split.
  - set (l := HopSet.elements key0 hs A).
    assert (N : NoDup l) by apply (NoDup_elements Key hash key0 hs HA).
    assert (Hin : forall k, HopSet.has key_eqb hash key0 hs A k = true -> In k l)
      by (intros k; apply (In_elements_has Key key_eqb hash key0 hs key_eqb_spec HA)).
    rewrite (Sand l N Hin), (Ssub l N Hin).
    rewrite (size_count Key key_eqb hash key0 hs key_eqb_spec HA l N Hin).
    apply count_and_not.
  - intros fuel U EU HcU.
    assert (HU : HopSet.WF hash key0 hs None U
                 /\ forall x, HopSet.has key_eqb hash key0 hs U x
                   = HopSet.has key_eqb hash key0 hs A x
                     || HopSet.has key_eqb hash key0 hs B x).
    { unfold HopSet.op_or in EU.
      destruct (HopSet.size B >? HopSet.size A).
      - destruct (or_assign_spec Key key_eqb hash key0 moved_from hs key_eqb_spec
                    fuel _ A U WcB HA EU HcU) as [WU H].
        split; [exact WU|]. intros x.
        rewrite H, (copy_has Key key_eqb hash key0 hs td B x HB). apply orb_comm.
      - destruct (or_assign_spec Key key_eqb hash key0 moved_from hs key_eqb_spec
                    fuel _ B U WcA HB EU HcU) as [WU H].
        split; [exact WU|]. intros x.
        now rewrite H, (copy_has Key key_eqb hash key0 hs td A x HA). }
    destruct HU as [WU HU].
    set (l := HopSet.elements key0 hs U).
    assert (N : NoDup l) by apply (NoDup_elements Key hash key0 hs WU).
    assert (Hin : forall k, HopSet.has key_eqb hash key0 hs U k = true -> In k l)
      by (intros k; apply (In_elements_has Key key_eqb hash key0 hs key_eqb_spec WU)).
    assert (HinA : forall k, HopSet.has key_eqb hash key0 hs A k = true -> In k l).
    { intros k Hk. apply Hin. rewrite HU, Hk. reflexivity. }
    assert (SU := size_count Key key_eqb hash key0 hs key_eqb_spec WU l N Hin).
    assert (SA := size_count Key key_eqb hash key0 hs key_eqb_spec HA l N HinA).
    assert (SB : HopSet.size B = HopSet.count (HopSet.has key_eqb hash key0 hs B) l).
    { apply (size_count Key key_eqb hash key0 hs key_eqb_spec HB l N).
      intros k Hk. apply Hin. rewrite HU, Hk. apply orb_true_r. }
    rewrite SU, (Sand l N HinA), SA, SB.
    rewrite (count_ext _ (fun x => HopSet.has key_eqb hash key0 hs A x
                                   || HopSet.has key_eqb hash key0 hs B x) l)
      by (intros x _; apply HU).
    apply count_or_and.
Qed.

Lemma set_sizes_witness :
  HopSet.size (HopSet.op_and Z.eqb Examples.hash_id 0 Hop8 true
                 Examples.set_123 Examples.set_345)
  + HopSet.size (HopSet.op_sub Z.eqb Examples.hash_id 0 Hop8 true
                   Examples.set_123 Examples.set_345)
  = HopSet.size Examples.set_123
  /\ HopSet.size Examples.set_or
     + HopSet.size (HopSet.op_and Z.eqb Examples.hash_id 0 Hop8 true
                      Examples.set_123 Examples.set_345)
     = HopSet.size Examples.set_123 + HopSet.size Examples.set_345.
Proof.
  destruct (set_sizes Z Z.eqb Examples.hash_id 0 Examples.moved Hop8 Z.eqb_eq
              true Examples.set_123 Examples.set_345) as [Hsub Hor].
  - vm_compute. reflexivity.
  - vm_compute. reflexivity.
  - split; [exact Hsub|].
    apply (Hor 2%nat Examples.set_or).
    + vm_compute. reflexivity.
    + vm_compute. lia.
Defined.

(** ** Iterators *)

Lemma end_index_range (hs : hop_size) (c : Z) :
  0 <= HopscotchBase.end_index hs c < 2 ^ 32.
Proof. unfold HopscotchBase.end_index. apply u32_range. Qed.

Lemma next_skip (hs : hop_size) (H : list Z) (c i : Z) :
  0 <= i < HopscotchBase.end_index hs c ->
  Z.testbit (get 0 H i) 0 = false ->
  HopscotchBase.next hs H c i = HopscotchBase.next hs H c (i + 1).
Proof.
  intros Hi Hb. pose proof (end_index_range hs c) as He.
  unfold HopscotchBase.next.
  replace (Z.to_nat (HopscotchBase.end_index hs c - i))
    with (S (Z.to_nat (HopscotchBase.end_index hs c - (i + 1)))) by lia.
  cbn [HopscotchBase.next_loop].
  destruct (Z.ltb_spec i (HopscotchBase.end_index hs c)); [|lia].
  rewrite Hb. cbn [andb negb]. now rewrite u32_small by lia.
Qed.

Lemma previous_loop_spec (n : nat) (H : list Z) (i : Z) :
  0 <= i < 2 ^ 32 -> Z.of_nat n = i ->
  0 <= HopscotchBase.previous_loop n H i <= i
  /\ (HopscotchBase.previous_loop n H i = 0
      \/ Z.testbit (get 0 H (HopscotchBase.previous_loop n H i)) 0 = true)
  /\ (forall x, HopscotchBase.previous_loop n H i < x <= i ->
                Z.testbit (get 0 H x) 0 = false).
Proof.
  revert i. induction n as [|n IH]; intros i Hi Hn;
    cbn [HopscotchBase.previous_loop].
  - split; [lia|]. split; [left; lia|]. intros; lia.
  - destruct (Z.gtb_spec i 0) as [Hgt | Hle]; cbn [andb]; [|lia].
    destruct (Z.testbit (get 0 H i) 0) eqn:Hb; cbn [negb].
    + split; [lia|]. split; [now right|]. intros; lia.
    + rewrite u32_small by lia.
      destruct (IH (i - 1) ltac:(lia) ltac:(lia)) as (H1 & H2 & H3).
      split; [lia|]. split; [exact H2|].
      intros x Hx. destruct (Z.eq_dec x i) as [-> | Hne]; [exact Hb|].
      apply H3. lia.
Qed.

(** [operator++] moves an iterator that is not at the end to the next
    occupied slot, or to [end()] when no occupied slot follows. *)
Theorem increment_next_member
  (Key : Type) (hs : hop_size) (s : HopSet.t Key) (i x : Z) :
  0 <= i < HopSet.end_index hs s ->
  i < HopSet.iter_incr hs s i <= HopSet.end_index hs s
  /\ HopSet.end_ hs s = HopSet.end_index hs s
  /\ (HopSet.iter_incr hs s i = HopSet.end_ hs s
      \/ HopSet.live s (HopSet.iter_incr hs s i) = true)
  /\ (i < x < HopSet.iter_incr hs s i -> HopSet.live s x = false).
Proof.
  intros Hi. unfold HopSet.end_index in *.
  pose proof (end_index_range hs (HopSet.capacity_ s)) as He.
  unfold HopSet.iter_incr, HopSet.end_, HopSet.end_index, HopSet.live.
  rewrite next_end. rewrite u32_small by lia.
  destruct (next_spec hs (HopSet.hops_ s) (HopSet.capacity_ s) (i + 1)
              ltac:(lia)) as (Hr & Hl & Hd).
  split; [lia|]. split; [reflexivity|]. split.
  - destruct (Z.eq_dec (HopscotchBase.next hs (HopSet.hops_ s)
                          (HopSet.capacity_ s) (i + 1))
                (HopscotchBase.end_index hs (HopSet.capacity_ s))) as [E | N];
      [now left | right; apply Hl; lia].
  - intros Hx. apply Hd. lia.
Qed.

Lemma increment_next_member_witness :
  1 < HopSet.iter_incr Hop8 Examples.set_345 1 <= HopSet.end_index Hop8 Examples.set_345
  /\ HopSet.end_ Hop8 Examples.set_345 = HopSet.end_index Hop8 Examples.set_345
  /\ (HopSet.iter_incr Hop8 Examples.set_345 1 = HopSet.end_ Hop8 Examples.set_345
      \/ HopSet.live Examples.set_345 (HopSet.iter_incr Hop8 Examples.set_345 1)
         = true)
  /\ (1 < 2 < HopSet.iter_incr Hop8 Examples.set_345 1 ->
      HopSet.live Examples.set_345 2 = false).
Proof.
  apply (increment_next_member Z Hop8 Examples.set_345 1 2).
  vm_compute. split; [discriminate | reflexivity].
Defined.

(** [operator--] steps back one slot and then skips forward as [operator++]
    does: from an occupied slot it reaches the slot before only if that
    slot is occupied, and otherwise stays where it was.  So [--] undoes
    [++] only when the two occupied slots are adjacent. *)
Theorem decrement_stays_after_gap
  (Key : Type) (hs : hop_size) (s : HopSet.t Key) (i : Z) :
  0 < i < HopSet.end_index hs s ->
  HopSet.live s i = true ->
  HopSet.iter_decr hs s i = (if HopSet.live s (i - 1) then i - 1 else i)
  /\ HopSet.iter_decr hs s (HopSet.iter_incr hs s i)
     = (if HopSet.iter_incr hs s i =? i + 1 then i else HopSet.iter_incr hs s i).
Proof.
  intros Hi Hl. unfold HopSet.end_index in *.
  pose proof (end_index_range hs (HopSet.capacity_ s)) as He.
  assert (Hdec : forall j, 0 < j <= HopscotchBase.end_index hs (HopSet.capacity_ s) ->
            (j < HopscotchBase.end_index hs (HopSet.capacity_ s) ->
             HopSet.live s j = true) ->
            HopSet.iter_decr hs s j
            = if HopSet.live s (j - 1) then j - 1 else j).
  { intros j Hj Hv. unfold HopSet.iter_decr.
    destruct (Z.gtb_spec j 0); [|lia]. rewrite u32_small by lia.
    destruct (HopSet.live s (j - 1)) eqn:Hp.
    - apply next_live; [lia | exact Hp].
    - rewrite next_skip by (try lia; exact Hp).
      replace (j - 1 + 1) with j by lia.
      destruct (Z.eq_dec j (HopscotchBase.end_index hs (HopSet.capacity_ s)))
        as [-> | Hne]; [apply next_end|].
      apply next_live; [lia | apply Hv; lia]. }
  split; [exact (Hdec i ltac:(lia) (fun _ => Hl))|].
  assert (Einc : HopSet.iter_incr hs s i
                 = HopscotchBase.next hs (HopSet.hops_ s) (HopSet.capacity_ s)
                                      (i + 1)).
  { unfold HopSet.iter_incr. now rewrite u32_small by lia. }
  rewrite Einc.
  destruct (next_spec hs (HopSet.hops_ s) (HopSet.capacity_ s) (i + 1)
              ltac:(lia)) as (Hr & Hlv & Hd).
  set (j := HopscotchBase.next hs (HopSet.hops_ s) (HopSet.capacity_ s) (i + 1))
    in *.
  rewrite (Hdec j ltac:(lia) Hlv).
  destruct (Z.eqb_spec j (i + 1)) as [E | N].
  - rewrite E. replace (i + 1 - 1) with i by lia. now rewrite Hl.
  - assert (Hg : HopSet.live s (j - 1) = false) by (apply Hd; lia).
    now rewrite Hg.
Qed.

Lemma decrement_stays_after_gap_witness :
  HopSet.iter_decr Hop8 Examples.set_mult8_64 8
  = (if HopSet.live Examples.set_mult8_64 (8 - 1) then 8 - 1 else 8)
  /\ HopSet.iter_decr Hop8 Examples.set_mult8_64
       (HopSet.iter_incr Hop8 Examples.set_mult8_64 8)
     = (if HopSet.iter_incr Hop8 Examples.set_mult8_64 8 =? 8 + 1 then 8
        else HopSet.iter_incr Hop8 Examples.set_mult8_64 8).
Proof.
  apply (decrement_stays_after_gap Z Hop8 Examples.set_mult8_64 8).
  - vm_compute. split; reflexivity.
  - vm_compute. reflexivity.
Defined.

(** [iterator::previous] stops at the nearest occupied slot at or before
    the index, and at slot 0 whether that slot is occupied or not. *)
Theorem previous_nearest (hops_ : list Z) (i x : Z) :
  0 <= i < 2 ^ 32 ->
  0 <= HopscotchBase.previous hops_ i <= i
  /\ (HopscotchBase.previous hops_ i = 0
      \/ Z.testbit (get 0 hops_ (HopscotchBase.previous hops_ i)) 0 = true)
  /\ (HopscotchBase.previous hops_ i < x <= i ->
      Z.testbit (get 0 hops_ x) 0 = false).
Proof.
  intros Hi. unfold HopscotchBase.previous.
  destruct (previous_loop_spec (Z.to_nat i) hops_ i Hi ltac:(lia))
    as (H1 & H2 & H3).
  split; [exact H1|]. split; [exact H2|]. apply H3.
Qed.

Lemma previous_nearest_witness :
  0 <= HopscotchBase.previous (HopSet.hops_ Examples.set_345) 10 <= 10
  /\ (HopscotchBase.previous (HopSet.hops_ Examples.set_345) 10 = 0
      \/ Z.testbit (get 0 (HopSet.hops_ Examples.set_345)
                        (HopscotchBase.previous (HopSet.hops_ Examples.set_345) 10))
                   0 = true)
  /\ (HopscotchBase.previous (HopSet.hops_ Examples.set_345) 10 < 7 <= 10 ->
      Z.testbit (get 0 (HopSet.hops_ Examples.set_345) 7) 0 = false).
Proof.
  apply (previous_nearest (HopSet.hops_ Examples.set_345) 10 7).
  vm_compute. split; [discriminate | reflexivity].
Defined.

(** ** Set: insert into a neighbourhood with a free slot *)

(** Every slot the linear probe steps over is occupied. *)
Lemma probe_loop_before (n : nat) (hops_ : list Z) (probe_end idx j : Z) :
  0 <= idx -> probe_end < 2 ^ 32 ->
  idx <= j < HopscotchBase.probe_loop n hops_ probe_end idx ->
  Z.testbit (get 0 hops_ j) 0 = true.
Proof.
  revert idx. induction n as [|n IH]; intros idx H0 Hp Hj;
    cbn [HopscotchBase.probe_loop] in Hj; [lia|].
  destruct (Z.ltb_spec idx probe_end); cbn [andb] in Hj; [|lia].
  destruct (Z.testbit (get 0 hops_ idx) 0) eqn:Hx; [|lia].
  rewrite u32_small in Hj by lia.
  destruct (Z.eq_dec j idx) as [-> | Hne]; [exact Hx|].
  apply (IH (idx + 1)); lia.
Qed.

Local Abbreviation narrow := HopscotchBase.narrow.

Lemma or_one_bits (hs : hop_size) (H : list Z) (i x y : Z) :
  narrow hs H -> 0 <= i < Zlen H -> 0 <= x ->
  Z.testbit (get 0 (upd H i (hop_word hs (Z.lor (get 0 H i) 1))) x) y
  = Z.testbit (get 0 H x) y || ((x =? i) && (y =? 0)).
Proof.
  intros Hn Hi Hx. rewrite testbit_get_upd by lia.
  pose proof (HopSize_bucket hs) as HS. pose proof (hop_bucket_range hs) as Hh.
  destruct (Z.eqb_spec x i) as [-> | Hne]; cbn [andb].
  - rewrite or_one_testbit.
    destruct (Z.ltb_spec y (HopSize hs)); cbn [andb]; [reflexivity|].
    rewrite Hn by lia. eqb_false y 0. reflexivity.
  - now rewrite orb_false_r.
Qed.

Lemma or_bit_bits (hs : hop_size) (H : list Z) (i p x y : Z) :
  narrow hs H -> 0 <= i < Zlen H -> 0 <= x -> 0 <= p < HopSize hs ->
  Z.testbit (get 0 (upd H i (HopscotchBase.or_bit hs (get 0 H i) p)) x) y
  = Z.testbit (get 0 H x) y || ((x =? i) && (y =? p)).
Proof.
  intros Hn Hi Hx Hp. rewrite testbit_get_upd by lia.
  destruct (Z.eqb_spec x i) as [-> | Hne]; cbn [andb].
  - rewrite or_bit_testbit by lia.
    destruct (Z.ltb_spec y (HopSize hs)); cbn [andb]; [reflexivity|].
    rewrite Hn by lia. eqb_false y p. reflexivity.
  - now rewrite orb_false_r.
Qed.

Lemma narrow_or_one (hs : hop_size) (H : list Z) (i : Z) :
  narrow hs H -> 0 <= i < Zlen H ->
  narrow hs (upd H i (hop_word hs (Z.lor (get 0 H i) 1))).
Proof.
  intros Hn Hi x y Hx Hy. rewrite or_one_bits by assumption.
  pose proof (HopSize_bucket hs) as HS. pose proof (hop_bucket_range hs) as Hh.
  rewrite Hn by lia. eqb_false y 0. now rewrite andb_false_r.
Qed.

Section SetFastPath.
Variable Key : Type.
Variable key_eqb : Key -> Key -> bool.
Variable hash : Key -> Z.
Variable key0 : Key.
Variable moved_from : Key -> Key.
Variable hs : hop_size.
Hypothesis key_eqb_spec : forall a b, key_eqb a b = true <-> a = b.

Local Abbreviation t := (HopSet.t Key).
Local Abbreviation hb := (hop_bucket hs).
Local Abbreviation WF := (HopSet.WF hash key0 hs).
Local Abbreviation bucket := (HopSet.get_bucket_index hash).
Local Abbreviation cap := (@HopSet.capacity_ Key).

Lemma WF_narrow (hole : option Z) (s : t) :
  WF hole s -> narrow hs (HopSet.hops_ s).
Proof.
  intros W x y Hx Hy. destruct (Z.lt_ge_cases x (cap s + hb)).
  - apply (bits_above _ (HopSize hs)); [|lia].
    apply (WF_range Key hash key0 hs W). lia.
  - rewrite get_outside by (rewrite (hops_len Key hash key0 hs W); lia).
    apply Z.testbit_0_l.
Qed.

Lemma insert_fast (fuel : nat) (s : t) (k : Key) (i : Z) :
  WF None s ->
  HopSet.has key_eqb hash key0 hs s k = false ->
  bucket s k <= i <= bucket s k + hb - 1 ->
  HopSet.live s i = false ->
  exists s' idx,
    HopSet.insert key_eqb hash key0 moved_from hs (S fuel) s k = Some (s', true)
    /\ bucket s k <= idx <= i
    /\ HopSet.live s idx = false
    /\ (forall j, bucket s k <= j < idx -> HopSet.live s j = true)
    /\ HopSet.keys_ s' = upd (HopSet.keys_ s) idx k
    /\ (forall x y, 0 <= x ->
          Z.testbit (get 0 (HopSet.hops_ s') x) y
          = Z.testbit (get 0 (HopSet.hops_ s) x) y
            || ((x =? idx) && (y =? 0))
            || ((x =? bucket s k) && (y =? idx - bucket s k + 1)))
    /\ cap s' = cap s
    /\ HopSet.size_ s' = HopSet.size_ s + 1
    /\ HopSet.destroyed_ s' = HopSet.destroyed_ s
    /\ WF None s'
    /\ (forall k', HopSet.has key_eqb hash key0 hs s' k'
                   = HopSet.has key_eqb hash key0 hs s k' || key_eqb k' k).
Proof.
  intros W Hk Hi Hl.
  pose proof (cap_bounds Key hash key0 hs W) as Hc.
  pose proof (bucket_range Key hash key0 hs k W) as Hb.
  pose proof (end_index_eq Key hash key0 hs W) as He.
  pose proof (hops_len Key hash key0 hs W) as HL.
  pose proof (hop_bucket_range hs) as Hh.
  pose proof (HopSize_bucket hs) as HS.
  pose proof (probe_max_range hs) as Hp.
  pose proof (WF_narrow None s W) as Hn.
  assert (Hpm : hb < probe_max hs)
    by (unfold probe_max, hop_bucket; destruct hs; cbn; lia).
  pows.
  assert (E : exists s' idx,
    HopSet.insert key_eqb hash key0 moved_from hs (S fuel) s k = Some (s', true)
    /\ bucket s k <= idx <= i
    /\ HopSet.live s idx = false
    /\ (forall j, bucket s k <= j < idx -> HopSet.live s j = true)
    /\ HopSet.keys_ s' = upd (HopSet.keys_ s) idx k
    /\ (forall x y, 0 <= x ->
          Z.testbit (get 0 (HopSet.hops_ s') x) y
          = Z.testbit (get 0 (HopSet.hops_ s) x) y
            || ((x =? idx) && (y =? 0))
            || ((x =? bucket s k) && (y =? idx - bucket s k + 1)))
    /\ cap s' = cap s
    /\ HopSet.size_ s' = HopSet.size_ s + 1
    /\ HopSet.destroyed_ s' = HopSet.destroyed_ s).
  { cbn [HopSet.insert]. unfold HopSet.insert_body.
    change (negb (HopSet.find_internal key_eqb key0 hs s (bucket s k) k
                  =? HopSet.end_index hs s))
      with (HopSet.has key_eqb hash key0 hs s k).
    rewrite Hk.
    rewrite (u32_small (bucket s k + probe_max hs)) by lia.
    rewrite He.
    set (pe := if bucket s k + probe_max hs >? cap s + hb
               then cap s + hb else bucket s k + probe_max hs).
    assert (Hpe : i < pe /\ pe < 2 ^ 32 /\ pe <= cap s + hb).
    { unfold pe.
      destruct (Z.gtb_spec (bucket s k + probe_max hs) (cap s + hb)); lia. }
    pose proof (probe_loop_le (Z.to_nat (pe - bucket s k)) (HopSet.hops_ s) pe
                  (bucket s k) i ltac:(lia) ltac:(lia) ltac:(lia) ltac:(lia)
                  ltac:(lia) Hl) as Hle.
    pose proof (probe_loop_spec (Z.to_nat (pe - bucket s k)) (HopSet.hops_ s) pe
                  (bucket s k) ltac:(lia) ltac:(lia) ltac:(lia)) as [Hge Hfree].
    pose proof (fun j => probe_loop_before (Z.to_nat (pe - bucket s k))
                  (HopSet.hops_ s) pe (bucket s k) j ltac:(lia) ltac:(lia))
      as Hbefore.
    set (idx := HopscotchBase.probe_loop _ _ _ _) in *.
    destruct (Z.eqb_spec idx pe) as [Heq | Hne]; [lia|].
    assert (Hd : forall n s1,
               HopSet.displace key0 moved_from hs n s1 (bucket s k) idx
               = (s1, idx, true)).
    { intros [|m] s1; cbn [HopSet.displace]; [reflexivity|].
      rewrite (u32_small (bucket s k + hb)) by lia.
      rewrite (u32_small (bucket s k + hb - 1)) by lia.
      destruct (Z.gtb_spec idx (bucket s k + hb - 1)); [lia | reflexivity]. }
    rewrite Hd. eexists. exists idx. split; [reflexivity|].
    unfold HopSet.set_hops.
    cbn [HopSet.keys_ HopSet.hops_ HopSet.capacity_ HopSet.size_
         HopSet.destroyed_].
    split; [lia|]. split; [apply Hfree; lia|]. split; [exact Hbefore|].
    split; [reflexivity|]. split.
    { intros x y Hx.
      rewrite (u32_diff_succ idx (bucket s k)) by lia.
      set (H1 := upd (HopSet.hops_ s) idx
                     (hop_word hs (Z.lor (get 0 (HopSet.hops_ s) idx) 1))).
      assert (N1 : narrow hs H1) by (apply narrow_or_one; [exact Hn | lia]).
      assert (L1 : Zlen H1 = cap s + hb) by (unfold H1; now rewrite Zlen_upd).
      set (H2 := upd H1 idx (hop_word hs (Z.lor (get 0 H1 idx) 1))).
      assert (N2 : narrow hs H2) by (apply narrow_or_one; [exact N1 | lia]).
      assert (L2 : Zlen H2 = cap s + hb) by (unfold H2; now rewrite Zlen_upd).
      rewrite (or_bit_bits hs H2) by (try assumption; lia).
      unfold H2. rewrite (or_one_bits hs H1) by (try assumption; lia).
      unfold H1. rewrite (or_one_bits hs (HopSet.hops_ s))
        by (try assumption; lia).
      destruct (Z.testbit (get 0 (HopSet.hops_ s) x) y),
               ((x =? idx) && (y =? 0)); reflexivity. }
    split; [reflexivity|]. split; [|reflexivity].
    apply u32_small. rewrite (HopSet.wf_size W).
    pose proof (live_count_le (HopSet.hops_ s)) as Hlc.
    pose proof (live_count_nonneg (HopSet.hops_ s)) as Hln.
    rewrite (HopSet.wf_hops_len W) in Hlc. lia. }
  destruct E as (s' & idx & Ei & H1 & H2 & H3 & H4 & H5 & H6 & H7 & H8).
  exists s', idx.
  destruct (has_insert Key key_eqb hash key0 moved_from hs key_eqb_spec
              (S fuel) s s' k true W Ei ltac:(lia)) as (W' & Hhas & _).
  repeat (split; [assumption|]). exact Hhas.
Qed.

End SetFastPath.

(** When a slot of the home neighbourhood of an absent key is free,
    [insert] returns without a nested call.  The key is written to the
    first free slot at or after its home bucket: that slot was free and
    every slot between the home bucket and it is occupied.  Only that slot
    of the key buffer changes; in the bitmaps only the slot's occupancy bit
    and its displacement bit in the home bucket are set.  The table does
    not grow, nothing is destroyed, and the result is a well-formed table
    that holds the old members and the new key. *)
Theorem insert_without_growth
  (Key : Type) (key_eqb : Key -> Key -> bool) (hash : Key -> Z)
  (key0 : Key) (moved_from : Key -> Key) (hs : hop_size)
  (key_eqb_spec : forall a b, key_eqb a b = true <-> a = b)
  (fuel : nat) (s : HopSet.t Key) (k : Key) (i : Z) :
  HopSet.wf key_eqb hash key0 hs s = true ->
  HopSet.has key_eqb hash key0 hs s k = false ->
  HopSet.get_bucket_index hash s k <= i
  <= HopSet.get_bucket_index hash s k + hop_bucket hs - 1 ->
  HopSet.live s i = false ->
  exists s' idx,
    HopSet.insert key_eqb hash key0 moved_from hs (S fuel) s k = Some (s', true)
    /\ HopSet.get_bucket_index hash s k <= idx <= i
    /\ HopSet.live s idx = false
    /\ (forall j, HopSet.get_bucket_index hash s k <= j < idx ->
                  HopSet.live s j = true)
    /\ HopSet.keys_ s' = upd (HopSet.keys_ s) idx k
    /\ (forall x y, 0 <= x ->
          Z.testbit (get 0 (HopSet.hops_ s') x) y
          = Z.testbit (get 0 (HopSet.hops_ s) x) y
            || ((x =? idx) && (y =? 0))
            || ((x =? HopSet.get_bucket_index hash s k)
                && (y =? idx - HopSet.get_bucket_index hash s k + 1)))
    /\ HopSet.capacity s' = HopSet.capacity s
    /\ HopSet.size s' = HopSet.size s + 1
    /\ HopSet.destroyed_ s' = HopSet.destroyed_ s
    /\ HopSet.wf key_eqb hash key0 hs s' = true
    /\ (forall k', HopSet.has key_eqb hash key0 hs s' k'
                   = HopSet.has key_eqb hash key0 hs s k' || key_eqb k' k).
Proof.
  intros W Hk Hi Hl. apply (wf_WF Key key_eqb hash key0 hs) in W.
  destruct (insert_fast Key key_eqb hash key0 moved_from hs key_eqb_spec
              fuel s k i W Hk Hi Hl)
    as (s' & idx & H0 & H1 & H2 & H3 & H4 & H5 & H6 & H7 & H8 & W' & H9).
  exists s', idx.
  repeat (split; [assumption|]).
  split; [|exact H9].
  apply (WF_wf Key key_eqb hash key0 hs key_eqb_spec). exact W'.
Qed.

Lemma insert_without_growth_witness :
  exists s' idx,
    HopSet.insert Z.eqb Examples.hash_id 0 Examples.moved Hop8 1
                  Examples.set_345 11 = Some (s', true)
    /\ HopSet.get_bucket_index Examples.hash_id Examples.set_345 11 <= idx <= 6
    /\ HopSet.live Examples.set_345 idx = false
    /\ (forall j, HopSet.get_bucket_index Examples.hash_id Examples.set_345 11
                  <= j < idx -> HopSet.live Examples.set_345 j = true)
    /\ HopSet.keys_ s' = upd (HopSet.keys_ Examples.set_345) idx 11
    /\ (forall x y, 0 <= x ->
          Z.testbit (get 0 (HopSet.hops_ s') x) y
          = Z.testbit (get 0 (HopSet.hops_ Examples.set_345) x) y
            || ((x =? idx) && (y =? 0))
            || ((x =? HopSet.get_bucket_index Examples.hash_id
                        Examples.set_345 11)
                && (y =? idx - HopSet.get_bucket_index Examples.hash_id
                                 Examples.set_345 11 + 1)))
    /\ HopSet.capacity s' = HopSet.capacity Examples.set_345
    /\ HopSet.size s' = HopSet.size Examples.set_345 + 1
    /\ HopSet.destroyed_ s' = HopSet.destroyed_ Examples.set_345
    /\ HopSet.wf Z.eqb Examples.hash_id 0 Hop8 s' = true
    /\ (forall k', HopSet.has Z.eqb Examples.hash_id 0 Hop8 s' k'
                   = HopSet.has Z.eqb Examples.hash_id 0 Hop8
                                Examples.set_345 k' || (k' =? 11)).
Proof.
  apply (insert_without_growth Z Z.eqb Examples.hash_id 0 Examples.moved Hop8
           Z.eqb_eq 0%nat Examples.set_345 11 6).
  - vm_compute. reflexivity.
  - vm_compute. reflexivity.
  - vm_compute. split; discriminate.
  - vm_compute. reflexivity.
Defined.

(** ** Dict: the values follow their keys *)

Section LiveBits.
Variable hs : hop_size.

Lemma HopSize_pos : (0 <? HopSize hs) = true.
Proof. destruct hs; reflexivity. Qed.

Lemma live_or_one (H : list Z) (idx i : Z) :
  0 <= idx < Zlen H -> 0 <= i ->
  Z.testbit (get 0 (upd H idx (hop_word hs (Z.lor (get 0 H idx) 1))) i) 0
  = (i =? idx) || Z.testbit (get 0 H i) 0.
Proof.
  intros Hidx Hi. rewrite testbit_get_upd by assumption.
  destruct (Z.eqb_spec i idx) as [-> | Hne]; [|reflexivity].
  rewrite or_one_testbit, HopSize_pos. cbn [andb orb Z.eqb].
  now rewrite orb_true_r.
Qed.

Lemma live_xor_one (H : list Z) (idx i : Z) :
  0 <= idx < Zlen H -> 0 <= i ->
  Z.testbit (get 0 (upd H idx (hop_word hs (Z.lxor (get 0 H idx) 1))) i) 0
  = xorb (Z.testbit (get 0 H i) 0) (i =? idx).
Proof.
  intros Hidx Hi. rewrite testbit_get_upd by assumption.
  destruct (Z.eqb_spec i idx) as [-> | Hne]; [|now rewrite xorb_false_r].
  rewrite xor_one_testbit, HopSize_pos. reflexivity.
Qed.

Lemma live_or_bit (H : list Z) (c p i : Z) :
  0 <= c < Zlen H -> 0 <= i -> 1 <= p ->
  Z.testbit (get 0 (upd H c (HopscotchBase.or_bit hs (get 0 H c) p)) i) 0
  = Z.testbit (get 0 H i) 0.
Proof.
  intros Hc Hi Hp. rewrite testbit_get_upd by assumption.
  destruct (Z.eqb_spec i c) as [-> | Hne]; [|reflexivity].
  rewrite or_bit_testbit by lia. rewrite HopSize_pos.
  destruct (Z.eqb_spec 0 p); [lia|]. cbn [andb]. now rewrite orb_false_r.
Qed.

Lemma live_xor_bit (H : list Z) (c p i : Z) :
  0 <= c < Zlen H -> 0 <= i -> 1 <= p ->
  Z.testbit (get 0 (upd H c (HopscotchBase.xor_bit hs (get 0 H c) p)) i) 0
  = Z.testbit (get 0 H i) 0.
Proof.
  intros Hc Hi Hp. rewrite testbit_get_upd by assumption.
  destruct (Z.eqb_spec i c) as [-> | Hne]; [|reflexivity].
  rewrite xor_bit_testbit by lia. rewrite HopSize_pos.
  destruct (Z.eqb_spec 0 p); [lia|]. cbn [andb]. now rewrite xorb_false_r.
Qed.

End LiveBits.

Section DictValues.
Variable Key : Type.
Variable Value : Type.
Variable key_eqb : Key -> Key -> bool.
Variable hash : Key -> Z.
Variable key0 : Key.
Variable value0 : Value.
Variable moved_from : Key -> Key.
Variable moved_from_value : Value -> Value.
Variable hs : hop_size.
Hypothesis key_eqb_spec : forall a b, key_eqb a b = true <-> a = b.
Variable f : Key -> Value.

Local Abbreviation dict := (Dict.t Key Value).
Local Abbreviation hb := (hop_bucket hs).
Local Abbreviation kp := (@Dict.key_part Key Value).
Local Abbreviation WF := (HopSet.WF hash key0 hs).
Local Abbreviation agrees := (Dict.agrees key0 value0 hs f).
Local Abbreviation dcap := (@Dict.capacity_ Key Value).

Ltac dproj :=
  cbn [Dict.keys_ Dict.values_ Dict.hops_ Dict.size_ Dict.capacity_
       Dict.destroyed_ HopSet.keys_ HopSet.hops_ HopSet.size_
       HopSet.capacity_ HopSet.destroyed_ Dict.key_part] in *.

Lemma agrees_reserve (d : dict) (idx : Z) :
  agrees None d -> 0 <= idx < Zlen (Dict.hops_ d) ->
  agrees (Some idx)
    (Dict.set_hops d (upd (Dict.hops_ d) idx
                          (hop_word hs (Z.lor (get 0 (Dict.hops_ d) idx) 1)))).
Proof.
  intros [Hlen Hv] Hidx. split; unfold Dict.set_hops; dproj; [exact Hlen|].
  intros i Hi Hl Hh. rewrite live_or_one in Hl by lia.
  destruct (Z.eqb_spec i idx) as [-> | Hne]; [congruence|].
  apply Hv; auto. discriminate.
Qed.

Lemma agrees_unreserve (d : dict) (idx : Z) :
  agrees (Some idx) d -> 0 <= idx < Zlen (Dict.hops_ d) ->
  Z.testbit (get 0 (Dict.hops_ d) idx) 0 = true ->
  agrees None
    (Dict.set_hops d (upd (Dict.hops_ d) idx
                          (hop_word hs (Z.lxor (get 0 (Dict.hops_ d) idx) 1)))).
Proof.
  intros [Hlen Hv] Hidx Hlive. split; unfold Dict.set_hops; dproj; [exact Hlen|].
  intros i Hi Hl _. rewrite live_xor_one in Hl by lia.
  destruct (Z.eqb_spec i idx) as [-> | Hne].
  - rewrite Hlive in Hl. discriminate.
  - rewrite xorb_false_r in Hl. apply Hv; auto. congruence.
Qed.

Lemma agrees_move (d : dict) (idx offset cursor p1 p2 : Z) :
  agrees (Some idx) d ->
  Zlen (Dict.keys_ d) = dcap d + hb -> Zlen (Dict.hops_ d) = dcap d + hb ->
  0 <= cursor < dcap d + hb -> 0 <= offset < idx -> idx < dcap d + hb ->
  1 <= p1 -> 1 <= p2 ->
  Z.testbit (get 0 (Dict.hops_ d) offset) 0 = true ->
  let keys1 := upd (Dict.keys_ d) idx (get key0 (Dict.keys_ d) offset) in
  let values1 := upd (Dict.values_ d) idx (get value0 (Dict.values_ d) offset) in
  let keys2 := upd keys1 offset (moved_from (get key0 keys1 offset)) in
  let values2 :=
    upd values1 offset (moved_from_value (get value0 values1 offset)) in
  let hops1 := upd (Dict.hops_ d) cursor
                   (HopscotchBase.or_bit hs (get 0 (Dict.hops_ d) cursor) p1) in
  let hops2 := upd hops1 cursor
                   (HopscotchBase.xor_bit hs (get 0 hops1 cursor) p2) in
  agrees (Some offset)
    {| Dict.keys_ := keys2; Dict.values_ := values2; Dict.hops_ := hops2;
       Dict.size_ := Dict.size_ d; Dict.capacity_ := dcap d;
       Dict.destroyed_ := Dict.destroyed_ d ++ [offset] |}.
Proof.
  intros [Hlen Hv] HK HH Hc Ho Hi Hp1 Hp2 Hlo keys1 values1 keys2 values2
         hops1 hops2.
  split; dproj.
  - subst values2 values1. now rewrite !Zlen_upd.
  - intros i Hir Hl Hh.
    assert (Hne : i <> offset) by congruence.
    subst hops2. rewrite live_xor_bit in Hl
      by (try lia; subst hops1; rewrite Zlen_upd; lia).
    subst hops1. rewrite live_or_bit in Hl by lia.
    subst keys2 values2.
    rewrite (get_upd_other value0) by lia.
    rewrite (get_upd_other key0) by lia.
    subst keys1 values1.
    destruct (Z.eq_dec i idx) as [-> | Hni].
    + rewrite get_upd_same by lia. rewrite get_upd_same by lia.
      apply Hv; [lia | exact Hlo | intros E; injection E; lia].
    + rewrite (get_upd_other value0) by lia.
      rewrite (get_upd_other key0) by lia.
      apply Hv; auto. congruence.
Qed.

Lemma agrees_place (d : dict) (idx b p : Z) (k : Key) (v : Value) :
  agrees (Some idx) d ->
  Zlen (Dict.keys_ d) = dcap d + hb -> Zlen (Dict.hops_ d) = dcap d + hb ->
  0 <= idx < dcap d + hb -> 0 <= b < dcap d + hb -> 1 <= p ->
  v = f k ->
  let hops1 := upd (Dict.hops_ d) idx
                   (hop_word hs (Z.lor (get 0 (Dict.hops_ d) idx) 1)) in
  let hops2 := upd hops1 b (HopscotchBase.or_bit hs (get 0 hops1 b) p) in
  let d' := {| Dict.keys_ := upd (Dict.keys_ d) idx k;
               Dict.values_ := upd (Dict.values_ d) idx v;
               Dict.hops_ := hops2;
               Dict.size_ := u32 (Dict.size_ d + 1);
               Dict.capacity_ := dcap d;
               Dict.destroyed_ := Dict.destroyed_ d |} in
  agrees None d'
  /\ Z.testbit (get 0 (Dict.hops_ d') idx) 0 = true
  /\ get key0 (Dict.keys_ d') idx = k
  /\ get value0 (Dict.values_ d') idx = v.
Proof.
  intros [Hlen Hv] HK HH Hidx Hb Hp Ev hops1 hops2 d'.
  assert (Hlive : forall i, 0 <= i ->
            Z.testbit (get 0 hops2 i) 0
            = (i =? idx) || Z.testbit (get 0 (Dict.hops_ d) i) 0).
  { intros i Hi. subst hops2.
    rewrite live_or_bit by (try lia; subst hops1; rewrite Zlen_upd; lia).
    subst hops1. apply live_or_one; lia. }
  split; [|split; [|split]]; subst d'; dproj.
  - split; dproj; [now rewrite Zlen_upd|].
    intros i Hi Hl _. rewrite Hlive in Hl by lia.
    destruct (Z.eqb_spec i idx) as [-> | Hne].
    + rewrite !get_upd_same by lia. exact Ev.
    + rewrite (get_upd_other value0) by lia.
      rewrite (get_upd_other key0) by lia.
      apply Hv; auto. congruence.
  - rewrite Hlive by lia. now rewrite Z.eqb_refl.
  - apply get_upd_same. lia.
  - apply get_upd_same. lia.
Qed.

Lemma displace_agrees (n : nat) (d : dict) (b idx : Z) (d2 : dict) (idx2 : Z)
      (flag : bool) :
  WF (Some idx) (kp d) -> agrees (Some idx) d ->
  0 <= b < dcap d -> b <= idx ->
  idx - (b + hb - 1) <= Z.of_nat n ->
  Dict.displace key0 value0 moved_from moved_from_value hs n d b idx
  = (d2, idx2, flag) ->
  agrees (Some idx2) d2.
Proof.
  revert d idx. induction n as [|n IH]; intros d idx W Hag Hb Hbi Hn E;
    cbn [Dict.displace] in E.
  - inversion E; subst. exact Hag.
  - pose proof (hop_bucket_range hs) as Hhb.
    pose proof (cap_bounds Key hash key0 hs W) as Hcb. dproj. pows.
    destruct (HopSet.wf_hole W eq_refl) as [Hidx Hlidx]. dproj.
    rewrite (u32_small (b + hb)) in E by lia.
    rewrite (u32_small (b + hb - 1)) in E by lia.
    destruct (Z.gtb_spec idx (b + hb - 1)) as [Hgt | Hle].
    + destruct (HopscotchBase.find_displaceable hs (Dict.hops_ d) idx)
        as [cursor offset] eqn:Ef.
      destruct (find_displaceable_spec hs (Dict.hops_ d) idx ltac:(lia)
                  cursor offset Ef) as [Ho Hfound].
      destruct (Z.geb_spec offset idx) as [Hge | Hlt].
      * inversion E; subst. exact Hag.
      * destruct (Hfound Hlt) as [Hc Hbit].
        destruct (move_ok Key hash key0 moved_from hs (kp d) idx offset cursor W
                    ltac:(lia) ltac:(lia) ltac:(lia) Hlt Hbit) as [W' _].
        destruct (WF_owner Key hash key0 hs W cursor (offset - cursor + 1)
                    ltac:(dproj; lia) ltac:(lia) Hbit) as (_ & Hlo & _).
        replace (cursor + (offset - cursor + 1) - 1) with offset in Hlo by lia.
        pose proof (keys_len Key hash key0 hs W) as HK.
        pose proof (hops_len Key hash key0 hs W) as HH. dproj.
        apply IH in E; auto; dproj; try lia.
        apply agrees_move; auto; try lia.
        -- rewrite u32_diff_succ by lia. lia.
        -- rewrite u32_diff_succ by lia. lia.
    + inversion E; subst. exact Hag.
Qed.

(** *** The recursive calls *)

Variable drec : dict -> Key -> Value -> option (dict * Z).
Variable srec : HopSet.t Key -> Key -> option (HopSet.t Key * bool).
Hypothesis Hsim :
  forall x k v, option_map (fun r => kp (fst r)) (drec x k v)
                = option_map fst (srec (kp x) k).
Hypothesis Hok : HopSet.insert_ok key_eqb hash key0 hs srec.
Hypothesis Hval : Dict.insert_agrees key_eqb hash key0 value0 hs f drec.

Lemma rec_key_part (d : dict) (k : Key) (v : Value) (d1 : dict) (p1 : Z) :
  drec d k v = Some (d1, p1) -> exists b, srec (kp d) k = Some (kp d1, b).
Proof.
  intros E. pose proof (Hsim d k v) as S. rewrite E in S. cbn in S.
  destruct (srec (kp d) k) as [[s1 b]|]; cbn in S; [|discriminate].
  injection S as <-. eauto.
Qed.

Lemma srec_cap : HopSet.cap_grows srec.
Proof. intros a k a' b Ea. exact (proj1 (Hok _ _ _ _ Ea)). Qed.

Lemma expand_loop_agrees (K : list Key) (V : list Value) (H : list Z)
      (n : nat) (iter : Z) (d d' : dict) (len : Z) :
  WF None (kp d) -> agrees None d ->
  (forall i, iter <= i < len -> Z.testbit (get 0 H i) 0 = true ->
             get value0 V i = f (get key0 K i)) ->
  0 <= iter -> iter + Z.of_nat n = len -> len < 2 ^ 32 ->
  Dict.expand_loop key0 value0 drec K V H n iter d = Some d' ->
  dcap d' <> 0 ->
  agrees None d'.
Proof.
  revert iter d. induction n as [|n IH]; intros iter d W Hag Hold Hi Hn Hl E Hc;
    cbn [Dict.expand_loop] in E.
  - inversion E; subst. exact Hag.
  - rewrite (u32_small (iter + 1)) in E by lia.
    destruct (Z.testbit (get 0 H iter) 0) eqn:Hb.
    + destruct (drec d (get key0 K iter) (get value0 V iter)) as [[d1 p1]|] eqn:E1;
        [|discriminate].
      destruct (rec_key_part _ _ _ _ _ E1) as [b1 S1].
      destruct (Hok _ _ _ _ S1) as [_ Hs].
      assert (Hc1 : dcap d1 <> 0).
      { intros Ez. apply Hc. apply cap_rel_zero.
        change (dcap d') with (HopSet.capacity_ (kp d')). rewrite <- Ez.
        change (dcap d1) with (HopSet.capacity_ (kp d1)).
        apply (expand_loop_cap Key key0 srec K H n (iter + 1) (kp d1) (kp d')
                 srec_cap).
        rewrite <- (expand_loop_key_part Key Value key0 value0 drec srec K V H
                      n (iter + 1) d1 Hsim).
        now rewrite E. }
      destruct (Hs W Hc1) as (W1 & _ & _).
      destruct (Hval _ _ _ _ _ E1 W Hc1 Hag) as [Hag1 _].
      { intros _. apply Hold; [lia | exact Hb]. }
      apply (IH (iter + 1) d1); auto; try lia.
      intros i Hir. apply Hold. lia.
    + apply (IH (iter + 1) d); auto; try lia.
      intros i Hir. apply Hold. lia.
Qed.

Lemma expand_with_agrees (d d1 : dict) :
  WF None (kp d) -> agrees None d ->
  Dict.expand_with key0 value0 hs drec d = Some d1 -> dcap d1 <> 0 ->
  agrees None d1 /\ WF None (kp d1)
  /\ (forall k, HopSet.mem key0 hs None (kp d1) k
                <-> HopSet.mem key0 hs None (kp d) k).
Proof.
  intros W Hag E Hc. pose proof (hop_bucket_range hs) as Hhb.
  pose proof (cap_bounds Key hash key0 hs W) as Hcb. dproj. pows.
  assert (ES : HopSet.expand_with key0 hs srec (kp d) = Some (kp d1)).
  { rewrite <- (expand_with_key_part Key Value key0 value0 hs drec srec d Hsim).
    now rewrite E. }
  destruct (expand_with_ok Key key_eqb hash key0 hs srec (kp d) (kp d1)
              Hok W ES Hc) as [W1 Hm1].
  split; [|split; [exact W1 | exact Hm1]].
  unfold Dict.expand_with in E.
  rewrite (u32_small (dcap d + hb)) in E by lia.
  assert (Hc2 : exists j, 0 <= j <= 31 /\ u32 (dcap d * 2) = 2 ^ j).
  { destruct (HopSet.wf_cap W) as (a & Ha & Ea). dproj.
    destruct (cap_rel_pow2 (dcap d) (u32 (dcap d * 2)) a Ha Ea
                (cap_rel_double _)) as (a' & Ha' & Ea').
    - intros Ez. apply Hc. apply cap_rel_zero.
      change (dcap d1) with (HopSet.capacity_ (kp d1)).
      unfold HopSet.expand_with in ES.
      apply (expand_loop_cap Key key0 srec) in ES; [|exact srec_cap]. dproj.
      rewrite Ez in ES. exact ES.
    - exists a'. split; [lia | exact Ea']. }
  destruct (WF_fresh Key hash key0 hs (u32 (dcap d * 2)) (Dict.destroyed_ d) Hc2)
    as [W0 _].
  assert (Hcb2 : 1 <= u32 (dcap d * 2) <= 2 ^ 31)
    by exact (cap_bounds Key hash key0 hs W0).
  match type of E with
  | Dict.expand_loop _ _ _ _ _ _ _ _ ?x = _ => set (d0 := x) in *
  end.
  assert (W0' : WF None (kp d0)) by exact W0.
  refine (expand_loop_agrees (Dict.keys_ d) (Dict.values_ d) (Dict.hops_ d)
            (Z.to_nat (dcap d + hb)) 0 d0 d1 (dcap d + hb) W0' _ _
            ltac:(lia) ltac:(lia) ltac:(lia) E Hc).
  - split; subst d0; dproj.
    + rewrite u32_small by lia. apply Zlen_calloc. lia.
    + intros i _ Hl _. rewrite get_calloc in Hl.
      rewrite Z.testbit_0_l in Hl. discriminate.
  - destruct Hag as [_ Hv]. intros i Hi Hl. apply Hv; auto. discriminate.
Qed.

Lemma grow_retry_agrees (d d' : dict) (k : Key) (v : Value) (pos : Z) :
  WF None (kp d) -> agrees None d -> v = f k ->
  match Dict.expand_with key0 value0 hs drec d with
  | None => None
  | Some d1 => drec d1 k v
  end = Some (d', pos) ->
  dcap d' <> 0 ->
  agrees None d' /\ pos = Dict.find_index key_eqb hash key0 hs d' k.
Proof.
  intros W Hag Ev E Hc.
  destruct (Dict.expand_with key0 value0 hs drec d) as [d1|] eqn:E1;
    [|discriminate].
  destruct (rec_key_part _ _ _ _ _ E) as [b S].
  assert (Hc1 : dcap d1 <> 0).
  { intros Ez. apply Hc. apply cap_rel_zero.
    change (dcap d') with (HopSet.capacity_ (kp d')). rewrite <- Ez.
    exact (srec_cap _ _ _ _ S). }
  destruct (expand_with_agrees d d1 W Hag E1 Hc1) as (Hag1 & W1 & _).
  apply (Hval _ _ _ _ _ E W1 Hc Hag1). intros _. exact Ev.
Qed.

Lemma insert_body_agrees :
  Dict.insert_agrees key_eqb hash key0 value0 hs f
    (Dict.insert_body key_eqb hash key0 value0 moved_from moved_from_value hs
                      drec).
Proof.
  intros d k v d' pos E W Hc Hag Hv.
  pose proof (hop_bucket_range hs) as Hhb.
  pose proof (probe_max_range hs) as Hpm.
  pose proof (cap_bounds Key hash key0 hs W) as Hcb.
  pose proof (bucket_range Key hash key0 hs k W) as Hbr.
  pose proof (end_index_eq Key hash key0 hs W) as Hend.
  pose proof (hops_len Key hash key0 hs W) as HL.
  pose proof (keys_len Key hash key0 hs W) as HK.
  change (HopSet.get_bucket_index hash (kp d) k)
    with (Dict.get_bucket_index hash d k) in Hbr.
  change (HopSet.end_index hs (kp d)) with (Dict.end_index hs d) in Hend.
  dproj. pows.
  unfold Dict.insert_body in E.
  change (negb (Dict.find_internal key_eqb key0 hs d
                  (Dict.get_bucket_index hash d k) k
                =? Dict.end_index hs d))
    with (Dict.has key_eqb hash key0 hs d k) in E.
  destruct (Dict.has key_eqb hash key0 hs d k) eqn:Hhas.
  { inversion E; subst d' pos. split; [exact Hag|].
    exact (dict_find_index Key Value key_eqb hash key0 hs key_eqb_spec d k W). }
  specialize (Hv eq_refl).
  assert (Hnew : ~ HopSet.mem key0 hs None (kp d) k)
    by now apply (has_false_iff Key key_eqb hash key0 hs key_eqb_spec k W).
  set (b0 := Dict.get_bucket_index hash d k) in *.
  rewrite (u32_small (b0 + probe_max hs)) in E by lia. rewrite Hend in E.
  set (pe := if b0 + probe_max hs >? dcap d + hb then dcap d + hb
             else b0 + probe_max hs) in *.
  assert (Hpe : b0 <= pe <= dcap d + hb).
  { subst pe. destruct (Z.gtb_spec (b0 + probe_max hs) (dcap d + hb)); lia. }
  destruct (probe_loop_spec (Z.to_nat (pe - b0)) (Dict.hops_ d) pe b0
              ltac:(lia) ltac:(lia) ltac:(lia)) as [Hidx Hfree].
  set (idx := HopscotchBase.probe_loop _ (Dict.hops_ d) pe b0) in *.
  destruct (Z.eqb_spec idx pe) as [Heq | Hne].
  { exact (grow_retry_agrees d d' k v pos W Hag Hv E Hc). }
  destruct (reserve_ok Key hash key0 hs (kp d) idx W ltac:(dproj; lia)
              (Hfree ltac:(lia))) as [W1 Hm1].
  pose proof (agrees_reserve d idx Hag ltac:(lia)) as Hag1.
  set (d1 := Dict.set_hops d
               (upd (Dict.hops_ d) idx
                    (hop_word hs (Z.lor (get 0 (Dict.hops_ d) idx) 1)))) in *.
  change (HopSet.set_hops (kp d)
            (upd (HopSet.hops_ (kp d)) idx
                 (hop_word hs (Z.lor (get 0 (HopSet.hops_ (kp d)) idx) 1))))
    with (kp d1) in W1, Hm1.
  destruct (Dict.displace key0 value0 moved_from moved_from_value hs
              (Z.to_nat idx) d1 b0 idx) as [[d2 idx2] flag] eqn:Ed.
  pose proof (displace_key_part Key Value key0 value0 moved_from
                moved_from_value hs (Z.to_nat idx) d1 b0 idx) as Eds.
  rewrite Ed in Eds. cbn [fst snd] in Eds.
  assert (Hb1 : 0 <= b0 < dcap d1) by (change (0 <= b0 < dcap d); lia).
  destruct (displace_ok Key hash key0 moved_from hs (Z.to_nat idx) (kp d1) b0 idx
              (kp d2) idx2 flag W1 Hb1 ltac:(lia) ltac:(lia) Eds)
    as (W2 & Ec2 & Hb2 & Hm2 & Hf2).
  pose proof (displace_agrees (Z.to_nat idx) d1 b0 idx d2 idx2 flag W1 Hag1
                Hb1 ltac:(lia) ltac:(lia) Ed) as Hag2.
  assert (Ecap2 : dcap d2 = dcap d) by exact Ec2.
  destruct (HopSet.wf_hole W2 eq_refl) as [Hidx2 Hlidx2]. dproj.
  pose proof (hops_len Key hash key0 hs W2) as HL2.
  pose proof (keys_len Key hash key0 hs W2) as HK2. dproj.
  assert (Hnew2 : ~ HopSet.mem key0 hs (Some idx2) (kp d2) k)
    by (rewrite Hm2, Hm1; exact Hnew).
  destruct flag.
  - specialize (Hf2 eq_refl).
    assert (Eb : HopSet.get_bucket_index hash (kp d2) k = b0)
      by exact (bucket_cap Key hash (kp d) (kp d2) k Ecap2).
    destruct (place_ok Key hash key0 hs (kp d2) idx2 b0 k W2 Eb Hb2 Hf2 Hnew2)
      as [W' _].
    destruct (agrees_place d2 idx2 b0 (u32 (u32 (idx2 - b0) + 1)) k v Hag2
                HK2 HL2 ltac:(lia) ltac:(lia)
                ltac:(rewrite u32_diff_succ by lia; lia) Hv)
      as (Hag' & Hlive' & Hkey' & _).
    inversion E; subst d' pos. clear E. split; [exact Hag'|].
    match goal with
    | |- Dict.make_iterator hs ?x idx2 = _ => set (d' := x) in *
    end.
    change (WF None (kp d')) in W'.
    assert (Hend' : HopscotchBase.end_index hs (dcap d') = dcap d + hb).
    { change (dcap d') with (dcap d2). rewrite Ecap2.
      unfold HopscotchBase.end_index. apply u32_small. lia. }
    unfold Dict.make_iterator.
    rewrite (next_live hs (Dict.hops_ d') (dcap d') idx2)
      by (try exact Hlive'; rewrite Hend'; lia).
    rewrite (next_live hs (Dict.hops_ d') (dcap d') idx2)
      by (try exact Hlive'; rewrite Hend'; lia).
    pose proof (find_internal_live Key key_eqb hash key0 hs key_eqb_spec
                  (s := kp d') (i := idx2) W') as Hfl.
    unfold HopSet.key_at in Hfl. dproj.
    change (get key0 (Dict.keys_ d') idx2) with (get key0 (HopSet.keys_ (kp d')) idx2)
      in Hkey'.
    symmetry. unfold Dict.find_index.
    change (Dict.find_internal key_eqb key0 hs d')
      with (HopSet.find_internal key_eqb key0 hs (kp d')).
    change (Dict.get_bucket_index hash d' k)
      with (HopSet.get_bucket_index hash (kp d') k).
    rewrite <- Hkey' at 1 2.
    apply Hfl; [change (dcap d') with (dcap d2) | exact Hlive' | discriminate].
    lia.
  - destruct (unreserve_ok Key hash key0 hs (kp d2) idx2 W2) as [W3 Hm3].
    pose proof (agrees_unreserve d2 idx2 Hag2 ltac:(lia) Hlidx2) as Hag3.
    exact (grow_retry_agrees
             (Dict.set_hops d2
                (upd (Dict.hops_ d2) idx2
                     (hop_word hs (Z.lxor (get 0 (Dict.hops_ d2) idx2) 1))))
             d' k v pos W3 Hag3 Hv E Hc).
Qed.

End DictValues.

(** ** Dict as a map from keys to values *)

Section DictMap.
Variable Key : Type.
Variable Value : Type.
Variable key_eqb : Key -> Key -> bool.
Variable hash : Key -> Z.
Variable key0 : Key.
Variable value0 : Value.
Variable moved_from : Key -> Key.
Variable moved_from_value : Value -> Value.
Variable hs : hop_size.
Hypothesis key_eqb_spec : forall a b, key_eqb a b = true <-> a = b.

Local Abbreviation dict := (Dict.t Key Value).
Local Abbreviation hb := (hop_bucket hs).
Local Abbreviation kp := (@Dict.key_part Key Value).
Local Abbreviation WF := (HopSet.WF hash key0 hs).
Local Abbreviation agrees := (Dict.agrees key0 value0 hs).
Local Abbreviation dcap := (@Dict.capacity_ Key Value).
Local Abbreviation has := (Dict.has key_eqb hash key0 hs).
Local Abbreviation lookup := (Dict.lookup key_eqb hash key0 value0 hs).
Local Abbreviation dinsert :=
  (Dict.insert key_eqb hash key0 value0 moved_from moved_from_value hs).
Local Abbreviation derase := (Dict.erase key_eqb hash key0 hs).

Ltac dproj :=
  cbn [Dict.keys_ Dict.values_ Dict.hops_ Dict.size_ Dict.capacity_
       Dict.destroyed_ HopSet.keys_ HopSet.hops_ HopSet.size_
       HopSet.capacity_ HopSet.destroyed_ Dict.key_part] in *.

Lemma insert_values (f : Key -> Value) (fuel : nat) :
  Dict.insert_agrees key_eqb hash key0 value0 hs f (dinsert fuel).
Proof.
  induction fuel as [|fuel IH].
  - intros d k v d' pos E. discriminate.
  - exact (insert_body_agrees Key Value key_eqb hash key0 value0 moved_from
             moved_from_value hs key_eqb_spec f (dinsert fuel)
             (HopSet.insert key_eqb hash key0 moved_from hs fuel)
             (insert_key_part Key Value key_eqb hash key0 value0 moved_from
                              moved_from_value hs fuel)
             (insert_spec Key key_eqb hash key0 moved_from hs key_eqb_spec fuel)
             IH).
Qed.

Lemma lookup_has (d : dict) (x : Key) :
  lookup d x
  = if has d x
    then Some (get value0 (Dict.values_ d)
                   (Dict.find_index key_eqb hash key0 hs d x))
    else None.
Proof. reflexivity. Qed.

Lemma lookup_agrees (f : Key -> Value) (d : dict) (x : Key) :
  WF None (kp d) -> agrees f None d ->
  lookup d x = if has d x then Some (f x) else None.
Proof.
  intros W [_ Hv]. rewrite lookup_has.
  destruct (has d x) eqn:Hh; [|reflexivity].
  assert (Hne : HopSet.find_internal key_eqb key0 hs (kp d)
                  (HopSet.get_bucket_index hash (kp d) x) x
                <> HopSet.end_index hs (kp d)).
  { unfold Dict.has in Hh. apply negb_true_iff, Z.eqb_neq in Hh. exact Hh. }
  destruct (find_internal_found Key key_eqb hash key0 hs key_eqb_spec x W Hne)
    as (Hi & Hl & _ & Hk).
  unfold HopSet.key_at, HopSet.live in *. dproj.
  change (HopSet.find_internal key_eqb key0 hs (kp d)
            (HopSet.get_bucket_index hash (kp d) x) x)
    with (Dict.find_index key_eqb hash key0 hs d x) in *.
  f_equal. rewrite Hv; auto; [|discriminate]. now rewrite Hk.
Qed.

(** The values of a table as a function of the keys, [g] elsewhere. *)
Lemma agrees_lookup (g : Key -> Value) (d : dict) :
  WF None (kp d) -> Zlen (Dict.values_ d) = dcap d + hb ->
  agrees (fun x => match lookup d x with Some w => w | None => g x end) None d.
Proof.
  intros W Hlen. split; [exact Hlen|]. intros i Hi Hl _.
  pose proof (find_internal_live Key key_eqb hash key0 hs key_eqb_spec
                (s := kp d) (i := i) W Hi Hl ltac:(discriminate)) as Hf.
  unfold HopSet.key_at in Hf. dproj.
  set (x := get key0 (Dict.keys_ d) i) in *.
  rewrite lookup_has.
  assert (Hh : has d x = true).
  { unfold Dict.has. apply negb_true_iff, Z.eqb_neq.
    change (Dict.find_internal key_eqb key0 hs d (Dict.get_bucket_index hash d x) x)
      with (HopSet.find_internal key_eqb key0 hs (kp d)
              (HopSet.get_bucket_index hash (kp d) x) x).
    rewrite Hf.
    change (Dict.end_index hs d) with (HopSet.end_index hs (kp d)).
    rewrite (end_index_eq Key hash key0 hs W). dproj. lia. }
  rewrite Hh. unfold Dict.find_index.
  change (Dict.find_internal key_eqb key0 hs d (Dict.get_bucket_index hash d x) x)
    with (HopSet.find_internal key_eqb key0 hs (kp d)
            (HopSet.get_bucket_index hash (kp d) x) x).
  now rewrite Hf.
Qed.

Lemma insert_set (fuel : nat) (d : dict) (k : Key) (v : Value) (d' : dict)
      (pos : Z) :
  dinsert fuel d k v = Some (d', pos) ->
  exists b, HopSet.insert key_eqb hash key0 moved_from hs fuel (kp d) k
            = Some (kp d', b).
Proof.
  intros E.
  pose proof (insert_key_part Key Value key_eqb hash key0 value0 moved_from
                moved_from_value hs fuel d k v) as S.
  rewrite E in S. cbn in S.
  destruct (HopSet.insert key_eqb hash key0 moved_from hs fuel (kp d) k)
    as [[s1 b]|]; cbn in S; [|discriminate].
  injection S as <-. eauto.
Qed.

Lemma insert_lookup (fuel : nat) (d : dict) (k : Key) (v : Value) (d' : dict)
      (pos : Z) :
  WF None (kp d) -> Zlen (Dict.values_ d) = dcap d + hb ->
  dinsert fuel d k v = Some (d', pos) -> dcap d' <> 0 ->
  WF None (kp d') /\ Zlen (Dict.values_ d') = dcap d' + hb
  /\ pos = Dict.find_index key_eqb hash key0 hs d' k
  /\ has d' k = true
  /\ Dict.size d' = Dict.size d + (if has d k then 0 else 1)
  /\ (forall x, lookup d' x
                = if key_eqb x k
                  then match lookup d k with
                       | Some w => Some w
                       | None => Some v
                       end
                  else lookup d x).
Proof.
  intros W Hlen E Hc.
  destruct (insert_set fuel d k v d' pos E) as [b S].
  destruct (has_insert Key key_eqb hash key0 moved_from hs key_eqb_spec
              fuel (kp d) (kp d') k b W S Hc) as (W' & Hh & Hb).
  pose proof (size_insert Key key_eqb hash key0 moved_from hs key_eqb_spec
                fuel (kp d) (kp d') k b W S Hc) as Hsz.
  set (f := fun x => match lookup d x with Some w => w | None => v end).
  pose proof (agrees_lookup (fun _ => v) d W Hlen) as Hag. fold f in Hag.
  destruct (insert_values f fuel d k v d' pos E W Hc Hag) as [Hag' Hpos].
  { intros Hk. unfold f. rewrite lookup_has.
    change (Dict.has key_eqb hash key0 hs d k) with (has d k). now rewrite Hk. }
  change (HopSet.has key_eqb hash key0 hs (kp d')) with (has d') in Hh.
  change (HopSet.has key_eqb hash key0 hs (kp d)) with (has d) in Hh, Hb.
  split; [exact W'|]. split; [exact (proj1 Hag')|]. split; [exact Hpos|].
  split; [rewrite Hh, (key_eqb_refl Key key_eqb key_eqb_spec); apply orb_true_r|].
  split.
  { change (Dict.size d') with (HopSet.size (kp d')).
    change (Dict.size d) with (HopSet.size (kp d)).
    rewrite Hsz, Hb. now destruct (has d k). }
  intros x. rewrite (lookup_agrees f d' x W' Hag'), Hh.
  destruct (key_eqb x k) eqn:Exk.
  - apply key_eqb_spec in Exk. subst x. rewrite orb_true_r. unfold f.
    now destruct (lookup d k).
  - rewrite orb_false_r. rewrite (lookup_has d x). unfold f.
    rewrite (lookup_has d x). now destruct (has d x).
Qed.

Lemma erase_lookup (d : dict) (k : Key) :
  WF None (kp d) -> Zlen (Dict.values_ d) = dcap d + hb ->
  WF None (kp (fst (derase d k)))
  /\ Zlen (Dict.values_ (fst (derase d k))) = dcap (fst (derase d k)) + hb
  /\ dcap (fst (derase d k)) = dcap d
  /\ snd (derase d k) = has d k
  /\ Dict.size_ (fst (derase d k))
     = (if has d k then u32 (Dict.size_ d - 1) else Dict.size_ d)
  /\ (forall x, lookup (fst (derase d k)) x
                = if key_eqb x k then None else lookup d x).
Proof.
  intros W Hlen.
  destruct (erase_key_part Key Value key_eqb hash key0 hs d k) as [Ep Es].
  destruct (remove_spec Key key_eqb hash key0 moved_from hs key_eqb_spec
              (kp d) k W) as (W' & _ & Hs & Hcap & Hkeys & Hlive).
  pose proof (has_remove Key key_eqb hash key0 moved_from hs key_eqb_spec
                (kp d) k W) as Hh.
  rewrite <- Ep in W', Hcap, Hkeys, Hlive, Hh. rewrite <- Es in Hs.
  change (HopSet.has key_eqb hash key0 hs (kp d)) with (has d) in Hs, Hh.
  change (HopSet.has key_eqb hash key0 hs (kp (fst (derase d k))))
    with (has (fst (derase d k))) in Hh.
  dproj.
  assert (Hvals : Dict.values_ (fst (derase d k)) = Dict.values_ d).
  { unfold Dict.erase. destruct (negb _); reflexivity. }
  set (f := fun x => match lookup d x with Some w => w | None => value0 end).
  pose proof (agrees_lookup (fun _ => value0) d W Hlen) as Hag. fold f in Hag.
  assert (Hag' : agrees f None (fst (derase d k))).
  { destruct Hag as [_ Hv]. split.
    - rewrite Hvals, Hcap. exact Hlen.
    - intros i Hi Hl _. rewrite Hcap in Hi.
      unfold HopSet.live in Hlive. dproj.
      rewrite (Hlive i Hi) in Hl. apply andb_true_iff in Hl as [Hl _].
      rewrite Hvals, Hkeys. apply Hv; auto. discriminate. }
  split; [exact W'|]. split; [exact (proj1 Hag')|]. split; [exact Hcap|].
  split; [exact Hs|]. split.
  { unfold Dict.erase.
    change (negb (Dict.find_internal key_eqb key0 hs d
                    (Dict.get_bucket_index hash d k) k =? Dict.end_index hs d))
      with (has d k).
    destruct (has d k); reflexivity. }
  intros x. rewrite (lookup_agrees f _ x W' Hag'), Hh.
  destruct (key_eqb x k); cbn [negb].
  - now rewrite andb_false_r.
  - rewrite andb_true_r. rewrite (lookup_has d x). unfold f.
    rewrite (lookup_has d x). now destruct (has d x).
Qed.

Lemma dict_run_cap (fuel : nat) (d d' : dict) (ops : list (Dict.op Key Value)) :
  Dict.run key_eqb hash key0 value0 moved_from moved_from_value hs fuel d ops
  = Some d' ->
  HopSet.cap_rel (dcap d) (dcap d').
Proof.
  intros E.
  pose proof (run_key_part Key Value key_eqb hash key0 value0 moved_from
                moved_from_value hs fuel d ops) as S.
  rewrite E in S. cbn in S. symmetry in S.
  exact (run_cap Key key_eqb hash key0 moved_from hs fuel _ _ _ S).
Qed.

Lemma run_lookup (fuel : nat) (ops : list (Dict.op Key Value)) (d d' : dict) :
  WF None (kp d) -> Zlen (Dict.values_ d) = dcap d + hb ->
  Dict.run key_eqb hash key0 value0 moved_from moved_from_value hs fuel d ops
  = Some d' ->
  dcap d' <> 0 ->
  WF None (kp d') /\ Zlen (Dict.values_ d') = dcap d' + hb
  /\ (forall x, lookup d' x = Dict.expected_value key_eqb (lookup d x) ops x).
Proof.
  revert d. induction ops as [|[k v | k] ops IH]; intros d W Hlen E Hc;
    cbn [Dict.run] in E.
  - inversion E; subst d'. auto.
  - destruct (dinsert fuel d k v) as [[d1 p1]|] eqn:E1; [|discriminate].
    assert (Hc1 : dcap d1 <> 0).
    { intros Ez. apply Hc. apply cap_rel_zero. rewrite <- Ez.
      exact (dict_run_cap fuel d1 d' ops E). }
    destruct (insert_lookup fuel d k v d1 p1 W Hlen E1 Hc1)
      as (W1 & Hlen1 & _ & _ & _ & Hl1).
    destruct (IH d1 W1 Hlen1 E Hc) as (W' & Hlen' & Hl').
    split; [exact W'|]. split; [exact Hlen'|].
    intros x. rewrite Hl', Hl1. cbn [Dict.expected_value].
    rewrite (key_eqb_sym Key key_eqb key_eqb_spec k x).
    destruct (key_eqb x k) eqn:Exk; [|reflexivity].
    apply key_eqb_spec in Exk. subst x. now destruct (lookup d k).
  - destruct (erase_lookup d k W Hlen) as (W1 & Hlen1 & _ & _ & _ & Hl1).
    destruct (IH _ W1 Hlen1 E Hc) as (W' & Hlen' & Hl').
    split; [exact W'|]. split; [exact Hlen'|].
    intros x. rewrite Hl', Hl1. cbn [Dict.expected_value].
    now rewrite (key_eqb_sym Key key_eqb key_eqb_spec k x).
Qed.

Lemma wf_values_spec (d : dict) :
  Dict.wf_values key_eqb hash key0 hs d = true
  <-> WF None (kp d) /\ Zlen (Dict.values_ d) = dcap d + hb.
Proof.
  unfold Dict.wf_values, Dict.wf. rewrite andb_true_iff, Z.eqb_eq.
  now rewrite (wf_iff_WF Key key_eqb hash key0 hs key_eqb_spec).
Qed.

End DictMap.

(** ** Dict: the properties *)

Lemma get_lookup {Key Value : Type} (key_eqb : Key -> Key -> bool)
      (hash : Key -> Z) (key0 : Key) (value0 : Value) (hs : hop_size)
      (d : Dict.t Key Value) (k : Key) (dflt : Value) :
  Dict.get_ key_eqb hash key0 value0 hs d k dflt
  = match Dict.lookup key_eqb hash key0 value0 hs d k with
    | Some w => w
    | None => dflt
    end.
Proof. unfold Dict.get_, Dict.lookup. now destruct (negb _). Qed.

Lemma deref_found {Key Value : Type} (key_eqb : Key -> Key -> bool)
      (hash : Key -> Z) (key0 : Key) (value0 : Value) (hs : hop_size)
      (key_eqb_spec : forall a b, key_eqb a b = true <-> a = b)
      (d : Dict.t Key Value) (k : Key) (w : Value) :
  HopSet.WF hash key0 hs None (Dict.key_part d) ->
  Dict.lookup key_eqb hash key0 value0 hs d k = Some w ->
  Dict.deref key0 value0 d (Dict.find_index key_eqb hash key0 hs d k) = (k, w).
Proof.
  intros W Hl. rewrite (lookup_has Key Value key_eqb hash key0 value0 hs) in Hl.
  destruct (Dict.has key_eqb hash key0 hs d k) eqn:Hh; [|discriminate].
  injection Hl as Hl. unfold Dict.deref. rewrite Hl. f_equal.
  assert (Hne : HopSet.find_internal key_eqb key0 hs (Dict.key_part d)
                  (HopSet.get_bucket_index hash (Dict.key_part d) k) k
                <> HopSet.end_index hs (Dict.key_part d)).
  { unfold Dict.has in Hh. apply negb_true_iff, Z.eqb_neq in Hh. exact Hh. }
  destruct (find_internal_found Key key_eqb hash key0 hs key_eqb_spec k W Hne)
    as (_ & _ & _ & Hk).
  exact Hk.
Qed.

Lemma insert_deref
  (Key Value : Type) (key_eqb : Key -> Key -> bool) (hash : Key -> Z)
  (key0 : Key) (value0 : Value) (moved_from : Key -> Key)
  (moved_from_value : Value -> Value) (hs : hop_size)
  (key_eqb_spec : forall a b, key_eqb a b = true <-> a = b)
  (fuel : nat) (d d' : Dict.t Key Value) (k : Key) (v : Value) (pos : Z)
  (k' : Key) :
  Dict.wf_values key_eqb hash key0 hs d = true ->
  Dict.insert key_eqb hash key0 value0 moved_from moved_from_value hs fuel d k v
  = Some (d', pos) ->
  Dict.capacity_ d' <> 0 ->
  Dict.wf_values key_eqb hash key0 hs d' = true
  /\ pos = Dict.find_index key_eqb hash key0 hs d' k
  /\ Dict.deref key0 value0 d' pos
     = (k, match Dict.lookup key_eqb hash key0 value0 hs d k with
           | Some w => w
           | None => v
           end)
  /\ Dict.lookup key_eqb hash key0 value0 hs d' k'
     = (if key_eqb k' k
        then match Dict.lookup key_eqb hash key0 value0 hs d k with
             | Some w => Some w
             | None => Some v
             end
        else Dict.lookup key_eqb hash key0 value0 hs d k')
  /\ Dict.size d'
     = Dict.size d + (if Dict.has key_eqb hash key0 hs d k then 0 else 1).
Proof.
  intros Hw E Hc.
  apply (wf_values_spec Key Value key_eqb hash key0 hs key_eqb_spec) in Hw.
  destruct Hw as [W Hlen].
  destruct (insert_lookup Key Value key_eqb hash key0 value0 moved_from
              moved_from_value hs key_eqb_spec fuel d k v d' pos W Hlen E Hc)
    as (W' & Hlen' & Hpos & Hh & Hsz & Hl).
  split; [now apply (wf_values_spec Key Value key_eqb hash key0 hs key_eqb_spec)|].
  split; [exact Hpos|]. split; [|split; [apply Hl | exact Hsz]].
  rewrite Hpos. apply (deref_found key_eqb hash key0 value0 hs key_eqb_spec d' k _ W').
  rewrite Hl, (key_eqb_refl Key key_eqb key_eqb_spec).
  now destruct (Dict.lookup key_eqb hash key0 value0 hs d k).
Qed.


(** [insert(key, value)] on a well-formed Dict, when it returns (with a
    capacity that did not wrap to 0), returns the position of the key; a key
    that was absent is stored with [value], a key that was present keeps the
    value it had, the value found with every other key is unchanged, and
    [size()] grows by one exactly when the key was absent. *)
Theorem dict_insert_lookup
  (Key Value : Type) (key_eqb : Key -> Key -> bool) (hash : Key -> Z)
  (key0 : Key) (value0 : Value) (moved_from : Key -> Key)
  (moved_from_value : Value -> Value) (hs : hop_size)
  (key_eqb_spec : forall a b, key_eqb a b = true <-> a = b)
  (fuel : nat) (d d' : Dict.t Key Value) (k : Key) (v : Value) (pos : Z)
  (k' : Key) :
  Dict.wf_values key_eqb hash key0 hs d = true ->
  Dict.insert key_eqb hash key0 value0 moved_from moved_from_value hs fuel d k v
  = Some (d', pos) ->
  Dict.capacity_ d' <> 0 ->
  Dict.wf_values key_eqb hash key0 hs d' = true
  /\ pos = Dict.find_index key_eqb hash key0 hs d' k
  /\ Dict.deref key0 value0 d' pos
     = (k, match Dict.lookup key_eqb hash key0 value0 hs d k with
           | Some w => w
           | None => v
           end)
  /\ Dict.lookup key_eqb hash key0 value0 hs d' k'
     = (if key_eqb k' k
        then match Dict.lookup key_eqb hash key0 value0 hs d k with
             | Some w => Some w
             | None => Some v
             end
        else Dict.lookup key_eqb hash key0 value0 hs d k')
  /\ Dict.size d'
     = Dict.size d + (if Dict.has key_eqb hash key0 hs d k then 0 else 1).
Proof.
  exact (insert_deref Key Value key_eqb hash key0 value0 moved_from
           moved_from_value hs key_eqb_spec fuel d d' k v pos k').
Qed.

Lemma dict_insert_lookup_witness :
  Dict.wf_values Z.eqb Examples.hash_id 0 Hop8 Examples.dict_9_17 = true
  /\ 2 = Dict.find_index Z.eqb Examples.hash_id 0 Hop8 Examples.dict_9_17 17
  /\ Dict.deref 0 0 Examples.dict_9_17 2
     = (17, match Dict.lookup Z.eqb Examples.hash_id 0 0 Hop8 Examples.dict_9 17 with
            | Some w => w
            | None => 117
            end)
  /\ Dict.lookup Z.eqb Examples.hash_id 0 0 Hop8 Examples.dict_9_17 9
     = (if 9 =? 17
        then match Dict.lookup Z.eqb Examples.hash_id 0 0 Hop8 Examples.dict_9 17 with
             | Some w => Some w
             | None => Some 117
             end
        else Dict.lookup Z.eqb Examples.hash_id 0 0 Hop8 Examples.dict_9 9)
  /\ Dict.size Examples.dict_9_17
     = Dict.size Examples.dict_9
       + (if Dict.has Z.eqb Examples.hash_id 0 Hop8 Examples.dict_9 17
          then 0 else 1).
Proof.
  apply (dict_insert_lookup Z Z Z.eqb Examples.hash_id 0 0 Examples.moved
           Examples.moved Hop8 Z.eqb_eq 1%nat Examples.dict_9
           Examples.dict_9_17 17 117 2 9).
  - vm_compute. reflexivity.
  - vm_compute. reflexivity.
  - vm_compute. lia.
Defined.

(** [erase(key)] on a well-formed Dict returns whether the key was present;
    afterwards the key is not found, [get] returns its default for it, and
    the value found with every other key is unchanged. *)
Theorem dict_erase_lookup
  (Key Value : Type) (key_eqb : Key -> Key -> bool) (hash : Key -> Z)
  (key0 : Key) (value0 : Value) (hs : hop_size)
  (key_eqb_spec : forall a b, key_eqb a b = true <-> a = b)
  (d : Dict.t Key Value) (k k' : Key) (dflt : Value) :
  Dict.wf_values key_eqb hash key0 hs d = true ->
  Dict.wf_values key_eqb hash key0 hs (fst (Dict.erase key_eqb hash key0 hs d k))
  = true
  /\ snd (Dict.erase key_eqb hash key0 hs d k) = Dict.has key_eqb hash key0 hs d k
  /\ Dict.lookup key_eqb hash key0 value0 hs
       (fst (Dict.erase key_eqb hash key0 hs d k)) k'
     = (if key_eqb k' k then None
        else Dict.lookup key_eqb hash key0 value0 hs d k')
  /\ Dict.get_ key_eqb hash key0 value0 hs
       (fst (Dict.erase key_eqb hash key0 hs d k)) k dflt = dflt
  /\ Dict.capacity (fst (Dict.erase key_eqb hash key0 hs d k)) = Dict.capacity d.
Proof.
  intros Hw.
  apply (wf_values_spec Key Value key_eqb hash key0 hs key_eqb_spec) in Hw.
  destruct Hw as [W Hlen].
  destruct (erase_lookup Key Value key_eqb hash key0 value0 (fun x => x) hs
              key_eqb_spec d k W Hlen) as (W' & Hlen' & Hcap & Hs & _ & Hl).
  split; [now apply (wf_values_spec Key Value key_eqb hash key0 hs key_eqb_spec)|].
  split; [exact Hs|]. split; [apply Hl|]. split; [|exact Hcap].
  rewrite get_lookup, Hl, (key_eqb_refl Key key_eqb key_eqb_spec). reflexivity.
Qed.

Lemma dict_erase_lookup_witness :
  Dict.wf_values Z.eqb Examples.hash_id 0 Hop8
    (fst (Dict.erase Z.eqb Examples.hash_id 0 Hop8 Examples.dict_9_17 9)) = true
  /\ snd (Dict.erase Z.eqb Examples.hash_id 0 Hop8 Examples.dict_9_17 9)
     = Dict.has Z.eqb Examples.hash_id 0 Hop8 Examples.dict_9_17 9
  /\ Dict.lookup Z.eqb Examples.hash_id 0 0 Hop8
       (fst (Dict.erase Z.eqb Examples.hash_id 0 Hop8 Examples.dict_9_17 9)) 17
     = (if 17 =? 9 then None
        else Dict.lookup Z.eqb Examples.hash_id 0 0 Hop8 Examples.dict_9_17 17)
  /\ Dict.get_ Z.eqb Examples.hash_id 0 0 Hop8
       (fst (Dict.erase Z.eqb Examples.hash_id 0 Hop8 Examples.dict_9_17 9)) 9 55
     = 55
  /\ Dict.capacity (fst (Dict.erase Z.eqb Examples.hash_id 0 Hop8
                                    Examples.dict_9_17 9))
     = Dict.capacity Examples.dict_9_17.
Proof.
  apply (dict_erase_lookup Z Z Z.eqb Examples.hash_id 0 0 Hop8 Z.eqb_eq
           Examples.dict_9_17 9 17 55).
  vm_compute. reflexivity.
Defined.

(** A Dict behaves as a map under any sequence of inserts and erases that
    returns: what [get] finds for a key afterwards is the value of the first
    insert of that key since its last erase (or the value it had before, if
    it was present and not erased), and the default when the key was erased
    last or never inserted. *)
Theorem dict_run_lookup
  (Key Value : Type) (key_eqb : Key -> Key -> bool) (hash : Key -> Z)
  (key0 : Key) (value0 : Value) (moved_from : Key -> Key)
  (moved_from_value : Value -> Value) (hs : hop_size)
  (key_eqb_spec : forall a b, key_eqb a b = true <-> a = b)
  (fuel : nat) (d d' : Dict.t Key Value) (ops : list (Dict.op Key Value))
  (k : Key) (dflt : Value) :
  Dict.wf_values key_eqb hash key0 hs d = true ->
  Dict.run key_eqb hash key0 value0 moved_from moved_from_value hs fuel d ops
  = Some d' ->
  Dict.capacity_ d' <> 0 ->
  Dict.wf_values key_eqb hash key0 hs d' = true
  /\ Dict.lookup key_eqb hash key0 value0 hs d' k
     = Dict.expected_value key_eqb
         (Dict.lookup key_eqb hash key0 value0 hs d k) ops k
  /\ Dict.get_ key_eqb hash key0 value0 hs d' k dflt
     = match Dict.expected_value key_eqb
               (Dict.lookup key_eqb hash key0 value0 hs d k) ops k with
       | Some w => w
       | None => dflt
       end.
Proof.
  intros Hw E Hc.
  apply (wf_values_spec Key Value key_eqb hash key0 hs key_eqb_spec) in Hw.
  destruct Hw as [W Hlen].
  destruct (run_lookup Key Value key_eqb hash key0 value0 moved_from
              moved_from_value hs key_eqb_spec fuel ops d d' W Hlen E Hc)
    as (W' & Hlen' & Hl).
  split; [now apply (wf_values_spec Key Value key_eqb hash key0 hs key_eqb_spec)|].
  split; [apply Hl|]. now rewrite get_lookup, Hl.
Qed.

Lemma dict_run_lookup_witness :
  Dict.wf_values Z.eqb Examples.hash_id 0 Hop8 Examples.dict1 = true
  /\ Dict.lookup Z.eqb Examples.hash_id 0 0 Hop8 Examples.dict1 3
     = Dict.expected_value Z.eqb
         (Dict.lookup Z.eqb Examples.hash_id 0 0 Hop8 Examples.dict0 3)
         Examples.dict_ops 3
  /\ Dict.get_ Z.eqb Examples.hash_id 0 0 Hop8 Examples.dict1 3 55
     = match Dict.expected_value Z.eqb
               (Dict.lookup Z.eqb Examples.hash_id 0 0 Hop8 Examples.dict0 3)
               Examples.dict_ops 3 with
       | Some w => w
       | None => 55
       end.
Proof.
  apply (dict_run_lookup Z Z Z.eqb Examples.hash_id 0 0 Examples.moved
           Examples.moved Hop8 Z.eqb_eq 4%nat Examples.dict0 Examples.dict1
           Examples.dict_ops 3 55).
  - vm_compute. reflexivity.
  - vm_compute. reflexivity.
  - vm_compute. lia.
Defined.

(** [operator[]] on a well-formed Dict, when it returns (with a capacity
    that did not wrap to 0), returns the slot of the key: the value there is
    the one the key had, or [value_type()] when the key was absent and has
    been inserted by the call; the value found with every other key is
    unchanged, and [size()] grows by one exactly when the key was absent. *)
Theorem dict_index_op
  (Key Value : Type) (key_eqb : Key -> Key -> bool) (hash : Key -> Z)
  (key0 : Key) (value0 : Value) (moved_from : Key -> Key)
  (moved_from_value : Value -> Value) (hs : hop_size) (value_init : Value)
  (key_eqb_spec : forall a b, key_eqb a b = true <-> a = b)
  (fuel : nat) (d d' : Dict.t Key Value) (k : Key) (slot : Z) (k' : Key) :
  Dict.wf_values key_eqb hash key0 hs d = true ->
  Dict.index_op key_eqb hash key0 value0 moved_from moved_from_value hs
                value_init fuel d k = Some (d', slot) ->
  Dict.capacity_ d' <> 0 ->
  Dict.wf_values key_eqb hash key0 hs d' = true
  /\ slot = Dict.find_index key_eqb hash key0 hs d' k
  /\ Dict.deref key0 value0 d' slot
     = (k, match Dict.lookup key_eqb hash key0 value0 hs d k with
           | Some w => w
           | None => value_init
           end)
  /\ Dict.lookup key_eqb hash key0 value0 hs d' k'
     = (if key_eqb k' k
        then match Dict.lookup key_eqb hash key0 value0 hs d k with
             | Some w => Some w
             | None => Some value_init
             end
        else Dict.lookup key_eqb hash key0 value0 hs d k')
  /\ Dict.size d'
     = Dict.size d + (if Dict.has key_eqb hash key0 hs d k then 0 else 1).
Proof.
  intros Hw E Hc. unfold Dict.index_op in E.
  change (negb (Dict.find_index key_eqb hash key0 hs d k =? Dict.end_index hs d))
    with (Dict.has key_eqb hash key0 hs d k) in E.
  destruct (Dict.has key_eqb hash key0 hs d k) eqn:Hh.
  - injection E as <- <-.
    pose proof Hw as Hw'.
    apply (wf_values_spec Key Value key_eqb hash key0 hs key_eqb_spec) in Hw'.
    destruct Hw' as [W Hlen].
    pose proof (lookup_has Key Value key_eqb hash key0 value0 hs d k) as Hl.
    rewrite Hh in Hl.
    split; [exact Hw|]. split; [reflexivity|]. split; [|split].
    + rewrite Hl.
      apply (deref_found key_eqb hash key0 value0 hs key_eqb_spec d k _ W Hl).
    + destruct (key_eqb k' k) eqn:Ek; [|reflexivity].
      apply key_eqb_spec in Ek. subst k'. now rewrite Hl.
    + unfold Dict.size. lia.
  - pose proof (insert_deref Key Value key_eqb hash key0 value0 moved_from
                  moved_from_value hs key_eqb_spec fuel d d' k value_init slot k'
                  Hw E Hc) as H.
    rewrite Hh in H. exact H.
Qed.

(** ** Dict: iteration *)

Section DictIteration.
Variable Key : Type.
Variable Value : Type.
Variable key_eqb : Key -> Key -> bool.
Variable hash : Key -> Z.
Variable key0 : Key.
Variable value0 : Value.
Variable hs : hop_size.
Hypothesis key_eqb_spec : forall a b, key_eqb a b = true <-> a = b.

Local Abbreviation dict := (Dict.t Key Value).
Local Abbreviation hb := (hop_bucket hs).
Local Abbreviation kp := (@Dict.key_part Key Value).
Local Abbreviation WF := (HopSet.WF hash key0 hs).
Local Abbreviation next := (HopscotchBase.next hs).
Local Abbreviation zs :=
  (fun (i : Z) (n : nat) => map Z.of_nat (seq (Z.to_nat i) n)).

Lemma next_idem (H : list Z) (c i : Z) :
  0 <= i <= HopscotchBase.end_index hs c -> next H c (next H c i) = next H c i.
Proof.
  intros Hi. destruct (next_spec hs H c i Hi) as (H1 & H2 & _).
  destruct (Z.eq_dec (next H c i) (HopscotchBase.end_index hs c)) as [E | N].
  - rewrite E. apply next_end.
  - apply next_live; [lia | apply H2; lia].
Qed.

Lemma range_loop_slots (n : nat) (d : dict) (i : Z) :
  0 <= i <= HopscotchBase.end_index hs (Dict.capacity_ d) ->
  HopscotchBase.end_index hs (Dict.capacity_ d)
  - next (Dict.hops_ d) (Dict.capacity_ d) i <= Z.of_nat n ->
  Dict.range_loop key0 value0 hs n d
    (HopscotchBase.end_index hs (Dict.capacity_ d))
    (next (Dict.hops_ d) (Dict.capacity_ d) i)
  = map (Dict.deref key0 value0 d)
        (filter (fun j => Z.testbit (get 0 (Dict.hops_ d) j) 0)
           (zs i (Z.to_nat (HopscotchBase.end_index hs (Dict.capacity_ d) - i)))).
Proof.
  pose proof (end_index_range hs (Dict.capacity_ d)) as HL.
  revert i. induction n as [|n IH]; intros i Hi Hn;
    destruct (next_spec hs (Dict.hops_ d) (Dict.capacity_ d) i Hi)
      as (H1 & H2 & H3);
    rewrite (live_from_next hs (Dict.hops_ d) (Dict.capacity_ d) i Hi);
    cbn [Dict.range_loop].
  - destruct (Z.ltb_spec (next (Dict.hops_ d) (Dict.capacity_ d) i)
                         (HopscotchBase.end_index hs (Dict.capacity_ d)));
      [lia|]. reflexivity.
  - set (L := HopscotchBase.end_index hs (Dict.capacity_ d)) in *.
    set (r := next (Dict.hops_ d) (Dict.capacity_ d) i) in *.
    destruct (Z.eqb_spec r L) as [E | Hne].
    + rewrite E. rewrite Z.ltb_irrefl. reflexivity.
    + destruct (Z.ltb_spec r L); [|lia].
      cbn [map]. f_equal. unfold Dict.iter_incr.
      rewrite u32_small by lia.
      destruct (next_spec hs (Dict.hops_ d) (Dict.capacity_ d) (r + 1))
        as (R1 & _ & _); [fold L; lia|].
      fold L in R1. apply IH; lia.
Qed.

Lemma dict_to_list (d : dict) :
  Dict.to_list key0 value0 hs d
  = map (Dict.deref key0 value0 d) (HopSet.live_slots hs (kp d)).
Proof.
  unfold Dict.to_list, HopSet.live_slots.
  rewrite dict_end. unfold Dict.begin_, Dict.make_iterator, Dict.end_index.
  pose proof (end_index_range hs (Dict.capacity_ d)) as HL.
  rewrite next_idem by lia.
  rewrite (range_loop_slots _ d 0) by lia.
  rewrite Z.sub_0_r. reflexivity.
Qed.

Lemma dict_to_list_keys (d : dict) :
  map fst (Dict.to_list key0 value0 hs d) = HopSet.elements key0 hs (kp d).
Proof.
  rewrite dict_to_list, map_map. reflexivity.
Qed.

Lemma In_dict_to_list (d : dict) (k : Key) (v : Value) :
  WF None (kp d) ->
  In (k, v) (Dict.to_list key0 value0 hs d)
  <-> Dict.lookup key_eqb hash key0 value0 hs d k = Some v.
Proof.
  intros W. rewrite dict_to_list, in_map_iff.
  rewrite (lookup_has Key Value key_eqb hash key0 value0 hs). split.
  - intros (i & Ed & Hin).
    apply (In_live_slots Key hash key0 hs W) in Hin. destruct Hin as [Hi Hl].
    unfold Dict.deref in Ed. injection Ed as Ek Ev.
    pose proof (find_internal_live Key key_eqb hash key0 hs key_eqb_spec
                  (s := kp d) (i := i) W Hi Hl ltac:(discriminate)) as Hf.
    unfold HopSet.key_at in Hf.
    cbn [Dict.key_part HopSet.keys_] in Hf. rewrite Ek in Hf.
    assert (Hfi : Dict.find_index key_eqb hash key0 hs d k = i) by exact Hf.
    assert (Hh : Dict.has key_eqb hash key0 hs d k = true).
    { unfold Dict.has. fold (Dict.find_index key_eqb hash key0 hs d k).
      rewrite Hfi. apply negb_true_iff, Z.eqb_neq.
      change (Dict.end_index hs d) with (HopSet.end_index hs (kp d)).
      rewrite (end_index_eq Key hash key0 hs W). lia. }
    rewrite Hh, Hfi, Ev. reflexivity.
  - destruct (Dict.has key_eqb hash key0 hs d k) eqn:Hh; [|discriminate].
    intros Ev. injection Ev as Ev.
    assert (Hne : HopSet.find_internal key_eqb key0 hs (kp d)
                    (HopSet.get_bucket_index hash (kp d) k) k
                  <> HopSet.end_index hs (kp d)).
    { unfold Dict.has in Hh. apply negb_true_iff, Z.eqb_neq in Hh. exact Hh. }
    destruct (find_internal_found Key key_eqb hash key0 hs key_eqb_spec k W Hne)
      as (Hi & Hl & _ & Hk).
    exists (Dict.find_index key_eqb hash key0 hs d k). split.
    + unfold Dict.deref. rewrite Ev. f_equal. exact Hk.
    + apply (In_live_slots Key hash key0 hs W). split; [exact Hi | exact Hl].
Qed.

End DictIteration.

(** A range-based [for] over a well-formed Dict visits each key once, with
    the value [get] finds for it: the visited keys have no duplicates, a
    pair is visited exactly when the key is found with that value, and
    [size()] pairs are visited. *)
Theorem dict_iteration
  (Key Value : Type) (key_eqb : Key -> Key -> bool) (hash : Key -> Z)
  (key0 : Key) (value0 : Value) (hs : hop_size)
  (key_eqb_spec : forall a b, key_eqb a b = true <-> a = b)
  (d : Dict.t Key Value) (k : Key) (v : Value) :
  Dict.wf key_eqb hash key0 hs d = true ->
  NoDup (map fst (Dict.to_list key0 value0 hs d))
  /\ (In (k, v) (Dict.to_list key0 value0 hs d)
      <-> Dict.lookup key_eqb hash key0 value0 hs d k = Some v)
  /\ Z.of_nat (length (Dict.to_list key0 value0 hs d)) = Dict.size d.
Proof.
  intros W. unfold Dict.wf in W. apply (wf_WF Key key_eqb hash key0 hs) in W.
  split; [|split].
  - rewrite dict_to_list_keys. apply (NoDup_elements Key hash key0 hs W).
  - apply (In_dict_to_list Key Value key_eqb hash key0 value0 hs key_eqb_spec d k v W).
  - rewrite <- (length_map fst), dict_to_list_keys.
    symmetry. apply (size_elements Key hash key0 hs W).
Qed.

Lemma dict_iteration_witness :
  NoDup (map fst (Dict.to_list 0 0 Hop8 Examples.dict1))
  /\ (In (3, 103) (Dict.to_list 0 0 Hop8 Examples.dict1)
      <-> Dict.lookup Z.eqb Examples.hash_id 0 0 Hop8 Examples.dict1 3 = Some 103)
  /\ Z.of_nat (length (Dict.to_list 0 0 Hop8 Examples.dict1))
     = Dict.size Examples.dict1.
Proof.
  apply (dict_iteration Z Z Z.eqb Examples.hash_id 0 0 Hop8 Z.eqb_eq
           Examples.dict1 3 103).
  vm_compute. reflexivity.
Defined.

Lemma dict_index_op_witness :
  Dict.wf_values Z.eqb Examples.hash_id 0 Hop8 Examples.dict_9_17 = true
  /\ 2 = Dict.find_index Z.eqb Examples.hash_id 0 Hop8 Examples.dict_9_17 17
  /\ Dict.deref 0 0 Examples.dict_9_17 2
     = (17, match Dict.lookup Z.eqb Examples.hash_id 0 0 Hop8 Examples.dict_9 17 with
            | Some w => w
            | None => 117
            end)
  /\ Dict.lookup Z.eqb Examples.hash_id 0 0 Hop8 Examples.dict_9_17 9
     = (if 9 =? 17
        then match Dict.lookup Z.eqb Examples.hash_id 0 0 Hop8 Examples.dict_9 17 with
             | Some w => Some w
             | None => Some 117
             end
        else Dict.lookup Z.eqb Examples.hash_id 0 0 Hop8 Examples.dict_9 9)
  /\ Dict.size Examples.dict_9_17
     = Dict.size Examples.dict_9
       + (if Dict.has Z.eqb Examples.hash_id 0 Hop8 Examples.dict_9 17
          then 0 else 1).
Proof.
  apply (dict_index_op Z Z Z.eqb Examples.hash_id 0 0 Examples.moved
           Examples.moved Hop8 117 Z.eqb_eq 1%nat Examples.dict_9
           Examples.dict_9_17 17 2 9).
  - vm_compute. reflexivity.
  - vm_compute. reflexivity.
  - vm_compute. lia.
Defined.

(** ** Set: remove, clear, find and the destructor *)

(** [remove] on a well-formed Set returns whether the key was a member;
    afterwards the key is not a member, every other key is a member exactly
    when it was, the capacity is unchanged, and [size()] has dropped by one
    exactly when the key was a member. *)
Theorem remove_size
  (Key : Type) (key_eqb : Key -> Key -> bool) (hash : Key -> Z)
  (key0 : Key) (hs : hop_size)
  (key_eqb_spec : forall a b, key_eqb a b = true <-> a = b)
  (s : HopSet.t Key) (k k' : Key) :
  HopSet.wf key_eqb hash key0 hs s = true ->
  HopSet.wf key_eqb hash key0 hs (fst (HopSet.remove key_eqb hash key0 hs s k))
  = true
  /\ snd (HopSet.remove key_eqb hash key0 hs s k)
     = HopSet.has key_eqb hash key0 hs s k
  /\ HopSet.has key_eqb hash key0 hs
       (fst (HopSet.remove key_eqb hash key0 hs s k)) k'
     = HopSet.has key_eqb hash key0 hs s k' && negb (key_eqb k' k)
  /\ HopSet.size (fst (HopSet.remove key_eqb hash key0 hs s k))
     = HopSet.size s - (if HopSet.has key_eqb hash key0 hs s k then 1 else 0)
  /\ HopSet.capacity (fst (HopSet.remove key_eqb hash key0 hs s k))
     = HopSet.capacity s.
Proof.
  intros W. apply (wf_WF Key key_eqb hash key0 hs) in W.
  destruct (remove_spec Key key_eqb hash key0 (fun x => x) hs key_eqb_spec s k W)
    as (W' & _ & Hs & Hc & _).
  split; [now apply (WF_wf Key key_eqb hash key0 hs key_eqb_spec)|].
  split; [exact Hs|]. split.
  { apply (has_remove Key key_eqb hash key0 (fun x => x) hs key_eqb_spec s k W). }
  split; [|exact Hc].
  destruct (HopSet.has key_eqb hash key0 hs s k) eqn:Hh.
  - destruct (remove_frame Key key_eqb hash key0 hs key_eqb_spec s k W Hh)
      as (_ & _ & _ & _ & Hsz & _).
    exact Hsz.
  - rewrite (remove_absent Key key_eqb hash key0 hs s k Hh). cbn [fst]. lia.
Qed.

Lemma remove_size_witness :
  HopSet.wf Z.eqb Examples.hash_id 0 Hop8
            (fst (HopSet.remove Z.eqb Examples.hash_id 0 Hop8 Examples.set1 20))
  = true
  /\ snd (HopSet.remove Z.eqb Examples.hash_id 0 Hop8 Examples.set1 20)
     = HopSet.has Z.eqb Examples.hash_id 0 Hop8 Examples.set1 20
  /\ HopSet.has Z.eqb Examples.hash_id 0 Hop8
       (fst (HopSet.remove Z.eqb Examples.hash_id 0 Hop8 Examples.set1 20)) 19
     = HopSet.has Z.eqb Examples.hash_id 0 Hop8 Examples.set1 19
       && negb (19 =? 20)
  /\ HopSet.size (fst (HopSet.remove Z.eqb Examples.hash_id 0 Hop8
                                     Examples.set1 20))
     = HopSet.size Examples.set1
       - (if HopSet.has Z.eqb Examples.hash_id 0 Hop8 Examples.set1 20
          then 1 else 0)
  /\ HopSet.capacity (fst (HopSet.remove Z.eqb Examples.hash_id 0 Hop8
                                         Examples.set1 20))
     = HopSet.capacity Examples.set1.
Proof.
  apply (remove_size Z Z.eqb Examples.hash_id 0 Hop8 Z.eqb_eq Examples.set1 20 19).
  vm_compute. reflexivity.
Defined.

(** For a key type with a destructor, [~Set()] destroys the slots that are
    occupied at that point, each once.  The slot of a key that was removed
    is not among them, and [remove] did not destroy it either: the removed
    key is never destroyed. *)
Theorem remove_then_destroy
  (Key : Type) (key_eqb : Key -> Key -> bool) (hash : Key -> Z)
  (key0 : Key) (hs : hop_size)
  (key_eqb_spec : forall a b, key_eqb a b = true <-> a = b)
  (s : HopSet.t Key) (k : Key) (i : Z) :
  HopSet.wf key_eqb hash key0 hs s = true ->
  HopSet.has key_eqb hash key0 hs s k = true ->
  HopSet.destroyed_
    (HopSet.destroy hs false (fst (HopSet.remove key_eqb hash key0 hs s k)))
  = HopSet.destroyed_ s
    ++ HopSet.live_slots hs (fst (HopSet.remove key_eqb hash key0 hs s k))
  /\ NoDup (HopSet.live_slots hs (fst (HopSet.remove key_eqb hash key0 hs s k)))
  /\ (In i (HopSet.live_slots hs (fst (HopSet.remove key_eqb hash key0 hs s k)))
      <-> In i (HopSet.live_slots hs s)
          /\ i <> HopSet.find_index key_eqb hash key0 hs s k)
  /\ In (HopSet.find_index key_eqb hash key0 hs s k) (HopSet.live_slots hs s)
  /\ HopSet.capacity
       (HopSet.destroy hs false (fst (HopSet.remove key_eqb hash key0 hs s k)))
     = 0.
Proof.
  intros W Hh. apply (wf_WF Key key_eqb hash key0 hs) in W.
  destruct (remove_spec Key key_eqb hash key0 (fun x => x) hs key_eqb_spec s k W)
    as (W' & _ & _ & Hc & _ & Hl).
  destruct (remove_frame Key key_eqb hash key0 hs key_eqb_spec s k W Hh)
    as (_ & _ & Hd & _).
  split; [|split; [|split; [|split]]].
  - unfold HopSet.destroy, HopSet.reset_internal, HopSet.reset_internal_false,
      HopSet.reset_internal_true.
    cbn [HopSet.destroyed_]. now rewrite Hd.
  - apply NoDup_live_slots.
  - rewrite (In_live_slots Key hash key0 hs W'), (In_live_slots Key hash key0 hs W).
    rewrite Hc. split.
    + intros [Hi Hv]. rewrite (Hl i Hi) in Hv.
      apply andb_true_iff in Hv as [Hv Hn].
      apply negb_true_iff, Z.eqb_neq in Hn. auto.
    + intros [[Hi Hv] Hn]. split; [exact Hi|]. rewrite (Hl i Hi), Hv.
      apply negb_true_iff, Z.eqb_neq. exact Hn.
  - apply (In_live_slots Key hash key0 hs W).
    assert (Hne : HopSet.find_internal key_eqb key0 hs s
                    (HopSet.get_bucket_index hash s k) k
                  <> HopSet.end_index hs s).
    { unfold HopSet.has in Hh. apply negb_true_iff, Z.eqb_neq in Hh. exact Hh. }
    destruct (find_internal_found Key key_eqb hash key0 hs key_eqb_spec k W Hne)
      as (Hi & Hv & _).
    split; [exact Hi | exact Hv].
  - reflexivity.
Qed.

Lemma remove_then_destroy_witness :
  HopSet.destroyed_
    (HopSet.destroy Hop8 false
       (fst (HopSet.remove Z.eqb Examples.hash_id 0 Hop8 Examples.set_123 2)))
  = HopSet.destroyed_ Examples.set_123
    ++ HopSet.live_slots Hop8
         (fst (HopSet.remove Z.eqb Examples.hash_id 0 Hop8 Examples.set_123 2))
  /\ NoDup (HopSet.live_slots Hop8
              (fst (HopSet.remove Z.eqb Examples.hash_id 0 Hop8 Examples.set_123 2)))
  /\ (In 3 (HopSet.live_slots Hop8
              (fst (HopSet.remove Z.eqb Examples.hash_id 0 Hop8 Examples.set_123 2)))
      <-> In 3 (HopSet.live_slots Hop8 Examples.set_123)
          /\ 3 <> HopSet.find_index Z.eqb Examples.hash_id 0 Hop8 Examples.set_123 2)
  /\ In (HopSet.find_index Z.eqb Examples.hash_id 0 Hop8 Examples.set_123 2)
        (HopSet.live_slots Hop8 Examples.set_123)
  /\ HopSet.capacity
       (HopSet.destroy Hop8 false
          (fst (HopSet.remove Z.eqb Examples.hash_id 0 Hop8 Examples.set_123 2)))
     = 0.
Proof.
  apply (remove_then_destroy Z Z.eqb Examples.hash_id 0 Hop8 Z.eqb_eq
           Examples.set_123 2 3).
  - vm_compute. reflexivity.
  - vm_compute. reflexivity.
Defined.

(** With [HopSize = 8] a bitmap word is one byte and [clear()] empties a
    well-formed Set: the size is 0, every bitmap word is zero, no key is
    found, and the capacity is unchanged. *)
Theorem clear_empties_hop8
  (Key : Type) (key_eqb : Key -> Key -> bool) (hash : Key -> Z)
  (key0 : Key) (big_endian : bool) (s : HopSet.t Key) (k : Key) (i : Z) :
  HopSet.wf key_eqb hash key0 Hop8 s = true ->
  0 <= i ->
  HopSet.size (HopSet.clear Hop8 big_endian s) = 0
  /\ HopSet.capacity (HopSet.clear Hop8 big_endian s) = HopSet.capacity s
  /\ get 0 (HopSet.hops_ (HopSet.clear Hop8 big_endian s)) i = 0
  /\ HopSet.has key_eqb hash key0 Hop8 (HopSet.clear Hop8 big_endian s) k = false
  /\ HopSet.keys_ (HopSet.clear Hop8 big_endian s) = HopSet.keys_ s.
Proof.
  intros W Hi. apply (wf_WF Key key_eqb hash key0 Hop8) in W.
  destruct (clear_Hop8 Key key_eqb hash key0 big_endian s W)
    as (H1 & H2 & _ & H4 & H5).
  split; [exact H1|]. split; [exact H2|]. split; [exact (H4 i Hi)|].
  split; [exact (H5 k) | reflexivity].
Qed.

Lemma clear_empties_hop8_witness :
  HopSet.size (HopSet.clear Hop8 false Examples.set1) = 0
  /\ HopSet.capacity (HopSet.clear Hop8 false Examples.set1)
     = HopSet.capacity Examples.set1
  /\ get 0 (HopSet.hops_ (HopSet.clear Hop8 false Examples.set1)) 20 = 0
  /\ HopSet.has Z.eqb Examples.hash_id 0 Hop8
                (HopSet.clear Hop8 false Examples.set1) 20 = false
  /\ HopSet.keys_ (HopSet.clear Hop8 false Examples.set1)
     = HopSet.keys_ Examples.set1.
Proof.
  apply (clear_empties_hop8 Z Z.eqb Examples.hash_id 0 false Examples.set1 20 20).
  - vm_compute. reflexivity.
  - lia.
Defined.

(** On a well-formed Set, [find] of a member returns an iterator that is
    not [end()], stands on an occupied slot and dereferences to the key. *)
Theorem find_points_to_key
  (Key : Type) (key_eqb : Key -> Key -> bool) (hash : Key -> Z)
  (key0 : Key) (hs : hop_size)
  (key_eqb_spec : forall a b, key_eqb a b = true <-> a = b)
  (s : HopSet.t Key) (k : Key) :
  HopSet.wf key_eqb hash key0 hs s = true ->
  HopSet.has key_eqb hash key0 hs s k = true ->
  HopSet.find key_eqb hash key0 hs s k
  = HopSet.find_index key_eqb hash key0 hs s k
  /\ HopSet.find key_eqb hash key0 hs s k <> HopSet.end_ hs s
  /\ HopSet.live s (HopSet.find key_eqb hash key0 hs s k) = true
  /\ HopSet.deref key0 s (HopSet.find key_eqb hash key0 hs s k) = k.
Proof.
  intros W Hh. apply (wf_WF Key key_eqb hash key0 hs) in W.
  pose proof (next_find_internal Key key_eqb hash key0 hs key_eqb_spec s k W) as En.
  pose proof (find_end_has Key key_eqb hash key0 hs key_eqb_spec s k W) as Ee.
  rewrite Hh in Ee. cbn [negb] in Ee. apply Z.eqb_neq in Ee.
  assert (Ef : HopSet.find key_eqb hash key0 hs s k
               = HopSet.find_index key_eqb hash key0 hs s k) by exact En.
  assert (Hne : HopSet.find_internal key_eqb key0 hs s
                  (HopSet.get_bucket_index hash s k) k
                <> HopSet.end_index hs s).
  { unfold HopSet.has in Hh. apply negb_true_iff, Z.eqb_neq in Hh. exact Hh. }
  destruct (find_internal_found Key key_eqb hash key0 hs key_eqb_spec k W Hne)
    as (_ & Hv & _ & Hk).
  split; [exact Ef|]. split; [exact Ee|]. rewrite Ef.
  split; [exact Hv | exact Hk].
Qed.

Lemma find_points_to_key_witness :
  HopSet.find Z.eqb Examples.hash_id 0 Hop8 Examples.set1 40
  = HopSet.find_index Z.eqb Examples.hash_id 0 Hop8 Examples.set1 40
  /\ HopSet.find Z.eqb Examples.hash_id 0 Hop8 Examples.set1 40
     <> HopSet.end_ Hop8 Examples.set1
  /\ HopSet.live Examples.set1
       (HopSet.find Z.eqb Examples.hash_id 0 Hop8 Examples.set1 40) = true
  /\ HopSet.deref 0 Examples.set1
       (HopSet.find Z.eqb Examples.hash_id 0 Hop8 Examples.set1 40) = 40.
Proof.
  apply (find_points_to_key Z Z.eqb Examples.hash_id 0 Hop8 Z.eqb_eq
           Examples.set1 40).
  - vm_compute. reflexivity.
  - vm_compute. reflexivity.
Defined.

Lemma dict_size_zero (Key Value : Type) (key_eqb : Key -> Key -> bool)
      (hash : Key -> Z) (key0 : Key) (value0 : Value) (hs : hop_size)
      (key_eqb_spec : forall a b, key_eqb a b = true <-> a = b)
      (d : Dict.t Key Value) (k : Key) (dflt : Value) :
  HopSet.WF hash key0 hs None (Dict.key_part d) -> Dict.size_ d = 0 ->
  Zlen (Dict.values_ d) = Zlen (Dict.keys_ d) ->
  Dict.wf_values key_eqb hash key0 hs d = true
  /\ Dict.size d = 0
  /\ Dict.has key_eqb hash key0 hs d k = false
  /\ Dict.get_ key_eqb hash key0 value0 hs d k dflt = dflt
  /\ Dict.to_list key0 value0 hs d = [].
Proof.
  intros W Hz Hl.
  assert (He : HopSet.empty (Dict.key_part d) = true).
  { unfold HopSet.empty. cbn [Dict.key_part HopSet.size_]. now rewrite Hz. }
  assert (Hh : forall x, Dict.has key_eqb hash key0 hs d x = false).
  { intros x. destruct (Dict.has key_eqb hash key0 hs d x) eqn:Hk; auto.
    apply (has_mem Key key_eqb hash key0 hs key_eqb_spec W) in Hk.
    assert (HopSet.empty (Dict.key_part d) = false)
      by (apply (empty_false_iff Key hash key0 hs W); eauto).
    congruence. }
  split; [|split; [exact Hz|split; [apply Hh|split]]].
  - apply (wf_values_spec Key Value key_eqb hash key0 hs key_eqb_spec).
    split; [exact W|]. rewrite Hl. exact (HopSet.wf_keys_len W).
  - rewrite get_lookup, (lookup_has Key Value key_eqb hash key0 value0 hs), Hh.
    reflexivity.
  - destruct (Dict.to_list key0 value0 hs d) as [|[k1 v1] l] eqn:El;
      [reflexivity|].
    assert (Hin : In (k1, v1) (Dict.to_list key0 value0 hs d))
      by (rewrite El; now left).
    apply (In_dict_to_list Key Value key_eqb hash key0 value0 hs key_eqb_spec
             _ k1 v1 W) in Hin.
    rewrite (lookup_has Key Value key_eqb hash key0 value0 hs), Hh in Hin.
    discriminate.
Qed.

Lemma dict_construct_parts (Key Value : Type) (key0 : Key) (value0 : Value)
      (hs : hop_size) (n : Z) :
  Dict.key_part (Dict.construct key0 value0 hs n) = HopSet.construct key0 hs n
  /\ Dict.size_ (Dict.construct key0 value0 hs n) = 0
  /\ Zlen (Dict.values_ (Dict.construct key0 value0 hs n))
     = Zlen (Dict.keys_ (Dict.construct key0 value0 hs n)).
Proof.
  unfold Dict.construct, HopSet.construct, Dict.init_internal,
    HopSet.init_internal, Dict.key_part.
  cbn [Dict.keys_ Dict.values_ Dict.hops_ Dict.size_ Dict.capacity_
       Dict.destroyed_].
  split; [reflexivity|]. split; [reflexivity|].
  unfold Zlen, calloc. now rewrite !repeat_length.
Qed.

(** A Dict constructed with a requested size between 1 and [2^31] is
    well-formed and empty: no key is found, [get] returns its default and
    the iteration visits nothing. *)
Theorem dict_construct_empty
  (Key Value : Type) (key_eqb : Key -> Key -> bool) (hash : Key -> Z)
  (key0 : Key) (value0 : Value) (hs : hop_size)
  (key_eqb_spec : forall a b, key_eqb a b = true <-> a = b)
  (n : Z) (k : Key) (dflt : Value) :
  1 <= n <= 2 ^ 31 ->
  Dict.wf_values key_eqb hash key0 hs (Dict.construct key0 value0 hs n) = true
  /\ Dict.size (Dict.construct key0 value0 hs n) = 0
  /\ Dict.has key_eqb hash key0 hs (Dict.construct key0 value0 hs n) k = false
  /\ Dict.get_ key_eqb hash key0 value0 hs (Dict.construct key0 value0 hs n) k dflt
     = dflt
  /\ Dict.to_list key0 value0 hs (Dict.construct key0 value0 hs n) = [].
Proof.
  intros Hn. pose proof (construct_WF Key hash key0 hs n Hn) as W.
  destruct (dict_construct_parts Key Value key0 value0 hs n) as (Ek & Ez & El).
  apply (dict_size_zero Key Value key_eqb hash key0 value0 hs key_eqb_spec).
  - rewrite Ek. exact W.
  - exact Ez.
  - exact El.
Qed.

Lemma dict_construct_empty_witness :
  Dict.wf_values Z.eqb Examples.hash_id 0 Hop16 (Dict.construct 0 0 Hop16 100) = true
  /\ Dict.size (Dict.construct 0 0 Hop16 100) = 0
  /\ Dict.has Z.eqb Examples.hash_id 0 Hop16 (Dict.construct 0 0 Hop16 100) 7 = false
  /\ Dict.get_ Z.eqb Examples.hash_id 0 0 Hop16 (Dict.construct 0 0 Hop16 100) 7 55
     = 55
  /\ Dict.to_list 0 0 Hop16 (Dict.construct 0 0 Hop16 100) = [].
Proof.
  apply (dict_construct_empty Z Z Z.eqb Examples.hash_id 0 0 Hop16 Z.eqb_eq
           100 7 55).
  vm_compute. split; discriminate.
Defined.

(** [expand()] on a well-formed Set, when it returns with a capacity that
    did not wrap to 0, gives a well-formed Set of at least twice the
    capacity with the same members and the same size. *)
Theorem expand_preserves
  (Key : Type) (key_eqb : Key -> Key -> bool) (hash : Key -> Z)
  (key0 : Key) (moved_from : Key -> Key) (hs : hop_size)
  (key_eqb_spec : forall a b, key_eqb a b = true <-> a = b)
  (fuel : nat) (s s' : HopSet.t Key) (k : Key) :
  HopSet.wf key_eqb hash key0 hs s = true ->
  HopSet.expand key_eqb hash key0 moved_from hs fuel s = Some s' ->
  HopSet.capacity_ s' <> 0 ->
  HopSet.wf key_eqb hash key0 hs s' = true
  /\ HopSet.has key_eqb hash key0 hs s' k = HopSet.has key_eqb hash key0 hs s k
  /\ HopSet.size s' = HopSet.size s
  /\ 2 * HopSet.capacity s <= HopSet.capacity s'.
Proof.
  intros W E Hc. apply (wf_WF Key key_eqb hash key0 hs) in W.
  unfold HopSet.expand in E.
  pose proof (insert_spec Key key_eqb hash key0 moved_from hs key_eqb_spec fuel)
    as Hok.
  destruct (expand_with_ok Key key_eqb hash key0 hs _ s s' Hok W E Hc)
    as [W' Hm].
  assert (Hh : forall x, HopSet.has key_eqb hash key0 hs s' x
                         = HopSet.has key_eqb hash key0 hs s x).
  { intros x. apply bool_eq_iff.
    rewrite (has_mem Key key_eqb hash key0 hs key_eqb_spec W'),
      (has_mem Key key_eqb hash key0 hs key_eqb_spec W). apply Hm. }
  split; [now apply (WF_wf Key key_eqb hash key0 hs key_eqb_spec)|].
  split; [apply Hh|]. split.
  - rewrite (size_elements Key hash key0 hs W'), (size_elements Key hash key0 hs W).
    f_equal. apply NoDup_same_length.
    + apply (NoDup_elements Key hash key0 hs W').
    + apply (NoDup_elements Key hash key0 hs W).
    + intros x.
      rewrite (In_elements Key hash key0 hs W'), (In_elements Key hash key0 hs W).
      apply Hm.
  - unfold HopSet.expand_with in E.
    apply (expand_loop_cap Key key0) in E;
      [|exact (insert_cap Key key_eqb hash key0 moved_from hs fuel)].
    cbn [HopSet.capacity_] in E.
    destruct (HopSet.wf_cap W) as (a & Ha & Ea). pows.
    assert (Hd : u32 (HopSet.capacity_ s * 2) <> 0).
    { intros Ez. rewrite Ez in E. apply cap_rel_zero in E. contradiction. }
    assert (Ha30 : a <= 30).
    { destruct (Z.eq_dec a 31) as [-> | Hne]; [|lia].
      exfalso. apply Hd. rewrite Ea. reflexivity. }
    assert (E2 : u32 (HopSet.capacity_ s * 2) = 2 ^ (a + 1)).
    { rewrite Ea, Z.pow_add_r by lia. change (2 ^ 1) with 2.
      apply u32_small.
      assert (0 < 2 ^ a) by (apply Z.pow_pos_nonneg; lia).
      assert (2 ^ a <= 2 ^ 30) by (apply Z.pow_le_mono_r; lia).
      change (2 ^ 30) with 1073741824 in *. lia. }
    destruct (cap_rel_pow2 _ _ (a + 1) ltac:(lia) E2 E Hc) as (a' & Ha' & Ea').
    unfold HopSet.capacity. rewrite Ea', Ea.
    assert (2 ^ (a + 1) <= 2 ^ a') by (apply Z.pow_le_mono_r; lia).
    rewrite Z.pow_add_r in H by lia. change (2 ^ 1) with 2 in H. lia.
Qed.

Lemma expand_preserves_witness :
  HopSet.wf Z.eqb Examples.hash_id 0 Hop8
    (Examples.unwrap (HopSet.expand Z.eqb Examples.hash_id 0 Examples.moved Hop8
                        1 Examples.set_mult8)) = true
  /\ HopSet.has Z.eqb Examples.hash_id 0 Hop8
       (Examples.unwrap (HopSet.expand Z.eqb Examples.hash_id 0 Examples.moved
                           Hop8 1 Examples.set_mult8)) 24
     = HopSet.has Z.eqb Examples.hash_id 0 Hop8 Examples.set_mult8 24
  /\ HopSet.size
       (Examples.unwrap (HopSet.expand Z.eqb Examples.hash_id 0 Examples.moved
                           Hop8 1 Examples.set_mult8))
     = HopSet.size Examples.set_mult8
  /\ 2 * HopSet.capacity Examples.set_mult8
     <= HopSet.capacity
          (Examples.unwrap (HopSet.expand Z.eqb Examples.hash_id 0 Examples.moved
                              Hop8 1 Examples.set_mult8)).
Proof.
  apply (expand_preserves Z Z.eqb Examples.hash_id 0 Examples.moved Hop8 Z.eqb_eq
           1%nat Examples.set_mult8 _ 24).
  - vm_compute. reflexivity.
  - vm_compute. reflexivity.
  - vm_compute. lia.
Defined.

(** ** insert does not return when a neighbourhood stays full *)

(** [expand] over a table whose first [m] slots are the occupied ones: the
    new table goes through the states [R 0], [R 1], ..., [R m]. *)
Section ExpandFill.
Variable Key : Type.
Variable key0 : Key.
Variable hs : hop_size.
Variable rec : HopSet.t Key -> Key -> option (HopSet.t Key * bool).
Variable R : Z -> HopSet.t Key -> Prop.
Variable m : Z.
Variable old_keys : list Key.
Variable old_hops : list Z.
Hypothesis Hlive : forall i, 0 <= i -> Z.testbit (get 0 old_hops i) 0 = (i <? m).
Hypothesis Hstep : forall j s, 0 <= j < m -> R j s ->
  exists s' b, rec s (get key0 old_keys j) = Some (s', b) /\ R (j + 1) s'.

Lemma expand_loop_fill (n : nat) (iter : Z) (s : HopSet.t Key) :
  0 <= iter -> iter + Z.of_nat n < 2 ^ 32 ->
  R (Z.min iter m) s ->
  exists s', HopSet.expand_loop key0 rec old_keys old_hops n iter s = Some s'
             /\ R (Z.min (iter + Z.of_nat n) m) s'.
Proof.
  revert iter s. induction n as [|n IH]; intros iter s H0 Hn HR;
    cbn [HopSet.expand_loop].
  - exists s. split; [reflexivity|]. now rewrite Z.add_0_r.
  - rewrite Hlive by lia. rewrite u32_small by lia.
    replace (iter + Z.of_nat (S n)) with (iter + 1 + Z.of_nat n) by lia.
    destruct (Z.ltb_spec iter m) as [Hlt | Hge].
    + rewrite Z.min_l in HR by lia.
      destruct (Hstep iter s ltac:(lia) HR) as (s' & b & E & HR').
      rewrite E. apply IH; [lia | lia |].
      now rewrite Z.min_l by lia.
    + apply IH; [lia | lia |].
      rewrite Z.min_r in HR by lia. now rewrite Z.min_r by lia.
Qed.

End ExpandFill.

(** With no nested call left, [expand] cannot insert the first element. *)
Lemma expand_with_no_fuel (Key : Type) (key_eqb : Key -> Key -> bool)
  (hash : Key -> Z) (key0 : Key) (moved_from : Key -> Key) (hs : hop_size)
  (s : HopSet.t Key) :
  0 < u32 (HopSet.capacity_ s + hop_bucket hs) ->
  HopSet.live s 0 = true ->
  HopSet.expand_with key0 hs
    (HopSet.insert key_eqb hash key0 moved_from hs 0) s = None.
Proof.
  intros Hn Hl. unfold HopSet.expand_with.
  destruct (Z.to_nat (u32 (HopSet.capacity_ s + hop_bucket hs))) eqn:E; [lia|].
  cbn [HopSet.expand_loop]. unfold HopSet.live in Hl. rewrite Hl.
  reflexivity.
Qed.

Lemma run_app (Key : Type) (key_eqb : Key -> Key -> bool)
  (hash : Key -> Z) (key0 : Key) (moved_from : Key -> Key) (hs : hop_size)
  (fuel : nat) (l1 l2 : list (HopSet.op Key)) (s : HopSet.t Key) :
  HopSet.run key_eqb hash key0 moved_from hs fuel s (l1 ++ l2)
  = match HopSet.run key_eqb hash key0 moved_from hs fuel s l1 with
    | Some s' => HopSet.run key_eqb hash key0 moved_from hs fuel s' l2
    | None => None
    end.
Proof.
  revert s. induction l1 as [|o l1 IH]; intros s; cbn [app HopSet.run];
    [reflexivity|].
  destruct o.
  - destruct (HopSet.insert _ _ _ _ _ _ _ _) as [[s' b]|]; [apply IH | reflexivity].
  - apply IH.
Qed.

(** The displacement search that finds no candidate leaves the table as
    it is and reports the failure. *)
Lemma displace_stuck (Key : Type) (key0 : Key) (moved_from : Key -> Key)
  (hs : hop_size) (n : nat) (s : HopSet.t Key) (b idx : Z) :
  (idx >? u32 (u32 (b + hop_bucket hs) - 1)) = true ->
  (snd (HopscotchBase.find_displaceable hs (HopSet.hops_ s) idx) >=? idx)
  = true ->
  HopSet.displace key0 moved_from hs (S n) s b idx = (s, idx, false).
Proof.
  intros H1 H2. cbn [HopSet.displace]. rewrite H1.
  destruct (HopscotchBase.find_displaceable hs (HopSet.hops_ s) idx)
    as [cursor offset].
  cbn [snd] in H2. rewrite H2. reflexivity.
Qed.

(** *** The keys [i * 2^32] in [Set<uint64_t, 8>] *)

Local Abbreviation ins :=
  (HopSet.insert Z.eqb Examples.hash_id 0 Examples.moved Hop8).
Local Abbreviation WF8 := (HopSet.WF Examples.hash_id 0 Hop8 None).
Local Abbreviation k8 := (Examples.key_hi 8).

Lemma land_hi_low (i x : Z) : 0 <= x < 2 ^ 32 -> Z.land (i * 2 ^ 32) x = 0.
Proof.
  intros Hx. apply Z.bits_inj'. intros n Hn.
  rewrite Z.land_spec, Z.bits_0.
  destruct (Z.lt_ge_cases n 32).
  - rewrite Z.mul_pow2_bits_low by lia. reflexivity.
  - rewrite (bits_above x 32 n) by lia. apply andb_false_r.
Qed.

(** The home bucket of [i * 2^32] is 0 at every capacity, also at the
    wrapped capacity 0. *)
Lemma bucket_hi (c i : Z) :
  0 <= i < 2 ^ 32 ->
  HopscotchBase.get_bucket_index Examples.hash_id c (Examples.key_hi i) = 0.
Proof.
  intros Hi. unfold HopscotchBase.get_bucket_index, Examples.hash_id,
    Examples.key_hi.
  replace (u64 (i * 2 ^ 32)) with (i * 2 ^ 32)
    by (unfold u64; symmetry; apply Z.mod_small; pows; lia).
  rewrite land_hi_low.
  - reflexivity.
  - unfold u32. apply Z.mod_pos_bound. pows. lia.
Qed.

Lemma key_hi_inj (a b : Z) : Examples.key_hi a = Examples.key_hi b -> a = b.
Proof. unfold Examples.key_hi. pows. lia. Qed.

Lemma filled_absent (j m : Z) (s : HopSet.t Z) :
  WF8 s -> Examples.filled j s -> j < m ->
  HopSet.has Z.eqb Examples.hash_id 0 Hop8 s (Examples.key_hi m) = false.
Proof.
  intros W (_ & Hl & Hk) Hm.
  destruct (HopSet.has Z.eqb Examples.hash_id 0 Hop8 s (Examples.key_hi m))
    eqn:E; [|reflexivity].
  apply (has_mem Z Z.eqb Examples.hash_id 0 Hop8 Z.eqb_eq W) in E.
  destruct E as (i & Hi & Hli & _ & Hki).
  rewrite Hl in Hli by lia. apply Z.ltb_lt in Hli.
  rewrite Hk in Hki by lia. apply key_hi_inj in Hki. lia.
Qed.

(** One reinsertion into a table of capacity at least 1: the key goes to
    the first free slot of bucket 0. *)
Lemma fill_step (g : nat) (j : Z) (s : HopSet.t Z) :
  WF8 s -> Examples.filled j s -> 0 <= j < 7 ->
  exists s' b, ins (S g) s (Examples.key_hi (j + 1)) = Some (s', b)
               /\ (WF8 s' /\ Examples.filled (j + 1) s').
Proof.
  intros W F Hj.
  pose proof (filled_absent j (j + 1) s W F ltac:(lia)) as Ha.
  destruct F as (Hd & Hl & Hk).
  pose proof (cap_bounds Z Examples.hash_id 0 Hop8 W) as Hc.
  pose proof (HopSet.wf_keys_len W) as HK. cbv beta in HK.
  assert (Hb : HopSet.get_bucket_index Examples.hash_id s
                 (Examples.key_hi (j + 1)) = 0).
  { unfold HopSet.get_bucket_index. apply bucket_hi. pows. lia. }
  destruct (insert_fast Z Z.eqb Examples.hash_id 0 Examples.moved Hop8
              Z.eqb_eq g s (Examples.key_hi (j + 1)) j W Ha)
    as (s' & idx & E & H1 & H2 & _ & H4 & H5 & _ & _ & H8 & W' & _).
  { rewrite Hb. change (hop_bucket Hop8) with 7. lia. }
  { rewrite Hl by lia. apply Z.ltb_irrefl. }
  rewrite Hb in H1, H5.
  rewrite Hl in H2 by lia. apply Z.ltb_ge in H2.
  assert (idx = j) by lia. subst idx.
  exists s', true. split; [exact E|]. split; [exact W'|].
  split; [congruence|]. split.
  - intros i Hi. unfold HopSet.live. rewrite H5 by lia.
    fold (HopSet.live s i). rewrite Hl by lia.
    destruct (Z.ltb_spec i j), (Z.eqb_spec i j), (Z.eqb_spec i 0),
      (Z.eqb_spec 0 (j - 0 + 1)), (Z.ltb_spec i (j + 1));
      cbn [andb orb]; try reflexivity; lia.
  - intros i Hi. unfold HopSet.key_at. rewrite H4.
    destruct (Z.eq_dec i j) as [-> | Hne].
    + rewrite get_upd_same by (change (hop_bucket Hop8) with 7 in HK; lia).
      reflexivity.
    + rewrite get_upd_other by lia. apply Hk. lia.
Qed.

(** [expand] at a capacity below 2^31: the seven keys land in the slots
    [0 .. 6] of the doubled table. *)
Lemma grow_step (g : nat) (s : HopSet.t Z) :
  WF8 s -> Examples.filled 7 s -> HopSet.capacity_ s < 2 ^ 31 ->
  exists s', HopSet.expand_with 0 Hop8 (ins (S g)) s = Some s'
             /\ (WF8 s' /\ Examples.filled 7 s').
Proof.
  intros W (Hd & Hl & Hk) Hlt.
  pose proof (cap_bounds Z Examples.hash_id 0 Hop8 W) as Hc.
  destruct (HopSet.wf_cap W) as (a & Ha & Ea).
  assert (Ha30 : a <= 30).
  { destruct (Z.le_gt_cases a 30) as [|Hgt]; [assumption|].
    assert (a = 31) by lia. subst a. lia. }
  assert (E2 : u32 (HopSet.capacity_ s * 2) = 2 ^ (a + 1)).
  { rewrite Ea.
    replace (2 ^ (a + 1)) with (2 ^ a * 2)
      by (rewrite Z.pow_add_r by lia; reflexivity).
    apply u32_small.
    assert (2 ^ a <= 2 ^ 30) by (apply Z.pow_le_mono_r; lia).
    pows. lia. }
  unfold HopSet.expand_with.
  destruct (WF_fresh Z Examples.hash_id 0 Hop8
              (u32 (HopSet.capacity_ s * 2)) (HopSet.destroyed_ s)
              ltac:(exists (a + 1); split; [lia | exact E2])) as [W0 _].
  set (s0 := HopSet.mk _ _ _ _ _) in *.
  pows.
  destruct (expand_loop_fill Z 0 (ins (S g))
              (fun j s' => WF8 s' /\ Examples.filled j s') 7
              (HopSet.keys_ s) (HopSet.hops_ s))
    with (n := Z.to_nat (u32 (HopSet.capacity_ s + hop_bucket Hop8)))
         (iter := 0) (s := s0) as (s' & E & HR).
  - exact Hl.
  - intros j s1 Hj [W1 F1].
    replace (get 0 (HopSet.keys_ s) j) with (Examples.key_hi (j + 1))
      by (symmetry; apply Hk; lia).
    apply fill_step; assumption.
  - lia.
  - pose proof (Z.mod_pos_bound (HopSet.capacity_ s + hop_bucket Hop8)
                  (2 ^ 32) ltac:(lia)) as Hu. unfold u32. lia.
  - rewrite Z.min_l by lia. split; [exact W0|].
    split; [exact Hd|]. split.
    + intros i Hi. unfold HopSet.live, s0. cbn [HopSet.hops_].
      rewrite get_calloc. change (Z.testbit 0 0) with false.
      symmetry. apply Z.ltb_ge. lia.
    + intros i Hi. lia.
  - exists s'. split; [exact E|].
    rewrite u32_small in HR by (change (hop_bucket Hop8) with 7; lia).
    rewrite Z2Nat.id in HR by (change (hop_bucket Hop8) with 7; lia).
    rewrite Z.min_r in HR by (change (hop_bucket Hop8) with 7; lia).
    exact HR.
Qed.

(** [expand] once the doubled capacity is 0: the seven keys land in the
    seven slots of the new table. *)
Lemma wrap_step (g : nat) (s : HopSet.t Z) :
  Examples.filled 7 s ->
  u32 (HopSet.capacity_ s * 2) = 0 ->
  7 <= u32 (HopSet.capacity_ s + 7) ->
  HopSet.expand_with 0 Hop8 (ins (S g)) s = Some (Examples.wrapped 7).
Proof.
  intros (Hd & Hl & Hk) Hw Hn.
  unfold HopSet.expand_with. rewrite Hw, Hd.
  change (hop_bucket Hop8) with 7.
  pose proof (Z.mod_pos_bound (HopSet.capacity_ s + 7) (2 ^ 32)
                ltac:(pows; lia)) as Hu. fold (u32 (HopSet.capacity_ s + 7)) in Hu.
  destruct (expand_loop_fill Z 0 (ins (S g))
              (fun j s' => s' = Examples.wrapped (Z.to_nat j)) 7
              (HopSet.keys_ s) (HopSet.hops_ s))
    with (n := Z.to_nat (u32 (HopSet.capacity_ s + 7)))
         (iter := 0) (s := Examples.wrapped 0) as (s' & E & HR).
  - exact Hl.
  - intros j s1 Hj ->.
    replace (get 0 (HopSet.keys_ s) j) with (Examples.key_hi (j + 1))
      by (symmetry; apply Hk; lia).
    exists (Examples.wrapped (Z.to_nat (j + 1))), true.
    split; [|reflexivity].
    assert (Hc : j = 0 \/ j = 1 \/ j = 2 \/ j = 3 \/ j = 4 \/ j = 5 \/ j = 6)
      by lia.
    destruct Hc as [-> | [-> | [-> | [-> | [-> | [-> | ->]]]]]];
      vm_compute; reflexivity.
  - lia.
  - lia.
  - reflexivity.
  - rewrite Z2Nat.id in HR by lia. rewrite Z.min_r in HR by lia.
    subst s'. exact E.
Qed.

Lemma live_tail (H : list Z) (n i : Z) :
  Zlen H = n -> n <= i -> Z.testbit (get 0 H i) 0 = false.
Proof. intros HL Hi. rewrite get_outside by lia. reflexivity. Qed.

Lemma wrapped_filled : Examples.filled 7 (Examples.wrapped 7).
Proof.
  split; [reflexivity|]. split.
  - intros i Hi. destruct (Z.lt_ge_cases i 7) as [Hlt | Hge].
    + assert (Hc : i = 0 \/ i = 1 \/ i = 2 \/ i = 3 \/ i = 4 \/ i = 5 \/ i = 6)
        by lia.
      destruct Hc as [-> | [-> | [-> | [-> | [-> | [-> | ->]]]]]]; reflexivity.
    + unfold HopSet.live. rewrite (live_tail _ 7) by (try reflexivity; lia).
      symmetry. apply Z.ltb_ge. lia.
  - intros i Hi.
    assert (Hc : i = 0 \/ i = 1 \/ i = 2 \/ i = 3 \/ i = 4 \/ i = 5 \/ i = 6)
      by lia.
    destruct Hc as [-> | [-> | [-> | [-> | [-> | [-> | ->]]]]]]; reflexivity.
Qed.

Lemma crowded_filled : Examples.filled 7 Examples.set_crowded.
Proof.
  split; [reflexivity|]. split.
  - intros i Hi. destruct (Z.lt_ge_cases i 7) as [Hlt | Hge].
    + assert (Hc : i = 0 \/ i = 1 \/ i = 2 \/ i = 3 \/ i = 4 \/ i = 5 \/ i = 6)
        by lia.
      destruct Hc as [-> | [-> | [-> | [-> | [-> | [-> | ->]]]]]]; reflexivity.
    + destruct (Z.lt_ge_cases i 15) as [Hlt | Hge'].
      * assert (Hc : i = 7 \/ i = 8 \/ i = 9 \/ i = 10 \/ i = 11 \/ i = 12
                     \/ i = 13 \/ i = 14) by lia.
        destruct Hc as [-> | [-> | [-> | [-> | [-> | [-> | [-> | ->]]]]]]];
          reflexivity.
      * unfold HopSet.live. rewrite (live_tail _ 15) by (try reflexivity; lia).
        symmetry. apply Z.ltb_ge. lia.
  - intros i Hi.
    assert (Hc : i = 0 \/ i = 1 \/ i = 2 \/ i = 3 \/ i = 4 \/ i = 5 \/ i = 6)
      by lia.
    destruct Hc as [-> | [-> | [-> | [-> | [-> | [-> | ->]]]]]]; reflexivity.
Qed.

(** At capacity 0 the eighth key finds the seven slots taken and the table
    "grows" to capacity 0 again, whatever the number of nested calls. *)
Lemma wrapped_never (fuel : nat) : ins fuel (Examples.wrapped 7) k8 = None.
Proof.
  induction fuel as [|f IH]; [reflexivity|].
  cbn [HopSet.insert].
  transitivity
    (match HopSet.expand_with 0 Hop8 (ins f) (Examples.wrapped 7) with
     | None => None
     | Some s' => ins f s' k8
     end).
  { generalize (ins f). intros rec. vm_compute. reflexivity. }
  destruct f as [|g].
  - vm_compute. reflexivity.
  - rewrite (wrap_step g (Examples.wrapped 7) wrapped_filled)
      by (vm_compute; congruence).
    exact IH.
Qed.

(** With the neighbourhood of bucket 0 full, the eighth key is neither
    placed nor is room made for it by displacement: [insert] calls [expand]
    and then itself. *)
Lemma crowded_step (rec : HopSet.t Z -> Z -> option (HopSet.t Z * bool))
  (s : HopSet.t Z) :
  WF8 s -> Examples.filled 7 s ->
  exists s3,
    HopSet.insert_body Z.eqb Examples.hash_id 0 Examples.moved Hop8 rec s k8
    = match HopSet.expand_with 0 Hop8 rec s3 with
      | None => None
      | Some s' => rec s' k8
      end
    /\ WF8 s3 /\ Examples.filled 7 s3
    /\ HopSet.capacity_ s3 = HopSet.capacity_ s.
Proof.
  intros W F.
  pose proof (filled_absent 7 8 s W F ltac:(lia)) as Ha.
  destruct F as (Hd & Hl & Hk).
  pose proof (cap_bounds Z Examples.hash_id 0 Hop8 W) as Hc.
  pose proof (end_index_eq Z Examples.hash_id 0 Hop8 W) as He.
  pose proof (hops_len Z Examples.hash_id 0 Hop8 W) as HL.
  change (hop_bucket Hop8) with 7 in He, HL.
  assert (Hb : HopSet.get_bucket_index Examples.hash_id s k8 = 0).
  { unfold HopSet.get_bucket_index. apply bucket_hi. pows. lia. }
  pows.
  unfold HopSet.insert_body.
  change (negb (HopSet.find_internal Z.eqb 0 Hop8 s
                  (HopSet.get_bucket_index Examples.hash_id s k8) k8
                =? HopSet.end_index Hop8 s))
    with (HopSet.has Z.eqb Examples.hash_id 0 Hop8 s k8).
  rewrite Ha, Hb, He.
  change (u32 (0 + probe_max Hop8)) with 128.
  set (pe := if 128 >? HopSet.capacity_ s + 7
             then HopSet.capacity_ s + 7 else 128).
  assert (Hpe : 7 < pe /\ pe < 2 ^ 32 /\ pe <= HopSet.capacity_ s + 7).
  { unfold pe. destruct (Z.gtb_spec 128 (HopSet.capacity_ s + 7)); lia. }
  assert (Hl7 : Z.testbit (get 0 (HopSet.hops_ s) 7) 0 = false)
    by (apply (Hl 7); lia).
  pose proof (probe_loop_le (Z.to_nat (pe - 0)) (HopSet.hops_ s) pe 0 7
                ltac:(lia) ltac:(lia) ltac:(lia) ltac:(lia) ltac:(lia) Hl7)
    as Hle.
  pose proof (probe_loop_spec (Z.to_nat (pe - 0)) (HopSet.hops_ s) pe 0
                ltac:(lia) ltac:(lia) ltac:(lia)) as [Hge Hfree].
  set (idx := HopscotchBase.probe_loop _ _ _ _) in *.
  assert (Hidx : idx = 7).
  { specialize (Hfree ltac:(lia)). fold (HopSet.live s idx) in Hfree.
    rewrite Hl in Hfree by lia. apply Z.ltb_ge in Hfree. lia. }
  clearbody idx. subst idx.
  destruct (Z.eqb_spec 7 pe) as [Heq | _]; [lia|].
  destruct (reserve_ok Z Examples.hash_id 0 Hop8 s 7 W ltac:(change (hop_bucket Hop8) with 7; lia) Hl7)
    as [W1 _].
  set (s1 := HopSet.set_hops s _) in *.
  assert (Hdis : HopSet.displace 0 Examples.moved Hop8 (Z.to_nat 7) s1 0 7
                 = (s1, 7, false)).
  { change (Z.to_nat 7) with 7%nat. apply displace_stuck; [reflexivity|].
    destruct (HopscotchBase.find_displaceable Hop8 (HopSet.hops_ s1) 7)
      as [cursor offset] eqn:Ef.
    destruct (find_displaceable_spec Hop8 (HopSet.hops_ s1) 7
                ltac:(change (hop_bucket Hop8) with 7; lia) cursor offset Ef)
      as [Ho Hc'].
    change (hop_bucket Hop8) with 7 in Ho, Hc'. cbn [snd].
    destruct (Z.geb_spec offset 7) as [_ | Hlt]; [reflexivity|].
    exfalso. destruct (Hc' ltac:(lia)) as [Hcur Hbit].
    destruct (WF_owner Z Examples.hash_id 0 Hop8 W1 cursor
                (offset - cursor + 1)
                ltac:(change (hop_bucket Hop8) with 7;
                      change (HopSet.capacity_ s1) with (HopSet.capacity_ s);
                      lia)
                ltac:(change (hop_bucket Hop8) with 7; lia) Hbit)
      as (_ & _ & Hhome & _).
    replace (cursor + (offset - cursor + 1) - 1) with offset in Hhome by lia.
    change (HopSet.key_at 0 s1 offset) with (HopSet.key_at 0 s offset) in Hhome.
    rewrite Hk in Hhome by lia.
    unfold HopSet.get_bucket_index in Hhome.
    rewrite bucket_hi in Hhome by lia. lia. }
  rewrite Hdis.
  destruct (unreserve_ok Z Examples.hash_id 0 Hop8 s1 7 W1) as [W3 _].
  set (s3 := HopSet.set_hops s1 _) in *.
  exists s3. split; [reflexivity|]. split; [exact W3|].
  split; [|reflexivity].
  split; [exact Hd|]. split; [|exact Hk].
  intros i Hi. unfold HopSet.live, s3, s1, HopSet.set_hops.
  cbn [HopSet.hops_].
  rewrite live_xor_one by (rewrite ?Zlen_upd; lia).
  rewrite live_or_one by lia.
  fold (HopSet.live s i). rewrite Hl by lia.
  destruct (Z.eqb_spec i 7), (Z.ltb_spec i 7); cbn; try reflexivity; lia.
Qed.

(** The eighth key of bucket 0 is never inserted: every nested call of
    [insert] finds the neighbourhood full again, at every capacity up to
    2^31 and at the wrapped capacity 0 after it. *)
Lemma crowded_never (fuel : nat) (s : HopSet.t Z) :
  WF8 s -> Examples.filled 7 s -> ins fuel s k8 = None.
Proof.
  revert s. induction fuel as [|f IH]; intros s W F; [reflexivity|].
  cbn [HopSet.insert].
  destruct (crowded_step (ins f) s W F) as (s3 & E & W3 & F3 & Hc3).
  rewrite E.
  pose proof (cap_bounds Z Examples.hash_id 0 Hop8 W3) as Hc.
  destruct f as [|g].
  - rewrite expand_with_no_fuel; [reflexivity | |].
    + change (hop_bucket Hop8) with 7. rewrite u32_small by (pows; lia). lia.
    + destruct F3 as (_ & Hl & _). now rewrite Hl by lia.
  - destruct (Z.lt_ge_cases (HopSet.capacity_ s3) (2 ^ 31)) as [Hlt | Hge].
    + destruct (grow_step g s3 W3 F3 Hlt) as (s' & E' & W' & F').
      rewrite E'. apply IH; assumption.
    + assert (Hcap : HopSet.capacity_ s3 = 2 ^ 31) by lia.
      rewrite (wrap_step g s3 F3) by (rewrite Hcap; vm_compute; congruence).
      apply wrapped_never.
Qed.

Lemma crowded_WF : HopSet.WF Examples.hash_id 0 Hop8 None Examples.set_crowded.
Proof. apply (wf_WF Z Z.eqb). vm_compute. reflexivity. Qed.

Lemma crowded_copy (td : bool) :
  HopSet.copy 0 Hop8 td Examples.set_crowded = Examples.set_crowded.
Proof. destruct td; vm_compute; reflexivity. Qed.

(** C2 as stated fails: an insert need not return.  In [Set<uint64_t, 8>]
    with a hash functor that returns its argument, the seven keys
    [1 * 2^32 .. 7 * 2^32] fill the neighbourhood of bucket 0; the insert
    of [8 * 2^32] finds no free slot there and nothing to displace, grows
    the table, and finds the same neighbourhood full at every capacity:
    it gives no result, whatever the number of nested calls allowed. *)
Lemma crowded_insert_never_returns :
  ~ exists fuel s' b,
      HopSet.insert Z.eqb Examples.hash_id 0 Examples.moved Hop8 fuel
                    Examples.set_crowded (Examples.key_hi 8) = Some (s', b).
Proof.
  intros (fuel & s' & b & E).
  rewrite (crowded_never fuel _ crowded_WF crowded_filled) in E.
  discriminate.
Qed.

(** C1 as stated fails: not every sequence of inserts returns.  The eight
    inserts of [1 * 2^32 .. 8 * 2^32] into the empty
    [Set<uint64_t, 8> s(8)] give no result, whatever the number of nested
    calls allowed: after the eighth, no [find] is reached. *)
Lemma eight_inserts_never_return :
  ~ exists fuel s',
      HopSet.run Z.eqb Examples.hash_id 0 Examples.moved Hop8 fuel
                 Examples.set0 Examples.ops_hi = Some s'.
Proof.
  intros (fuel & s' & E). revert E.
  enough (H : HopSet.run Z.eqb Examples.hash_id 0 Examples.moved Hop8 fuel
                Examples.set0 Examples.ops_hi = None)
    by (rewrite H; discriminate).
  destruct fuel as [|g]; [reflexivity|].
  unfold Examples.ops_hi. rewrite map_app, run_app.
  assert (E : HopSet.run Z.eqb Examples.hash_id 0 Examples.moved Hop8 (S g)
                Examples.set0 (map (@HopSet.Insert Z) Examples.keys_hi)
              = Some Examples.set_crowded) by (vm_compute; reflexivity).
  rewrite E. cbn [map HopSet.run].
  rewrite crowded_never; [reflexivity | exact crowded_WF | exact crowded_filled].
Qed.

(** C3 as stated fails: [A | B] and [A ^ B] need not return.  With [A] the
    set of the seven keys [1 * 2^32 .. 7 * 2^32] and [B] the set holding
    [8 * 2^32], both operators insert the eighth key into a copy of [A]
    and give no result, whatever the number of nested calls allowed. *)
Lemma crowded_union_never_returns :
  ~ exists td fuel U,
      HopSet.op_or Z.eqb Examples.hash_id 0 Examples.moved Hop8 td fuel
                   Examples.set_crowded Examples.set_hi8 = Some U
      \/ HopSet.op_xor Z.eqb Examples.hash_id 0 Examples.moved Hop8 td fuel
                       Examples.set_crowded Examples.set_hi8 = Some U.
Proof.
  intros (td & fuel & U & E). revert E.
  enough (H : HopSet.op_or Z.eqb Examples.hash_id 0 Examples.moved Hop8 td fuel
                Examples.set_crowded Examples.set_hi8 = None
              /\ HopSet.op_xor Z.eqb Examples.hash_id 0 Examples.moved Hop8 td
                    fuel Examples.set_crowded Examples.set_hi8 = None)
    by (destruct H as [H1 H2]; rewrite H1, H2; intros [E | E]; discriminate).
  assert (Ee : HopSet.elements 0 Hop8 Examples.set_hi8 = [Examples.key_hi 8])
    by (vm_compute; reflexivity).
  split.
  - unfold HopSet.op_or.
    change (HopSet.size Examples.set_hi8 >? HopSet.size Examples.set_crowded)
      with false. cbv iota.
    rewrite crowded_copy. unfold HopSet.or_assign.
    rewrite range_for_opt_fold, Ee. cbn [HopSet.fold_opt].
    rewrite crowded_never; [reflexivity | exact crowded_WF | exact crowded_filled].
  - unfold HopSet.op_xor. rewrite crowded_copy. unfold HopSet.xor_assign.
    rewrite range_for_opt_fold, Ee. cbn [HopSet.fold_opt].
    change (HopSet.has Z.eqb Examples.hash_id 0 Hop8 Examples.set_crowded
              (Examples.key_hi 8)) with false. cbv iota.
    rewrite crowded_never; [reflexivity | exact crowded_WF | exact crowded_filled].
Qed.
